(* ===== verification/_CoqProject ===== *)
-Q . S2P
Prelude.v
Types.v
Bytes.v
Ring.v
RingSpec.v
RingSafety.v
RingConcurrent.v
Channel.v
Session.v
Provider.v
RingSetup.v
Floss.v
Pipewire.v
Pumps.v
Frame.v
Float.v
Actors.v
SmokeIo.v
HfpSmoke.v
A2dpSmoke.v
LeSmoke.v
DorschePipewire.v
