(* ===== verification/Prelude.v ===== *)
(** * Dorsche: a verification library

    Dorsche is a user-space layer for wireless audio: a zero-copy media ring in
    shared memory, a session actor with a legal state order, capability
    negotiation between codec providers, a D-Bus client that starts LE Audio
    streams in the Floss Bluetooth daemon, a PipeWire adapter, a demo of audio
    actors around a C++ core, and command line programs that exercise all of
    this.  This library models that Rust code and proves what makes it correct.
    File names below are those of the repository under src/.

    ** How the parts interact

    A policy creates a session ([wireless/session.rs]) for a session type and a
    provider picked by the registry ([wireless/provider.rs]); configurations are
    checked by the rules of [wireless/types.rs].  Media does not go through the
    session: it flows through a ring ([wireless/data_plane.rs]) whose two
    endpoints may be in two processes, on one side the PipeWire callbacks
    ([wireless/pipewire.rs]), on the other the data socket of Floss
    ([wireless/floss.rs]).  The programs of [bin/] put these together.  The demo
    ([main.rs], [topshim/]) is a second, independent data path: frames captured
    by the C++ core become read-only mappings that the microphone, detector and
    playback actors share.

    ** Conventions

    An integer of width [w] is a [Z]; ranges are boolean predicates
    ([in_width]), wrapping, checked and truncating operations are written out,
    and a plain [+] or [*] that overflows is a panic of the model (it wraps in a
    build without overflow checks, so absence of panics covers both).  A piece of
    Rust code returns a [result]: a value, an error (the chain of [anyhow]
    contexts), a panic, or undefined behaviour.  Stateful code is in the state
    monad [M], which keeps the state on every outcome; [wp] is its
    weakest-precondition rule set, and a [wp] statement also says that the code
    neither panics nor has undefined behaviour; [wpp] adds a postcondition for
    panics, for code that has one it cannot rule out (such as a counter that
    overflows).  Code outside of the repository
    (kernel, eventfd, tokio channels and clock, D-Bus services, PipeWire, file
    system, [sin] and [powf], [str::parse]) is a type class or a section
    variable; what the code relies on is a class of laws next to it, and every
    such class has an instance on which the definitions run.  Loops that wait
    with a deadline have fuel; the fuel is the number of 20 ms sleeps that fit
    the deadline plus one, and the theorems show that it does not run out.
    Endless loops run for the length of a list of rounds, which is arbitrary in
    the theorems.

    ** Files

    - [Prelude]: integers, outcomes, the monad, [wp], tactics ([inv_ok], [b2p]).
    - [Types] ([wireless/types.rs]): all configuration types and their
      validation.  Theorems: [validate_for] and [BroadcastConfiguration::validate]
      accept exactly the well-formed configurations (BIS indices distinct and in
      1..=31), [bytes_per_interval] is exact and cannot overflow.
    - [Bytes]: memory as a list of bytes, slices, little-endian loads and stores.
    - [Ring], [RingSpec], [RingSafety], [RingConcurrent], [RingSetup]
      ([wireless/data_plane.rs]).  [Ring] has every operation on the bytes of the
      mapping.  [RingSpec]: the ring refines a bounded FIFO queue of frames;
      cursors and slots across the 64-bit wrap-around; publication despite an
      eventfd error.  [RingSafety]: memory safety on a ring received from another
      process with arbitrary contents; an accepted header is safe exactly when its
      payload capacity fits its stride.
      [RingConcurrent]: the atomic steps of producer and consumer as a step
      relation in which cursor loads may be stale; under every interleaving the
      held lease is the published frame, the two leased slots are disjoint and
      nothing goes wrong.  [RingSetup]: creation and transfer of endpoints over
      an abstract kernel; no path leaks a descriptor or a mapping.
    - [Channel], [Session] ([wireless/session.rs]): the interface of a bounded
      channel, the command handler, and the task, its consumer and its clients as
      a step relation.  Theorems: refinement to sequential service, the state
      invariant, the events are a legal run, exactly one reply, progress, and
      what a successful [configure] call means.
    - [Provider] ([wireless/provider.rs]): the registry; selection has no hidden
      fallback, and which requests the software LC3 provider accepts and which of
      their codecs validate.
    - [Floss] ([wireless/floss.rs]): the client with a log of its calls; a start
      either succeeds, with every direction granted and then confirmed, or is
      rolled back (with the exception found),
      [stop] stops every direction, parsing of PCM properties.
    - [Pipewire] ([wireless/pipewire.rs]): the two real-time callbacks on the
      ring, each specified case by case, formats and strides, the set-up of nodes.
    - [Pumps] (the pumps of [bin/dorsche_pipewire.rs] and the callbacks that face
      them): each pump and the PipeWire thread as step relations over the atomic
      steps of [RingConcurrent], also within [read_exact], [commit] and
      [write_all]; under every interleaving nothing is lost, repeated or
      reordered.
    - [Frame] ([topshim/frame.rs], the descriptor hand-over of
      [dorsche_core.cc]): ownership of descriptors and mappings of a C++ frame.
    - [Float]: binary32 and binary64 arithmetic and the casts to samples.
    - [Actors] ([topshim/actors.rs], [main.rs]): the proxy, microphone, detector
      and playback actors, and [main]; barge-in once per burst, and playback
      stops at a barge-in.
    - [SmokeIo]: what the programs of [bin/] share: the command line loop,
      deadlines, polling, the data socket, interleaved frames, chunks.
    - [HfpSmoke] ([bin/floss_hfp_smoke.rs]): codecs, capture with two deadlines,
      the delayed loopback, the tone, the session.  The loopback is the input
      delayed; the sender is there whenever it is used; an accepted call is
      stopped on every exit but the panic of a duration beyond 2^48 seconds.
    - [A2dpSmoke] ([bin/floss_audio_smoke.rs]): the writers and the session;
      audio is only started when the daemon is idle.
    - [LeSmoke] ([bin/floss_le_audio_smoke.rs]): sample encodings, tone, capture
      through the ring, and the session around [Floss].
    - [DorschePipewire] ([bin/dorsche_pipewire.rs]): the command line and the
      session around a pump; which exits stop the stream.

    ** Deviations found

    Each is a theorem of the file that models the code: a received header with
    a capacity larger than its slots passes validation; slots collide at the
    cursor wrap-around for counts that do not divide 2^64; a failing PCM query
    is not rolled back by [start_software_unicast]; the software provider accepts
    zero frames per SDU, which validation rejects; a sink frame whose wakeup fails
    shares its sequence number with the next one; an invalid buffer leaks the
    fence of a C++ frame; the shutdown race of the microphone actor; a duration
    the clock cannot represent, and reads that split a sample, in the HFP test; a
    duration whose microseconds overflow, and early returns that skip [stop], in
    the LE Audio test; early returns and a failed thread spawn that skip [stop] in
    the PipeWire bridge.

    ** Not modelled

    The vendored Bluetooth stack and the kernel patches under third_party/, the
    simulated hardware in [dorsche_core.cc] beyond what the Rust side relies on,
    build and deployment scripts, printing and logging, the weak-memory model of
    the processor beyond stale cursor loads (the ring's release and acquire pairs
    make slot contents visible), and the timing of tokio's interval timers. *)

From Stdlib Require Export ZArith Lia.
From stdpp Require Export base tactics numbers decidable strings pretty sets relations list.

#[global] Open Scope Z_scope.

(** ** Machine integers

    A Rust integer of width [w] is a [Z]; that it is in range is a boolean
    predicate on it, and the operations that wrap or check are written out. *)

Definition in_width (w x : Z) : bool := (0 <=? x) && (x <? 2 ^ w).

Definition wrapping_add (w x y : Z) : Z := (x + y) mod 2 ^ w.

Definition wrapping_sub (w x y : Z) : Z := (x - y) mod 2 ^ w.

Definition checked_add (w x y : Z) : option Z :=
  if in_width w (x + y) then Some (x + y) else None.

Definition checked_mul (w x y : Z) : option Z :=
  if in_width w (x * y) then Some (x * y) else None.

(** Truncating [as] cast to an unsigned width. *)
Definition as_unsigned (w x : Z) : Z := x mod 2 ^ w.

Abbreviation is_u8 := (in_width 8).
Abbreviation is_u16 := (in_width 16).
Abbreviation is_u32 := (in_width 32).
Abbreviation is_u64 := (in_width 64).
(** The target is a 64-bit Linux host: [usize] is 64 bits wide. *)
Abbreviation is_usize := (in_width 64).

(** [matches!(x, a | b | ...)] on integers. *)
Definition one_of (x : Z) (l : list Z) : bool := bool_decide (x ∈ l).

Definition is_i32 (x : Z) : bool := (- 2 ^ 31 <=? x) && (x <? 2 ^ 31).

(** ** Outcomes of Rust code

    [anyhow::Error] is a chain of messages, the outermost context first.  The
    outcome of running a piece of Rust code is a value or an [Err] of its
    [Result], a panic (an index out of bounds, an [expect] that fails), or
    undefined behaviour (an access outside of the memory a pointer may use).
    The last two are outcomes of the model so that their absence is a theorem. *)

Definition error := list string.

Inductive result (A : Type) : Type :=
| Ok (a : A)
| Err (e : error)
| Panic (why : string)
| Undef (why : string).
Arguments Ok {A} a.
Arguments Err {A} e.
Arguments Panic {A} why.
Arguments Undef {A} why.

#[global] Instance result_eq_dec `{EqDecision A} : EqDecision (result A).
Proof. solve_decision. Defined.

Definition rbind {A B} (c : result A) (k : A → result B) : result B :=
  match c with
  | Ok a => k a
  | Err e => Err e
  | Panic w => Panic w
  | Undef w => Undef w
  end.

(** [anyhow::ensure!] *)
Definition ensure (b : bool) (msg : string) : result unit :=
  if b then Ok tt else Err [msg].

(** [Option::ok_or_else] and [anyhow::Context::context]. *)
Definition ok_or {A} (o : option A) (msg : string) : result A :=
  match o with Some a => Ok a | None => Err [msg] end.

Definition context {A} (r : result A) (msg : string) : result A :=
  match r with Err e => Err (msg :: e) | _ => r end.

Definition is_ok {A} (r : result A) : bool :=
  match r with Ok _ => true | _ => false end.

Definition is_err {A} (r : result A) : bool :=
  match r with Err _ => true | _ => false end.

(** Neither a panic nor undefined behaviour. *)
Definition defined {A} (r : result A) : bool :=
  match r with Ok _ | Err _ => true | _ => false end.

(** Indexing a slice or an array: out of range is a panic. *)
Definition index {A} (l : list A) (i : Z) : result A :=
  match (if 0 <=? i then l !! Z.to_nat i else None) with
  | Some a => Ok a
  | None => Panic "index out of bounds"
  end.

(** Plain [+] and [*] on an unsigned width: overflow is a panic (and wraps in
    a build without overflow checks), so a theorem that the outcome is never a
    panic says that no overflow happens in either build. *)
Definition add_u (w x y : Z) : result Z :=
  if in_width w (x + y) then Ok (x + y) else Panic "attempt to add with overflow".

Definition mul_u (w x y : Z) : result Z :=
  if in_width w (x * y) then Ok (x * y) else Panic "attempt to multiply with overflow".

(** Iterate a fallible check over a list, stopping at the first error. *)
Fixpoint for_each {A} (f : A → result unit) (l : list A) : result unit :=
  match l with
  | [] => Ok tt
  | x :: l => rbind (f x) (λ _, for_each f l)
  end.

Declare Scope result_scope.
Delimit Scope result_scope with result.
Notation "'let?' x ':=' c 'in' k" := (rbind c (fun x => k))
  (at level 10, x name, c at level 100, k at level 200,
   format "'let?'  x  ':='  c  'in' '//' k") : result_scope.
Notation "c '?;' k" := (rbind c (fun _ => k))
  (at level 199, right associativity, format "c '?;' '//' k") : result_scope.
#[global] Open Scope result_scope.

(** ** Automation *)

Create HintDb dorsche.
Create Rewrite HintDb dorsche_rw.

Section results.
Context {A B : Type}.
Implicit Types (c : result A) (k : A → result B).

Lemma rbind_Ok c k b :
  rbind c k = Ok b ↔ ∃ a, c = Ok a ∧ k a = Ok b.
Proof. destruct c; cbn; naive_solver. Qed.

Lemma rbind_Err c k e :
  rbind c k = Err e ↔ c = Err e ∨ ∃ a, c = Ok a ∧ k a = Err e.
Proof. destruct c; cbn; naive_solver. Qed.

Lemma rbind_defined c k :
  defined (rbind c k) = true ↔
  defined c = true ∧ ∀ a, c = Ok a → defined (k a) = true.
Proof. destruct c; cbn; naive_solver. Qed.

Lemma ok_or_Ok (o : option A) msg a : ok_or o msg = Ok a ↔ o = Some a.
Proof. destruct o; cbn; naive_solver. Qed.

End results.

Lemma for_each_Ok {A} (f : A → result unit) l u :
  for_each f l = Ok u ↔ Forall (λ x, f x = Ok tt) l.
Proof.
  destruct u. induction l as [|x l IH]; cbn; [naive_solver|].
  rewrite Forall_cons, rbind_Ok.
  split; [intros ([] & ? & ?) | intros [? ?]; exists tt]; naive_solver.
Qed.


Lemma Ok_inj {A} (a b : A) : Ok a = Ok b → a = b.
Proof. by injection 1. Qed.

Lemma ensure_Ok b msg u : ensure b msg = Ok u ↔ b = true.
Proof. destruct b, u; unfold ensure; naive_solver. Qed.

Lemma ensure_Err b msg e : ensure b msg = Err e ↔ b = false ∧ e = [msg].
Proof. destruct b; unfold ensure; naive_solver. Qed.

Lemma in_width_spec w x : in_width w x = true ↔ 0 <= x < 2 ^ w.
Proof. unfold in_width. rewrite andb_true_iff. lia. Qed.

Lemma mul_u_in_range w x y :
  0 <= x * y < 2 ^ w → mul_u w x y = Ok (x * y).
Proof. intros ?. unfold mul_u. by rewrite (proj2 (in_width_spec _ _)). Qed.

Lemma add_u_in_range w x y :
  0 <= x + y < 2 ^ w → add_u w x y = Ok (x + y).
Proof. intros ?. unfold add_u. by rewrite (proj2 (in_width_spec _ _)). Qed.

Lemma one_of_spec x l : one_of x l = true ↔ x ∈ l.
Proof. apply bool_decide_eq_true. Qed.

(** Split every [... = Ok _] hypothesis of a chain of checks into the
    conditions it went through, and turn boolean tests into propositions. *)
Ltac inv_ok :=
  repeat match goal with
  | H : rbind _ _ = Ok _ |- _ =>
      apply rbind_Ok in H; destruct H as (? & ? & H)
  | H : ensure _ _ = Ok _ |- _ => apply ensure_Ok in H
  | H : ok_or _ _ = Ok _ |- _ => apply ok_or_Ok in H
  | H : for_each _ _ = Ok _ |- _ => apply for_each_Ok in H
  | H : Ok _ = Ok _ |- _ => apply Ok_inj in H; try subst
  | H : Err _ = Ok _ |- _ => discriminate H
  | H : Ok _ = Err _ |- _ => discriminate H
  end.

Ltac b2p :=
  repeat match goal with
  | H : andb _ _ = true |- _ => apply andb_true_iff in H; destruct H
  | H : orb _ _ = true |- _ => apply orb_true_iff in H
  | H : negb _ = true |- _ => apply negb_true_iff in H
  | H : negb _ = false |- _ => apply negb_false_iff in H
  | H : (_ =? _)%Z = true |- _ => apply Z.eqb_eq in H
  | H : (_ =? _)%Z = false |- _ => apply Z.eqb_neq in H
  | H : (_ <=? _)%Z = true |- _ => apply Z.leb_le in H
  | H : (_ <=? _)%Z = false |- _ => apply Z.leb_gt in H
  | H : (_ <? _)%Z = true |- _ => apply Z.ltb_lt in H
  | H : (_ <? _)%Z = false |- _ => apply Z.ltb_ge in H
  | H : in_width _ _ = true |- _ => apply in_width_spec in H
  | H : bool_decide _ = true |- _ => apply bool_decide_eq_true in H
  | H : bool_decide _ = false |- _ => apply bool_decide_eq_false in H
  end.

(** ** Stateful code

    A piece of Rust code that reads and writes a state of type [S] (shared
    memory, the kernel, the D-Bus peer) and then has an outcome.  The state it
    leaves behind is kept on every outcome: what was written before an error is
    still there. *)

Definition M (S A : Type) : Type := S → result A * S.

Definition mret {S A} (a : A) : M S A := λ s, (Ok a, s).

Definition mbind {S A B} (c : M S A) (k : A → M S B) : M S B := λ s,
  match c s with
  | (Ok a, s) => k a s
  | (Err e, s) => (Err e, s)
  | (Panic w, s) => (Panic w, s)
  | (Undef w, s) => (Undef w, s)
  end.

Definition lift {S A} (r : result A) : M S A := λ s, (r, s).
Definition mget {S} : M S S := λ s, (Ok s, s).
Definition mgets {S A} (f : S → A) : M S A := λ s, (Ok (f s), s).
Definition mmodify {S} (f : S → S) : M S unit := λ s, (Ok tt, f s).

(** [match c { Ok(a) => k (Ok a), Err(e) => k (Err e) }]: run [c] and hand its
    [Result] to the continuation; panics and undefined behaviour propagate. *)
Definition mtry {S A} (c : M S A) : M S (result A) := λ s,
  match c s with
  | (Ok a, s) => (Ok (Ok a), s)
  | (Err e, s) => (Ok (Err e), s)
  | (Panic w, s) => (Panic w, s)
  | (Undef w, s) => (Undef w, s)
  end.

Definition mcontext {S A} (c : M S A) (msg : string) : M S A := λ s,
  let '(r, s) := c s in (context r msg, s).

Declare Scope effect_scope.
Delimit Scope effect_scope with effect.
Notation "'let!' x ':=' c 'in' k" := (mbind c (fun x => k))
  (at level 10, x name, c at level 100, k at level 200,
   format "'let!'  x  ':='  c  'in' '//' k") : effect_scope.
Notation "c '!;' k" := (mbind c (fun _ => k))
  (at level 199, right associativity, format "c '!;' '//' k") : effect_scope.
#[global] Open Scope effect_scope.

Lemma mbind_step {S A B} (c : M S A) (k : A → M S B) s a s' :
  c s = (Ok a, s') → mbind c k s = k a s'.
Proof. unfold mbind. by intros ->. Qed.

Lemma mbind_fail {S A B} (c : M S A) (k : A → M S B) s e s' :
  c s = (Err e, s') → mbind c k s = (Err e, s').
Proof. unfold mbind. by intros ->. Qed.

(** ** Reasoning about stateful code

    [wp c s Q E]: run from [s], [c] returns a value and a state that satisfy [Q],
    or an error and a state that satisfy [E]; it neither panics nor has
    undefined behaviour. *)
Definition wp {S A} (c : M S A) (s : S) (Q : A → S → Prop) (E : error → S → Prop) : Prop :=
  match c s with
  | (Ok a, s') => Q a s'
  | (Err e, s') => E e s'
  | _ => False
  end.

Arguments wp : simpl never.

Section wp.
Context {S A B : Type}.
Implicit Types (s : S) (E : error → S → Prop).

Lemma wp_bind (c : M S A) (k : A → M S B) s Q E :
  wp c s (λ a s', wp (k a) s' Q E) E → wp (mbind c k) s Q E.
Proof. unfold wp, mbind. by destruct (c s) as [[] ?]. Qed.

Lemma wp_mono (c : M S A) s (Q Q' : A → S → Prop) E E' :
  wp c s Q E → (∀ a s', Q a s' → Q' a s') → (∀ e s', E e s' → E' e s') → wp c s Q' E'.
Proof. unfold wp. intros H HQ HE. destruct (c s) as [[] ?]; auto. Qed.

Lemma wp_ret (a : A) s (Q : A → S → Prop) E : Q a s → wp (mret a) s Q E.
Proof. done. Qed.

Lemma wp_modify (f : S → S) s (Q : unit → S → Prop) E : Q tt (f s) → wp (mmodify f) s Q E.
Proof. done. Qed.

Lemma wp_lift (r : result A) s (Q : A → S → Prop) E :
  defined r = true → (∀ a, r = Ok a → Q a s) → (∀ e, r = Err e → E e s) → wp (lift r) s Q E.
Proof. unfold wp, lift. destruct r; naive_solver. Qed.

Lemma wp_ensure (b : bool) msg s (Q : unit → S → Prop) E :
  (b = true → Q tt s) → (b = false → E [msg] s) → wp (lift (ensure b msg)) s Q E.
Proof. unfold wp, lift, ensure. destruct b; auto. Qed.

(** [match c { Ok(a) => .., Err(e) => .. }] *)
Lemma wp_try (c : M S A) s (Q : result A → S → Prop) E :
  wp c s (λ a, Q (Ok a)) (λ e, Q (Err e)) → wp (mtry c) s Q E.
Proof. unfold wp, mtry. by destruct (c s) as [[] ?]. Qed.

Lemma wp_context (c : M S A) msg s (Q : A → S → Prop) E :
  wp c s Q (λ e, E (msg :: e)) → wp (mcontext c msg) s Q E.
Proof. unfold wp, mcontext. by destruct (c s) as [[] ?]. Qed.
End wp.

(** [wpp c s Q E P]: the same for code that may also panic, with the message and
    the state it leaves in [P]. *)
Definition wpp {S A} (c : M S A) (s : S) (Q : A → S → Prop) (E : error → S → Prop)
    (P : string → S → Prop) : Prop :=
  match c s with
  | (Ok a, s') => Q a s'
  | (Err e, s') => E e s'
  | (Panic w, s') => P w s'
  | (Undef _, _) => False
  end.

Arguments wpp : simpl never.

Section wpp.
Context {S A B : Type}.
Implicit Types (s : S) (E : error → S → Prop) (P : string → S → Prop).

Lemma wp_wpp (c : M S A) s Q E P : wp c s Q E → wpp c s Q E P.
Proof. unfold wp, wpp. by destruct (c s) as [[] ?]. Qed.

Lemma wpp_wp (c : M S A) s Q E P : wpp c s Q E P → (∀ w s', ¬ P w s') → wp c s Q E.
Proof. unfold wp, wpp. destruct (c s) as [[] ?]; naive_solver. Qed.

Lemma wpp_bind (c : M S A) (k : A → M S B) s Q E P :
  wpp c s (λ a s', wpp (k a) s' Q E P) E P → wpp (mbind c k) s Q E P.
Proof. unfold wpp, mbind. by destruct (c s) as [[] ?]. Qed.

(** The first part does not panic. *)
Lemma wpp_bind_wp (c : M S A) (k : A → M S B) s Q E P :
  wp c s (λ a s', wpp (k a) s' Q E P) E → wpp (mbind c k) s Q E P.
Proof. intros H. by apply wpp_bind, wp_wpp. Qed.

Lemma wpp_mono (c : M S A) s (Q Q' : A → S → Prop) E E' P P' :
  wpp c s Q E P → (∀ a s', Q a s' → Q' a s') → (∀ e s', E e s' → E' e s') →
  (∀ w s', P w s' → P' w s') → wpp c s Q' E' P'.
Proof. unfold wpp. intros H HQ HE HP. destruct (c s) as [[] ?]; auto. Qed.

Lemma wpp_ret (a : A) s (Q : A → S → Prop) E P : Q a s → wpp (mret a) s Q E P.
Proof. done. Qed.

Lemma wpp_try (c : M S A) s (Q : result A → S → Prop) E P :
  wpp c s (λ a, Q (Ok a)) (λ e, Q (Err e)) P → wpp (mtry c) s Q E P.
Proof. unfold wpp, mtry. by destruct (c s) as [[] ?]. Qed.
End wpp.
