(* ===== verification/Types.v ===== *)
(** * Wireless audio data model ([src/wireless/types.rs])

    The versioned session ABI: session types, PCM and LC3 configurations, ISO
    QoS, ASE and broadcast configurations, presentation positions and the frame
    descriptor of the shared-memory ring, each with the validation the code
    performs.  The theorems characterise what every validation accepts and show
    that none of its machine arithmetic overflows or indexes out of bounds. *)

From S2P Require Import Prelude.

Definition WIRELESS_AUDIO_ABI_VERSION : Z := 1.

(** ** Enumerations, with their [repr(u8)] discriminants *)

Inductive SessionType :=
| LeUnicastSoftwareEncoding
| LeUnicastSoftwareDecoding
| LeUnicastHardwareEncoding
| LeUnicastHardwareDecoding
| LeBroadcastSoftwareEncoding
| LeBroadcastHardwareEncoding.

Definition is_offloaded (t : SessionType) : bool :=
  match t with
  | LeUnicastHardwareEncoding
  | LeUnicastHardwareDecoding
  | LeBroadcastHardwareEncoding => true
  | _ => false
  end.

Definition carries_host_payload (t : SessionType) : bool := negb (is_offloaded t).

Inductive StreamDirection := Sink | Source.

Inductive AudioContext :=
| Unspecified
| Conversational
| Media
| Game
| Live
| SoundEffects
| Notifications
| EmergencyAlarm.

Inductive Framing := Unframed | Framed.

Inductive Phy := Le1M | Le2M | LeCoded.

Inductive Packing := Sequential | Interleaved.

Inductive PayloadKind := Pcm_kind | Lc3Sdu_kind.

(** [PayloadKind as u8] *)
Definition payload_kind_u8 (k : PayloadKind) : Z :=
  match k with Pcm_kind => 1 | Lc3Sdu_kind => 2 end.

Inductive IsoStatus := Valid | PossiblyInvalid | Lost | Late.

(** [IsoStatus as u8] *)
Definition iso_status_u8 (s : IsoStatus) : Z :=
  match s with Valid => 0 | PossiblyInvalid => 1 | Lost => 2 | Late => 3 end.

#[global] Instance SessionType_eq_dec : EqDecision SessionType.
Proof. solve_decision. Defined.
#[global] Instance StreamDirection_eq_dec : EqDecision StreamDirection.
Proof. solve_decision. Defined.
#[global] Instance AudioContext_eq_dec : EqDecision AudioContext.
Proof. solve_decision. Defined.
#[global] Instance Framing_eq_dec : EqDecision Framing.
Proof. solve_decision. Defined.
#[global] Instance Phy_eq_dec : EqDecision Phy.
Proof. solve_decision. Defined.
#[global] Instance Packing_eq_dec : EqDecision Packing.
Proof. solve_decision. Defined.

(** ** PCM *)

Record PcmConfiguration := {
  pcm_sample_rate_hz : Z;
  pcm_bits_per_sample : Z;
  pcm_channels : Z;
  pcm_data_interval_us : Z;
}.

#[global] Instance PcmConfiguration_eq_dec : EqDecision PcmConfiguration.
Proof. solve_decision. Defined.

(** The fields are in the range of their Rust types [u32], [u8], [u8], [u32]. *)
Definition pcm_typed (p : PcmConfiguration) : bool :=
  is_u32 (pcm_sample_rate_hz p) && is_u8 (pcm_bits_per_sample p) &&
  is_u8 (pcm_channels p) && is_u32 (pcm_data_interval_us p).

Definition supported_rates : list Z :=
  [8_000; 16_000; 24_000; 32_000; 44_100; 48_000].

Definition pcm_validate (p : PcmConfiguration) : result unit :=
  ensure (one_of (pcm_sample_rate_hz p) supported_rates)
    ("unsupported PCM sample rate " +:+ pretty (pcm_sample_rate_hz p)) ?;
  ensure (one_of (pcm_bits_per_sample p) [16; 24; 32])
    "PCM width must be 16, 24, or 32 bits" ?;
  ensure ((1 <=? pcm_channels p) && (pcm_channels p <=? 8))
    "PCM channel count must be 1..=8" ?;
  ensure (0 <? pcm_data_interval_us p)
    "PCM data interval must be non-zero" ?;
  Ok tt.

Definition bytes_per_interval (p : PcmConfiguration) : result Z :=
  pcm_validate p ?;
  let? frames := ok_or (checked_mul 64 (pcm_sample_rate_hz p) (pcm_data_interval_us p))
                   "PCM interval overflow" in
  ensure (frames mod 1_000_000 =? 0)
    "PCM interval is not an integral number of frames" ?;
  let? per_channel := mul_u 64 (frames / 1_000_000) (pcm_channels p) in
  let? bytes := mul_u 64 per_channel (pcm_bits_per_sample p / 8) in
  (* usize::try_from(bytes) *)
  if is_usize bytes then Ok bytes
  else Err ["out of range integral type conversion attempted"].

(** ** LC3 *)

Record Lc3Configuration := {
  lc3_sampling_frequency_hz : Z;
  lc3_frame_duration_us : Z;
  lc3_octets_per_codec_frame : Z;
  lc3_codec_frames_per_sdu : Z;
  lc3_audio_channel_allocation : Z;
}.

#[global] Instance Lc3Configuration_eq_dec : EqDecision Lc3Configuration.
Proof. solve_decision. Defined.

Definition lc3_typed (c : Lc3Configuration) : bool :=
  is_u32 (lc3_sampling_frequency_hz c) && is_u16 (lc3_frame_duration_us c) &&
  is_u16 (lc3_octets_per_codec_frame c) && is_u8 (lc3_codec_frames_per_sdu c) &&
  is_u32 (lc3_audio_channel_allocation c).

Definition lc3_validate (c : Lc3Configuration) : result unit :=
  ensure (one_of (lc3_sampling_frequency_hz c) supported_rates)
    "unsupported LC3 sampling frequency" ?;
  ensure (one_of (lc3_frame_duration_us c) [7_500; 10_000])
    "LC3 frame duration must be 7.5 or 10 ms" ?;
  ensure (0 <? lc3_octets_per_codec_frame c) "LC3 frame cannot be empty" ?;
  ensure (0 <? lc3_codec_frames_per_sdu c)
    "SDU must contain at least one codec frame" ?;
  Ok tt.

(** ** ISO QoS, data path and ASE *)

Record IsoQos := {
  qos_sdu_interval_us : Z;
  qos_framing : Framing;
  qos_phys : list Phy;
  qos_max_sdu : Z;
  qos_retransmission_number : Z;
  qos_max_transport_latency_ms : Z;
  qos_presentation_delay_min_us : Z;
  qos_presentation_delay_max_us : Z;
}.

#[global] Instance IsoQos_eq_dec : EqDecision IsoQos.
Proof. solve_decision. Defined.

Definition is_empty {A} (l : list A) : bool :=
  match l with [] => true | _ => false end.

Definition qos_validate (q : IsoQos) : result unit :=
  ensure (0 <? qos_sdu_interval_us q) "SDU interval must be non-zero" ?;
  ensure (negb (is_empty (qos_phys q))) "at least one LE PHY is required" ?;
  ensure (0 <? qos_max_sdu q) "Max SDU must be non-zero" ?;
  ensure (qos_presentation_delay_min_us q <=? qos_presentation_delay_max_us q)
    "invalid presentation delay range" ?;
  Ok tt.

Record DataPathConfiguration := {
  dp_data_path_id : Z;
  dp_transparent : bool;
  dp_controller_delay_us : Z;
  dp_codec_configuration : list Z;
  dp_vendor_configuration : list Z;
}.

#[global] Instance DataPathConfiguration_eq_dec : EqDecision DataPathConfiguration.
Proof. solve_decision. Defined.

Record AseConfiguration := {
  ase_id : Z;
  ase_direction : StreamDirection;
  ase_cis_handle : option Z;
  ase_lc3 : Lc3Configuration;
  ase_qos : IsoQos;
  ase_data_path : DataPathConfiguration;
}.

#[global] Instance AseConfiguration_eq_dec : EqDecision AseConfiguration.
Proof. solve_decision. Defined.

Definition ase_validate (a : AseConfiguration) : result unit :=
  ensure (negb (ase_id a =? 0)) "ASE id zero is reserved" ?;
  lc3_validate (ase_lc3 a) ?;
  qos_validate (ase_qos a) ?;
  let? sdu_octets := mul_u 32 (lc3_octets_per_codec_frame (ase_lc3 a))
                       (lc3_codec_frames_per_sdu (ase_lc3 a)) in
  ensure (sdu_octets <=? qos_max_sdu (ase_qos a)) "LC3 payload exceeds Max SDU" ?;
  (if dp_transparent (ase_data_path a) then
     ensure (is_empty (dp_codec_configuration (ase_data_path a)))
       "transparent ISO path cannot carry controller codec configuration"
   else Ok tt) ?;
  Ok tt.

Record LeAudioConfiguration := {
  le_group_id : Z;
  le_context : AudioContext;
  le_packing : Packing;
  le_pcm : PcmConfiguration;
  le_ases : list AseConfiguration;
}.

#[global] Instance LeAudioConfiguration_eq_dec : EqDecision LeAudioConfiguration.
Proof. solve_decision. Defined.

(** ** Broadcast *)

Record BisConfiguration := {
  bis_index : Z;
  bis_stream_handle : option Z;
  bis_lc3 : Lc3Configuration;
  bis_data_path : DataPathConfiguration;
}.

#[global] Instance BisConfiguration_eq_dec : EqDecision BisConfiguration.
Proof. solve_decision. Defined.

Record BroadcastSubgroup := {
  sg_codec : Lc3Configuration;
  sg_metadata : list Z;
  sg_bis : list BisConfiguration;
}.

#[global] Instance BroadcastSubgroup_eq_dec : EqDecision BroadcastSubgroup.
Proof. solve_decision. Defined.

Record BroadcastConfiguration := {
  bc_broadcast_id : Z;
  bc_encrypted : bool;
  bc_presentation_delay_us : Z;
  bc_pcm : PcmConfiguration;
  bc_subgroups : list BroadcastSubgroup;
}.

#[global] Instance BroadcastConfiguration_eq_dec : EqDecision BroadcastConfiguration.
Proof. solve_decision. Defined.

(** The inner loop over the BISes of a subgroup, threading [seen_bis]. *)
Fixpoint validate_bis_loop (codec : Lc3Configuration) (seen_bis : list bool)
    (l : list BisConfiguration) : result (list bool) :=
  match l with
  | [] => Ok seen_bis
  | bis :: l =>
      ensure ((1 <=? bis_index bis) && (bis_index bis <=? 31))
        "BIS index must be 1..=31" ?;
      let? seen := index seen_bis (bis_index bis) in
      ensure (negb seen) ("duplicate BIS index " +:+ pretty (bis_index bis)) ?;
      let seen_bis := <[Z.to_nat (bis_index bis) := true]> seen_bis in
      lc3_validate (bis_lc3 bis) ?;
      ensure (bool_decide (bis_lc3 bis = codec))
        "BIS codec must match its subgroup codec" ?;
      validate_bis_loop codec seen_bis l
  end.

(** The outer loop over the subgroups. *)
Fixpoint validate_subgroup_loop (seen_bis : list bool)
    (l : list BroadcastSubgroup) : result (list bool) :=
  match l with
  | [] => Ok seen_bis
  | subgroup :: l =>
      lc3_validate (sg_codec subgroup) ?;
      ensure (negb (is_empty (sg_bis subgroup)))
        "broadcast subgroup requires at least one BIS" ?;
      let? seen_bis := validate_bis_loop (sg_codec subgroup) seen_bis (sg_bis subgroup) in
      validate_subgroup_loop seen_bis l
  end.

Definition broadcast_validate (b : BroadcastConfiguration) : result unit :=
  ensure (bc_broadcast_id b <=? 0x00ffffff) "broadcast id is a 24-bit value" ?;
  ensure (0 <? bc_presentation_delay_us b)
    "broadcast presentation delay must be non-zero" ?;
  pcm_validate (bc_pcm b) ?;
  ensure (negb (is_empty (bc_subgroups b)))
    "broadcast requires at least one subgroup" ?;
  validate_subgroup_loop (replicate 32 false) (bc_subgroups b) ?;
  Ok tt.

(** ** Audio configuration of a session *)

Inductive AudioConfiguration :=
| Pcm (pcm : PcmConfiguration)
| LeAudio (le : LeAudioConfiguration)
| LeBroadcast (broadcast : BroadcastConfiguration).

#[global] Instance AudioConfiguration_eq_dec : EqDecision AudioConfiguration.
Proof. solve_decision. Defined.

(** [matches!(session_type, LeBroadcastSoftwareEncoding | LeBroadcastHardwareEncoding)] *)
Definition is_broadcast (t : SessionType) : bool :=
  match t with
  | LeBroadcastSoftwareEncoding | LeBroadcastHardwareEncoding => true
  | _ => false
  end.

Definition validate_for (c : AudioConfiguration) (session_type : SessionType) : result unit :=
  match c with
  | Pcm pcm =>
      pcm_validate pcm ?;
      if is_offloaded session_type then
        Err ["hardware-offload session requires a negotiated LE Audio configuration"]
      else Ok tt
  | LeAudio le =>
      ensure (negb (is_broadcast session_type))
        "unicast LE Audio configuration cannot configure a broadcast session" ?;
      ensure (0 <=? le_group_id le) "LE Audio group id must be non-negative" ?;
      pcm_validate (le_pcm le) ?;
      ensure (negb (is_empty (le_ases le)))
        "LE Audio session requires at least one ASE" ?;
      for_each ase_validate (le_ases le) ?;
      Ok tt
  | LeBroadcast broadcast =>
      ensure (is_broadcast session_type)
        "broadcast configuration requires a broadcast session" ?;
      broadcast_validate broadcast ?;
      Ok tt
  end.

(** ** Presentation position *)

Record PresentationPosition := {
  pp_remote_delay_ns : Z;
  pp_transmitted_octets : Z;
  pp_monotonic_time_ns : Z;
}.

#[global] Instance PresentationPosition_eq_dec : EqDecision PresentationPosition.
Proof. solve_decision. Defined.

(** [derive(Default)] *)
Definition position_default : PresentationPosition :=
  {| pp_remote_delay_ns := 0; pp_transmitted_octets := 0; pp_monotonic_time_ns := 0 |}.

(** ** Frame descriptor *)

Record FrameDescriptor := {
  fd_abi_version : Z;
  fd_header_bytes : Z;
  fd_payload_kind : Z;
  fd_iso_status : Z;
  fd_flags : Z;
  fd_payload_bytes : Z;
  fd_sequence : Z;
  fd_stream_handle : Z;
  fd_sample_rate_hz : Z;
  fd_channels : Z;
  fd_bits_per_sample : Z;
  fd_capture_time_ns : Z;
  fd_presentation_time_ns : Z;
  fd_deadline_ns : Z;
}.

#[global] Instance FrameDescriptor_eq_dec : EqDecision FrameDescriptor.
Proof. solve_decision. Defined.

(** [size_of::<FrameDescriptor>()], fixed by the constant assertion of the code. *)
Definition frame_descriptor_size : Z := 64.

Definition frame_descriptor_new (kind : PayloadKind) (sequence : Z) : FrameDescriptor := {|
  fd_abi_version := WIRELESS_AUDIO_ABI_VERSION;
  fd_header_bytes := as_unsigned 16 frame_descriptor_size;
  fd_payload_kind := payload_kind_u8 kind;
  fd_iso_status := iso_status_u8 Valid;
  fd_flags := 0;
  fd_payload_bytes := 0;
  fd_sequence := sequence;
  fd_stream_handle := 0;
  fd_sample_rate_hz := 0;
  fd_channels := 0;
  fd_bits_per_sample := 0;
  fd_capture_time_ns := 0;
  fd_presentation_time_ns := 0;
  fd_deadline_ns := 0;
|}.

(** The fields are in the range of their Rust types. *)
Definition descriptor_typed (d : FrameDescriptor) : bool :=
  is_u16 (fd_abi_version d) && is_u16 (fd_header_bytes d) &&
  is_u8 (fd_payload_kind d) && is_u8 (fd_iso_status d) && is_u16 (fd_flags d) &&
  is_u32 (fd_payload_bytes d) && is_u64 (fd_sequence d) &&
  is_u32 (fd_stream_handle d) && is_u32 (fd_sample_rate_hz d) &&
  is_u16 (fd_channels d) && is_u16 (fd_bits_per_sample d) &&
  is_u64 (fd_capture_time_ns d) && is_u64 (fd_presentation_time_ns d) &&
  is_u64 (fd_deadline_ns d).

(** * Theorems *)

(** ** PCM intervals *)

Lemma pcm_validate_defined p : defined (pcm_validate p) = true.
Proof. unfold pcm_validate, ensure. repeat case_match; done. Qed.

Lemma lc3_validate_defined c : defined (lc3_validate c) = true.
Proof. unfold lc3_validate, ensure. repeat case_match; done. Qed.

Lemma qos_validate_defined q : defined (qos_validate q) = true.
Proof. unfold qos_validate, ensure. repeat case_match; done. Qed.

Lemma pcm_validate_Ok p u :
  pcm_validate p = Ok u ↔
  pcm_sample_rate_hz p ∈ supported_rates ∧
  pcm_bits_per_sample p ∈ [16; 24; 32] ∧
  1 <= pcm_channels p <= 8 ∧ 0 < pcm_data_interval_us p.
Proof.
  destruct u. unfold pcm_validate. split.
  - intros H. inv_ok. b2p. rewrite <- !one_of_spec. auto.
  - intros (H1 & H2 & H3 & H4). apply one_of_spec in H1, H2. rewrite H1, H2. cbn.
    unfold ensure. repeat case_match; b2p; try done; exfalso; repeat case_match; b2p; lia.
Qed.

Lemma supported_rate_bound r : r ∈ supported_rates → 8_000 <= r <= 48_000.
Proof. unfold supported_rates. rewrite !elem_of_cons, elem_of_nil. lia. Qed.

(** The exact number of bytes of one interval of a valid configuration. *)
Definition interval_bytes (p : PcmConfiguration) : Z :=
  pcm_sample_rate_hz p * pcm_data_interval_us p / 1_000_000 *
  pcm_channels p * (pcm_bits_per_sample p / 8).

Lemma interval_frames_bound p :
  pcm_typed p = true → pcm_validate p = Ok tt →
  0 < pcm_sample_rate_hz p * pcm_data_interval_us p < 2 ^ 48.
Proof.
  intros Ht [Hr [_ [_ Hi]]]%pcm_validate_Ok.
  unfold pcm_typed in Ht. b2p. apply supported_rate_bound in Hr. nia.
Qed.

Lemma interval_bytes_exact p :
  pcm_typed p = true → pcm_validate p = Ok tt →
  (pcm_sample_rate_hz p * pcm_data_interval_us p) mod 1_000_000 = 0 →
  0 < interval_bytes p < 2 ^ 33 ∧
  8_000_000 * interval_bytes p =
    pcm_sample_rate_hz p * pcm_data_interval_us p * pcm_channels p * pcm_bits_per_sample p.
Proof.
  intros Ht Hv Hmod.
  assert (pcm_sample_rate_hz p <= 48_000 ∧ pcm_data_interval_us p < 2 ^ 32) as [Hr Hi].
  { apply pcm_validate_Ok in Hv as [Hr _]. unfold pcm_typed in Ht. b2p.
    apply supported_rate_bound in Hr. lia. }
  pose proof (interval_frames_bound p Ht Hv) as Hf.
  apply pcm_validate_Ok in Hv as (_ & Hb & Hc & Hi0). unfold interval_bytes.
  pose proof (Z.div_mod (pcm_sample_rate_hz p * pcm_data_interval_us p) 1_000_000) as Hd.
  rewrite Hmod in Hd.
  set (f := pcm_sample_rate_hz p * pcm_data_interval_us p) in *.
  assert (f <= 48_000 * 4_294_967_295) by (unfold f; nia). clearbody f.
  set (q := f / 1_000_000) in *. clearbody q.
  assert (1 <= q <= 206_158_430) by lia.
  assert (f = 1_000_000 * q) as -> by lia.
  assert (1 <= q * pcm_channels p <= 8 * 206_158_430) by nia.
  rewrite !elem_of_cons, elem_of_nil in Hb. destruct Hb as [->|[->|[->|[]]]];
    [change (16 / 8) with 2|change (24 / 8) with 3|change (32 / 8) with 4]; lia.
Qed.

Lemma bytes_per_interval_Ok p :
  pcm_typed p = true → pcm_validate p = Ok tt →
  (pcm_sample_rate_hz p * pcm_data_interval_us p) mod 1_000_000 = 0 →
  bytes_per_interval p = Ok (interval_bytes p).
Proof.
  intros Ht Hv Hmod.
  pose proof (interval_frames_bound p Ht Hv) as Hf.
  destruct (interval_bytes_exact p Ht Hv Hmod) as [Hn _].
  unfold bytes_per_interval. rewrite Hv. cbn [rbind].
  unfold checked_mul. rewrite (proj2 (in_width_spec 64 _)) by lia. cbn [ok_or rbind].
  rewrite Hmod. cbn [ensure rbind]. unfold interval_bytes in Hn.
  apply pcm_validate_Ok in Hv as (_ & Hb & Hc & _).
  assert (2 <= pcm_bits_per_sample p / 8).
  { rewrite !elem_of_cons, elem_of_nil in Hb. destruct Hb as [->|[->|[->|[]]]]; done. }
  set (x := _ / _ * pcm_channels p) in *.
  assert (0 <= x < 2 ^ 33) by (clearbody x; nia).
  rewrite mul_u_in_range by (fold x; lia). fold x. cbn [rbind].
  rewrite mul_u_in_range by lia. cbn [rbind].
  by rewrite (proj2 (in_width_spec 64 _)) by lia.
Qed.

Lemma bytes_per_interval_cases p :
  pcm_typed p = true →
  match bytes_per_interval p with
  | Ok n =>
      pcm_validate p = Ok tt ∧ 0 < n < 2 ^ 33 ∧
      8_000_000 * n = pcm_sample_rate_hz p * pcm_data_interval_us p *
                      pcm_channels p * pcm_bits_per_sample p
  | Err _ =>
      pcm_validate p ≠ Ok tt ∨
      (pcm_sample_rate_hz p * pcm_data_interval_us p) mod 1_000_000 ≠ 0
  | Panic _ | Undef _ => False
  end.
Proof.
  intros Ht. destruct (decide (pcm_validate p = Ok tt)) as [Hv|Hv].
  - destruct (decide ((pcm_sample_rate_hz p * pcm_data_interval_us p) mod 1_000_000 = 0))
      as [Hm|Hm].
    + rewrite bytes_per_interval_Ok by done. by pose proof (interval_bytes_exact p Ht Hv Hm).
    + unfold bytes_per_interval. rewrite Hv. cbn [rbind].
      unfold checked_mul. destruct (in_width 64 _); cbn [ok_or rbind]; [|by right].
      rewrite (proj2 (Z.eqb_neq _ _)) by done. by right.
  - unfold bytes_per_interval. pose proof (pcm_validate_defined p) as Hd.
    destruct (pcm_validate p) as [u|e|w|w]; try destruct u; cbn in *; naive_solver.
Qed.

Lemma bytes_per_interval_defined p :
  pcm_typed p = true → defined (bytes_per_interval p) = true.
Proof. intros Ht. pose proof (bytes_per_interval_cases p Ht). by destruct (bytes_per_interval p). Qed.

(** C16. For every configuration with in-range fields, [bytes_per_interval]
    returns exactly rate * interval * channels * bits / 8_000_000 (a positive
    number below 2^33) when the configuration is valid and the interval is a
    whole number of frames, an error otherwise, and it never overflows. *)
Theorem bytes_per_interval_exact p :
  pcm_typed p = true →
  match bytes_per_interval p with
  | Ok n =>
      pcm_validate p = Ok tt ∧ 0 < n < 2 ^ 33 ∧
      8_000_000 * n = pcm_sample_rate_hz p * pcm_data_interval_us p *
                      pcm_channels p * pcm_bits_per_sample p
  | Err _ =>
      pcm_validate p ≠ Ok tt ∨
      (pcm_sample_rate_hz p * pcm_data_interval_us p) mod 1_000_000 ≠ 0
  | Panic _ | Undef _ => False
  end.
Proof. apply bytes_per_interval_cases. Qed.

Lemma bytes_per_interval_exact_witness :
  bytes_per_interval {| pcm_sample_rate_hz := 48_000; pcm_bits_per_sample := 16;
                        pcm_channels := 2; pcm_data_interval_us := 10_000 |} = Ok 1_920 ∧
  8_000_000 * 1_920 = 48_000 * 10_000 * 2 * 16.
Proof.
  split; [vm_compute; reflexivity|].
  pose proof (bytes_per_interval_exact
    {| pcm_sample_rate_hz := 48_000; pcm_bits_per_sample := 16;
       pcm_channels := 2; pcm_data_interval_us := 10_000 |} eq_refl) as H.
  vm_compute in H. vm_compute. apply H.
Defined.

(** ** Broadcast validation *)

(** [l] has no duplicates and none of its elements is in [S]. *)
Definition fresh_for (S l : list Z) : Prop := NoDup l ∧ ∀ i, i ∈ l → i ∉ S.

Lemma fresh_for_cons S i l : fresh_for S (i :: l) ↔ (i ∉ S) ∧ fresh_for (i :: S) l.
Proof. unfold fresh_for. rewrite NoDup_cons. set_solver. Qed.

Lemma fresh_for_app S l1 l2 :
  fresh_for S (l1 ++ l2) ↔ fresh_for S l1 ∧ fresh_for (l1 ++ S) l2.
Proof. unfold fresh_for. rewrite NoDup_app. set_solver. Qed.

(** [seen_bis] represents the set of the indices in [S]. *)
Definition seen_rep (seen_bis : list bool) (S : list Z) : Prop :=
  length seen_bis = 32%nat ∧
  ∀ i, 0 <= i < 32 → seen_bis !! Z.to_nat i = Some (bool_decide (i ∈ S)).

Lemma seen_rep_init : seen_rep (replicate 32 false) [].
Proof.
  split; [done|]. intros i Hi. rewrite lookup_replicate_2 by lia.
  f_equal; symmetry; apply bool_decide_eq_false; set_solver.
Qed.

Lemma seen_rep_ext seen S S' : (∀ i, i ∈ S ↔ i ∈ S') → seen_rep seen S → seen_rep seen S'.
Proof.
  intros He [Hl Hs]. split; [done|]. intros i Hi. rewrite Hs by done.
  f_equal. by apply bool_decide_ext.
Qed.

Lemma seen_rep_index seen S i :
  seen_rep seen S → 1 <= i <= 31 → index seen i = Ok (bool_decide (i ∈ S)).
Proof.
  intros [_ Hs] Hi. unfold index. rewrite (proj2 (Z.leb_le 0 i)) by lia.
  by rewrite Hs by lia.
Qed.

Lemma seen_rep_insert seen S i :
  seen_rep seen S → 1 <= i <= 31 → seen_rep (<[Z.to_nat i := true]> seen) (i :: S).
Proof.
  intros [Hl Hs] Hi. split; [by rewrite length_insert|]. intros j Hj.
  destruct (decide (i = j)) as [->|Hne].
  - rewrite list_lookup_insert_eq by lia.
    f_equal; symmetry; apply bool_decide_eq_true; set_solver.
  - rewrite list_lookup_insert_ne, Hs by lia.
    f_equal. apply bool_decide_ext. set_solver.
Qed.

(** What the code requires of one BIS and of one subgroup on its own. *)
Definition bis_wf (codec : Lc3Configuration) (b : BisConfiguration) : Prop :=
  1 <= bis_index b <= 31 ∧ lc3_validate (bis_lc3 b) = Ok tt ∧ bis_lc3 b = codec.

Definition subgroup_wf (g : BroadcastSubgroup) : Prop :=
  lc3_validate (sg_codec g) = Ok tt ∧ sg_bis g ≠ [] ∧ Forall (bis_wf (sg_codec g)) (sg_bis g).

(** All BIS indices of a broadcast, in order. *)
Definition subgroup_indices (g : BroadcastSubgroup) : list Z := bis_index <$> sg_bis g.
Definition broadcast_indices (b : BroadcastConfiguration) : list Z :=
  mjoin (subgroup_indices <$> bc_subgroups b).

(** The specification of a valid broadcast configuration. *)
Definition broadcast_wf (b : BroadcastConfiguration) : Prop :=
  bc_broadcast_id b <= 0x00ffffff ∧ 0 < bc_presentation_delay_us b ∧
  pcm_validate (bc_pcm b) = Ok tt ∧ bc_subgroups b ≠ [] ∧
  Forall subgroup_wf (bc_subgroups b) ∧ NoDup (broadcast_indices b).

Lemma is_empty_spec {A} (l : list A) : is_empty l = true ↔ l = [].
Proof. destruct l; naive_solver. Qed.

Lemma negb_is_empty_spec {A} (l : list A) : negb (is_empty l) = true ↔ l ≠ [].
Proof. destruct l; naive_solver. Qed.

Lemma lc3_validate_cases c :
  lc3_validate c = Ok tt ∨ (is_err (lc3_validate c) = true ∧ lc3_validate c ≠ Ok tt).
Proof.
  pose proof (lc3_validate_defined c).
  destruct (lc3_validate c) as [[]|?|?|?]; cbn in *; auto.
Qed.

(** The loop succeeds exactly on well-formed, fresh BISes and otherwise
    returns an error: indexing [seen_bis] never panics. *)
Lemma validate_bis_loop_spec codec l : ∀ seen S, seen_rep seen S →
  (Forall (bis_wf codec) l ∧ fresh_for S (bis_index <$> l) ∧
   ∃ seen', validate_bis_loop codec seen l = Ok seen' ∧
            seen_rep seen' ((bis_index <$> l) ++ S)) ∨
  (¬ (Forall (bis_wf codec) l ∧ fresh_for S (bis_index <$> l)) ∧
   is_err (validate_bis_loop codec seen l) = true).
Proof.
  induction l as [|b l IH]; intros seen S Hrep.
  { left. repeat split; [constructor|constructor|set_solver|]. by exists seen. }
  cbn [validate_bis_loop fmap list_fmap]. setoid_rewrite Forall_cons.
  setoid_rewrite fresh_for_cons.
  unfold ensure at 1. destruct (_ && _) eqn:Hr; cbn [rbind]; b2p.
  2:{ right. split; [|done]. intros [[[? _] _] _].
      apply andb_false_iff in Hr as [?|?]; b2p; lia. }
  rewrite (seen_rep_index _ S) by (done || lia). cbn [rbind].
  destruct (decide (bis_index b ∈ S)) as [Hin|Hin].
  { right. rewrite (bool_decide_eq_true_2 _ Hin). cbn. split; [naive_solver|done]. }
  rewrite (bool_decide_eq_false_2 _ Hin). cbn [negb ensure rbind].
  destruct (lc3_validate_cases (bis_lc3 b)) as [Hv|[He Hv]].
  2:{ right. split; [unfold bis_wf; naive_solver|].
      destruct (lc3_validate (bis_lc3 b)); done. }
  rewrite Hv. cbn [rbind]. unfold ensure.
  case_bool_decide as Hc; cbn [rbind].
  2:{ right. split; [unfold bis_wf; naive_solver|done]. }
  assert (bis_wf codec b) by (split; [lia|done]).
  destruct (IH _ _ (seen_rep_insert _ _ (bis_index b) Hrep ltac:(lia)))
    as [(Hf & Hfr & seen' & Hok & Hrep')|[Hn He]].
  - left. repeat split; try done; try apply Hfr. exists seen'. split; [done|].
    eapply seen_rep_ext; [|done]. set_solver.
  - right. split; [naive_solver|done].
Qed.

Lemma validate_subgroup_loop_spec l : ∀ seen S, seen_rep seen S →
  (Forall subgroup_wf l ∧ fresh_for S (mjoin (subgroup_indices <$> l)) ∧
   is_ok (validate_subgroup_loop seen l) = true) ∨
  (¬ (Forall subgroup_wf l ∧ fresh_for S (mjoin (subgroup_indices <$> l))) ∧
   is_err (validate_subgroup_loop seen l) = true).
Proof.
  induction l as [|g l IH]; intros seen S Hrep.
  { left. repeat split; [constructor|constructor|set_solver]. }
  cbn [validate_subgroup_loop fmap list_fmap mjoin list_join].
  setoid_rewrite Forall_cons. setoid_rewrite fresh_for_app. unfold subgroup_wf at 1 3.
  destruct (lc3_validate_cases (sg_codec g)) as [Hv|[He Hv]].
  2:{ right. split; [naive_solver|]. destruct (lc3_validate (sg_codec g)); done. }
  rewrite Hv. cbn [rbind]. unfold ensure. destruct (negb _) eqn:Hne; cbn [rbind].
  2:{ right. split; [|done]. apply negb_false_iff, is_empty_spec in Hne. naive_solver. }
  apply negb_is_empty_spec in Hne.
  destruct (validate_bis_loop_spec (sg_codec g) (sg_bis g) seen S Hrep)
    as [(Hf & Hfr & seen' & -> & Hrep')|[Hn He]]; cbn [rbind].
  2:{ right. split; [unfold subgroup_indices; naive_solver|].
      destruct (validate_bis_loop _ _ _); done. }
  destruct (IH _ _ Hrep') as [(? & ? & ?)|[? ?]]; [left|right]; unfold subgroup_indices in *;
    naive_solver.
Qed.

Lemma broadcast_validate_cases b :
  (broadcast_wf b ∧ broadcast_validate b = Ok tt) ∨
  (¬ broadcast_wf b ∧ is_err (broadcast_validate b) = true).
Proof.
  unfold broadcast_validate, broadcast_wf, ensure.
  destruct (_ <=? _) eqn:H1; cbn [rbind]; b2p; [|right; split; [lia|done]].
  destruct (_ <? _) eqn:H2; cbn [rbind]; b2p; [|right; split; [lia|done]].
  pose proof (pcm_validate_defined (bc_pcm b)).
  destruct (pcm_validate _) as [[]|?|?|?]; cbn [rbind] in *; try done;
    [|right; split; naive_solver].
  destruct (negb _) eqn:H3; cbn [rbind].
  2:{ right. split; [|done]. apply negb_false_iff, is_empty_spec in H3. naive_solver. }
  apply negb_is_empty_spec in H3.
  destruct (validate_subgroup_loop_spec (bc_subgroups b) _ [] seen_rep_init)
    as [(Hf & [Hnd _] & Hok)|[Hn He]].
  - left. destruct (validate_subgroup_loop _ _); done || by repeat split.
  - right. split.
    + intros (_ & _ & _ & _ & ? & ?). apply Hn. split; [done|].
      split; [done|set_solver].
    + destruct (validate_subgroup_loop _ _); done.
Qed.

Lemma broadcast_validate_Ok b : broadcast_validate b = Ok tt → broadcast_wf b.
Proof. destruct (broadcast_validate_cases b) as [[? ?]|[? He]]; [done|].
  intros Hok. by rewrite Hok in He. Qed.

(** C14. [BroadcastConfiguration::validate] accepts exactly the broadcasts with
    a 24-bit id, a positive presentation delay, valid PCM, at least one
    subgroup, only well-formed non-empty subgroups whose BISes repeat the
    subgroup's codec, and BIS indices in 1..=31 that are pairwise distinct over
    the whole broadcast; it rejects all others with an error and never panics
    on the 32-entry [seen_bis] table. *)
Theorem broadcast_validate_spec b :
  (broadcast_validate b = Ok tt ↔ broadcast_wf b) ∧ defined (broadcast_validate b) = true.
Proof.
  destruct (broadcast_validate_cases b) as [[? ->]|[? He]]; [done|].
  destruct (broadcast_validate b); cbn in *; naive_solver.
Qed.

Lemma subgroup_wf_indices g i :
  subgroup_wf g → i ∈ subgroup_indices g → 1 <= i <= 31.
Proof.
  intros (_ & _ & Hf) [b [-> Hb]]%list_elem_of_fmap.
  rewrite Forall_forall in Hf. by destruct (Hf b Hb).
Qed.

Lemma NoDup_bounded_length (l : list Z) (lo hi : Z) :
  NoDup l → (∀ i, i ∈ l → lo <= i < hi) → Z.of_nat (length l) <= Z.max 0 (hi - lo).
Proof.
  intros Hnd Hb.
  assert (l ⊆+ seqZ lo (hi - lo)) as Hs.
  { apply NoDup_submseteq; [done|]. intros i Hi. apply elem_of_seqZ.
    specialize (Hb i Hi). lia. }
  apply submseteq_length in Hs. rewrite length_seqZ in Hs. lia.
Qed.

(** A broadcast that validates carries at most 31 BISes in total. *)
Theorem broadcast_validate_max_31_bis b :
  broadcast_validate b = Ok tt → (length (broadcast_indices b) <= 31)%nat.
Proof.
  intros H. apply broadcast_validate_Ok in H as (_ & _ & _ & _ & Hf & Hnd).
  assert (Z.of_nat (length (broadcast_indices b)) <= Z.max 0 (32 - 1)); [|lia].
  apply NoDup_bounded_length; [done|]. intros i Hi.
  apply list_elem_of_join in Hi as (l & Hi & Hl).
  apply list_elem_of_fmap in Hl as (g & -> & Hg).
  rewrite Forall_forall in Hf. pose proof (subgroup_wf_indices g i (Hf g Hg) Hi). lia.
Qed.

Lemma broadcast_validate_max_31_bis_witness :
  let lc3 := {| lc3_sampling_frequency_hz := 48_000; lc3_frame_duration_us := 10_000;
                lc3_octets_per_codec_frame := 120; lc3_codec_frames_per_sdu := 1;
                lc3_audio_channel_allocation := 3 |} in
  let dp := {| dp_data_path_id := 0; dp_transparent := true; dp_controller_delay_us := 0;
               dp_codec_configuration := []; dp_vendor_configuration := [] |} in
  let bis i := {| bis_index := i; bis_stream_handle := None; bis_lc3 := lc3;
                  bis_data_path := dp |} in
  let b := {| bc_broadcast_id := 1; bc_encrypted := false;
              bc_presentation_delay_us := 40_000;
              bc_pcm := {| pcm_sample_rate_hz := 48_000; pcm_bits_per_sample := 16;
                           pcm_channels := 2; pcm_data_interval_us := 10_000 |};
              bc_subgroups := [{| sg_codec := lc3; sg_metadata := [];
                                  sg_bis := [bis 1; bis 31] |}] |} in
  broadcast_indices b = [1; 31] ∧ (length (broadcast_indices b) <= 31)%nat.
Proof.
  intros lc3 dp bis b. split; [reflexivity|].
  apply broadcast_validate_max_31_bis. vm_compute. reflexivity.
Defined.

(** The duplicate the unit test of the code rejects. *)
Example broadcast_rejects_duplicate_bis_indices :
  let lc3 := {| lc3_sampling_frequency_hz := 48_000; lc3_frame_duration_us := 10_000;
                lc3_octets_per_codec_frame := 120; lc3_codec_frames_per_sdu := 1;
                lc3_audio_channel_allocation := 3 |} in
  let dp := {| dp_data_path_id := 0; dp_transparent := true; dp_controller_delay_us := 0;
               dp_codec_configuration := []; dp_vendor_configuration := [] |} in
  let bis := {| bis_index := 1; bis_stream_handle := None; bis_lc3 := lc3;
                bis_data_path := dp |} in
  validate_subgroup_loop (replicate 32 false)
    [{| sg_codec := lc3; sg_metadata := []; sg_bis := [bis; bis] |}]
  = Err ["duplicate BIS index 1"].
Proof. vm_compute. reflexivity. Qed.

(** ** Which configuration fits which session *)

Definition ase_typed (a : AseConfiguration) : bool := lc3_typed (ase_lc3 a).

(** What the code requires of an ASE. *)
Definition ase_wf (a : AseConfiguration) : Prop :=
  ase_id a ≠ 0 ∧ lc3_validate (ase_lc3 a) = Ok tt ∧ qos_validate (ase_qos a) = Ok tt ∧
  lc3_octets_per_codec_frame (ase_lc3 a) * lc3_codec_frames_per_sdu (ase_lc3 a)
    <= qos_max_sdu (ase_qos a) ∧
  (dp_transparent (ase_data_path a) = true → dp_codec_configuration (ase_data_path a) = []).

Lemma ase_validate_cases a :
  ase_typed a = true →
  (ase_wf a ∧ ase_validate a = Ok tt) ∨ (¬ ase_wf a ∧ is_err (ase_validate a) = true).
Proof.
  intros Ht. unfold ase_typed, lc3_typed in Ht. b2p.
  unfold ase_validate, ase_wf. unfold ensure at 1.
  destruct (ase_id a =? 0) eqn:E1; cbn [rbind negb]; b2p; [right; split; [lia|done]|].
  destruct (lc3_validate_cases (ase_lc3 a)) as [Hv|[He Hv]].
  2:{ right. split; [naive_solver|]. destruct (lc3_validate _); done. }
  rewrite Hv. cbn [rbind]. pose proof (qos_validate_defined (ase_qos a)) as Hd.
  destruct (qos_validate _) as [[]|?|?|?]; cbn [rbind] in *; try done;
    [|right; split; naive_solver].
  rewrite mul_u_in_range by nia. cbn [rbind]. unfold ensure at 1.
  destruct (_ <=? _) eqn:E2; cbn [rbind]; b2p; [|right; split; [lia|done]].
  destruct (dp_transparent _); [|left; naive_solver]. unfold ensure.
  destruct (is_empty _) eqn:E3; cbn [rbind].
  - apply is_empty_spec in E3. left. naive_solver.
  - right. split; [|done]. intros (_ & _ & _ & _ & Hc).
    rewrite Hc in E3; done.
Qed.

(** The specification of [validate_for]: which configurations a session of the
    given type may take. *)
Definition config_wf (c : AudioConfiguration) (t : SessionType) : Prop :=
  match c with
  | Pcm pcm => pcm_validate pcm = Ok tt ∧ is_offloaded t = false
  | LeAudio le =>
      is_broadcast t = false ∧ 0 <= le_group_id le ∧ pcm_validate (le_pcm le) = Ok tt ∧
      le_ases le ≠ [] ∧ Forall ase_wf (le_ases le)
  | LeBroadcast b => is_broadcast t = true ∧ broadcast_wf b
  end.

(** The integer fields the arithmetic of the validation reads are in range. *)
Definition config_typed (c : AudioConfiguration) : bool :=
  match c with
  | LeAudio le => forallb ase_typed (le_ases le)
  | _ => true
  end.

Lemma ases_validate_cases l :
  forallb ase_typed l = true →
  (Forall ase_wf l ∧ for_each ase_validate l = Ok tt) ∨
  (¬ Forall ase_wf l ∧ is_err (for_each ase_validate l) = true).
Proof.
  induction l as [|a l IH]; cbn [forallb for_each]; intros Ht; [left; auto|].
  apply andb_true_iff in Ht as [Ha Hl]. rewrite Forall_cons.
  destruct (ase_validate_cases a Ha) as [[? ->]|[? He]]; cbn [rbind].
  - destruct (IH Hl) as [[? ->]|[? He]]; [left|right]; naive_solver.
  - right. split; [naive_solver|]. destruct (ase_validate a); done.
Qed.

Lemma validate_for_cases c t :
  config_typed c = true →
  (config_wf c t ∧ validate_for c t = Ok tt) ∨
  (¬ config_wf c t ∧ is_err (validate_for c t) = true).
Proof.
  destruct c as [pcm|le|b]; cbn [config_typed config_wf validate_for]; intros Ht.
  - pose proof (pcm_validate_defined pcm).
    destruct (pcm_validate pcm) as [[]|?|?|?]; cbn in *; try done; [|right; naive_solver].
    destruct (is_offloaded t); [right|left]; naive_solver.
  - unfold ensure. destruct (is_broadcast t); cbn [negb rbind]; [right; naive_solver|].
    destruct (0 <=? _) eqn:E1; cbn [rbind]; b2p; [|right; split; [lia|done]].
    pose proof (pcm_validate_defined (le_pcm le)).
    destruct (pcm_validate _) as [[]|?|?|?]; cbn [rbind] in *; try done;
      [|right; naive_solver].
    destruct (negb _) eqn:E2; cbn [rbind].
    2:{ right. split; [|done]. apply negb_false_iff, is_empty_spec in E2. naive_solver. }
    apply negb_is_empty_spec in E2.
    destruct (ases_validate_cases _ Ht) as [[? ->]|[? He]]; [left|right].
    + naive_solver.
    + split; [naive_solver|]. destruct (for_each _ _); done.
  - unfold ensure. destruct (is_broadcast t); cbn [rbind]; [|right; naive_solver].
    destruct (broadcast_validate_cases b) as [[? ->]|[? He]]; [left|right].
    + naive_solver.
    + split; [naive_solver|]. destruct (broadcast_validate b); done.
Qed.

(** C15. [AudioConfiguration::validate_for] accepts a configuration for a session
    type exactly when the configuration is well-formed and fits the type: plain
    PCM only for sessions whose payload crosses the host, unicast LE Audio never
    for broadcast sessions, broadcast only for them; it otherwise returns an
    error, and its arithmetic never overflows. *)
Theorem validate_for_spec c t :
  config_typed c = true →
  (validate_for c t = Ok tt ↔ config_wf c t) ∧ defined (validate_for c t) = true.
Proof.
  intros Ht. destruct (validate_for_cases c t Ht) as [[? ->]|[? He]]; [done|].
  destruct (validate_for c t); cbn in *; naive_solver.
Qed.

Lemma validate_for_spec_witness :
  let c := Pcm {| pcm_sample_rate_hz := 48_000; pcm_bits_per_sample := 16;
                  pcm_channels := 2; pcm_data_interval_us := 10_000 |} in
  config_wf c LeUnicastSoftwareEncoding ∧
  validate_for c LeUnicastHardwareEncoding ≠ Ok tt.
Proof.
  intros c. split.
  - apply (validate_for_spec c LeUnicastSoftwareEncoding eq_refl). vm_compute. reflexivity.
  - vm_compute. discriminate.
Defined.

(** [matches!] on a configuration: what a session that accepted it may rely on. *)
Lemma validate_for_payload c t :
  validate_for c t = Ok tt → is_offloaded t = true →
  (∃ le, c = LeAudio le) ∨ (∃ b, c = LeBroadcast b).
Proof.
  destruct c; intros H Ho; [|eauto|eauto]. exfalso.
  cbn in H. inv_ok. rewrite Ho in H. done.
Qed.

#[export] Hint Resolve pcm_validate_defined lc3_validate_defined qos_validate_defined : dorsche.
