(* ===== verification/Bytes.v ===== *)
(** * Byte memories

    A shared mapping is a list of bytes.  Integers are stored little-endian, as
    the x86-64 and AArch64 targets of the code do.  [slice] reads a range,
    stdpp's [list_inserts] writes one; the lemmas say what a read returns after
    a write to the same, to an enclosing, or to a disjoint range. *)

From S2P Require Import Prelude.
From coqutil Require Export Byte Word.LittleEndianList.

Abbreviation byte := Init.Byte.byte.
Abbreviation memory := (list byte).

#[global] Instance byte_eq_dec : EqDecision byte := Byte.byte_eq_dec.

Section slices.
Context {A : Type}.
Implicit Types (l k : list A) (off o n m i : nat).

Definition slice off n l : list A := take n (drop off l).

Lemma lookup_slice off n l i :
  slice off n l !! i = if decide (i < n)%nat then l !! (off + i)%nat else None.
Proof.
  unfold slice. case_decide.
  - by rewrite lookup_take_lt, lookup_drop by done.
  - by rewrite lookup_take_ge by lia.
Qed.

Lemma length_slice off n l :
  (off + n <= length l)%nat → length (slice off n l) = n.
Proof. intros. unfold slice. rewrite length_take, length_drop. lia. Qed.

Lemma slice_slice off m o n l :
  (o + n <= m)%nat → slice o n (slice off m l) = slice (off + o) n l.
Proof.
  intros. apply list_eq. intros i. rewrite !lookup_slice.
  repeat case_decide; try lia; try done. by rewrite Nat.add_assoc.
Qed.

Lemma slice_all l : slice 0 (length l) l = l.
Proof. unfold slice. by rewrite drop_0, take_ge. Qed.

Lemma slice_app_l n l k : (n <= length l)%nat → slice 0 n (l ++ k) = take n l.
Proof. intros. unfold slice. by rewrite drop_0, take_app_le. Qed.

Lemma slice_inserts_disjoint off n o k l :
  (off + n <= o ∨ o + length k <= off)%nat →
  slice off n (list_inserts o k l) = slice off n l.
Proof.
  intros. apply list_eq. intros i. rewrite !lookup_slice. case_decide; [|done].
  destruct (decide (off + i < o)%nat).
  - by rewrite list_lookup_inserts_lt by lia.
  - by rewrite list_lookup_inserts_ge by lia.
Qed.

Lemma slice_inserts_sub off n o k l :
  (o <= off)%nat → (off + n <= o + length k)%nat → (o + length k <= length l)%nat →
  slice off n (list_inserts o k l) = slice (off - o) n k.
Proof.
  intros. apply list_eq. intros i. rewrite !lookup_slice. case_decide; [|done].
  rewrite list_lookup_inserts by lia. f_equal. lia.
Qed.

Lemma slice_inserts_same o k l :
  (o + length k <= length l)%nat → slice o (length k) (list_inserts o k l) = k.
Proof.
  intros. rewrite slice_inserts_sub by lia. by rewrite Nat.sub_diag, slice_all.
Qed.

Lemma inserts_slice_same o n l :
  (o + n <= length l)%nat → list_inserts o (slice o n l) l = l.
Proof.
  intros H. apply list_eq. intros i.
  destruct (decide (i < o)%nat); [by apply list_lookup_inserts_lt|].
  destruct (decide (o + n <= i)%nat).
  - apply list_lookup_inserts_ge. rewrite length_slice; lia.
  - destruct (decide (i < length l)%nat).
    + rewrite list_lookup_inserts, lookup_slice; rewrite ?length_slice by lia; try lia.
      rewrite decide_True by lia. f_equal. lia.
    + rewrite !lookup_ge_None_2; rewrite ?length_inserts; done || lia.
Qed.

Lemma inserts_prefix k l :
  (length k <= length l)%nat → list_inserts 0 k l = k ++ drop (length k) l.
Proof.
  intros. rewrite <- (take_drop (length k) l) at 1. rewrite list_inserts_0_r; [done|].
  rewrite length_take. lia.
Qed.
End slices.

(** ** Little-endian loads and stores of [n]-byte integers *)

Definition load (n off : nat) (mem : memory) : Z := le_combine (slice off n mem).

Definition store (n off : nat) (v : Z) (mem : memory) : memory :=
  list_inserts off (le_split n v) mem.

Lemma length_store n off v mem : length (store n off v mem) = length mem.
Proof. apply length_inserts. Qed.

Lemma load_range n off mem : 0 <= load n off mem < 2 ^ (8 * Z.of_nat n).
Proof.
  unfold load. pose proof (le_combine_bound (slice off n mem)) as Hb.
  assert (length (slice off n mem) <= n)%nat by (unfold slice; rewrite length_take; lia).
  assert (2 ^ (8 * Z.of_nat (length (slice off n mem))) <= 2 ^ (8 * Z.of_nat n))
    by (apply Z.pow_le_mono_r; lia). lia.
Qed.

Lemma load_store_same n off v mem :
  (off + n <= length mem)%nat →
  load n off (store n off v mem) = v mod 2 ^ (8 * Z.of_nat n).
Proof.
  intros. unfold load, store.
  pose proof (slice_inserts_same off (le_split n v) mem) as Hs.
  rewrite length_le_split in Hs. rewrite Hs by done.
  rewrite le_combine_split. f_equal. f_equal. lia.
Qed.

Lemma load_store_other n off m o v mem :
  (off + n <= o ∨ o + m <= off)%nat →
  load n off (store m o v mem) = load n off mem.
Proof.
  intros. unfold load, store. rewrite slice_inserts_disjoint; [done|].
  by rewrite length_le_split.
Qed.

Lemma load_inserts_other n off o k mem :
  (off + n <= o ∨ o + length k <= off)%nat →
  load n off (list_inserts o k mem) = load n off mem.
Proof. intros. unfold load. by rewrite slice_inserts_disjoint. Qed.

Lemma slice_store_other n off m o v mem :
  (off + n <= o ∨ o + m <= off)%nat →
  slice off n (store m o v mem) = slice off n mem.
Proof.
  intros. unfold store. apply slice_inserts_disjoint. by rewrite length_le_split.
Qed.

Lemma le_combine_le_split_small n v :
  0 <= v < 2 ^ (8 * Z.of_nat n) → le_combine (le_split n v) = v.
Proof. intros. rewrite le_combine_split, Z.mul_comm. by apply Z.mod_small. Qed.

(** Reading a field out of a concatenation of encoded fields. *)
Lemma load_skip n off (a b : memory) :
  (length a <= off)%nat → load n off (a ++ b) = load n (off - length a) b.
Proof.
  intros. unfold load, slice. by rewrite drop_app_ge.
Qed.

Lemma load_here n v (b : memory) : load n 0 (le_split n v ++ b) = v mod 2 ^ (8 * Z.of_nat n).
Proof.
  unfold load. rewrite slice_app_l by (rewrite length_le_split; lia).
  rewrite take_ge by (rewrite length_le_split; lia).
  rewrite le_combine_split, Z.mul_comm. done.
Qed.

#[export] Hint Rewrite length_store @length_inserts length_le_split : dorsche_rw.
