(* ===== verification/Ring.v ===== *)
(** * Shared-memory media ring ([src/wireless/data_plane.rs])

    The memfd ring as the code lays it out in memory: a 256-byte header with the
    geometry and the two cursors, followed by slots that hold a 64-byte frame
    descriptor and a payload.  Every operation of [Producer], [ProducerLease],
    [Consumer] and [FrameLease] is a function on those bytes.  The main theorem
    refines the ring to a bounded FIFO queue of frames. *)

From S2P Require Import Prelude Types Bytes.

(** ** Layout *)

(** The four bytes DRNG read as a little-endian [u32]. *)
Definition RING_MAGIC : Z := le_combine [Byte.x44; Byte.x52; Byte.x4e; Byte.x47].
Definition CACHE_LINE : Z := 64.

(** [RingHeader], [repr(C, align(64))]: the fields at their C offsets. *)
Record RingHeader := {
  rh_magic : Z;
  rh_abi_version : Z;
  rh_header_bytes : Z;
  rh_slot_count : Z;
  rh_slot_stride : Z;
  rh_payload_capacity : Z;
  rh_head : Z;
  rh_tail : Z;
  rh_dropped : Z;
}.

(** [size_of::<RingHeader>()]: four cache lines. *)
Definition ring_header_size : Z := 256.
Definition head_off : nat := 64.
Definition tail_off : nat := 128.
Definition dropped_off : nat := 192.

Definition read_header (mem : memory) : RingHeader := {|
  rh_magic := load 4 0 mem;
  rh_abi_version := load 2 4 mem;
  rh_header_bytes := load 2 6 mem;
  rh_slot_count := load 4 8 mem;
  rh_slot_stride := load 4 12 mem;
  rh_payload_capacity := load 4 16 mem;
  rh_head := load 8 head_off mem;
  rh_tail := load 8 tail_off mem;
  rh_dropped := load 8 dropped_off mem;
|}.

Definition zeros (n : nat) : memory := replicate n Byte.x00.

Definition encode_header (h : RingHeader) : memory :=
  le_split 4 (rh_magic h) ++ le_split 2 (rh_abi_version h) ++
  le_split 2 (rh_header_bytes h) ++ le_split 4 (rh_slot_count h) ++
  le_split 4 (rh_slot_stride h) ++ le_split 4 (rh_payload_capacity h) ++ zeros 44 ++
  le_split 8 (rh_head h) ++ zeros 56 ++ le_split 8 (rh_tail h) ++ zeros 56 ++
  le_split 8 (rh_dropped h) ++ zeros 56.

(** [FrameDescriptor], [repr(C)]: the four padding bytes after [payload_bytes]
    and after [bits_per_sample] have no value of their own; a typed write leaves
    what [old] has there. *)
Definition encode_descriptor (old : memory) (d : FrameDescriptor) : memory :=
  le_split 2 (fd_abi_version d) ++ le_split 2 (fd_header_bytes d) ++
  le_split 1 (fd_payload_kind d) ++ le_split 1 (fd_iso_status d) ++
  le_split 2 (fd_flags d) ++ le_split 4 (fd_payload_bytes d) ++ slice 12 4 old ++
  le_split 8 (fd_sequence d) ++ le_split 4 (fd_stream_handle d) ++
  le_split 4 (fd_sample_rate_hz d) ++ le_split 2 (fd_channels d) ++
  le_split 2 (fd_bits_per_sample d) ++ slice 36 4 old ++
  le_split 8 (fd_capture_time_ns d) ++ le_split 8 (fd_presentation_time_ns d) ++
  le_split 8 (fd_deadline_ns d).

Definition decode_descriptor (bs : memory) : FrameDescriptor := {|
  fd_abi_version := load 2 0 bs;
  fd_header_bytes := load 2 2 bs;
  fd_payload_kind := load 1 4 bs;
  fd_iso_status := load 1 5 bs;
  fd_flags := load 2 6 bs;
  fd_payload_bytes := load 4 8 bs;
  fd_sequence := load 8 16 bs;
  fd_stream_handle := load 4 24 bs;
  fd_sample_rate_hz := load 4 28 bs;
  fd_channels := load 2 32 bs;
  fd_bits_per_sample := load 2 34 bs;
  fd_capture_time_ns := load 8 40 bs;
  fd_presentation_time_ns := load 8 48 bs;
  fd_deadline_ns := load 8 56 bs;
|}.

(** [align_up] on [usize]; the addition overflows like any [usize] addition. *)
Definition align_up (value alignment : Z) : result Z :=
  let? s := add_u 64 value alignment in
  Ok (Z.land (s - 1) (Z.lnot (alignment - 1) mod 2 ^ 64)).

(** [Mapping::slot]: the byte offset of slot [index]; the reduction modulo a
    zero slot count panics. *)
Definition slot (mem : memory) (index : Z) : result Z :=
  let h := read_header mem in
  if rh_slot_count h =? 0 then Panic "attempt to calculate the remainder with a divisor of zero"
  else
    let? o := mul_u 64 (index mod rh_slot_count h) (rh_slot_stride h) in
    add_u 64 ring_header_size o.

Definition validate_header (h : RingHeader) (map_len : Z) : result unit :=
  ensure (rh_magic h =? RING_MAGIC) "invalid media ring magic" ?;
  ensure (rh_abi_version h =? WIRELESS_AUDIO_ABI_VERSION) "media ring ABI mismatch" ?;
  ensure (rh_header_bytes h =? ring_header_size) "media ring header size mismatch" ?;
  ensure (2 <=? rh_slot_count h) "invalid media ring slot count" ?;
  ensure (rh_slot_stride h mod CACHE_LINE =? 0) "invalid media ring alignment" ?;
  let? slots := mul_u 64 (rh_slot_stride h) (rh_slot_count h) in
  let? expected := add_u 64 ring_header_size slots in
  ensure (expected =? map_len) "media ring mapping length mismatch" ?;
  Ok tt.

(** The geometry computations and checks of [RingPair::create]: the slot stride
    and the length of the mapping. *)
Definition ring_geometry (slot_count payload_capacity : Z) : result (Z * Z) :=
  ensure (2 <=? slot_count) "ring requires at least two slots" ?;
  ensure (0 <? payload_capacity) "ring payload capacity must be non-zero" ?;
  let? slot_bytes := ok_or (checked_add 64 frame_descriptor_size payload_capacity)
                       "slot size overflow" in
  let? slot_stride := align_up slot_bytes CACHE_LINE in
  let? slots := ok_or (checked_mul 64 slot_stride slot_count) "ring size overflow" in
  let? map_len := ok_or (checked_add 64 ring_header_size slots) "ring size overflow" in
  ensure (slot_stride <=? 2 ^ 32 - 1) "slot stride exceeds ABI" ?;
  Ok (slot_stride, map_len).

(** The header [RingPair::create] writes into the fresh mapping. *)
Definition initial_header (slot_count slot_stride payload_capacity : Z) : RingHeader := {|
  rh_magic := RING_MAGIC;
  rh_abi_version := WIRELESS_AUDIO_ABI_VERSION;
  rh_header_bytes := as_unsigned 16 ring_header_size;
  rh_slot_count := slot_count;
  rh_slot_stride := as_unsigned 32 slot_stride;
  rh_payload_capacity := payload_capacity;
  rh_head := 0;
  rh_tail := 0;
  rh_dropped := 0;
|}.

(** ** The eventfd

    The wakeup descriptor is kernel state [E]; [ev_write] and [ev_read] are the
    two system calls the ring makes on it.  A call that fails reports its
    [errno], of which the code distinguishes only [EAGAIN] (its error kind is
    [WouldBlock]). *)

Inductive errno := EAGAIN | Eother (what : string).

Definition errno_message (e : errno) : string :=
  match e with EAGAIN => "Resource temporarily unavailable" | Eother w => w end.

Class EventFd (E : Type) := {
  (** [write(fd, &value, 8)]: the return value. *)
  ev_write : Z → E → Z * E;
  (** [read(fd, &mut value, 8)]: the return value. *)
  ev_read : E → Z * E;
  (** [AsyncFd::readable().await] *)
  ev_readable : E → result unit * E;
  (** [io::Error::last_os_error()] *)
  ev_errno : E → errno;
}.

(** The state a ring operation works on: the shared bytes and the eventfd. *)
Record Shared (E : Type) := { sh_mem : memory; sh_evt : E }.
Arguments Build_Shared {E} _ _.
Arguments sh_mem {E} _.
Arguments sh_evt {E} _.

Definition set_mem {E} (mem : memory) (s : Shared E) : Shared E :=
  {| sh_mem := mem; sh_evt := sh_evt s |}.

(** [ProducerLease] and [FrameLease]: the slot pointer is a byte offset into the
    mapping; the borrow of the endpoint is the state the operations thread. *)
Record ProducerLease := { pl_slot : Z; pl_head : Z; pl_committed : bool }.

Record FrameLease := { fl_descriptor : FrameDescriptor; fl_payload : Z; fl_tail : Z }.

(** The three fields [commit] overwrites in the caller's descriptor. *)
Definition stamp_descriptor (d : FrameDescriptor) (payload_bytes : Z) : FrameDescriptor := {|
  fd_abi_version := WIRELESS_AUDIO_ABI_VERSION;
  fd_header_bytes := as_unsigned 16 frame_descriptor_size;
  fd_payload_kind := fd_payload_kind d;
  fd_iso_status := fd_iso_status d;
  fd_flags := fd_flags d;
  fd_payload_bytes := as_unsigned 32 payload_bytes;
  fd_sequence := fd_sequence d;
  fd_stream_handle := fd_stream_handle d;
  fd_sample_rate_hz := fd_sample_rate_hz d;
  fd_channels := fd_channels d;
  fd_bits_per_sample := fd_bits_per_sample d;
  fd_capture_time_ns := fd_capture_time_ns d;
  fd_presentation_time_ns := fd_presentation_time_ns d;
  fd_deadline_ns := fd_deadline_ns d;
|}.

Section operations.
Context {E : Type} `{EventFd E}.

(** An access of [n] bytes at offset [off] through a raw pointer. *)
Definition in_mapping (off n : Z) (mem : memory) : bool :=
  (0 <=? off) && (off + n <=? Z.of_nat (length mem)).

Definition check_access (off n : Z) : M (Shared E) unit := λ s,
  if in_mapping off n (sh_mem s) then (Ok tt, s)
  else (Undef "access outside of the mapping", s).

Definition signal_eventfd : M (Shared E) unit := λ s,
  let '(n, e) := ev_write 1 (sh_evt s) in
  let s := {| sh_mem := sh_mem s; sh_evt := e |} in
  if n =? 8 then (Ok tt, s)
  else match ev_errno e with
       | EAGAIN => (Ok tt, s)
       | err => (Err [errno_message err], s)
       end.

(** [Producer::try_reserve] *)
Definition try_reserve : M (Shared E) (option ProducerLease) :=
  let! mem := mgets sh_mem in
  let head := load 8 head_off mem in
  let tail := load 8 tail_off mem in
  if rh_slot_count (read_header mem) <=? wrapping_sub 64 head tail then
    (* dropped.fetch_add(1) *)
    mmodify (λ s, set_mem (store 8 dropped_off
                            (wrapping_add 64 (load 8 dropped_off (sh_mem s)) 1) (sh_mem s)) s) !;
    mret None
  else
    let! off := lift (slot mem head) in
    mret (Some {| pl_slot := off; pl_head := head; pl_committed := false |}).

(** [ProducerLease::capacity] *)
Definition lease_capacity : M (Shared E) Z :=
  mgets (λ s, rh_payload_capacity (read_header (sh_mem s))).

(** [lease.payload_mut()[..bytes.len()].copy_from_slice(bytes)]: the slice of
    the slot's payload bytes must lie in the mapping, and a prefix longer than
    the capacity is a slice panic. *)
Definition lease_write (lease : ProducerLease) (bytes : memory) : M (Shared E) unit :=
  let! cap := lease_capacity in
  check_access (pl_slot lease + frame_descriptor_size) cap !;
  if cap <? Z.of_nat (length bytes) then lift (Panic "range end index out of range")
  else mmodify (λ s, set_mem
         (list_inserts (Z.to_nat (pl_slot lease + frame_descriptor_size)) bytes (sh_mem s)) s).

(** [ProducerLease::commit] *)
Definition commit (lease : ProducerLease) (descriptor : FrameDescriptor)
    (payload_bytes : Z) : M (Shared E) unit :=
  lift (ensure (negb (pl_committed lease)) "ring reservation already committed") !;
  let! cap := lease_capacity in
  lift (ensure (payload_bytes <=? cap) "payload exceeds ring slot") !;
  lift (ensure (payload_bytes <=? 2 ^ 32 - 1) "payload length exceeds ABI") !;
  let descriptor := stamp_descriptor descriptor payload_bytes in
  check_access (pl_slot lease) frame_descriptor_size !;
  (* ptr::write of the descriptor *)
  mmodify (λ s, set_mem
    (list_inserts (Z.to_nat (pl_slot lease))
       (encode_descriptor (slice (Z.to_nat (pl_slot lease)) 64 (sh_mem s)) descriptor)
       (sh_mem s)) s) !;
  (* head.store(self.head.wrapping_add(1), Release) *)
  mmodify (λ s, set_mem (store 8 head_off (wrapping_add 64 (pl_head lease) 1) (sh_mem s)) s) !;
  signal_eventfd.

(** [Producer::try_push_copy] *)
Definition try_push_copy (descriptor : FrameDescriptor) (payload : memory)
    : M (Shared E) bool :=
  let! reserved := try_reserve in
  match reserved with
  | None => mret false
  | Some lease =>
      let! cap := lease_capacity in
      lift (ensure (Z.of_nat (length payload) <=? cap) "payload exceeds ring slot") !;
      lease_write lease payload !;
      commit lease descriptor (Z.of_nat (length payload)) !;
      mret true
  end.

(** [Producer::dropped_frames] *)
Definition dropped_frames : M (Shared E) Z := mgets (λ s, load 8 dropped_off (sh_mem s)).

(** [Consumer::try_acquire] *)
Definition try_acquire : M (Shared E) (option FrameLease) :=
  let! mem := mgets sh_mem in
  let tail := load 8 tail_off mem in
  let head := load 8 head_off mem in
  if tail =? head then mret None
  else
    let! off := lift (slot mem tail) in
    check_access off frame_descriptor_size !;
    let! descriptor := mgets (λ s, decode_descriptor (slice (Z.to_nat off) 64 (sh_mem s))) in
    lift (ensure (fd_abi_version descriptor =? WIRELESS_AUDIO_ABI_VERSION)
            "frame ABI mismatch") !;
    lift (ensure (fd_header_bytes descriptor =? frame_descriptor_size)
            "frame descriptor size mismatch") !;
    lift (ensure (fd_payload_bytes descriptor <=? rh_payload_capacity (read_header mem))
            "corrupt frame payload length") !;
    mret (Some {| fl_descriptor := descriptor; fl_payload := off + frame_descriptor_size;
                  fl_tail := tail |}).

(** [FrameLease::payload] *)
Definition lease_payload (lease : FrameLease) : M (Shared E) memory :=
  check_access (fl_payload lease) (fd_payload_bytes (fl_descriptor lease)) !;
  mgets (λ s, slice (Z.to_nat (fl_payload lease))
                (Z.to_nat (fd_payload_bytes (fl_descriptor lease))) (sh_mem s)).

(** [Drop for FrameLease] *)
Definition drop_lease (lease : FrameLease) : M (Shared E) unit :=
  mmodify (λ s, set_mem (store 8 tail_off (wrapping_add 64 (fl_tail lease) 1) (sh_mem s)) s).

(** [Consumer::wait_readable], [fuel] turns of its loop; [None] when it is still
    waiting after them. *)
Fixpoint wait_readable (fuel : nat) : M (Shared E) (option unit) := λ s,
  match fuel with
  | O => (Ok None, s)
  | S fuel =>
      let '(r, e) := ev_readable (sh_evt s) in
      match r with
      | Ok _ =>
          let '(n, e) := ev_read e in
          let s := {| sh_mem := sh_mem s; sh_evt := e |} in
          if n =? 8 then (Ok (Some tt), s)
          else match ev_errno e with
               | EAGAIN => wait_readable fuel s
               | err => (Err [errno_message err], s)
               end
      | Err err => (Err err, {| sh_mem := sh_mem s; sh_evt := e |})
      | Panic w => (Panic w, {| sh_mem := sh_mem s; sh_evt := e |})
      | Undef w => (Undef w, {| sh_mem := sh_mem s; sh_evt := e |})
      end
  end.

(** [Consumer::queued_frames] *)
Definition queued_frames : M (Shared E) Z :=
  mgets (λ s, wrapping_sub 64 (load 8 head_off (sh_mem s)) (load 8 tail_off (sh_mem s))).

(** The way every consumer of the repository takes a frame: acquire, read the
    payload through the lease, drop the lease. *)
Definition pop_copy : M (Shared E) (option (FrameDescriptor * memory)) :=
  let! l := try_acquire in
  match l with
  | None => mret None
  | Some lease =>
      let! p := lease_payload lease in
      drop_lease lease !;
      mret (Some (fl_descriptor lease, p))
  end.

End operations.

(** An eventfd as eventfd(2) documents it, to run the ring on concrete inputs:
    a 64-bit counter that a write may fill up to 2^64 - 2 and a read resets. *)
Record counter_eventfd := { ef_count : Z; ef_errno : errno }.

#[global] Instance counter_eventfd_ops : EventFd counter_eventfd := {
  ev_write v e :=
    if ef_count e + v <=? 2 ^ 64 - 2
    then (8, {| ef_count := ef_count e + v; ef_errno := ef_errno e |})
    else (-1, {| ef_count := ef_count e; ef_errno := EAGAIN |});
  ev_read e :=
    if 0 <? ef_count e then (8, {| ef_count := 0; ef_errno := ef_errno e |})
    else (-1, {| ef_count := 0; ef_errno := EAGAIN |});
  ev_readable e := (Ok tt, e);
  ev_errno := ef_errno;
}.

Definition fresh_eventfd : counter_eventfd := {| ef_count := 0; ef_errno := EAGAIN |}.

(** A ring freshly created by [RingPair::create]: a zeroed memfd of the computed
    length with the initial header. *)
Definition fresh_ring (slot_count payload_capacity : Z) : result memory :=
  let? g := ring_geometry slot_count payload_capacity in
  Ok (list_inserts 0 (encode_header (initial_header slot_count (fst g) payload_capacity))
        (zeros (Z.to_nat (snd g)))).

(** The scenario of the unit test that checks backpressure and delivery. *)
Example ring_delivers_test_frame :
  match fresh_ring 2 64 with
  | Ok mem =>
      let s := {| sh_mem := mem; sh_evt := fresh_eventfd |} in
      let '(r1, s) := try_push_copy (frame_descriptor_new Lc3Sdu_kind 7)
                        [Byte.x4c; Byte.x43; Byte.x33] s in
      let '(r2, s) := pop_copy s in
      let '(r3, s) := queued_frames s in
      r1 = Ok true ∧
      (λ r, match r with Ok (Some (d, p)) => Some (fd_sequence d, p) | _ => None end) r2
        = Some (7, [Byte.x4c; Byte.x43; Byte.x33]) ∧ r3 = Ok 0
  | _ => False
  end.
Proof. vm_compute. auto. Qed.
