(* ===== verification/RingSpec.v ===== *)
(** * The ring refines a bounded queue

    Layout facts (round trips of the descriptor and of the header, geometry of
    [RingPair::create]), the representation relation between the bytes of a ring
    and a queue of frames, and the refinement theorems. *)

From S2P Require Import Prelude Types Bytes Ring.

(** ** Round trips *)

Lemma load_last n v : load n 0 (le_split n v) = v mod 2 ^ (8 * Z.of_nat n).
Proof. rewrite <- (app_nil_r (le_split n v)). apply load_here. Qed.

Lemma length_zeros n : length (zeros n) = n.
Proof. apply length_replicate. Qed.

(** Walk to the field at the offset that is read; the lengths of the fields
    before it are closed numbers. *)
Lemma load_skip_le n off m v (b : memory) :
  (m <=? off)%nat = true → load n off (le_split m v ++ b) = load n (off - m) b.
Proof. intros Hm%Nat.leb_le. by rewrite load_skip, length_le_split by by rewrite length_le_split. Qed.

Lemma load_skip_pad n off m (a b : memory) :
  length a = m → (m <=? off)%nat = true → load n off (a ++ b) = load n (off - m) b.
Proof. intros <- Hm%Nat.leb_le. by rewrite load_skip. Qed.

Ltac load_field :=
  repeat first
    [ rewrite load_here | rewrite load_last
    | rewrite load_skip_le by reflexivity; cbn [Nat.sub]
    | erewrite load_skip_pad by first [eassumption|apply length_zeros|reflexivity];
      cbn [Nat.sub] ].

Lemma length_encode_descriptor old d :
  length old = 64%nat → length (encode_descriptor old d) = 64%nat.
Proof.
  intros. unfold encode_descriptor.
  rewrite !length_app, !length_le_split, !length_slice by lia. done.
Qed.

Lemma length_encode_header h : length (encode_header h) = 256%nat.
Proof.
  unfold encode_header. rewrite !length_app, !length_le_split, !length_zeros. done.
Qed.

Lemma descriptor_ext d d' :
  fd_abi_version d = fd_abi_version d' → fd_header_bytes d = fd_header_bytes d' →
  fd_payload_kind d = fd_payload_kind d' → fd_iso_status d = fd_iso_status d' →
  fd_flags d = fd_flags d' → fd_payload_bytes d = fd_payload_bytes d' →
  fd_sequence d = fd_sequence d' → fd_stream_handle d = fd_stream_handle d' →
  fd_sample_rate_hz d = fd_sample_rate_hz d' → fd_channels d = fd_channels d' →
  fd_bits_per_sample d = fd_bits_per_sample d' →
  fd_capture_time_ns d = fd_capture_time_ns d' →
  fd_presentation_time_ns d = fd_presentation_time_ns d' →
  fd_deadline_ns d = fd_deadline_ns d' → d = d'.
Proof. destruct d, d'; cbn. intros. by subst. Qed.

Lemma decode_encode_descriptor old d :
  length old = 64%nat → descriptor_typed d = true →
  decode_descriptor (encode_descriptor old d) = d.
Proof.
  intros Hl Ht. unfold descriptor_typed in Ht. b2p. unfold encode_descriptor.
  assert (length (slice 12 4 old) = 4%nat) as Hp12 by (rewrite length_slice; lia).
  assert (length (slice 36 4 old) = 4%nat) as Hp36 by (rewrite length_slice; lia).
  clear Hl. apply descriptor_ext; cbn [decode_descriptor fd_abi_version fd_header_bytes
    fd_payload_kind fd_iso_status fd_flags fd_payload_bytes fd_sequence fd_stream_handle
    fd_sample_rate_hz fd_channels fd_bits_per_sample fd_capture_time_ns
    fd_presentation_time_ns fd_deadline_ns];
  load_field; apply Z.mod_small; assumption.
Qed.

Lemma stamp_typed d k :
  descriptor_typed d = true → 0 <= k < 2 ^ 32 → descriptor_typed (stamp_descriptor d k) = true.
Proof.
  intros Ht Hk. unfold descriptor_typed in *. cbn [stamp_descriptor fd_abi_version fd_header_bytes
    fd_payload_kind fd_iso_status fd_flags fd_payload_bytes fd_sequence fd_stream_handle
    fd_sample_rate_hz fd_channels fd_bits_per_sample fd_capture_time_ns
    fd_presentation_time_ns fd_deadline_ns].
  rewrite !andb_true_iff in *. destruct_and!. repeat split; try done.
  apply in_width_spec. unfold as_unsigned. by rewrite Z.mod_small.
Qed.

(** Writing a frame descriptor into a slot and reading it back gives the
    same descriptor, whatever the padding bytes of the slot held: the 64-byte
    layout loses no field. *)
Theorem descriptor_roundtrip old d :
  length old = 64%nat → descriptor_typed d = true →
  decode_descriptor (encode_descriptor old d) = d ∧
  length (encode_descriptor old d) = Z.to_nat frame_descriptor_size.
Proof.
  intros. split; [by apply decode_encode_descriptor|by apply length_encode_descriptor].
Qed.

Lemma descriptor_roundtrip_witness :
  let d := frame_descriptor_new Lc3Sdu_kind 42 in
  decode_descriptor (encode_descriptor (zeros 64) d) = d ∧
  length (encode_descriptor (zeros 64) d) = 64%nat.
Proof. intros d. apply (descriptor_roundtrip (zeros 64) d); vm_compute; reflexivity. Defined.

(** ** Geometry *)

Lemma land_lnot_align x : 0 <= x < 2 ^ 64 →
  Z.land x (Z.lnot (64 - 1) mod 2 ^ 64) = 64 * (x / 64).
Proof.
  intros Hx. change (64 - 1) with (Z.ones 6).
  assert (Z.land x (Z.lnot (Z.ones 6) mod 2 ^ 64) = Z.ldiff x (Z.ones 6)) as ->.
  { apply Z.bits_inj'. intros i Hi.
    rewrite Z.ldiff_spec, Z.land_spec.
    destruct (decide (i < 64)).
    - by rewrite Z.mod_pow2_bits_low, Z.lnot_spec by lia.
    - rewrite (Z.bits_above_log2 x i); [done|lia|].
      destruct (decide (x = 0)) as [->|]; [cbn; lia|].
      apply Z.log2_lt_pow2; [lia|]. apply Z.lt_le_trans with (2 ^ 64); [lia|].
      apply Z.pow_le_mono_r; lia. }
  rewrite Z.ldiff_ones_r by lia.
  rewrite Z.shiftl_mul_pow2, Z.shiftr_div_pow2 by lia. change (2 ^ 6) with 64. lia.
Qed.

Lemma align_up_Ok v : 0 <= v < 2 ^ 63 →
  align_up v CACHE_LINE = Ok (64 * ((v + 63) / 64)).
Proof.
  intros. unfold align_up, CACHE_LINE. rewrite add_u_in_range by lia. cbn [rbind].
  rewrite land_lnot_align by lia. do 3 f_equal. lia.
Qed.

(** The stride of a slot: descriptor and payload, rounded up to a cache line. *)
Definition stride_of (payload_capacity : Z) : Z := 64 * ((64 + payload_capacity + 63) / 64).

Lemma stride_of_bounds cap : 0 <= cap →
  64 + cap <= stride_of cap < 64 + cap + 64 ∧ stride_of cap mod 64 = 0.
Proof.
  intros. unfold stride_of.
  pose proof (Z.div_mod (64 + cap + 63) 64 ltac:(lia)).
  pose proof (Z.mod_pos_bound (64 + cap + 63) 64 ltac:(lia)).
  split; [lia|]. rewrite Z.mul_comm. apply Z.mod_mul. lia.
Qed.

Lemma ring_geometry_Ok n cap stride len :
  is_u32 n = true → is_u32 cap = true →
  ring_geometry n cap = Ok (stride, len) →
  2 <= n ∧ 0 < cap ∧ stride = stride_of cap ∧ stride < 2 ^ 32 ∧
  len = ring_header_size + stride * n.
Proof.
  intros Hn Hc H. b2p. unfold ring_geometry in H. inv_ok. b2p.
  unfold checked_add, checked_mul, frame_descriptor_size in *. repeat case_match; simplify_eq.
  rewrite align_up_Ok in * by lia. simplify_eq. b2p. unfold stride_of. lia.
Qed.

(** The slot at index [i] starts inside of the mapping and its descriptor and
    payload end inside of it, before the next slot. *)
Definition slot_pos (stride i : Z) : nat := Z.to_nat (ring_header_size + i * stride).

Lemma mul_step j n s : 0 <= s → j < n → j * s + s <= s * n.
Proof. nia. Qed.

Lemma slot_pos_disjoint stride i j : 0 <= i → 0 <= j → 0 <= stride → i ≠ j →
  (slot_pos stride i + Z.to_nat stride <= slot_pos stride j ∨
   slot_pos stride j + Z.to_nat stride <= slot_pos stride i)%nat.
Proof. intros. unfold slot_pos, ring_header_size. assert (i < j ∨ j < i) as [|] by lia; nia. Qed.

Lemma slot_pos_ge stride i : 0 <= i → 0 <= stride → (256 <= slot_pos stride i)%nat.
Proof. intros. unfold slot_pos, ring_header_size. nia. Qed.

(** ** Representation of a queue of frames

    The cursors in memory are 64-bit; [T] and [H] are the unbounded numbers of
    frames consumed and published so far, and [q] the frames in between. *)

Abbreviation frame := (FrameDescriptor * memory)%type.

Section representation.
Context (n stride cap : Z).

(** The six geometry fields of the header. *)
Definition geometry (mem : memory) : Prop :=
  load 4 0 mem = RING_MAGIC ∧ load 2 4 mem = WIRELESS_AUDIO_ABI_VERSION ∧
  load 2 6 mem = ring_header_size ∧ load 4 8 mem = n ∧ load 4 12 mem = stride ∧
  load 4 16 mem = cap.

(** A complete frame in slot [j]. *)
Definition frame_at (mem : memory) (j : Z) (f : frame) : Prop :=
  decode_descriptor (slice (slot_pos stride j) 64 mem) = fst f ∧
  slice (slot_pos stride j + 64) (length (snd f)) mem = snd f ∧
  fd_abi_version (fst f) = WIRELESS_AUDIO_ABI_VERSION ∧
  fd_header_bytes (fst f) = frame_descriptor_size ∧
  fd_payload_bytes (fst f) = Z.of_nat (length (snd f)) ∧
  Z.of_nat (length (snd f)) <= cap.

Record sizes_ok : Prop := {
  so_n : 2 <= n < 2 ^ 32;
  so_cap : 0 < cap < 2 ^ 32;
  so_stride : 64 + cap <= stride < 2 ^ 32;
  so_align : stride mod 64 = 0;
}.

Record ring_rep (mem : memory) (T H : Z) (q : list frame) : Prop := {
  rr_sizes : sizes_ok;
  rr_len : length mem = Z.to_nat (ring_header_size + stride * n);
  rr_geometry : geometry mem;
  rr_head : load 8 head_off mem = H mod 2 ^ 64;
  rr_tail : load 8 tail_off mem = T mod 2 ^ 64;
  rr_order : 0 <= T <= H;
  rr_count : H - T = Z.of_nat (length q);
  rr_bound : H - T <= n;
  rr_frames : ∀ i f, q !! i = Some f → frame_at mem ((T + Z.of_nat i) mod n) f;
}.

(** Cursor values up to [H] select slot [H mod n]: always when the slot count
    divides 2^64, and before the first wrap-around otherwise. *)
Definition wrap_ok (H : Z) : Prop := 2 ^ 64 mod n = 0 ∨ H < 2 ^ 64.

Lemma slot_index_wrap H k :
  0 < n → wrap_ok H → 0 <= k <= H → (k mod 2 ^ 64) mod n = k mod n.
Proof.
  intros Hn [Hd|Hlt] Hk; [|by rewrite (Z.mod_small k (2 ^ 64)) by lia].
  apply Z.mod_mod_divide, Z.mod_divide; lia.
Qed.

Lemma slot_index_distinct k1 k2 :
  0 < n → k1 < k2 < k1 + n → k1 mod n ≠ k2 mod n.
Proof.
  intros Hn Hk Heq.
  pose proof (Z.div_mod k1 n). pose proof (Z.div_mod k2 n).
  assert (k2 - k1 = n * (k2 / n - k1 / n)) by lia.
  assert (0 < k2 / n - k1 / n < 1); [nia|lia].
Qed.

Lemma slot_fits mem T H q j :
  ring_rep mem T H q → 0 <= j < n →
  (slot_pos stride j + Z.to_nat stride <= length mem)%nat.
Proof.
  intros [[Hn Hc Hs _] -> _ _ _ _ _ _ _] Hj. unfold slot_pos, ring_header_size.
  pose proof (mul_step j n stride ltac:(lia) ltac:(lia)). nia.
Qed.

(** A write of [k] at [o] that misses the header's first 192 bytes' fields. *)
Lemma geometry_inserts mem o k : (20 <= o)%nat → geometry mem → geometry (list_inserts o k mem).
Proof.
  intros Ho. unfold geometry. by rewrite !load_inserts_other by lia.
Qed.

Lemma frame_at_inserts mem o k j f :
  (o + length k <= slot_pos stride j ∨ slot_pos stride j + Z.to_nat stride <= o)%nat →
  64 + cap <= stride →
  frame_at mem j f → frame_at (list_inserts o k mem) j f.
Proof.
  intros Hd Hs (? & ? & ? & ? & ? & Hc).
  unfold frame_at. rewrite !slice_inserts_disjoint by lia. done.
Qed.

(** Writing into the free slot at the head leaves the queue as it is. *)
Lemma ring_rep_write_free mem T H q o k :
  ring_rep mem T H q → H - T < n →
  (slot_pos stride (H mod n) <= o)%nat →
  (o + length k <= slot_pos stride (H mod n) + Z.to_nat stride)%nat →
  ring_rep (list_inserts o k mem) T H q.
Proof.
  intros R Hfree Ho1 Ho2. pose proof R as [[Hn Hc Hs Ha] Hl Hg Hh Ht Hord Hcnt Hb Hf].
  assert (0 <= H mod n < n) as Hj by (apply Z.mod_pos_bound; lia).
  pose proof (slot_pos_ge stride (H mod n) ltac:(lia) ltac:(lia)).
  split; try done.
  - by rewrite length_inserts.
  - apply geometry_inserts; [lia|done].
  - rewrite load_inserts_other; [done|unfold head_off; lia].
  - rewrite load_inserts_other; [done|unfold tail_off; lia].
  - intros i f Hi. apply frame_at_inserts; [|lia|by apply Hf].
    pose proof (lookup_lt_Some _ _ _ Hi).
    assert ((T + Z.of_nat i) mod n ≠ H mod n) by (apply slot_index_distinct; lia).
    assert (0 <= (T + Z.of_nat i) mod n < n) by (apply Z.mod_pos_bound; lia).
    destruct (slot_pos_disjoint stride ((T + Z.of_nat i) mod n) (H mod n)); lia.
Qed.

(** The cursor and statistics stores. *)
Lemma ring_rep_store_dropped mem T H q v :
  ring_rep mem T H q → ring_rep (store 8 dropped_off v mem) T H q.
Proof.
  intros [Hs Hl Hg Hh Ht Ho Hc Hb Hf]. unfold dropped_off. split; try done.
  - by rewrite length_store.
  - apply geometry_inserts; [lia|done].
  - rewrite load_store_other; [done|unfold head_off; lia].
  - rewrite load_store_other; [done|unfold tail_off; lia].
  - intros i f Hi. destruct Hs as [Hn Hcap Hst Ha].
    apply frame_at_inserts; [|lia|by apply Hf].
    pose proof (slot_pos_ge stride ((T + Z.of_nat i) mod n)).
    pose proof (Z.mod_pos_bound (T + Z.of_nat i) n). rewrite length_le_split. lia.
Qed.

Lemma ring_rep_publish mem T H q f :
  ring_rep mem T H q → H - T < n → frame_at mem (H mod n) f →
  ring_rep (store 8 head_off ((H + 1) mod 2 ^ 64) mem) T (H + 1) (q ++ [f]).
Proof.
  intros R Hfree Hfr. pose proof R as [[Hn Hcap Hst Ha] Hl Hg Hh Ht Ho Hc Hb Hf].
  unfold head_off. split; try done; try lia.
  - by rewrite length_store.
  - apply geometry_inserts; [lia|done].
  - unfold head_off. rewrite load_store_same by (unfold ring_header_size in *; nia).
    change (8 * Z.of_nat 8) with 64. by rewrite Z.mod_mod by lia.
  - rewrite load_store_other; [done|unfold tail_off; lia].
  - rewrite length_app. cbn. lia.
  - intros i g Hi. pose proof (slot_pos_ge stride ((T + Z.of_nat i) mod n)).
    pose proof (Z.mod_pos_bound (T + Z.of_nat i) n).
    apply frame_at_inserts; [rewrite length_le_split; lia|lia|].
    apply lookup_app_Some in Hi as [Hi|[Hge Hi]]; [by apply Hf|].
    apply list_lookup_singleton_Some in Hi as [Hz <-].
    replace (T + Z.of_nat i) with H by lia. done.
Qed.

Lemma ring_rep_release mem T H f q :
  ring_rep mem T H (f :: q) →
  ring_rep (store 8 tail_off ((T + 1) mod 2 ^ 64) mem) (T + 1) H q.
Proof.
  intros R. pose proof R as [[Hn Hcap Hst Ha] Hl Hg Hh Ht Ho Hc Hb Hf].
  cbn in Hc. unfold tail_off. split; try done; try lia.
  - by rewrite length_store.
  - apply geometry_inserts; [lia|done].
  - rewrite load_store_other; [done|unfold head_off; lia].
  - unfold tail_off. rewrite load_store_same by (unfold ring_header_size in *; nia).
    change (8 * Z.of_nat 8) with 64. by rewrite Z.mod_mod by lia.
  - intros i g Hi. pose proof (slot_pos_ge stride ((T + 1 + Z.of_nat i) mod n)).
    pose proof (Z.mod_pos_bound (T + 1 + Z.of_nat i) n).
    apply frame_at_inserts; [rewrite length_le_split; lia|lia|].
    replace (T + 1 + Z.of_nat i) with (T + Z.of_nat (S i)) by lia. by apply Hf.
Qed.
End representation.

(** ** Operations on a represented ring *)

Lemma wrapping_sub_mod a b :
  0 <= a - b < 2 ^ 64 → wrapping_sub 64 (a mod 2 ^ 64) (b mod 2 ^ 64) = a - b.
Proof.
  intros. unfold wrapping_sub. rewrite <- Zminus_mod. by apply Z.mod_small.
Qed.

Lemma wrapping_add_mod a b :
  wrapping_add 64 (a mod 2 ^ 64) b = (a + b) mod 2 ^ 64.
Proof. unfold wrapping_add. by rewrite Zplus_mod_idemp_l. Qed.

Section refinement.
Context {E : Type} `{EventFd E}.
Context (n stride cap : Z).
Implicit Types (s : Shared E) (q : list frame) (T K : Z).

Abbreviation rep := (ring_rep n stride cap).

Lemma slot_Ok mem T K q k :
  rep mem T K q → wrap_ok n K → 0 <= k <= K →
  slot mem (k mod 2 ^ 64) = Ok (ring_header_size + k mod n * stride).
Proof.
  intros R Hw Hk. pose proof R as [[Hn Hc Hs Ha] _ (_ & _ & _ & Hgn & Hgs & _) _ _ _ _ _ _].
  unfold slot. cbn [read_header rh_slot_count rh_slot_stride]. rewrite Hgn, Hgs.
  rewrite (proj2 (Z.eqb_neq n 0)) by lia. rewrite (slot_index_wrap n K k) by (done || lia).
  pose proof (Z.mod_pos_bound k n ltac:(lia)).
  assert (0 <= k mod n * stride <= (n - 1) * (2 ^ 32 - 1)) by nia.
  rewrite mul_u_in_range by nia. cbn [rbind]. unfold ring_header_size.
  apply add_u_in_range. nia.
Qed.

Lemma try_reserve_full s T K q :
  rep (sh_mem s) T K q → K - T = n →
  try_reserve s =
  (Ok None, set_mem (store 8 dropped_off
     (wrapping_add 64 (load 8 dropped_off (sh_mem s)) 1) (sh_mem s)) s).
Proof.
  intros R Hf. pose proof R as [[Hn _ _ _] _ (_ & _ & _ & Hgn & _ & _) Hh Ht Ho _ Hb _].
  unfold try_reserve, mgets, mbind. cbn [read_header rh_slot_count].
  rewrite Hh, Ht, Hgn, wrapping_sub_mod by lia.
  by rewrite (proj2 (Z.leb_le _ _)) by lia.
Qed.

Lemma try_reserve_free s T K q :
  rep (sh_mem s) T K q → K - T < n → wrap_ok n K →
  try_reserve s =
  (Ok (Some {| pl_slot := ring_header_size + K mod n * stride;
               pl_head := K mod 2 ^ 64; pl_committed := false |}), s).
Proof.
  intros R Hf Hw. pose proof R as [[Hn _ _ _] _ (_ & _ & _ & Hgn & _ & _) Hh Ht Ho _ Hb _].
  unfold try_reserve, mgets, mbind. cbn [read_header rh_slot_count].
  rewrite Hh, Ht, Hgn, wrapping_sub_mod by lia.
  rewrite (proj2 (Z.leb_gt _ _)) by lia. unfold lift.
  by rewrite (slot_Ok (sh_mem s) T K q K) by (done || lia).
Qed.

Lemma rep_capacity s T K q :
  rep (sh_mem s) T K q → lease_capacity s = (Ok cap, s).
Proof.
  intros [_ _ (_ & _ & _ & _ & _ & Hg) _ _ _ _ _ _].
  unfold lease_capacity, mgets. cbn. by rewrite Hg.
Qed.

(** The access of the reserved slot stays inside of the mapping. *)
Lemma rep_in_mapping mem T K q k o m :
  rep mem T K q → 0 <= o → 0 <= m → o + m <= stride →
  in_mapping (ring_header_size + k mod n * stride + o) m mem = true.
Proof.
  intros R Ho Hm Hom. pose proof R as [[Hn Hc Hs _] _ _ _ _ _ _ _ _].
  pose proof (Z.mod_pos_bound k n ltac:(lia)) as Hj.
  pose proof (slot_fits n stride cap _ _ _ _ (k mod n) R Hj) as Hfit.
  unfold in_mapping. unfold slot_pos, ring_header_size in *.
  assert (0 <= k mod n * stride) by nia.
  apply andb_true_iff; split; apply Z.leb_le; lia.
Qed.

Lemma rep_access s T K q k o m :
  rep (sh_mem s) T K q → 0 <= o → 0 <= m → o + m <= stride →
  check_access (ring_header_size + k mod n * stride + o) m s = (Ok tt, s).
Proof. intros. unfold check_access. by erewrite rep_in_mapping. Qed.

Lemma lease_write_spec s T K q bytes c :
  rep (sh_mem s) T K q → K - T < n → Z.of_nat (length bytes) <= cap →
  let lease := {| pl_slot := ring_header_size + K mod n * stride;
                  pl_head := K mod 2 ^ 64; pl_committed := c |} in
  let mem' := list_inserts (slot_pos stride (K mod n) + 64) bytes (sh_mem s) in
  lease_write lease bytes s = (Ok tt, set_mem mem' s) ∧ rep mem' T K q.
Proof.
  intros R Hf Hb lease mem'. pose proof R as [[Hn Hc Hs _] _ _ _ _ Ho _ _ _].
  pose proof (Z.mod_pos_bound K n ltac:(lia)) as Hj.
  split.
  - unfold lease_write. rewrite (mbind_step _ _ _ _ _ (rep_capacity s T K q R)).
    cbn [pl_slot lease]. unfold frame_descriptor_size.
    erewrite mbind_step by (eapply rep_access; [exact R|lia..]).
    rewrite (proj2 (Z.ltb_ge _ _)) by lia. unfold mmodify, mem'. repeat f_equal.
    unfold slot_pos, ring_header_size. assert (0 <= K mod n * stride) by nia. lia.
  - apply ring_rep_write_free; try done; lia.
Qed.

(** What the publication leaves in the slot. *)
Lemma frame_at_stamped mem j d p :
  64 + cap <= stride → 0 < cap < 2 ^ 32 → Z.of_nat (length p) <= cap →
  (slot_pos stride j + Z.to_nat stride <= length mem)%nat →
  descriptor_typed d = true →
  slice (slot_pos stride j + 64) (length p) mem = p →
  frame_at stride cap
    (list_inserts (slot_pos stride j)
       (encode_descriptor (slice (slot_pos stride j) 64 mem)
          (stamp_descriptor d (Z.of_nat (length p)))) mem) j
    (stamp_descriptor d (Z.of_nat (length p)), p).
Proof.
  intros Hs Hc Hp Hl Ht Hpay.
  assert (length (slice (slot_pos stride j) 64 mem) = 64%nat) as Hold
    by (apply length_slice; lia).
  set (d' := stamp_descriptor d (Z.of_nat (length p))).
  assert (as_unsigned 32 (Z.of_nat (length p)) = Z.of_nat (length p)) as Hpb
    by (apply Z.mod_small; lia).
  assert (descriptor_typed d' = true) as Ht' by (apply stamp_typed; [done|lia]).
  pose proof (length_encode_descriptor (slice (slot_pos stride j) 64 mem) d' Hold) as Hlen.
  unfold frame_at. cbn [fst snd]. split; [|split; [|split; [|split; [|split]]]].
  - pose proof (slice_inserts_same (slot_pos stride j) (encode_descriptor
      (slice (slot_pos stride j) 64 mem) d') mem) as Hsl.
    rewrite Hlen in Hsl. rewrite Hsl by lia. by apply decode_encode_descriptor.
  - rewrite slice_inserts_disjoint by (rewrite Hlen; lia). done.
  - done.
  - done.
  - exact Hpb.
  - done.
Qed.

(** [commit] of a filled reservation publishes the frame; the eventfd may make
    it report an error, but the frame is published on every outcome. *)
Lemma commit_spec s T K q d p :
  rep (sh_mem s) T K q → K - T < n → wrap_ok n K →
  descriptor_typed d = true → Z.of_nat (length p) <= cap →
  slice (slot_pos stride (K mod n) + 64) (length p) (sh_mem s) = p →
  let lease := {| pl_slot := ring_header_size + K mod n * stride;
                  pl_head := K mod 2 ^ 64; pl_committed := false |} in
  ∃ mem', rep mem' T (K + 1) (q ++ [(stamp_descriptor d (Z.of_nat (length p)), p)]) ∧
    load 8 dropped_off mem' = load 8 dropped_off (sh_mem s) ∧
    commit lease d (Z.of_nat (length p)) s = signal_eventfd (set_mem mem' s).
Proof.
  intros R Hf Hw Ht Hp Hpay lease. pose proof R as [[Hn Hc Hs _] _ _ _ _ Ho _ _ _].
  pose proof (Z.mod_pos_bound K n ltac:(lia)) as Hj.
  pose proof (slot_fits n stride cap _ _ _ _ _ R Hj) as Hfit.
  pose proof (slot_pos_ge stride (K mod n) ltac:(lia) ltac:(lia)) as Hge.
  set (mem1 := list_inserts (slot_pos stride (K mod n))
     (encode_descriptor (slice (slot_pos stride (K mod n)) 64 (sh_mem s))
        (stamp_descriptor d (Z.of_nat (length p)))) (sh_mem s)).
  assert (length (encode_descriptor (slice (slot_pos stride (K mod n)) 64 (sh_mem s))
        (stamp_descriptor d (Z.of_nat (length p)))) = 64%nat) as Henc.
  { apply length_encode_descriptor, length_slice. lia. }
  exists (store 8 head_off ((K + 1) mod 2 ^ 64) mem1). split; [|split].
  - apply ring_rep_publish; [|done|apply frame_at_stamped; done || lia].
    apply ring_rep_write_free; try done; lia.
  - rewrite load_store_other by (unfold dropped_off, head_off; lia).
    apply load_inserts_other. unfold dropped_off. lia.
  - unfold commit. cbn [pl_committed pl_slot pl_head lease negb ensure].
    rewrite (mbind_step _ _ s tt s) by done.
    rewrite (mbind_step _ _ _ _ _ (rep_capacity s T K q R)).
    unfold ensure. rewrite (proj2 (Z.leb_le _ _)) by lia.
    rewrite (mbind_step _ _ s tt s) by done. rewrite (proj2 (Z.leb_le _ _)) by lia.
    rewrite (mbind_step _ _ s tt s) by done.
    erewrite mbind_step.
    2:{ pose proof (rep_access s T K q K 0 64 R) as Ha. rewrite Z.add_0_r in Ha.
        apply Ha; lia. }
    fold (slot_pos stride (K mod n)). unfold mbind, mmodify, set_mem. cbn [sh_mem sh_evt].
    by rewrite wrapping_add_mod.
Qed.

Lemma try_acquire_empty s T K :
  rep (sh_mem s) T K [] → try_acquire s = (Ok None, s).
Proof.
  intros [_ _ _ Hh Ht _ Hc _ _]. cbn in Hc. unfold try_acquire, mgets, mbind.
  rewrite Hh, Ht. replace K with T by lia. by rewrite Z.eqb_refl.
Qed.

Lemma cursors_differ T K : 0 < K - T < 2 ^ 64 → T mod 2 ^ 64 ≠ K mod 2 ^ 64.
Proof.
  intros Hd Heq. pose proof (wrapping_sub_mod K T ltac:(lia)) as Hs.
  rewrite Heq in Hs. unfold wrapping_sub in Hs.
  rewrite Z.sub_diag, Z.mod_0_l in Hs; lia.
Qed.

Lemma try_acquire_front s T K f q :
  rep (sh_mem s) T K (f :: q) → wrap_ok n K →
  try_acquire s =
  (Ok (Some {| fl_descriptor := fst f;
               fl_payload := ring_header_size + T mod n * stride + 64;
               fl_tail := T mod 2 ^ 64 |}), s).
Proof.
  intros R Hw. pose proof R as [[Hn Hc Hs _] _ (_ & _ & _ & _ & _ & Hg) Hh Ht Ho Hcnt Hb Hf].
  cbn [length] in Hcnt.
  destruct (Hf 0%nat f eq_refl) as (Hd & Hp & Habi & Hhb & Hpb & Hle).
  replace (T + Z.of_nat 0) with T in * by lia.
  unfold try_acquire. rewrite (mbind_step _ _ s (sh_mem s) s) by done. rewrite Hh, Ht.
  rewrite (proj2 (Z.eqb_neq _ _)) by (apply cursors_differ; lia).
  rewrite (slot_Ok (sh_mem s) T K (f :: q) T) by (done || lia).
  rewrite (mbind_step _ _ s (ring_header_size + T mod n * stride) s) by done.
  erewrite mbind_step.
  2:{ pose proof (rep_access s T K (f :: q) T 0 64 R) as Ha. rewrite Z.add_0_r in Ha.
      apply Ha; lia. }
  fold (slot_pos stride (T mod n)).
  rewrite (mbind_step _ _ s (fst f) s) by (unfold mgets; by rewrite Hd).
  rewrite Habi, Hhb, Hpb. cbn [read_header rh_payload_capacity]. rewrite Hg.
  unfold ensure. rewrite (mbind_step _ _ s tt s) by done.
  rewrite (mbind_step _ _ s tt s) by done.
  rewrite (proj2 (Z.leb_le _ _)) by lia. by rewrite (mbind_step _ _ s tt s) by done.
Qed.

Lemma lease_payload_front s T K f q :
  rep (sh_mem s) T K (f :: q) →
  lease_payload {| fl_descriptor := fst f;
                   fl_payload := ring_header_size + T mod n * stride + 64;
                   fl_tail := T mod 2 ^ 64 |} s = (Ok (snd f), s).
Proof.
  intros R. pose proof R as [[Hn Hc Hs _] _ _ _ _ Ho _ _ Hf].
  destruct (Hf 0%nat f eq_refl) as (Hd & Hp & _ & _ & Hpb & Hle).
  replace (T + Z.of_nat 0) with T in * by lia.
  unfold lease_payload. cbn [fl_payload fl_descriptor]. rewrite Hpb.
  erewrite mbind_step by (eapply rep_access; [exact R|lia..]).
  unfold mgets. do 2 f_equal. rewrite Nat2Z.id. rewrite <- Hp at 2. f_equal.
  unfold slot_pos, ring_header_size.
  pose proof (Z.mod_pos_bound T n ltac:(lia)). assert (0 <= T mod n * stride) by nia. lia.
Qed.

Lemma drop_lease_front s T K f q d o :
  rep (sh_mem s) T K (f :: q) →
  let lease := {| fl_descriptor := d; fl_payload := o; fl_tail := T mod 2 ^ 64 |} in
  ∃ mem', drop_lease lease s = (Ok tt, set_mem mem' s) ∧ rep mem' (T + 1) K q ∧
          load 8 dropped_off mem' = load 8 dropped_off (sh_mem s).
Proof.
  intros R lease. exists (store 8 tail_off ((T + 1) mod 2 ^ 64) (sh_mem s)).
  split; [|split; [by eapply ring_rep_release|]].
  - unfold drop_lease, mmodify. cbn [lease fl_tail]. by rewrite wrapping_add_mod.
  - by rewrite load_store_other by (unfold dropped_off, tail_off; lia).
Qed.

(** *** The abstract queue *)

Record BQueue := { bq_frames : list frame; bq_dropped : Z }.

Definition bq_push (d : FrameDescriptor) (p : memory) (b : BQueue) : result bool * BQueue :=
  if n <=? Z.of_nat (length (bq_frames b)) then
    (Ok false, {| bq_frames := bq_frames b; bq_dropped := (bq_dropped b + 1) mod 2 ^ 64 |})
  else if cap <? Z.of_nat (length p) then (Err ["payload exceeds ring slot"], b)
  else (Ok true, {| bq_frames := bq_frames b ++ [(stamp_descriptor d (Z.of_nat (length p)), p)];
                    bq_dropped := bq_dropped b |}).

Definition bq_pop (b : BQueue) : result (option frame) * BQueue :=
  match bq_frames b with
  | [] => (Ok None, b)
  | f :: q => (Ok (Some f), {| bq_frames := q; bq_dropped := bq_dropped b |})
  end.

(** The ring [s] implements the queue [b]. *)
Definition implements (s : Shared E) (b : BQueue) (T K : Z) : Prop :=
  rep (sh_mem s) T K (bq_frames b) ∧ load 8 dropped_off (sh_mem s) = bq_dropped b.

(** Documented behaviour of an eventfd: an eight-byte write of 1 succeeds, or
    fails with [EAGAIN] when the counter is saturated. *)
Definition eventfd_signals : Prop :=
  ∀ e : E, fst (ev_write 1 e) = 8 ∨ ev_errno (snd (ev_write 1 e)) = EAGAIN.

Lemma signal_eventfd_Ok s :
  eventfd_signals → ∃ e, signal_eventfd s = (Ok tt, {| sh_mem := sh_mem s; sh_evt := e |}).
Proof.
  intros Hs. specialize (Hs (sh_evt s)). unfold signal_eventfd.
  destruct (ev_write 1 (sh_evt s)) as [r e]. cbn in Hs. exists e.
  destruct (Z.eqb_spec r 8); [done|]. destruct Hs as [Hs|Hs]; [done|by rewrite Hs].
Qed.

Lemma try_push_copy_sim s b T K d p :
  eventfd_signals → implements s b T K → wrap_ok n K → descriptor_typed d = true →
  let '(r, s') := try_push_copy d p s in
  let '(r', b') := bq_push d p b in
  r = r' ∧ ∃ K', K <= K' <= K + 1 ∧ implements s' b' T K'.
Proof.
  intros Hev [R Hdr] Hw Ht. pose proof R as [[Hn Hc Hs _] Hl _ _ _ Ho Hcnt Hb _].
  unfold try_push_copy, bq_push.
  destruct (n <=? _) eqn:Hfull; b2p.
  { rewrite (mbind_step _ _ _ _ _ (try_reserve_full s T K _ R ltac:(lia))).
    split; [done|]. exists K. split; [lia|]. split; [by apply ring_rep_store_dropped|].
    cbn [sh_mem set_mem bq_dropped]. unfold dropped_off.
    rewrite load_store_same by (unfold ring_header_size in *; nia).
    change (8 * Z.of_nat 8) with 64. unfold wrapping_add. rewrite Z.mod_mod by lia.
    by fold dropped_off; rewrite Hdr. }
  rewrite (mbind_step _ _ _ _ _ (try_reserve_free s T K _ R ltac:(lia) Hw)).
  rewrite (mbind_step _ _ _ _ _ (rep_capacity s T K _ R)).
  destruct (cap <? _) eqn:Hlong; b2p.
  { unfold ensure. rewrite (proj2 (Z.leb_gt _ _)) by lia. cbn.
    split; [done|]. exists K. by split; [lia|]. }
  unfold ensure. rewrite (proj2 (Z.leb_le _ _)) by lia.
  rewrite (mbind_step _ _ s tt s) by done.
  destruct (lease_write_spec s T K _ p false R ltac:(lia) Hlong) as [Hwr R1].
  rewrite (mbind_step _ _ _ _ _ Hwr).
  destruct (commit_spec (set_mem _ s) T K _ d p R1 ltac:(lia) Hw Ht Hlong)
    as (mem' & R2 & Hdr' & Hcm).
  { apply slice_inserts_same. cbn.
    pose proof (slot_fits n stride cap _ _ _ _ (K mod n) R) as Hfit.
    pose proof (Z.mod_pos_bound K n). lia. }
  destruct (signal_eventfd_Ok (set_mem mem' (set_mem (list_inserts
    (slot_pos stride (K mod n) + 64) p (sh_mem s)) s)) Hev) as [e He].
  rewrite He in Hcm. rewrite (mbind_step _ _ _ _ _ Hcm).
  split; [done|]. exists (K + 1). split; [lia|]. split; [done|].
  cbn [sh_mem bq_dropped set_mem] in *. rewrite Hdr', <- Hdr.
  apply load_inserts_other. unfold dropped_off.
  pose proof (slot_pos_ge stride (K mod n)). pose proof (Z.mod_pos_bound K n). lia.
Qed.

Lemma pop_copy_sim s b T K :
  implements s b T K → wrap_ok n K →
  let '(r, s') := pop_copy s in
  let '(r', b') := bq_pop b in
  r = r' ∧ ∃ T', implements s' b' T' K.
Proof.
  intros [R Hdr] Hw. unfold pop_copy, bq_pop. destruct b as [frames dr].
  cbn [bq_frames] in *. destruct frames as [|f q].
  { rewrite (mbind_step _ _ _ _ _ (try_acquire_empty s T K R)). split; [done|]. by exists T. }
  rewrite (mbind_step _ _ _ _ _ (try_acquire_front s T K f q R Hw)).
  rewrite (mbind_step _ _ _ _ _ (lease_payload_front s T K f q R)).
  destruct (drop_lease_front s T K f q (fst f) (ring_header_size + T mod n * stride + 64) R)
    as (mem' & Hd & R' & Hdr').
  rewrite (mbind_step _ _ _ _ _ Hd). cbn [fl_descriptor]. split; [by destruct f|].
  exists (T + 1). split; [done|]. cbn [sh_mem set_mem bq_dropped] in *. by rewrite Hdr'.
Qed.

(** The two counters are those of the queue. *)
Lemma counters_sim s b T K :
  implements s b T K →
  dropped_frames s = (Ok (bq_dropped b), s) ∧
  queued_frames s = (Ok (Z.of_nat (length (bq_frames b))), s).
Proof.
  intros [R Hdr]. pose proof R as [[Hn _ _ _] _ _ Hh Ht _ Hcnt Hb _].
  unfold dropped_frames, queued_frames, mgets. rewrite Hdr, Hh, Ht, wrapping_sub_mod by lia.
  by rewrite Hcnt.
Qed.
End refinement.

(** ** Traces of operations *)

Inductive ring_op := OpPush (d : FrameDescriptor) (p : memory) | OpPop | OpDropped | OpQueued.

Inductive ring_out :=
| OutPush (r : result bool)
| OutPop (r : result (option frame))
| OutCount (r : result Z).

Definition ring_step {E} `{EventFd E} (op : ring_op) (s : Shared E) : ring_out * Shared E :=
  match op with
  | OpPush d p => let '(r, s) := try_push_copy d p s in (OutPush r, s)
  | OpPop => let '(r, s) := pop_copy s in (OutPop r, s)
  | OpDropped => let '(r, s) := dropped_frames s in (OutCount r, s)
  | OpQueued => let '(r, s) := queued_frames s in (OutCount r, s)
  end.

Definition queue_step (n cap : Z) (op : ring_op) (b : BQueue) : ring_out * BQueue :=
  match op with
  | OpPush d p => let '(r, b) := bq_push n cap d p b in (OutPush r, b)
  | OpPop => let '(r, b) := bq_pop b in (OutPop r, b)
  | OpDropped => (OutCount (Ok (bq_dropped b)), b)
  | OpQueued => (OutCount (Ok (Z.of_nat (length (bq_frames b)))), b)
  end.

(** Run a list of operations and collect what they return. *)
Fixpoint run {S : Type} (step : ring_op → S → ring_out * S) (ops : list ring_op) (s : S)
    : list ring_out * S :=
  match ops with
  | [] => ([], s)
  | op :: ops =>
      let '(o, s) := step op s in
      let '(os, s) := run step ops s in (o :: os, s)
  end.

Definition op_typed (op : ring_op) : bool :=
  match op with OpPush d _ => descriptor_typed d | _ => true end.

Section traces.
Context {E : Type} `{EventFd E} (n stride cap : Z).

Lemma run_sim ops : ∀ (s : Shared E) b T K,
  eventfd_signals (E := E) → forallb op_typed ops = true →
  (2 ^ 64 mod n = 0 ∨ K + Z.of_nat (length ops) <= 2 ^ 64) →
  implements n stride cap s b T K →
  fst (run ring_step ops s) = fst (run (queue_step n cap) ops b) ∧
  ∃ T' K', implements n stride cap (snd (run ring_step ops s))
             (snd (run (queue_step n cap) ops b)) T' K'.
Proof.
  induction ops as [|op ops IH]; intros s b T K Hev Ht Hw Hi; [cbn; eauto|].
  cbn [forallb] in Ht. apply andb_true_iff in Ht as [Hop Ht]. cbn [length] in Hw.
  assert (wrap_ok n K) as Hwk by (destruct Hw; [by left|right; lia]).
  destruct (counters_sim n stride cap s b T K Hi) as [Hdropped Hqueued].
  assert (2 ^ 64 mod n = 0 ∨ K + Z.of_nat (length ops) <= 2 ^ 64) as Hw'
    by (destruct Hw; [by left|right; lia]).
  cbn [run]. destruct op as [d p| | |]; cbn [ring_step queue_step].
  - pose proof (try_push_copy_sim n stride cap s b T K d p Hev Hi Hwk Hop) as Hsim.
    destruct (try_push_copy d p s) as [r s1], (bq_push n cap d p b) as [r' b1].
    destruct Hsim as [<- (K' & HK & Hi')].
    destruct (IH s1 b1 T K' Hev Ht ltac:(destruct Hw; [by left|right; lia]) Hi')
      as [Hout Hfin].
    destruct (run ring_step ops s1), (run (queue_step n cap) ops b1). cbn in *.
    by rewrite Hout.
  - pose proof (pop_copy_sim n stride cap s b T K Hi Hwk) as Hsim.
    destruct (pop_copy s) as [r s1], (bq_pop b) as [r' b1].
    destruct Hsim as [<- (T' & Hi')].
    destruct (IH s1 b1 T' K Hev Ht Hw' Hi') as [Hout Hfin].
    destruct (run ring_step ops s1), (run (queue_step n cap) ops b1). cbn in *.
    by rewrite Hout.
  - rewrite Hdropped. destruct (IH s b T K Hev Ht Hw' Hi) as [Hout Hfin].
    destruct (run ring_step ops s), (run (queue_step n cap) ops b). cbn in *. by rewrite Hout.
  - rewrite Hqueued. destruct (IH s b T K Hev Ht Hw' Hi) as [Hout Hfin].
    destruct (run ring_step ops s), (run (queue_step n cap) ops b). cbn in *. by rewrite Hout.
Qed.
End traces.

(** ** A freshly created ring *)

Lemma load_fresh n off h m :
  (off + n <= 256)%nat → (256 <= m)%nat →
  load n off (list_inserts 0 (encode_header h) (zeros m)) = load n off (encode_header h).
Proof.
  intros. unfold load. f_equal. rewrite slice_inserts_sub;
    rewrite ?length_encode_header, ?length_zeros; try lia. by rewrite Nat.sub_0_r.
Qed.

Lemma fresh_ring_rep n cap mem :
  is_u32 n = true → is_u32 cap = true → fresh_ring n cap = Ok mem →
  ring_rep n (stride_of cap) cap mem 0 0 [] ∧ load 8 dropped_off mem = 0.
Proof.
  intros Hn Hc Hf. unfold fresh_ring in Hf. inv_ok. destruct x as [stride len].
  cbn [fst snd] in *. destruct (ring_geometry_Ok n cap stride len Hn Hc) as (H2 & Hc0 & -> & Hs & ->);
    [done|]. b2p. destruct (stride_of_bounds cap ltac:(lia)) as [Hst Hal].
  unfold ring_header_size.
  set (h := initial_header n (stride_of cap) cap).
  assert (256 <= Z.to_nat (256 + stride_of cap * n))%nat by nia.
  split; [|rewrite load_fresh by (unfold dropped_off; lia); unfold dropped_off, encode_header;
           by load_field].
  split; try done.
  - by split; [lia..|].
  - by rewrite length_inserts, length_zeros.
  - unfold geometry. rewrite !load_fresh by lia. unfold encode_header, as_unsigned in *.
    repeat split; load_field; cbn [h initial_header rh_magic rh_abi_version rh_header_bytes
      rh_slot_count rh_slot_stride rh_payload_capacity]; try done;
      unfold as_unsigned; rewrite !Z.mod_small; try done; try lia;
      rewrite ?Z.mod_small; lia.
  - rewrite load_fresh by (unfold head_off; lia). unfold head_off, encode_header.
    by load_field.
  - rewrite load_fresh by (unfold tail_off; lia). unfold tail_off, encode_header.
    by load_field.
  - cbn. lia.
Qed.

(** C1. Refinement: on a ring created for [n] slots of [cap] payload bytes, any
    sequence of pushes, pops and reads of the two counters returns exactly what a
    bounded FIFO queue of [n] frames returns: frames come out complete,
    unmodified and in order, a push on a full ring returns [false] and is counted
    by [dropped_frames], [queued_frames] is the number of frames in the queue, a
    payload that is too long is an error that changes nothing, and no operation
    accesses memory outside of the mapping.  The slot count divides 2^64 or the
    cursors do not wrap. *)
Theorem ring_refines_bounded_queue {E} `{EventFd E} n cap mem (e : E) ops :
  is_u32 n = true → is_u32 cap = true → fresh_ring n cap = Ok mem →
  eventfd_signals (E := E) → forallb op_typed ops = true →
  (2 ^ 64 mod n = 0 ∨ Z.of_nat (length ops) <= 2 ^ 64) →
  fst (run ring_step ops {| sh_mem := mem; sh_evt := e |}) =
  fst (run (queue_step n cap) ops {| bq_frames := []; bq_dropped := 0 |}).
Proof.
  intros Hn Hc Hf Hev Ht Hw. destruct (fresh_ring_rep n cap mem Hn Hc Hf) as [R Hd].
  apply (run_sim n (stride_of cap) cap ops _ _ 0 0 Hev Ht); [|done].
  destruct Hw; [by left|by right].
Qed.

Lemma counter_eventfd_signals : eventfd_signals (E := counter_eventfd).
Proof. intros e. cbn. case_match; [by left|by right]. Qed.

Lemma ring_refines_bounded_queue_witness :
  let ops := [OpPush (frame_descriptor_new Lc3Sdu_kind 7) [Byte.x01; Byte.x02];
              OpPush (frame_descriptor_new Pcm_kind 8) [Byte.x03];
              OpPush (frame_descriptor_new Pcm_kind 9) []; OpDropped; OpQueued;
              OpPop; OpPop; OpPop] in
  match fresh_ring 2 16 with
  | Ok mem =>
      fst (run ring_step ops {| sh_mem := mem; sh_evt := fresh_eventfd |}) =
      fst (run (queue_step 2 16) ops {| bq_frames := []; bq_dropped := 0 |})
  | _ => False
  end.
Proof.
  intros ops. destruct (fresh_ring 2 16) as [mem|?|?|?] eqn:Hf;
    [|vm_compute in Hf; discriminate..].
  apply (ring_refines_bounded_queue 2 16 mem fresh_eventfd ops);
    [reflexivity|reflexivity|exact Hf|exact counter_eventfd_signals|vm_compute; reflexivity|].
  left. vm_compute. reflexivity.
Defined.

(** ** Cursor wrap-around *)

Lemma slot_geometry_Ok mem n stride k :
  load 4 8 mem = n → load 4 12 mem = stride → 2 <= n < 2 ^ 32 → 0 < stride < 2 ^ 32 →
  slot mem k = Ok (ring_header_size + k mod n * stride).
Proof.
  intros Hn Hs Hnb Hsb. unfold slot. cbn [read_header rh_slot_count rh_slot_stride].
  rewrite Hn, Hs, (proj2 (Z.eqb_neq n 0)) by lia.
  pose proof (Z.mod_pos_bound k n ltac:(lia)).
  assert (0 <= k mod n * stride <= (n - 1) * (2 ^ 32 - 1)) by nia.
  rewrite mul_u_in_range by nia. cbn [rbind]. unfold ring_header_size.
  apply add_u_in_range. nia.
Qed.

(** C30. The slots of any [n] consecutive cursor values are pairwise distinct,
    also across the wrap-around of the 64-bit cursors, exactly when the slot
    count divides 2^64.  For every other slot count that [create] accepts (3,
    say) two live frames share a slot when the cursors wrap. *)
Theorem slots_distinct_across_wrap_iff mem n stride :
  load 4 8 mem = n → load 4 12 mem = stride → 2 <= n < 2 ^ 32 → 0 < stride < 2 ^ 32 →
  (∀ i j, 0 <= i → i < j < i + n → slot mem (i mod 2 ^ 64) ≠ slot mem (j mod 2 ^ 64)) ↔
  2 ^ 64 mod n = 0.
Proof.
  intros Hn Hs Hnb Hsb. setoid_rewrite (slot_geometry_Ok mem n stride); try done. split.
  - intros Hd. destruct (decide (2 ^ 64 mod n = 0)) as [|Hr]; [done|]. exfalso.
    pose proof (Z.mod_pos_bound (2 ^ 64) n ltac:(lia)) as Hb.
    apply (Hd (2 ^ 64 - 2 ^ 64 mod n) (2 ^ 64)); [lia|lia|].
    rewrite Z.mod_same, Z.mod_0_l, (Z.mod_small (2 ^ 64 - _)) by lia.
    pose proof (Z.div_mod (2 ^ 64) n ltac:(lia)) as Hdm.
    replace (2 ^ 64 - 2 ^ 64 mod n) with (2 ^ 64 / n * n) by lia.
    by rewrite Z.mod_mul by lia.
  - intros Hd i j Hi Hj Heq. apply Ok_inj in Heq.
    rewrite !(slot_index_wrap n (i + n)) in Heq by (lia || by left).
    apply (slot_index_distinct n i j); [lia..|]. nia.
Qed.

Lemma slots_distinct_across_wrap_iff_witness :
  match fresh_ring 3 16 with
  | Ok mem =>
      ¬ (∀ i j, 0 <= i → i < j < i + 3 → slot mem (i mod 2 ^ 64) ≠ slot mem (j mod 2 ^ 64)) ∧
      slot mem (2 ^ 64 - 1) = slot mem (2 ^ 64 mod 2 ^ 64)
  | _ => False
  end.
Proof.
  destruct (fresh_ring 3 16) as [mem|?|?|?] eqn:Hf; [|vm_compute in Hf; discriminate..].
  assert (load 4 8 mem = 3 ∧ load 4 12 mem = 128 ∧
          slot mem (2 ^ 64 - 1) = slot mem (2 ^ 64 mod 2 ^ 64)) as (Hn & Hs & He).
  { vm_compute in Hf. apply Ok_inj in Hf. subst mem. vm_compute. auto. }
  split; [|exact He]. intros Hd.
  assert (2 ^ 64 mod 3 = 0) as H0; [|vm_compute in H0; discriminate].
  apply (slots_distinct_across_wrap_iff mem 3 128 Hn Hs); [lia|lia|exact Hd].
Defined.

(** ** What a failing wakeup leaves behind *)

(** C31. [commit] publishes the frame on every outcome of the wakeup: also when
    writing to the eventfd fails and [commit] returns that error, the frame is
    in the queue and the consumer will receive it. *)
Theorem commit_publishes_despite_eventfd_error
    {E} `{EventFd E} n stride cap (s : Shared E) T K q d p :
  ring_rep n stride cap (sh_mem s) T K q → K - T < n → wrap_ok n K →
  descriptor_typed d = true → Z.of_nat (length p) <= cap →
  slice (slot_pos stride (K mod n) + 64) (length p) (sh_mem s) = p →
  let lease := {| pl_slot := ring_header_size + K mod n * stride;
                  pl_head := K mod 2 ^ 64; pl_committed := false |} in
  ring_rep n stride cap (sh_mem (snd (commit lease d (Z.of_nat (length p)) s))) T (K + 1)
    (q ++ [(stamp_descriptor d (Z.of_nat (length p)), p)]).
Proof.
  intros R Hf Hw Ht Hp Hpay lease.
  destruct (commit_spec n stride cap s T K q d p R Hf Hw Ht Hp Hpay) as (mem' & R' & _ & Hc).
  unfold lease. rewrite Hc. unfold signal_eventfd. cbn [sh_mem set_mem sh_evt].
  destruct (ev_write 1 (sh_evt s)) as [r e].
  destruct (r =? 8); [done|]. by destruct (ev_errno e).
Qed.

(** An eventfd whose descriptor was closed under the producer. *)
Definition closed_eventfd_ops : EventFd unit := {|
  ev_write _ e := (-1, e); ev_read e := (-1, e); ev_readable e := (Ok tt, e);
  ev_errno _ := Eother "Bad file descriptor";
|}.

Lemma commit_publishes_despite_eventfd_error_witness :
  match fresh_ring 2 16 with
  | Ok mem =>
      let lease := {| pl_slot := ring_header_size + 0 mod 2 * stride_of 16;
                      pl_head := 0 mod 2 ^ 64; pl_committed := false |} in
      let out := @commit unit closed_eventfd_ops lease (frame_descriptor_new Pcm_kind 5)
                   (Z.of_nat (length (@nil byte))) {| sh_mem := mem; sh_evt := tt |} in
      fst out = Err ["Bad file descriptor"] ∧
      ring_rep 2 (stride_of 16) 16 (sh_mem (snd out)) 0 (0 + 1)
        [(stamp_descriptor (frame_descriptor_new Pcm_kind 5) 0, [])]
  | _ => False
  end.
Proof.
  destruct (fresh_ring 2 16) as [mem|?|?|?] eqn:Hf; [|vm_compute in Hf; discriminate..].
  cbv zeta. split.
  - vm_compute in Hf. apply Ok_inj in Hf. subst mem. vm_compute. reflexivity.
  - apply (@commit_publishes_despite_eventfd_error unit closed_eventfd_ops 2 (stride_of 16) 16
             {| sh_mem := mem; sh_evt := tt |} 0 0 [] (frame_descriptor_new Pcm_kind 5) []);
      [|lia|left; vm_compute; reflexivity|vm_compute; reflexivity|cbn; lia|reflexivity].
    apply (fresh_ring_rep 2 16); [reflexivity|reflexivity|exact Hf].
Defined.
