(* ===== verification/RingSafety.v ===== *)
(** * Memory safety of a ring received from another process

    [Producer::from_descriptor] and [Consumer::from_descriptor] map a memfd that
    another process made and check its header with [validate_header].  The
    contents of slots and cursors are then arbitrary.  The theorems say which
    accesses the operations make on such a ring, and which header the check
    lets through although its slots do not hold the payload it announces. *)

From S2P Require Import Prelude Types Bytes Ring RingSpec.

(** The memory part of [from_descriptor]: [validate_header] decides on the bytes
    of the file.  In a file shorter than a header the rest of its page reads as
    zeros, which is what [load] gives past the end. *)
Definition adopt_mapping (mem : memory) : result memory :=
  validate_header (read_header mem) (Z.of_nat (length mem)) ?;
  Ok mem.

Section adopted.
Context {E : Type} `{EventFd E}.
Implicit Types s : Shared E.

(** The slots hold a descriptor and a payload of the announced capacity. *)
Definition payload_fits (mem : memory) : Prop :=
  frame_descriptor_size + rh_payload_capacity (read_header mem) <= rh_slot_stride (read_header mem).

Lemma validate_header_Ok mem len :
  validate_header (read_header mem) len = Ok tt →
  2 <= rh_slot_count (read_header mem) < 2 ^ 32 ∧
  0 <= rh_slot_stride (read_header mem) < 2 ^ 32 ∧
  len = ring_header_size + rh_slot_stride (read_header mem) * rh_slot_count (read_header mem).
Proof.
  intros Hv. unfold validate_header in Hv. inv_ok. b2p.
  pose proof (load_range 4 8 mem) as Hn. pose proof (load_range 4 12 mem) as Hs.
  unfold mul_u, add_u in *. cbn [read_header rh_slot_count rh_slot_stride] in *.
  change (2 ^ (8 * Z.of_nat 4)) with (2 ^ 32) in *.
  repeat case_match; simplify_eq. lia.
Qed.

(** Whatever bytes the header has, its validation does not overflow. *)
Lemma validate_header_defined mem len : defined (validate_header (read_header mem) len) = true.
Proof.
  pose proof (load_range 4 8 mem) as Hn. pose proof (load_range 4 12 mem) as Hs.
  change (2 ^ (8 * Z.of_nat 4)) with (2 ^ 32) in *. unfold validate_header, ensure.
  cbn [read_header rh_slot_count rh_slot_stride].
  do 5 (case_match; [|done]; cbn [rbind]).
  rewrite mul_u_in_range by nia. cbn [rbind]. unfold ring_header_size.
  rewrite add_u_in_range by nia. cbn [rbind]. by case_match.
Qed.

(** The facts the operations need about an adopted mapping. *)
Record adopted (mem : memory) : Prop := {
  ad_len : (256 <= length mem)%nat;
  ad_count : 2 <= rh_slot_count (read_header mem) < 2 ^ 32;
  ad_stride : 0 <= rh_slot_stride (read_header mem) < 2 ^ 32;
  ad_map : Z.of_nat (length mem) =
           ring_header_size + rh_slot_stride (read_header mem) * rh_slot_count (read_header mem);
}.

Lemma adopt_mapping_Ok mem mem' : adopt_mapping mem = Ok mem' → mem' = mem ∧ adopted mem.
Proof.
  unfold adopt_mapping. intros Hv. inv_ok.
  split; [done|]. destruct x.
  destruct (validate_header_Ok mem' (Z.of_nat (length mem'))) as (? & ? & ?); [done|].
  unfold ring_header_size in *. split; try done. nia.
Qed.

Lemma adopted_slot mem i :
  adopted mem →
  slot mem i = Ok (ring_header_size +
    i mod rh_slot_count (read_header mem) * rh_slot_stride (read_header mem)).
Proof.
  intros [_ Hn Hs Hm]. unfold slot. rewrite (proj2 (Z.eqb_neq _ 0)) by lia.
  set (n := rh_slot_count _) in *. set (st := rh_slot_stride _) in *.
  pose proof (Z.mod_pos_bound i n ltac:(lia)).
  assert (0 <= i mod n * st <= (n - 1) * (2 ^ 32 - 1)) by nia.
  rewrite mul_u_in_range by nia. cbn [rbind]. unfold ring_header_size.
  apply add_u_in_range. nia.
Qed.

Lemma adopted_access s i o m :
  adopted (sh_mem s) → 0 <= o → 0 <= m →
  o + m <= rh_slot_stride (read_header (sh_mem s)) →
  check_access (ring_header_size + i mod rh_slot_count (read_header (sh_mem s)) *
                rh_slot_stride (read_header (sh_mem s)) + o) m s = (Ok tt, s).
Proof.
  intros [_ Hn Hs Hm] Ho Hm0 Hom. unfold check_access, in_mapping.
  set (n := rh_slot_count _) in *. set (st := rh_slot_stride _) in *.
  pose proof (Z.mod_pos_bound i n ltac:(lia)).
  pose proof (mul_step (i mod n) n st ltac:(lia) ltac:(lia)). unfold ring_header_size in *.
  assert (0 <= i mod n * st) by nia.
  by rewrite (proj2 (andb_true_iff _ _)) by (split; apply Z.leb_le; lia).
Qed.

Lemma payload_capacity_range s :
  adopted (sh_mem s) → 0 <= rh_payload_capacity (read_header (sh_mem s)) < 2 ^ 32.
Proof. intros _. apply (load_range 4 16). Qed.

Lemma signal_eventfd_defined s : defined (fst (signal_eventfd s)) = true.
Proof.
  unfold signal_eventfd. destruct (ev_write 1 (sh_evt s)) as [r e].
  destruct (r =? 8); [done|]. by destruct (ev_errno e).
Qed.

(** The slot a producer reserves on an adopted ring. *)
Lemma try_reserve_adopted s :
  adopted (sh_mem s) →
  (∃ s', try_reserve s = (Ok None, s')) ∨
  (∃ i, try_reserve s = (Ok (Some {|
     pl_slot := ring_header_size + i mod rh_slot_count (read_header (sh_mem s)) *
                rh_slot_stride (read_header (sh_mem s));
     pl_head := i; pl_committed := false |}), s)).
Proof.
  intros Ha. unfold try_reserve, mgets, mbind, lift. case_match; [by left; eexists|].
  rewrite adopted_slot by done. right. by eexists.
Qed.

(** The lease a consumer acquires on an adopted ring. *)
Lemma try_acquire_adopted s :
  adopted (sh_mem s) → payload_fits (sh_mem s) →
  (∃ r, try_acquire s = (r, s) ∧ (r = Ok None ∨ is_err r = true)) ∨
  (∃ i d, try_acquire s = (Ok (Some {| fl_descriptor := d;
     fl_payload := ring_header_size + i mod rh_slot_count (read_header (sh_mem s)) *
                   rh_slot_stride (read_header (sh_mem s)) + frame_descriptor_size;
     fl_tail := i |}), s) ∧
     fd_payload_bytes d <= rh_payload_capacity (read_header (sh_mem s)) ∧
     0 <= fd_payload_bytes d).
Proof.
  intros Ha Hp. pose proof (payload_capacity_range s Ha).
  unfold try_acquire. rewrite (mbind_step _ _ s (sh_mem s) s) by done.
  case_match; [left; eexists; split; [done|by left]|].
  rewrite adopted_slot by done.
  set (i := load 8 tail_off (sh_mem s)).
  erewrite (mbind_step _ _ s _ s) by done.
  erewrite mbind_step.
  2:{ pose proof (adopted_access s i 0 64 Ha) as Hacc. rewrite Z.add_0_r in Hacc.
      apply Hacc; try lia. unfold payload_fits, frame_descriptor_size in *. lia. }
  erewrite (mbind_step _ _ s _ s) by done.
  set (d := decode_descriptor _).
  assert (0 <= fd_payload_bytes d).
  { cbn [d decode_descriptor fd_payload_bytes]. unfold load. apply le_combine_bound. }
  unfold ensure.
  destruct (fd_abi_version d =? _); [|left; eexists; by split; [|right]].
  rewrite (mbind_step _ _ s tt s) by done.
  destruct (fd_header_bytes d =? _); [|left; eexists; by split; [|right]].
  rewrite (mbind_step _ _ s tt s) by done.
  destruct (fd_payload_bytes d <=? _) eqn:Hle; [|left; eexists; by split; [|right]].
  rewrite (mbind_step _ _ s tt s) by done. right. exists i, d. b2p. done.
Qed.
End adopted.

(** A produced frame on an adopted ring: reserve, fill, commit. *)
Definition produce {E} `{EventFd E} (d : FrameDescriptor) (p : memory) (k : Z) : M (Shared E) bool :=
  let! r := try_reserve in
  match r with
  | None => mret false
  | Some lease => lease_write lease p !; commit lease d k !; mret true
  end.

Section safety.
Context {E : Type} `{EventFd E}.
Implicit Types s : Shared E.

Lemma read_header_write_slot mem o k :
  (20 <= o)%nat →
  rh_slot_count (read_header (list_inserts o k mem)) = rh_slot_count (read_header mem) ∧
  rh_slot_stride (read_header (list_inserts o k mem)) = rh_slot_stride (read_header mem) ∧
  rh_payload_capacity (read_header (list_inserts o k mem)) = rh_payload_capacity (read_header mem).
Proof.
  intros. cbn [read_header rh_slot_count rh_slot_stride rh_payload_capacity].
  by rewrite !load_inserts_other by lia.
Qed.

Lemma commit_adopted_defined s d k i :
  adopted (sh_mem s) → payload_fits (sh_mem s) →
  defined (fst (commit {|
     pl_slot := ring_header_size + i mod rh_slot_count (read_header (sh_mem s)) *
                rh_slot_stride (read_header (sh_mem s));
     pl_head := i; pl_committed := false |} d k s)) = true.
Proof.
  intros Ha Hp. pose proof (payload_capacity_range s Ha). unfold commit.
  rewrite (mbind_step _ _ s tt s) by done. cbn [pl_slot pl_head].
  erewrite (mbind_step _ _ s _ s) by done. unfold ensure.
  destruct (k <=? _); [|done]. rewrite (mbind_step _ _ s tt s) by done.
  destruct (k <=? _); [|done]. rewrite (mbind_step _ _ s tt s) by done.
  erewrite mbind_step.
  2:{ pose proof (adopted_access s i 0 64 Ha) as Hacc. rewrite Z.add_0_r in Hacc.
      apply Hacc; try lia. unfold payload_fits, frame_descriptor_size in *. lia. }
  unfold mbind, mmodify. apply signal_eventfd_defined.
Qed.

Lemma produce_adopted_defined s d p k :
  adopted (sh_mem s) → payload_fits (sh_mem s) →
  Z.of_nat (length p) <= rh_payload_capacity (read_header (sh_mem s)) →
  defined (fst (produce d p k s)) = true.
Proof.
  intros Ha Hp Hlen. pose proof (payload_capacity_range s Ha). unfold produce.
  destruct (try_reserve_adopted s Ha) as [[s' Hr]|[i Hr]]; rewrite (mbind_step _ _ _ _ _ Hr); [done|].
  set (n := rh_slot_count (read_header (sh_mem s))) in *.
  set (st := rh_slot_stride (read_header (sh_mem s))) in *.
  assert (0 <= i mod n * st) as Hpos.
  { pose proof (ad_count _ Ha). pose proof (ad_stride _ Ha).
    pose proof (Z.mod_pos_bound i n ltac:(lia)). nia. }
  set (o := Z.to_nat (ring_header_size + i mod n * st + frame_descriptor_size)).
  assert (20 <= o)%nat by (unfold o, ring_header_size, frame_descriptor_size; lia).
  assert (lease_write {| pl_slot := ring_header_size + i mod n * st; pl_head := i;
            pl_committed := false |} p s =
          (Ok tt, set_mem (list_inserts o p (sh_mem s)) s)) as Hwr.
  { unfold lease_write. erewrite (mbind_step _ _ s _ s) by done. cbn [pl_slot].
    erewrite mbind_step by (apply adopted_access; unfold frame_descriptor_size; try done; lia).
    by rewrite (proj2 (Z.ltb_ge _ _)) by lia. }
  rewrite (mbind_step _ _ _ _ _ Hwr).
  set (s1 := set_mem _ s).
  destruct (read_header_write_slot (sh_mem s) o p ltac:(lia)) as (Hc1 & Hs1 & Hp1).
  assert (adopted (sh_mem s1)) as Ha1.
  { destruct Ha as [? ? ? ?]. cbn [s1 set_mem sh_mem].
    split; rewrite ?Hc1, ?Hs1, ?length_inserts; assumption. }
  pose proof (commit_adopted_defined s1 d k i Ha1) as Hcd. cbn [s1 set_mem sh_mem] in Hcd.
  rewrite Hc1, Hs1 in Hcd. fold n st in Hcd.
  assert (payload_fits (sh_mem s1)) as Hf1.
  { unfold payload_fits in *. cbn [s1 set_mem sh_mem]. by rewrite Hp1, Hs1. }
  specialize (Hcd Hf1). fold s1 in Hcd.
  unfold mbind. destruct (commit _ d k s1) as [r s2]. cbn in Hcd. by destruct r.
Qed.

Lemma pop_copy_adopted_defined s :
  adopted (sh_mem s) → payload_fits (sh_mem s) → defined (fst (pop_copy s)) = true.
Proof.
  intros Ha Hp. unfold pop_copy.
  destruct (try_acquire_adopted s Ha Hp) as [(r & Hr & Hcase)|(i & d' & Hr & Hle & Hge)].
  - unfold mbind at 1. rewrite Hr. destruct Hcase as [->|He]; [done|]. by destruct r.
  - rewrite (mbind_step _ _ _ _ _ Hr). unfold lease_payload. cbn [fl_payload fl_descriptor].
    rewrite (mbind_step _ _ s (slice (Z.to_nat (ring_header_size + i mod
      rh_slot_count (read_header (sh_mem s)) * rh_slot_stride (read_header (sh_mem s)) +
      frame_descriptor_size)) (Z.to_nat (fd_payload_bytes d')) (sh_mem s)) s); [done|].
    erewrite mbind_step; [done|].
    pose proof (payload_capacity_range s Ha). unfold payload_fits in Hp.
    apply adopted_access; unfold frame_descriptor_size in *; try done; lia.
Qed.

(** C9. On a ring received from another process, whatever its cursors and slots
    contain: when the header passes [validate_header] and its payload capacity
    fits the slot stride, producing a frame and acquiring and reading a frame
    never panic and never touch memory outside of the mapping. *)
Theorem received_ring_memory_safe s mem d p k :
  adopt_mapping mem = Ok (sh_mem s) → payload_fits (sh_mem s) →
  Z.of_nat (length p) <= rh_payload_capacity (read_header (sh_mem s)) →
  defined (fst (produce d p k s)) = true ∧ defined (fst (pop_copy s)) = true.
Proof.
  intros [<- Ha]%adopt_mapping_Ok Hp Hlen.
  split; [by apply produce_adopted_defined|by apply pop_copy_adopted_defined].
Qed.
End safety.

Lemma received_ring_memory_safe_witness :
  match fresh_ring 2 16 with
  | Ok mem =>
      let s := {| sh_mem := mem; sh_evt := fresh_eventfd |} in
      defined (fst (produce (frame_descriptor_new Pcm_kind 1) [Byte.x07] 1 s)) = true ∧
      defined (fst (pop_copy s)) = true
  | _ => False
  end.
Proof.
  destruct (fresh_ring 2 16) as [mem|?|?|?] eqn:Hf; [|vm_compute in Hf; discriminate..].
  assert (adopt_mapping mem = Ok mem ∧ load 4 16 mem = 16 ∧ load 4 12 mem = 128) as (Ha & Hc & Hs).
  { vm_compute in Hf. apply Ok_inj in Hf. subst mem. vm_compute. auto. }
  apply (received_ring_memory_safe {| sh_mem := mem; sh_evt := fresh_eventfd |} mem).
  - exact Ha.
  - unfold payload_fits, frame_descriptor_size. cbn. rewrite Hc, Hs. lia.
  - cbn. rewrite Hc. lia.
Defined.

(** ** The missing check

    Two mappings with the same geometry: the same length and the same first
    cache line, the six fields [validate_header] reads; cursors, counters and
    slots are whatever the other process wrote. *)
Definition same_geometry (mem mem' : memory) : Prop :=
  length mem' = length mem ∧ slice 0 64 mem' = slice 0 64 mem.

Lemma same_geometry_load mem mem' n off :
  same_geometry mem mem' → (off + n <= 64)%nat → load n off mem' = load n off mem.
Proof.
  intros [_ Hs] Hn. unfold load.
  change (slice off n ?m) with (slice (0 + off) n m).
  rewrite <- !(slice_slice 0 64) by lia. by rewrite Hs.
Qed.

Lemma same_geometry_adopted mem mem' :
  same_geometry mem mem' → adopted mem → adopted mem' ∧ (payload_fits mem → payload_fits mem').
Proof.
  intros Hg [Hl Hc Hst Hm]. pose proof Hg as [Hlen _]. unfold payload_fits.
  cbn [read_header rh_slot_count rh_slot_stride rh_payload_capacity] in *.
  rewrite !(same_geometry_load _ _ _ _ Hg) by lia. split; [|done].
  split; cbn [read_header rh_slot_count rh_slot_stride];
    rewrite ?(same_geometry_load _ _ _ _ Hg), ?Hlen by lia; done.
Qed.

(** The last slot published with a payload of the announced capacity. *)
Definition last_slot_full (mem : memory) : memory :=
  let h := read_header mem in
  let o := Z.to_nat (ring_header_size + (rh_slot_count h - 1) * rh_slot_stride h) in
  let mem := store 8 head_off (rh_slot_count h) (store 8 tail_off (rh_slot_count h - 1) mem) in
  if rh_slot_stride h <? 64 then mem
  else list_inserts o (encode_descriptor (zeros 64)
         (stamp_descriptor (frame_descriptor_new Pcm_kind 0) (rh_payload_capacity h))) mem.

Lemma last_slot_full_geometry mem : adopted mem → same_geometry mem (last_slot_full mem).
Proof.
  intros [Hl Hc Hst Hm]. unfold last_slot_full, ring_header_size in *.
  set (n := rh_slot_count _) in *. set (st := rh_slot_stride _) in *.
  assert (slice 0 64 (store 8 head_off n (store 8 tail_off (n - 1) mem)) = slice 0 64 mem) as Hs.
  { rewrite !slice_store_other; [done|unfold tail_off; lia|unfold head_off; lia]. }
  destruct (st <? 64); split; rewrite ?length_inserts, ?length_store; try done.
  rewrite slice_inserts_disjoint; [done|]. left. nia.
Qed.

Lemma last_slot_full_cursors mem : adopted mem →
  load 8 tail_off (last_slot_full mem) = rh_slot_count (read_header mem) - 1 ∧
  load 8 head_off (last_slot_full mem) = rh_slot_count (read_header mem).
Proof.
  intros [Hl Hc Hst Hm]. unfold last_slot_full, ring_header_size in *.
  set (n := rh_slot_count _) in *. set (st := rh_slot_stride _) in *.
  assert (∀ off, (off + 8 <= 256)%nat → ∀ m : memory,
    load 8 off (if st <? 64 then m else list_inserts (Z.to_nat (256 + (n - 1) * st))
      (encode_descriptor (zeros 64) (stamp_descriptor (frame_descriptor_new Pcm_kind 0)
         (rh_payload_capacity (read_header mem)))) m) = load 8 off m) as Hout.
  { intros off Ho m. destruct (st <? 64); [done|]. apply load_inserts_other. left. nia. }
  rewrite !Hout by (unfold tail_off, head_off; lia). split.
  - rewrite load_store_other by (unfold tail_off, head_off; lia).
    rewrite load_store_same by (unfold tail_off; lia). apply Z.mod_small.
    change (8 * Z.of_nat 8) with 64. lia.
  - rewrite load_store_same by (rewrite length_store; unfold head_off; lia). apply Z.mod_small.
    change (8 * Z.of_nat 8) with 64. lia.
Qed.

Lemma last_slot_full_descriptor mem :
  adopted mem → 64 <= rh_slot_stride (read_header mem) →
  let o := ring_header_size + (rh_slot_count (read_header mem) - 1) * rh_slot_stride (read_header mem) in
  decode_descriptor (slice (Z.to_nat o) 64 (last_slot_full mem)) =
  stamp_descriptor (frame_descriptor_new Pcm_kind 0) (rh_payload_capacity (read_header mem)).
Proof.
  intros [Hl Hc Hst Hm] H64 o. unfold last_slot_full, ring_header_size in *.
  pose proof (load_range 4 16 mem) as Hcap. change (2 ^ (8 * Z.of_nat 4)) with (2 ^ 32) in Hcap.
  set (n := rh_slot_count _) in *. set (st := rh_slot_stride _) in *. fold o.
  rewrite (proj2 (Z.ltb_ge _ _)) by lia. cbn [read_header rh_payload_capacity].
  set (d := stamp_descriptor _ _).
  assert (length (encode_descriptor (zeros 64) d) = 64%nat) as He
    by (apply length_encode_descriptor, length_zeros).
  rewrite <- He at 1. rewrite slice_inserts_same.
  - apply decode_encode_descriptor; [apply length_zeros|]. by apply stamp_typed.
  - rewrite He, !length_store. unfold o. nia.
Qed.

(** The consumer of that mapping leaves it. *)
Lemma last_slot_full_unsafe {E} `{EventFd E} mem (e : E) :
  adopted mem → ¬ payload_fits mem →
  fst (pop_copy {| sh_mem := last_slot_full mem; sh_evt := e |}) = Undef "access outside of the mapping".
Proof.
  intros Ha Hnf. pose proof Ha as [Hl Hc Hst Hm].
  pose proof (last_slot_full_geometry mem Ha) as Hg.
  destruct (same_geometry_adopted _ _ Hg Ha) as [Ha' _].
  destruct (last_slot_full_cursors mem Ha) as [Htl Hhd].
  pose proof (load_range 4 16 mem) as Hcap. change (2 ^ (8 * Z.of_nat 4)) with (2 ^ 32) in Hcap.
  pose proof (last_slot_full_descriptor mem Ha) as Hdesc. pose proof Hg as [Hlen _].
  unfold payload_fits in Hnf. pose proof (adopted_slot (last_slot_full mem)
    (rh_slot_count (read_header mem) - 1) Ha') as Hslot.
  assert (rh_payload_capacity (read_header (last_slot_full mem)) = rh_payload_capacity (read_header mem)) as Hpc
    by (apply (same_geometry_load _ _ 4 16 Hg); lia).
  replace (rh_slot_count (read_header (last_slot_full mem))) with (rh_slot_count (read_header mem)) in Hslot
    by (symmetry; apply (same_geometry_load _ _ 4 8 Hg); lia).
  replace (rh_slot_stride (read_header (last_slot_full mem))) with (rh_slot_stride (read_header mem)) in Hslot
    by (symmetry; apply (same_geometry_load _ _ 4 12 Hg); lia).
  rewrite (Z.mod_small (_ - 1)) in Hslot by lia.
  set (s := {| sh_mem := last_slot_full mem; sh_evt := e |}).
  set (n := rh_slot_count (read_header mem)) in *. set (st := rh_slot_stride (read_header mem)) in *.
  set (cap := rh_payload_capacity (read_header mem)) in *.
  unfold pop_copy, try_acquire, mgets. unfold mbind at 1 2. cbn [sh_mem s].
  rewrite Htl, Hhd, (proj2 (Z.eqb_neq _ _)) by lia. rewrite Hslot.
  assert (∀ off m, 0 <= off → check_access off m s =
    ((if off + m <=? ring_header_size + st * n then Ok tt else Undef "access outside of the mapping"), s)) as Hacc.
  { intros off m Ho. unfold check_access, in_mapping. cbn [sh_mem s]. rewrite Hlen, Hm.
    rewrite (proj2 (Z.leb_le 0 off)) by done. cbn [andb]. by case_match. }
  unfold ring_header_size, frame_descriptor_size in *.
  unfold mbind at 1, lift at 1. unfold mbind at 1. rewrite Hacc by nia.
  destruct (Z.leb_spec (256 + (n - 1) * st + 64) (256 + st * n)) as [Hin|Hout]; [|done].
  specialize (Hdesc ltac:(lia)). cbv zeta in Hdesc. unfold mbind at 1. cbn [sh_mem s].
  assert (as_unsigned 32 cap = cap) as Hc32 by (by apply Z.mod_small).
  rewrite Hdesc, Hpc. cbn [stamp_descriptor fd_abi_version fd_header_bytes fd_payload_bytes].
  rewrite Hc32. unfold ensure. rewrite Z.leb_refl, Z.eqb_refl. unfold mbind, lift, mret.
  change (as_unsigned 16 frame_descriptor_size =? 64) with true.
  unfold lease_payload, mbind. cbn [fl_payload fl_descriptor stamp_descriptor fd_payload_bytes].
  rewrite Hc32, Hacc by nia. by rewrite (proj2 (Z.leb_gt _ _)) by nia.
Qed.

(** C29. The comparison [validate_header] leaves out is exactly what safety needs:
    a header it accepts is safe for the consumer, whatever cursors and slots the
    other process wrote beside it, if and only if the announced payload capacity
    fits the slot stride.  For every accepted header that fails the comparison
    there are contents under which the consumer leaves the mapping. *)
Theorem accepted_header_safe_iff_payload_fits {E} `{EventFd E} mem (e : E) :
  adopt_mapping mem = Ok mem →
  payload_fits mem ↔
  ∀ mem', same_geometry mem mem' → defined (fst (pop_copy {| sh_mem := mem'; sh_evt := e |})) = true.
Proof.
  intros [_ Ha]%adopt_mapping_Ok. split.
  - intros Hp mem' Hg. destruct (same_geometry_adopted _ _ Hg Ha) as [Ha' Hp'].
    by apply pop_copy_adopted_defined; [|apply Hp'].
  - intros Hall. unfold payload_fits. apply Z.nlt_ge. intros Hlt.
    assert (¬ payload_fits mem) as Hnf by (unfold payload_fits; lia).
    specialize (Hall _ (last_slot_full_geometry mem Ha)).
    by rewrite (last_slot_full_unsafe mem e Ha Hnf) in Hall.
Qed.

(** A ring of two 64-byte slots, so with no room for payload at all, that
    announces a payload capacity of 1000 bytes. *)
Definition overlong_ring : memory :=
  encode_header {| rh_magic := RING_MAGIC; rh_abi_version := WIRELESS_AUDIO_ABI_VERSION;
                   rh_header_bytes := ring_header_size; rh_slot_count := 2;
                   rh_slot_stride := 64; rh_payload_capacity := 1000;
                   rh_head := 0; rh_tail := 0; rh_dropped := 0 |} ++ zeros 128.

Lemma accepted_header_safe_iff_payload_fits_witness :
  adopt_mapping overlong_ring = Ok overlong_ring ∧
  ¬ (∀ mem', same_geometry overlong_ring mem' →
       defined (fst (pop_copy {| sh_mem := mem'; sh_evt := fresh_eventfd |})) = true).
Proof.
  assert (adopt_mapping overlong_ring = Ok overlong_ring) as Ha by (vm_compute; reflexivity).
  split; [exact Ha|]. intros Hall.
  pose proof (proj2 (accepted_header_safe_iff_payload_fits overlong_ring fresh_eventfd Ha) Hall) as Hp.
  vm_compute in Hp. by apply Hp.
Defined.
