(* ===== verification/RingConcurrent.v ===== *)
(** * The ring under interleaving

    Producer and consumer run in two processes.  Here each atomic access of
    [try_reserve], [payload_mut], [commit], [try_acquire] and of the drop of a
    lease is a step of its own, and the two sides interleave freely.

    An Acquire load of the peer's cursor may return a stale value: any value the
    peer's cursor had between the one last seen by this side and the current
    one (the location has a single writer, so coherence orders its values).  The
    Release store that published the value orders the slot accesses before it,
    so slot bytes themselves are read and written in place.

    [c_T] and [c_H] are the unbounded counts of consumed and published frames,
    [c_hist] all frames published so far: auxiliary state that no step reads to
    decide what to do. *)

From S2P Require Import Prelude Types Bytes Ring RingSpec.

Inductive ppc :=
| PIdle                                   (* outside of an operation *)
| PGotHead (head : Z)                     (* try_reserve: head loaded *)
| PLease (lease : ProducerLease)          (* holds a reservation *)
| PDescribed (lease : ProducerLease) (d : FrameDescriptor) (k : Z)
                                          (* commit: descriptor written *)
| PWrong.                                 (* panicked or undefined behaviour *)

Inductive cpc :=
| CIdle
| CGotTail (tail : Z)                     (* try_acquire: tail loaded *)
| CSlot (tail off : Z)                    (* try_acquire: frame found *)
| CLease (lease : FrameLease)             (* holds a frame *)
| CRejected                               (* try_acquire returned an error *)
| CWrong.

Record cstate := {
  c_mem : memory;
  c_p : ppc;
  c_c : cpc;
  c_T : Z;
  c_H : Z;
  c_seenT : Z;
  c_seenH : Z;
  c_hist : list frame;
}.

Definition with_p (p : ppc) (s : cstate) : cstate :=
  {| c_mem := c_mem s; c_p := p; c_c := c_c s; c_T := c_T s; c_H := c_H s;
     c_seenT := c_seenT s; c_seenH := c_seenH s; c_hist := c_hist s |}.

Definition with_c (c : cpc) (s : cstate) : cstate :=
  {| c_mem := c_mem s; c_p := c_p s; c_c := c; c_T := c_T s; c_H := c_H s;
     c_seenT := c_seenT s; c_seenH := c_seenH s; c_hist := c_hist s |}.

Definition with_mem (m : memory) (s : cstate) : cstate :=
  {| c_mem := m; c_p := c_p s; c_c := c_c s; c_T := c_T s; c_H := c_H s;
     c_seenT := c_seenT s; c_seenH := c_seenH s; c_hist := c_hist s |}.

Definition see_T (t : Z) (s : cstate) : cstate :=
  {| c_mem := c_mem s; c_p := c_p s; c_c := c_c s; c_T := c_T s; c_H := c_H s;
     c_seenT := t; c_seenH := c_seenH s; c_hist := c_hist s |}.

Definition see_H (h : Z) (s : cstate) : cstate :=
  {| c_mem := c_mem s; c_p := c_p s; c_c := c_c s; c_T := c_T s; c_H := c_H s;
     c_seenT := c_seenT s; c_seenH := h; c_hist := c_hist s |}.

Definition publish (f : frame) (s : cstate) : cstate :=
  {| c_mem := c_mem s; c_p := c_p s; c_c := c_c s; c_T := c_T s; c_H := c_H s + 1;
     c_seenT := c_seenT s; c_seenH := c_seenH s; c_hist := c_hist s ++ [f] |}.

Definition consume (s : cstate) : cstate :=
  {| c_mem := c_mem s; c_p := c_p s; c_c := c_c s; c_T := c_T s + 1; c_H := c_H s;
     c_seenT := c_seenT s; c_seenH := c_seenH s; c_hist := c_hist s |}.

Abbreviation slot_count_of mem := (rh_slot_count (read_header mem)).
Abbreviation capacity_of mem := (rh_payload_capacity (read_header mem)).

(** ** Steps of the producer *)

Inductive pstep : cstate → cstate → Prop :=
| p_load_head s :
    c_p s = PIdle →
    pstep s (with_p (PGotHead (load 8 head_off (c_mem s))) s)
| p_load_tail_full s head t :
    c_p s = PGotHead head → c_seenT s <= t <= c_T s →
    slot_count_of (c_mem s) <= wrapping_sub 64 head (t mod 2 ^ 64) →
    pstep s (with_p PIdle (see_T t (with_mem (store 8 dropped_off
               (wrapping_add 64 (load 8 dropped_off (c_mem s)) 1) (c_mem s)) s)))
| p_load_tail_free s head t off :
    c_p s = PGotHead head → c_seenT s <= t <= c_T s →
    wrapping_sub 64 head (t mod 2 ^ 64) < slot_count_of (c_mem s) →
    slot (c_mem s) head = Ok off →
    pstep s (with_p (PLease {| pl_slot := off; pl_head := head; pl_committed := false |})
               (see_T t s))
| p_slot_panic s head t :
    c_p s = PGotHead head → c_seenT s <= t <= c_T s →
    wrapping_sub 64 head (t mod 2 ^ 64) < slot_count_of (c_mem s) →
    is_ok (slot (c_mem s) head) = false →
    pstep s (with_p PWrong (see_T t s))
| p_fill s lease o bytes :
    c_p s = PLease lease →
    in_mapping (pl_slot lease + 64) (capacity_of (c_mem s)) (c_mem s) = true →
    0 <= o → o + Z.of_nat (length bytes) <= capacity_of (c_mem s) →
    pstep s (with_mem (list_inserts (Z.to_nat (pl_slot lease + 64 + o)) bytes (c_mem s)) s)
| p_fill_wrong s lease :
    c_p s = PLease lease →
    in_mapping (pl_slot lease + 64) (capacity_of (c_mem s)) (c_mem s) = false →
    pstep s (with_p PWrong s)
| p_abandon s lease :
    (* the lease is dropped, or commit rejects the length *)
    c_p s = PLease lease →
    pstep s (with_p PIdle s)
| p_describe s lease d k :
    c_p s = PLease lease →
    descriptor_typed d = true → 0 <= k <= capacity_of (c_mem s) →
    in_mapping (pl_slot lease) 64 (c_mem s) = true →
    pstep s (with_p (PDescribed lease d k)
      (with_mem (list_inserts (Z.to_nat (pl_slot lease))
         (encode_descriptor (slice (Z.to_nat (pl_slot lease)) 64 (c_mem s))
            (stamp_descriptor d k)) (c_mem s)) s))
| p_describe_wrong s lease :
    c_p s = PLease lease → in_mapping (pl_slot lease) 64 (c_mem s) = false →
    pstep s (with_p PWrong s)
| p_publish s lease d k :
    c_p s = PDescribed lease d k →
    pstep s (with_p PIdle
      (publish (stamp_descriptor d k,
                slice (Z.to_nat (pl_slot lease + 64)) (Z.to_nat k) (c_mem s))
         (with_mem (store 8 head_off (wrapping_add 64 (pl_head lease) 1) (c_mem s)) s))).

(** ** Steps of the consumer *)

Definition descriptor_accepted (d : FrameDescriptor) (mem : memory) : bool :=
  (fd_abi_version d =? WIRELESS_AUDIO_ABI_VERSION) &&
  (fd_header_bytes d =? frame_descriptor_size) &&
  (fd_payload_bytes d <=? capacity_of mem).

Inductive cstep : cstate → cstate → Prop :=
| c_load_tail s :
    c_c s = CIdle →
    cstep s (with_c (CGotTail (load 8 tail_off (c_mem s))) s)
| c_load_head_empty s tail h :
    c_c s = CGotTail tail → c_seenH s <= h <= c_H s → tail = h mod 2 ^ 64 →
    cstep s (with_c CIdle (see_H h s))
| c_load_head_frame s tail h off :
    c_c s = CGotTail tail → c_seenH s <= h <= c_H s → tail ≠ h mod 2 ^ 64 →
    slot (c_mem s) tail = Ok off →
    cstep s (with_c (CSlot tail off) (see_H h s))
| c_slot_panic s tail h :
    c_c s = CGotTail tail → c_seenH s <= h <= c_H s → tail ≠ h mod 2 ^ 64 →
    is_ok (slot (c_mem s) tail) = false →
    cstep s (with_c CWrong (see_H h s))
| c_read_descriptor s tail off :
    c_c s = CSlot tail off → in_mapping off 64 (c_mem s) = true →
    let d := decode_descriptor (slice (Z.to_nat off) 64 (c_mem s)) in
    descriptor_accepted d (c_mem s) = true →
    cstep s (with_c (CLease {| fl_descriptor := d; fl_payload := off + 64; fl_tail := tail |}) s)
| c_reject s tail off :
    c_c s = CSlot tail off → in_mapping off 64 (c_mem s) = true →
    descriptor_accepted (decode_descriptor (slice (Z.to_nat off) 64 (c_mem s))) (c_mem s) = false →
    cstep s (with_c CRejected s)
| c_read_wrong s tail off :
    c_c s = CSlot tail off → in_mapping off 64 (c_mem s) = false →
    cstep s (with_c CWrong s)
| c_payload_wrong s lease :
    c_c s = CLease lease →
    in_mapping (fl_payload lease) (fd_payload_bytes (fl_descriptor lease)) (c_mem s) = false →
    cstep s (with_c CWrong s)
| c_release s lease :
    c_c s = CLease lease →
    cstep s (with_c CIdle (consume
      (with_mem (store 8 tail_off (wrapping_add 64 (fl_tail lease) 1) (c_mem s)) s))).

Inductive step : cstate → cstate → Prop :=
| step_p s s' : pstep s s' → step s s'
| step_c s s' : cstep s s' → step s s'.

Definition start (mem : memory) : cstate :=
  {| c_mem := mem; c_p := PIdle; c_c := CIdle; c_T := 0; c_H := 0;
     c_seenT := 0; c_seenH := 0; c_hist := [] |}.

Definition reachable (mem : memory) (s : cstate) : Prop := rtc step (start mem) s.

(** ** The invariant *)

Section invariant.
Context (n stride cap : Z).

Definition lease_at (H : Z) : ProducerLease :=
  {| pl_slot := ring_header_size + H mod n * stride; pl_head := H mod 2 ^ 64;
     pl_committed := false |}.

Definition frame_lease_at (T : Z) (f : frame) : FrameLease :=
  {| fl_descriptor := fst f; fl_payload := ring_header_size + T mod n * stride + 64;
     fl_tail := T mod 2 ^ 64 |}.

Definition p_ok (s : cstate) : Prop :=
  match c_p s with
  | PIdle => True
  | PGotHead head => head = c_H s mod 2 ^ 64
  | PLease lease => c_H s - c_seenT s < n ∧ lease = lease_at (c_H s)
  | PDescribed lease d k =>
      c_H s - c_seenT s < n ∧ lease = lease_at (c_H s) ∧
      descriptor_typed d = true ∧ 0 <= k <= cap ∧
      decode_descriptor (slice (slot_pos stride (c_H s mod n)) 64 (c_mem s)) =
        stamp_descriptor d k
  | PWrong => False
  end.

Definition c_ok (s : cstate) : Prop :=
  match c_c s with
  | CIdle => True
  | CGotTail tail => tail = c_T s mod 2 ^ 64
  | CSlot tail off =>
      c_T s < c_seenH s ∧ tail = c_T s mod 2 ^ 64 ∧
      off = ring_header_size + c_T s mod n * stride
  | CLease lease =>
      c_T s < c_seenH s ∧
      ∃ f, c_hist s !! Z.to_nat (c_T s) = Some f ∧ lease = frame_lease_at (c_T s) f
  | CRejected | CWrong => False
  end.

Record inv (s : cstate) : Prop := {
  inv_rep : ring_rep n stride cap (c_mem s) (c_T s) (c_H s) (drop (Z.to_nat (c_T s)) (c_hist s));
  inv_hist : Z.of_nat (length (c_hist s)) = c_H s;
  inv_seenT : c_H s - n <= c_seenT s <= c_T s;
  inv_seenH : c_T s <= c_seenH s <= c_H s;
  inv_p : p_ok s;
  inv_c : c_ok s;
}.

(** The slot the two cursors name, and what the consumer finds there. *)
Lemma inv_front s :
  inv s → c_T s < c_H s →
  ∃ f, c_hist s !! Z.to_nat (c_T s) = Some f ∧
    drop (Z.to_nat (c_T s)) (c_hist s) = f :: drop (Z.to_nat (c_T s + 1)) (c_hist s) ∧
    frame_at stride cap (c_mem s) (c_T s mod n) f.
Proof.
  intros [R Hh _ _ _ _] Hlt. pose proof R as [_ _ _ _ _ Ho _ _ Hf].
  destruct (lookup_lt_is_Some_2 (c_hist s) (Z.to_nat (c_T s))) as [f Hfr]; [lia|].
  exists f. split; [done|].
  assert (drop (Z.to_nat (c_T s)) (c_hist s) = f :: drop (Z.to_nat (c_T s + 1)) (c_hist s)) as Hd.
  { replace (Z.to_nat (c_T s + 1)) with (S (Z.to_nat (c_T s))) by lia. by apply drop_S. }
  split; [done|]. replace (c_T s mod n) with ((c_T s + Z.of_nat 0) mod n) by (f_equal; lia).
  apply Hf. by rewrite Hd.
Qed.

Lemma frame_at_accepted mem T H q j f :
  ring_rep n stride cap mem T H q → frame_at stride cap mem j f →
  descriptor_accepted (fst f) mem = true.
Proof.
  intros [_ _ (_ & _ & _ & _ & _ & Hg) _ _ _ _ _ _] (_ & _ & Ha & Hb & Hp & Hc).
  unfold descriptor_accepted. cbn [read_header rh_payload_capacity].
  rewrite Ha, Hb, Hp, Hg, !Z.eqb_refl. cbn. apply Z.leb_le. lia.
Qed.

Lemma rep_slot_count mem T H q :
  ring_rep n stride cap mem T H q → slot_count_of mem = n ∧ capacity_of mem = cap.
Proof. intros [_ _ (_ & _ & _ & ? & _ & ?) _ _ _ _ _ _]. done. Qed.

Lemma slot_pos_offset j o :
  0 <= j → 0 <= stride → 0 <= o →
  Z.to_nat (ring_header_size + j * stride + o) = (slot_pos stride j + Z.to_nat o)%nat.
Proof. intros. unfold slot_pos, ring_header_size. nia. Qed.

(** Neither side's control state depends on what the other side changes. *)
Lemma c_ok_stable s s' :
  c_c s' = c_c s → c_T s' = c_T s → c_seenH s' = c_seenH s → c_hist s `prefix_of` c_hist s' →
  c_ok s → c_ok s'.
Proof.
  unfold c_ok. intros -> -> -> [l Hl]. destruct (c_c s); try done.
  intros [? (f & Hf & ->)]. split; [done|]. exists f. split; [|done].
  rewrite Hl. by apply lookup_app_l_Some.
Qed.

Lemma p_ok_stable s s' :
  c_p s' = c_p s → c_H s' = c_H s → c_seenT s' = c_seenT s →
  slice (slot_pos stride (c_H s mod n)) 64 (c_mem s') =
    slice (slot_pos stride (c_H s mod n)) 64 (c_mem s) →
  p_ok s → p_ok s'.
Proof. unfold p_ok. intros -> -> -> ->. done. Qed.

Lemma slot_head_pos s : inv s →
  0 <= c_H s mod n < n ∧ (256 <= slot_pos stride (c_H s mod n))%nat ∧
  (slot_pos stride (c_H s mod n) + Z.to_nat stride <= length (c_mem s))%nat.
Proof.
  intros [R _ _ _ _ _]. pose proof R as [[Hn Hc Hs _] _ _ _ _ Ho _ _ _].
  assert (0 <= c_H s mod n < n) as Hj by (apply Z.mod_pos_bound; lia).
  split; [done|]. split; [apply slot_pos_ge; lia|by eapply slot_fits].
Qed.

Lemma reserved_inserts s o k :
  inv s → c_H s - c_seenT s < n →
  (slot_pos stride (c_H s mod n) <= o)%nat →
  (o + length k <= slot_pos stride (c_H s mod n) + Z.to_nat stride)%nat →
  ring_rep n stride cap (list_inserts o k (c_mem s)) (c_T s) (c_H s)
    (drop (Z.to_nat (c_T s)) (c_hist s)).
Proof.
  intros [R _ HsT _ _ _] Hf Ho1 Ho2. apply ring_rep_write_free; try done. lia.
Qed.

(** *** Steps of the producer preserve the invariant *)

Lemma inv_load_tail_full s head t :
  inv s → c_p s = PGotHead head → c_seenT s <= t <= c_T s →
  inv (with_p PIdle (see_T t (with_mem (store 8 dropped_off
         (wrapping_add 64 (load 8 dropped_off (c_mem s)) 1) (c_mem s)) s))).
Proof.
  intros [R Hh HsT HsH Hp Hc] Hpc Ht. split; cbn; try done; try lia.
  by apply ring_rep_store_dropped.
Qed.

Lemma inv_load_tail_free s head t off :
  inv s → wrap_ok n (c_H s) → c_p s = PGotHead head → c_seenT s <= t <= c_T s →
  wrapping_sub 64 head (t mod 2 ^ 64) < slot_count_of (c_mem s) →
  slot (c_mem s) head = Ok off →
  inv (with_p (PLease {| pl_slot := off; pl_head := head; pl_committed := false |})
         (see_T t s)).
Proof.
  intros [R Hh HsT HsH Hp Hc] Hw Hpc Ht Hlt Hs.
  destruct (rep_slot_count _ _ _ _ R) as [Hn _]. rewrite Hn in Hlt.
  pose proof R as [[Hnb _ _ _] _ _ _ _ Ho _ Hb _].
  unfold p_ok in Hp. rewrite Hpc in Hp. subst head.
  rewrite wrapping_sub_mod in Hlt by lia.
  rewrite (slot_Ok n stride cap _ _ _ _ (c_H s) R Hw) in Hs by lia. apply Ok_inj in Hs. subst off.
  split; cbn; try done; lia.
Qed.

Lemma inv_fill s lease o bytes :
  inv s → c_p s = PLease lease → 0 <= o → o + Z.of_nat (length bytes) <= capacity_of (c_mem s) →
  inv (with_mem (list_inserts (Z.to_nat (pl_slot lease + 64 + o)) bytes (c_mem s)) s).
Proof.
  intros Hi Hpc Ho Hb. destruct (slot_head_pos s Hi) as (Hj & _ & _).
  pose proof Hi as [R Hh HsT HsH Hp Hc]. pose proof R as [[Hn Hcp Hst _] _ _ _ _ _ _ _ _].
  destruct (rep_slot_count _ _ _ _ R) as [_ Hcap]. rewrite Hcap in Hb.
  pose proof Hp as Hp'. unfold p_ok in Hp'. rewrite Hpc in Hp'. destruct Hp' as [Hf ->].
  cbn [lease_at pl_slot]. rewrite <- Z.add_assoc, slot_pos_offset by lia.
  split; try done; cbn [with_mem c_mem c_T c_H c_hist].
  - apply reserved_inserts; [done|done|lia|lia].
  - unfold p_ok. cbn [with_mem c_p]. by rewrite Hpc.
Qed.

Lemma inv_describe s lease d k :
  inv s → c_p s = PLease lease → descriptor_typed d = true → 0 <= k <= capacity_of (c_mem s) →
  inv (with_p (PDescribed lease d k)
      (with_mem (list_inserts (Z.to_nat (pl_slot lease))
         (encode_descriptor (slice (Z.to_nat (pl_slot lease)) 64 (c_mem s))
            (stamp_descriptor d k)) (c_mem s)) s)).
Proof.
  intros Hi Hpc Hd Hk. destruct (slot_head_pos s Hi) as (Hj & Hge & Hfit).
  pose proof Hi as [R Hh HsT HsH Hp Hc]. pose proof R as [[Hn Hcp Hst _] _ _ _ _ _ _ _ _].
  destruct (rep_slot_count _ _ _ _ R) as [_ Hcap]. rewrite Hcap in Hk.
  unfold p_ok in Hp. rewrite Hpc in Hp. destruct Hp as [Hf ->].
  cbn [lease_at pl_slot]. fold (slot_pos stride (c_H s mod n)).
  assert (length (slice (slot_pos stride (c_H s mod n)) 64 (c_mem s)) = 64%nat) as Hold
    by (apply length_slice; lia).
  set (enc := encode_descriptor _ _).
  assert (length enc = 64%nat) as Henc by by apply length_encode_descriptor.
  split; try done; cbn [with_p with_mem c_mem c_T c_H c_hist].
  - apply reserved_inserts; [done|done|lia|lia].
  - unfold p_ok. cbn [with_p with_mem c_p c_H c_seenT c_mem].
    split; [done|]. split; [done|]. split; [done|]. split; [done|].
    rewrite <- Henc at 1. rewrite slice_inserts_same by lia.
    apply decode_encode_descriptor; [done|]. apply stamp_typed; [done|lia].
Qed.

Lemma inv_publish s lease d k :
  inv s → c_p s = PDescribed lease d k →
  inv (with_p PIdle
      (publish (stamp_descriptor d k,
                slice (Z.to_nat (pl_slot lease + 64)) (Z.to_nat k) (c_mem s))
         (with_mem (store 8 head_off (wrapping_add 64 (pl_head lease) 1) (c_mem s)) s))).
Proof.
  intros Hi Hpc. destruct (slot_head_pos s Hi) as (Hj & Hge & Hfit).
  pose proof Hi as [R Hh HsT HsH Hp Hc]. pose proof R as [[Hn Hcp Hst _] _ _ _ _ Ho _ _ _].
  unfold p_ok in Hp. rewrite Hpc in Hp. destruct Hp as (Hf & -> & Hd & Hk & Hdec).
  cbn [lease_at pl_slot pl_head]. rewrite wrapping_add_mod, slot_pos_offset by lia.
  change (Z.to_nat 64) with 64%nat.
  assert (length (slice (slot_pos stride (c_H s mod n) + 64) (Z.to_nat k) (c_mem s)) =
    Z.to_nat k) as Hlen by (apply length_slice; lia).
  split; cbn [with_p publish with_mem c_mem c_T c_H c_hist c_seenT c_seenH]; try lia.
  - rewrite drop_app_le by lia. apply ring_rep_publish; [done|lia|].
    unfold frame_at. cbn [fst snd]. rewrite Hlen, Hdec.
    repeat split; try done; [|lia]. cbn. unfold as_unsigned. rewrite Z.mod_small; lia.
  - rewrite length_app. cbn. lia.
  - done.
  - apply (c_ok_stable s); try done. by apply prefix_app_r.
Qed.

Lemma pstep_inv s s' : inv s → wrap_ok n (c_H s) → pstep s s' → inv s'.
Proof.
  intros Hi Hw Hs. pose proof Hi as [R Hh HsT HsH Hp Hc].
  destruct (slot_head_pos s Hi) as (Hj & _ & _).
  pose proof R as [[Hn Hcp Hst _] _ _ Hhd _ Ho _ _ _].
  destruct (rep_slot_count _ _ _ _ R) as [_ Hcap].
  destruct Hs as [s Hpc|s head t Hpc Ht _|s head t off Hpc Ht Hlt Hs|s head t Hpc Ht Hlt Hs
                 |s lease o bytes Hpc _ Hob Hb|s lease Hpc Hm|s lease Hpc|s lease d k Hpc Hd Hk _
                 |s lease Hpc Hm|s lease d k Hpc].
  - by split.
  - by eapply inv_load_tail_full.
  - by eapply inv_load_tail_free.
  - unfold p_ok in Hp. rewrite Hpc in Hp. subst head.
    by rewrite (slot_Ok n stride cap _ _ _ _ (c_H s) R Hw) in Hs by lia.
  - by apply inv_fill.
  - unfold p_ok in Hp. rewrite Hpc in Hp. destruct Hp as [_ ->]. cbn [lease_at pl_slot] in Hm.
    by rewrite Hcap, (rep_in_mapping n stride cap _ _ _ _ _ _ _ R) in Hm by lia.
  - by split.
  - by apply inv_describe.
  - unfold p_ok in Hp. rewrite Hpc in Hp. destruct Hp as [_ ->]. cbn [lease_at pl_slot] in Hm.
    pose proof (rep_in_mapping n stride cap _ _ _ _ (c_H s) 0 64 R) as Hin.
    rewrite Z.add_0_r in Hin. by rewrite Hin in Hm by lia.
  - by apply inv_publish.
Qed.

(** *** Steps of the consumer preserve the invariant *)

Lemma inv_load_head_frame s tail h off :
  inv s → wrap_ok n (c_H s) → c_c s = CGotTail tail → c_seenH s <= h <= c_H s →
  tail ≠ h mod 2 ^ 64 → slot (c_mem s) tail = Ok off →
  inv (with_c (CSlot tail off) (see_H h s)).
Proof.
  intros [R Hh HsT HsH Hp Hc] Hw Hpc Ht Hne Hs. pose proof R as [_ _ _ _ _ Ho _ _ _].
  unfold c_ok in Hc. rewrite Hpc in Hc. subst tail.
  rewrite (slot_Ok n stride cap _ _ _ _ (c_T s) R Hw) in Hs by lia. apply Ok_inj in Hs. subst off.
  assert (c_T s ≠ h) by congruence. split; cbn; try done; lia.
Qed.

Lemma inv_read_descriptor s tail off :
  inv s → c_c s = CSlot tail off →
  let d := decode_descriptor (slice (Z.to_nat off) 64 (c_mem s)) in
  descriptor_accepted d (c_mem s) = true ∧
  inv (with_c (CLease {| fl_descriptor := d; fl_payload := off + 64; fl_tail := tail |}) s).
Proof.
  intros Hi Hpc d. pose proof Hi as [R Hh HsT HsH Hp Hc].
  unfold c_ok in Hc. rewrite Hpc in Hc. destruct Hc as (Hlt & -> & ->).
  destruct (inv_front s Hi) as (f & Hf & _ & Hat); [lia|].
  pose proof Hat as (Hdec & _). unfold slot_pos in Hdec.
  split; [unfold d; rewrite Hdec; by eapply frame_at_accepted|].
  split; try done. unfold c_ok. cbn [with_c c_c c_T c_seenH c_hist]. split; [done|].
  exists f. split; [done|]. unfold frame_lease_at, d. by rewrite Hdec.
Qed.

Lemma inv_release s lease :
  inv s → c_c s = CLease lease →
  inv (with_c CIdle (consume
      (with_mem (store 8 tail_off (wrapping_add 64 (fl_tail lease) 1) (c_mem s)) s))).
Proof.
  intros Hi Hpc. destruct (slot_head_pos s Hi) as (Hj & Hge & Hfit).
  pose proof Hi as [R Hh HsT HsH Hp Hc]. pose proof R as [_ _ _ _ _ Ho _ _ _].
  unfold c_ok in Hc. rewrite Hpc in Hc. destruct Hc as (Hlt & f & Hf & ->).
  destruct (inv_front s Hi) as (f' & _ & Hd & _); [lia|].
  cbn [frame_lease_at fl_tail]. rewrite wrapping_add_mod.
  split; cbn [with_c consume with_mem c_mem c_T c_H c_hist c_seenT c_seenH]; try done; try lia.
  - apply ring_rep_release with f'. by rewrite <- Hd.
  - apply (p_ok_stable s); try done. cbn. unfold store. apply slice_inserts_disjoint.
    rewrite length_le_split. unfold tail_off. lia.
Qed.

Lemma cstep_inv s s' : inv s → wrap_ok n (c_H s) → cstep s s' → inv s'.
Proof.
  intros Hi Hw Hs. pose proof Hi as [R Hh HsT HsH Hp Hc].
  pose proof R as [[Hn Hcp Hst _] _ _ _ Htl Ho _ _ _].
  destruct Hs as [s Hpc|s tail h Hpc Ht _|s tail h off Hpc Ht Hne Hs|s tail h Hpc Ht Hne Hs
                 |s tail off Hpc _ d _|s tail off Hpc _ Hrej|s tail off Hpc Hm|s lease Hpc Hm
                 |s lease Hpc].
  - by split.
  - split; cbn; try done; lia.
  - by eapply inv_load_head_frame.
  - unfold c_ok in Hc. rewrite Hpc in Hc. subst tail.
    by rewrite (slot_Ok n stride cap _ _ _ _ (c_T s) R Hw) in Hs by lia.
  - by apply inv_read_descriptor.
  - destruct (inv_read_descriptor s tail off Hi Hpc) as [Hok _]. congruence.
  - unfold c_ok in Hc. rewrite Hpc in Hc. destruct Hc as (_ & _ & ->).
    pose proof (rep_in_mapping n stride cap _ _ _ _ (c_T s) 0 64 R) as Hin.
    rewrite Z.add_0_r in Hin. by rewrite Hin in Hm by lia.
  - unfold c_ok in Hc. rewrite Hpc in Hc. destruct Hc as (Hlt & f & Hf & ->).
    destruct (inv_front s Hi) as (f' & Hf' & _ & (_ & _ & _ & _ & Hpb & Hle)); [lia|].
    rewrite Hf in Hf'. simplify_eq. cbn [frame_lease_at fl_payload fl_descriptor] in Hm.
    by rewrite Hpb, (rep_in_mapping n stride cap _ _ _ _ _ _ _ R) in Hm by lia.
  - by apply inv_release.
Qed.

(** *** What each side leaves alone *)

Lemma pstep_consumer s s' : pstep s s' →
  c_c s' = c_c s ∧ c_T s' = c_T s ∧ c_seenH s' = c_seenH s ∧ c_hist s `prefix_of` c_hist s'.
Proof. intros []; cbn; repeat split; try done. by apply prefix_app_r. Qed.

Lemma cstep_producer s s' : cstep s s' →
  c_p s' = c_p s ∧ c_H s' = c_H s ∧ c_seenT s' = c_seenT s ∧ c_hist s' = c_hist s.
Proof. by intros []. Qed.

(** The consumer writes nothing but its cursor. *)
Lemma cstep_slice s s' o m : cstep s s' → (256 <= o)%nat → slice o m (c_mem s') = slice o m (c_mem s).
Proof.
  intros [] Ho; cbn; try done. apply slice_store_other. unfold tail_off. lia.
Qed.

(** While a lease is held, the frame and its bytes are those of the history. *)
Lemma inv_lease s lease :
  inv s → c_c s = CLease lease →
  ∃ payload, c_hist s !! Z.to_nat (c_T s) = Some (fl_descriptor lease, payload) ∧
    fd_payload_bytes (fl_descriptor lease) = Z.of_nat (length payload) ∧
    slice (Z.to_nat (fl_payload lease)) (length payload) (c_mem s) = payload ∧
    in_mapping (fl_payload lease) (Z.of_nat (length payload)) (c_mem s) = true.
Proof.
  intros Hi Hl. pose proof Hi as [R _ _ HsH _ Hcc]. pose proof R as [[Hnb Hcb Hst _] _ _ _ _ Ho _ _ _].
  unfold c_ok in Hcc. rewrite Hl in Hcc. destruct Hcc as (Hlt & f & Hfr & ->).
  destruct (inv_front s Hi) as (f' & Hf' & _ & (_ & Hp & _ & _ & Hpb & Hle)); [lia|].
  rewrite Hfr in Hf'. simplify_eq. pose proof (Z.mod_pos_bound (c_T s) n ltac:(lia)).
  exists (snd f'). cbn [frame_lease_at fl_descriptor fl_payload].
  rewrite slot_pos_offset by lia. rewrite <- surjective_pairing. repeat split; try done.
  by rewrite (rep_in_mapping n stride cap _ _ _ _ _ _ _ R) by lia.
Qed.

(** A reservation is of the slot at the head. *)
Lemma inv_reserved s lease :
  inv s → c_p s = PLease lease →
  lease = lease_at (c_H s) ∧
  Z.to_nat (pl_slot lease) = slot_pos stride (c_H s mod n) ∧
  (256 <= slot_pos stride (c_H s mod n))%nat ∧
  (slot_pos stride (c_H s mod n) + 64 + Z.to_nat cap <= length (c_mem s))%nat.
Proof.
  intros Hi Hpc. destruct (slot_head_pos s Hi) as (Hj & Hge & Hfit).
  pose proof Hi as [[[Hn Hc Hs _] _ _ _ _ _ _ _ _] _ _ _ Hp _].
  unfold p_ok in Hp. rewrite Hpc in Hp. destruct Hp as [_ ->]. cbn [lease_at pl_slot].
  repeat split; try done. lia.
Qed.

Lemma step_inv s s' : inv s → wrap_ok n (c_H s) → step s s' → inv s'.
Proof. intros Hi Hw Hs. destruct Hs; [by eapply pstep_inv|by eapply cstep_inv]. Qed.
End invariant.

Lemma step_published_mono s s' : step s s' → c_H s <= c_H s'.
Proof. intros [? ? []|? ? []]; cbn; lia. Qed.

Lemma start_inv n cap mem :
  is_u32 n = true → is_u32 cap = true → fresh_ring n cap = Ok mem →
  inv n (stride_of cap) cap (start mem).
Proof.
  intros Hn Hc Hf. destruct (fresh_ring_rep n cap mem Hn Hc Hf) as [R _].
  pose proof R as [[Hnb _ _ _] _ _ _ _ _ _ _ _]. split; cbn; done || lia.
Qed.

Lemma ring_reachable_inv n cap mem s :
  is_u32 n = true → is_u32 cap = true → fresh_ring n cap = Ok mem →
  reachable mem s → wrap_ok n (c_H s) → inv n (stride_of cap) cap s.
Proof.
  intros Hn Hc Hf Hr. revert s Hr.
  apply (rtc_ind_r (λ s, wrap_ok n (c_H s) → inv n (stride_of cap) cap s));
    [intros _; by apply start_inv|].
  intros s s' _ Hst IH Hw. pose proof (step_published_mono _ _ Hst).
  assert (wrap_ok n (c_H s)) by (destruct Hw; [by left|right; lia]).
  eapply step_inv; [by apply IH|done|done].
Qed.

(** ** What the interleaving guarantees *)

Definition p_went_wrong (p : ppc) : bool := match p with PWrong => true | _ => false end.
Definition c_went_wrong (c : cpc) : bool :=
  match c with CWrong | CRejected => true | _ => false end.

(** C10. However producer and consumer interleave, and however stale the cursor
    each side sees of the other, neither accesses memory outside of the mapping
    or panics, and the consumer never rejects a frame: it cannot observe a slot
    whose descriptor is only partly written. *)
Theorem interleaving_never_goes_wrong n cap mem s :
  is_u32 n = true → is_u32 cap = true → fresh_ring n cap = Ok mem →
  reachable mem s → 2 ^ 64 mod n = 0 ∨ c_H s < 2 ^ 64 →
  p_went_wrong (c_p s) = false ∧ c_went_wrong (c_c s) = false.
Proof.
  intros Hn Hc Hf Hr Hw. destruct (ring_reachable_inv n cap mem s Hn Hc Hf Hr Hw) as [_ _ _ _ Hp Hcc].
  unfold p_ok in Hp. unfold c_ok in Hcc. by destruct (c_p s), (c_c s).
Qed.

(** C3. The consumer's [T]-th lease is the [T]-th frame the producer published:
    its descriptor is the published one, and for as long as the lease is held the
    payload bytes in shared memory are the published bytes, whatever the producer
    does meanwhile.  Frames are neither lost, duplicated, reordered nor torn. *)
Theorem held_lease_is_published_frame n cap mem s lease :
  is_u32 n = true → is_u32 cap = true → fresh_ring n cap = Ok mem →
  reachable mem s → 2 ^ 64 mod n = 0 ∨ c_H s < 2 ^ 64 →
  c_c s = CLease lease →
  ∃ payload, c_hist s !! Z.to_nat (c_T s) = Some (fl_descriptor lease, payload) ∧
    fd_payload_bytes (fl_descriptor lease) = Z.of_nat (length payload) ∧
    slice (Z.to_nat (fl_payload lease)) (length payload) (c_mem s) = payload.
Proof.
  intros Hn Hc Hf Hr Hw Hl. pose proof (ring_reachable_inv n cap mem s Hn Hc Hf Hr Hw) as Hi.
  destruct (inv_lease n (stride_of cap) cap s lease Hi Hl) as (payload & ? & ? & ? & _). eauto.
Qed.

Definition producer_slot (p : ppc) : option Z :=
  match p with PLease l | PDescribed l _ _ => Some (pl_slot l) | _ => None end.

Definition consumer_slot (c : cpc) : option Z :=
  match c with
  | CSlot _ off => Some off
  | CLease l => Some (fl_payload l - 64)
  | _ => None
  end.

(** C2. No data race on slots: while the producer holds a reservation and the
    consumer reads a frame, the two slots are different and their byte ranges do
    not overlap. *)
Theorem leased_slots_disjoint n cap mem s i j :
  is_u32 n = true → is_u32 cap = true → fresh_ring n cap = Ok mem →
  reachable mem s → 2 ^ 64 mod n = 0 ∨ c_H s < 2 ^ 64 →
  producer_slot (c_p s) = Some i → consumer_slot (c_c s) = Some j →
  i + 64 + cap <= j ∨ j + 64 + cap <= i.
Proof.
  intros Hn Hc Hf Hr Hw Hps Hcs.
  destruct (ring_reachable_inv n cap mem s Hn Hc Hf Hr Hw) as [R _ HsT HsH Hp Hcc].
  pose proof R as [[Hnb Hcb Hst _] _ _ _ _ Ho _ _ _].
  assert (c_H s - c_seenT s < n ∧ i = ring_header_size + c_H s mod n * stride_of cap) as [Hfree ->].
  { unfold p_ok in Hp. destruct (c_p s); cbn in Hps; simplify_eq; naive_solver. }
  assert (c_T s < c_seenH s ∧ j = ring_header_size + c_T s mod n * stride_of cap) as [Hlt ->].
  { unfold c_ok in Hcc. destruct (c_c s); cbn in Hcs; simplify_eq; [naive_solver|].
    destruct Hcc as (? & f & _ & ->). cbn [frame_lease_at fl_payload]. lia. }
  pose proof (slot_index_distinct n (c_T s) (c_H s) ltac:(lia) ltac:(lia)) as Hne.
  pose proof (Z.mod_pos_bound (c_T s) n ltac:(lia)).
  pose proof (Z.mod_pos_bound (c_H s) n ltac:(lia)).
  assert (c_T s mod n < c_H s mod n ∨ c_H s mod n < c_T s mod n) as [|] by lia; nia.
Qed.

(** A run that the three theorems apply to: the producer publishes one frame and
    reserves the next slot while the consumer holds the first. *)
Definition example_mem0 : memory := match fresh_ring 2 16 with Ok m => m | _ => [] end.

Definition example_frame : FrameDescriptor := frame_descriptor_new Lc3Sdu_kind 7.

Definition example_mem1 : memory :=
  list_inserts 256 (encode_descriptor (slice 256 64 example_mem0) (stamp_descriptor example_frame 0)) example_mem0.

Definition example_mem2 : memory := store 8 head_off 1 example_mem1.

Definition example_state : cstate :=
  {| c_mem := example_mem2;
     c_p := PLease {| pl_slot := 384; pl_head := 1; pl_committed := false |};
     c_c := CLease {| fl_descriptor := stamp_descriptor example_frame 0;
                      fl_payload := 320; fl_tail := 0 |};
     c_T := 0; c_H := 1; c_seenT := 0; c_seenH := 1;
     c_hist := [(stamp_descriptor example_frame 0, [])] |}.

Lemma example_reachable : reachable example_mem0 example_state.
Proof.
  eapply rtc_l; [apply step_p, p_load_head; reflexivity|].
  eapply rtc_l; [apply step_p; eapply (p_load_tail_free _ 0 0 256); vm_compute; done|].
  eapply rtc_l; [apply step_p; eapply (p_describe _ _ example_frame 0); vm_compute; done|].
  eapply rtc_l; [apply step_p; eapply p_publish; reflexivity|].
  eapply rtc_l; [apply step_p, p_load_head; reflexivity|].
  eapply rtc_l; [apply step_p; eapply (p_load_tail_free _ 1 0 384); vm_compute; done|].
  eapply rtc_l; [apply step_c, c_load_tail; reflexivity|].
  eapply rtc_l; [apply step_c; eapply (c_load_head_frame _ 0 1 256); vm_compute; done|].
  eapply rtc_l; [apply step_c; eapply c_read_descriptor; vm_compute; done|].
  match goal with |- rtc _ ?x ?y => replace x with y by (vm_compute; reflexivity) end.
  apply rtc_refl.
Qed.

Lemma example_mem0_fresh : fresh_ring 2 16 = Ok example_mem0.
Proof. vm_compute. reflexivity. Qed.

Lemma interleaving_never_goes_wrong_witness :
  p_went_wrong (c_p example_state) = false ∧ c_went_wrong (c_c example_state) = false.
Proof.
  apply (interleaving_never_goes_wrong 2 16 example_mem0 example_state);
    [reflexivity|reflexivity|exact example_mem0_fresh|exact example_reachable|].
  right. vm_compute. reflexivity.
Defined.

Lemma held_lease_is_published_frame_witness :
  ∃ payload : memory, c_hist example_state !! 0%nat = Some (stamp_descriptor example_frame 0, payload) ∧
    fd_payload_bytes (stamp_descriptor example_frame 0) = Z.of_nat (length payload) ∧
    slice 320 (length payload) (c_mem example_state) = payload.
Proof.
  refine (held_lease_is_published_frame 2 16 example_mem0 example_state _
    eq_refl eq_refl example_mem0_fresh example_reachable _ eq_refl).
  right. vm_compute. reflexivity.
Defined.

Lemma leased_slots_disjoint_witness : 384 + 64 + 16 <= 256 ∨ 256 + 64 + 16 <= 384.
Proof.
  refine (leased_slots_disjoint 2 16 example_mem0 example_state 384 256
    eq_refl eq_refl example_mem0_fresh example_reachable _ eq_refl eq_refl).
  right. vm_compute. reflexivity.
Defined.
