(* ===== verification/Channel.v ===== *)
(** * Bounded channels

    The actors of the repository talk through [tokio::sync::mpsc] channels.
    Tokio is not part of the repository: a channel is an abstract type with the
    operations the code uses and the documented laws of a bounded
    multi-producer, single-consumer FIFO.  The components are verified against
    this interface. *)

From S2P Require Import Prelude.

Class Channel (Q : Type → Type) := {
  (** [mpsc::channel(capacity)] *)
  ch_new : ∀ {A}, nat → Q A;
  (** A [send] that completes; [None] when it has to wait for capacity. *)
  ch_push : ∀ {A}, A → Q A → option (Q A);
  (** A [recv] that completes; [None] when the channel is empty. *)
  ch_pop : ∀ {A}, Q A → option (A * Q A);
  (** The messages sent and not yet received. *)
  ch_items : ∀ {A}, Q A → list A;
  ch_capacity : ∀ {A}, Q A → nat;
}.

Class ChannelLaws (Q : Type → Type) `{!Channel Q} : Prop := {
  ch_items_new A n : ch_items (ch_new (A := A) n) = [];
  ch_capacity_new A n : ch_capacity (ch_new (A := A) n) = n;
  ch_push_ready A (a : A) q :
    (length (ch_items q) < ch_capacity q)%nat → ∃ q', ch_push a q = Some q';
  ch_push_full A (a : A) q :
    (ch_capacity q <= length (ch_items q))%nat → ch_push a q = None;
  ch_items_push A (a : A) q q' : ch_push a q = Some q' → ch_items q' = ch_items q ++ [a];
  ch_capacity_push A (a : A) q q' : ch_push a q = Some q' → ch_capacity q' = ch_capacity q;
  ch_pop_ready A (q : Q A) : ch_items q ≠ [] → is_Some (ch_pop q);
  ch_items_pop A (a : A) q q' : ch_pop q = Some (a, q') → ch_items q = a :: ch_items q';
  ch_capacity_pop A (a : A) q q' : ch_pop q = Some (a, q') → ch_capacity q' = ch_capacity q;
}.

(** A channel as a list with a capacity, to run the components. *)
Record list_channel (A : Type) := { lc_items : list A; lc_capacity : nat }.
Arguments Build_list_channel {A} _ _.
Arguments lc_items {A} _.
Arguments lc_capacity {A} _.

#[global] Instance list_channel_ops : Channel list_channel := {|
  ch_new A n := {| lc_items := []; lc_capacity := n |};
  ch_push A a q :=
    if (length (lc_items q) <? lc_capacity q)%nat
    then Some {| lc_items := lc_items q ++ [a]; lc_capacity := lc_capacity q |} else None;
  ch_pop A q :=
    match lc_items q with
    | [] => None
    | a :: l => Some (a, {| lc_items := l; lc_capacity := lc_capacity q |})
    end;
  ch_items A := lc_items;
  ch_capacity A := lc_capacity;
|}.

#[global] Instance list_channel_laws : ChannelLaws list_channel.
Proof.
  split; intros A; cbn -[Nat.ltb]; try done.
  - intros a q Hq. rewrite (proj2 (Nat.ltb_lt _ _) Hq). eauto.
  - intros a q Hq. by rewrite (proj2 (Nat.ltb_ge _ _) Hq).
  - intros a q q' H. case_match; by simplify_eq.
  - intros a q q' H. case_match; by simplify_eq.
  - intros q H. destruct (lc_items q); [done|eauto].
  - intros a q q' H. destruct (lc_items q); by simplify_eq.
  - intros a q q' H. destruct (lc_items q); by simplify_eq.
Qed.
