(* ===== verification/Session.v ===== *)
(** * The session actor ([src/wireless/session.rs])

    A session is a task that owns the session state and serves commands from a
    bounded channel, one at a time, publishing events on a second bounded
    channel.  [handle_command] is one arm of the task's [match]; the step
    relation interleaves the task with any number of clients and with the
    consumer of the events, including the suspension points inside of a
    command, the consumer going away and the handles going away. *)

From S2P Require Import Prelude Types Channel.

Inductive SessionState := Idle | Configured | Streaming | Suspended | Closed.

#[global] Instance SessionState_eq_dec : EqDecision SessionState.
Proof. solve_decision. Defined.

(** [{state:?}] *)
Definition state_debug (s : SessionState) : string :=
  match s with
  | Idle => "Idle" | Configured => "Configured" | Streaming => "Streaming"
  | Suspended => "Suspended" | Closed => "Closed"
  end.

Inductive SessionEvent :=
| StateChanged (state : SessionState)
| ConfigurationChanged (configuration : AudioConfiguration)
| PositionChanged (position : PresentationPosition).

#[global] Instance SessionEvent_eq_dec : EqDecision SessionEvent.
Proof. solve_decision. Defined.

(** The commands; the reply channel each carries is the identifier the step
    relation gives to the command. *)
Inductive Command :=
| Configure (configuration : AudioConfiguration)
| Start
| Suspend
| Stop
| UpdatePosition (position : PresentationPosition)
| GetPosition
| Close.

Inductive Reply :=
| RResult (r : result unit)
| RPosition (p : PresentationPosition)
| RClosed.

(** The local variables of the task. *)
Record Session := {
  ss_state : SessionState;
  ss_configuration : option AudioConfiguration;
  ss_position : PresentationPosition;
}.

Definition session_init : Session :=
  {| ss_state := Idle; ss_configuration := None; ss_position := position_default |}.

(** What one arm of the [match] does: the new locals, the events it emits in
    order, the reply it sends once all of them are sent, and whether it leaves
    the loop. *)
Record outcome := {
  oc_session : Session;
  oc_events : list SessionEvent;
  oc_reply : Reply;
  oc_break : bool;
}.

Section handler.
Context (session_type : SessionType).

(** The closure of the [Configure] arm. *)
Definition configure_check (next : AudioConfiguration) (s : Session) : result unit :=
  ensure (match ss_state s with Idle | Configured | Suspended => true | _ => false end)
    ("cannot configure session in " +:+ state_debug (ss_state s)) ?;
  validate_for next session_type.

(** The closure of the [UpdatePosition] arm. *)
Definition position_check (next : PresentationPosition) (s : Session) : result unit :=
  ensure (bool_decide (ss_state s = Streaming)) "position update outside streaming state" ?;
  ensure (pp_monotonic_time_ns (ss_position s) <=? pp_monotonic_time_ns next)
    "presentation clock moved backwards" ?;
  if carries_host_payload session_type then
    ensure (pp_transmitted_octets (ss_position s) <=? pp_transmitted_octets next)
      "transmitted octet counter moved backwards"
  else if negb (pp_transmitted_octets next =? 0) then
    Err ["offload sessions must not report host transmitted octets"]
  else Ok tt.

Definition refuse (s : Session) (e : string) : result outcome :=
  Ok {| oc_session := s; oc_events := []; oc_reply := RResult (Err [e]); oc_break := false |}.

(** The arms that only change the state. *)
Definition enter (s : Session) (state : SessionState) : result outcome :=
  Ok {| oc_session := {| ss_state := state; ss_configuration := ss_configuration s;
                         ss_position := ss_position s |};
        oc_events := [StateChanged state]; oc_reply := RResult (Ok tt); oc_break := false |}.

Definition handle_command (c : Command) (s : Session) : result outcome :=
  match c with
  | Configure next =>
      match configure_check next s with
      | Ok _ =>
          Ok {| oc_session := {| ss_state := Configured; ss_configuration := Some next;
                                 ss_position := ss_position s |};
                oc_events := [ConfigurationChanged next; StateChanged Configured];
                oc_reply := RResult (Ok tt); oc_break := false |}
      | Err e => Ok {| oc_session := s; oc_events := []; oc_reply := RResult (Err e);
                       oc_break := false |}
      | Panic w => Panic w
      | Undef w => Undef w
      end
  | Start =>
      match ss_configuration s with
      | None => refuse s "session has no audio configuration"
      | Some _ =>
          match ss_state s with
          | Configured | Suspended => enter s Streaming
          | _ => refuse s ("cannot start session in " +:+ state_debug (ss_state s))
          end
      end
  | Suspend =>
      if bool_decide (ss_state s ≠ Streaming)
      then refuse s ("cannot suspend session in " +:+ state_debug (ss_state s))
      else enter s Suspended
  | Stop =>
      match ss_state s with
      | Idle | Closed => refuse s ("cannot stop session in " +:+ state_debug (ss_state s))
      | _ => enter {| ss_state := ss_state s; ss_configuration := None;
                      ss_position := position_default |} Idle
      end
  | UpdatePosition next =>
      match position_check next s with
      | Ok _ =>
          Ok {| oc_session := {| ss_state := ss_state s; ss_configuration := ss_configuration s;
                                 ss_position := next |};
                oc_events := [PositionChanged next];
                oc_reply := RResult (Ok tt); oc_break := false |}
      | Err e => Ok {| oc_session := s; oc_events := []; oc_reply := RResult (Err e);
                       oc_break := false |}
      | Panic w => Panic w
      | Undef w => Undef w
      end
  | GetPosition =>
      Ok {| oc_session := s; oc_events := []; oc_reply := RPosition (ss_position s);
            oc_break := false |}
  | Close =>
      Ok {| oc_session := {| ss_state := Closed; ss_configuration := ss_configuration s;
                             ss_position := ss_position s |};
            oc_events := [StateChanged Closed]; oc_reply := RClosed; oc_break := true |}
  end.
End handler.

(** The integer fields of a command have their Rust types. *)
Definition command_typed (c : Command) : bool :=
  match c with Configure next => config_typed next | _ => true end.

(** ** The task among its clients *)

(** Where the task is: waiting for a command, inside of a command with events
    still to be sent, or finished with the result of its [JoinHandle]. *)
Inductive actor :=
| AtRecv
| Emitting (events : list SessionEvent) (id : nat) (reply : Reply) (last : bool)
| Finished (r : result unit).

Section system.
Context {Q : Type → Type} `{!Channel Q}.

Record sys := {
  y_session : Session;
  y_actor : actor;
  y_commands : Q (nat * Command)%type;
  y_handles : bool;                    (* some SessionHandle is alive *)
  y_events : Q SessionEvent;
  y_consumer : bool;                   (* the event receiver is alive *)
  y_replies : list (nat * Reply);      (* replies sent so far *)
  y_dropped : list nat;                (* reply channels dropped unanswered *)
  y_accepted : list (nat * Command);   (* auxiliary: all commands sent so far *)
  y_sent : list SessionEvent;          (* auxiliary: all events sent so far *)
  y_received : list SessionEvent;      (* events the consumer has received *)
}.

(** [spawn_session] *)
Definition spawn_session : sys := {|
  y_session := session_init;
  y_actor := AtRecv;
  y_commands := ch_new 16;
  y_handles := true;
  y_events := ch_new 16;
  y_consumer := true;
  y_replies := [];
  y_dropped := [];
  y_accepted := [];
  y_sent := [];
  y_received := [];
|}.

(** The task returns: its locals are dropped, with them the command receiver
    and the reply channels of the commands still queued. *)
Definition finish (r : result unit) (unanswered : list nat) (s : sys) : sys := {|
  y_session := y_session s;
  y_actor := Finished r;
  y_commands := ch_new 16;
  y_handles := y_handles s;
  y_events := y_events s;
  y_consumer := y_consumer s;
  y_replies := y_replies s;
  y_dropped := y_dropped s ++ unanswered ++ (ch_items (y_commands s)).*1;
  y_accepted := y_accepted s;
  y_sent := y_sent s;
  y_received := y_received s;
|}.

Definition set_actor (a : actor) (s : sys) : sys := {|
  y_session := y_session s; y_actor := a; y_commands := y_commands s;
  y_handles := y_handles s; y_events := y_events s; y_consumer := y_consumer s;
  y_replies := y_replies s; y_dropped := y_dropped s; y_accepted := y_accepted s;
  y_sent := y_sent s; y_received := y_received s |}.

Definition take_command (o : Session) (a : actor) (q : Q (nat * Command)%type) (s : sys) : sys := {|
  y_session := o; y_actor := a; y_commands := q;
  y_handles := y_handles s; y_events := y_events s; y_consumer := y_consumer s;
  y_replies := y_replies s; y_dropped := y_dropped s; y_accepted := y_accepted s;
  y_sent := y_sent s; y_received := y_received s |}.

Definition put_command (i : nat) (c : Command) (q : Q (nat * Command)%type) (s : sys) : sys := {|
  y_session := y_session s; y_actor := y_actor s; y_commands := q;
  y_handles := y_handles s; y_events := y_events s; y_consumer := y_consumer s;
  y_replies := y_replies s; y_dropped := y_dropped s;
  y_accepted := y_accepted s ++ [(i, c)]; y_sent := y_sent s; y_received := y_received s |}.

Definition put_event (e : SessionEvent) (a : actor) (q : Q SessionEvent) (s : sys) : sys := {|
  y_session := y_session s; y_actor := a; y_commands := y_commands s;
  y_handles := y_handles s; y_events := q; y_consumer := y_consumer s;
  y_replies := y_replies s; y_dropped := y_dropped s; y_accepted := y_accepted s;
  y_sent := y_sent s ++ [e]; y_received := y_received s |}.

Definition send_reply (i : nat) (r : Reply) (s : sys) : sys := {|
  y_session := y_session s; y_actor := AtRecv; y_commands := y_commands s;
  y_handles := y_handles s; y_events := y_events s; y_consumer := y_consumer s;
  y_replies := y_replies s ++ [(i, r)]; y_dropped := y_dropped s;
  y_accepted := y_accepted s; y_sent := y_sent s; y_received := y_received s |}.

Definition set_events (q : Q SessionEvent) (alive : bool) (got : list SessionEvent) (s : sys)
    : sys := {|
  y_session := y_session s; y_actor := y_actor s; y_commands := y_commands s;
  y_handles := y_handles s; y_events := q; y_consumer := alive;
  y_replies := y_replies s; y_dropped := y_dropped s; y_accepted := y_accepted s;
  y_sent := y_sent s; y_received := y_received s ++ got |}.

Definition drop_handles (s : sys) : sys := {|
  y_session := y_session s; y_actor := y_actor s; y_commands := y_commands s;
  y_handles := false; y_events := y_events s; y_consumer := y_consumer s;
  y_replies := y_replies s; y_dropped := y_dropped s; y_accepted := y_accepted s;
  y_sent := y_sent s; y_received := y_received s |}.

Definition running (s : sys) : bool :=
  match y_actor s with Finished _ => false | _ => true end.

Context (session_type : SessionType).

(** Steps of the task and of the consumer: everything but the clients. *)
Inductive task_step : sys → sys → Prop :=
| t_recv s id c q o :
    y_actor s = AtRecv → ch_pop (y_commands s) = Some ((id, c), q) →
    handle_command session_type c (y_session s) = Ok o →
    task_step s (take_command (oc_session o)
                   (Emitting (oc_events o) id (oc_reply o) (oc_break o)) q s)
| t_recv_panic s id c q w :
    y_actor s = AtRecv → ch_pop (y_commands s) = Some ((id, c), q) →
    handle_command session_type c (y_session s) = Panic w →
    task_step s (finish (Panic w) [id] (take_command (y_session s) AtRecv q s))
| t_recv_closed s :
    (* recv() returns None: no handle is left and the queue is empty *)
    y_actor s = AtRecv → ch_pop (y_commands s) = None → y_handles s = false →
    task_step s (finish (Ok tt) [] s)
| t_emit s e events id reply last q :
    y_actor s = Emitting (e :: events) id reply last → y_consumer s = true →
    ch_push e (y_events s) = Some q →
    task_step s (put_event e (Emitting events id reply last) q s)
| t_emit_fail s e events id reply last :
    y_actor s = Emitting (e :: events) id reply last → y_consumer s = false →
    task_step s (finish (Err ["session event consumer stopped"]) [id] s)
| t_reply s id reply :
    y_actor s = Emitting [] id reply false →
    task_step s (send_reply id reply s)
| t_reply_break s id reply :
    y_actor s = Emitting [] id reply true →
    task_step s (finish (Ok tt) [] (send_reply id reply s)).

Inductive consumer_step : sys → sys → Prop :=
| c_recv s e q :
    y_consumer s = true → ch_pop (y_events s) = Some (e, q) →
    consumer_step s (set_events q true [e] s)
| c_drop s :
    y_consumer s = true → consumer_step s (set_events (ch_new 16) false [] s).

Inductive client_step : sys → sys → Prop :=
| h_send s c q :
    (* the command is accepted: the receiver is alive and there is capacity *)
    y_handles s = true → running s = true → command_typed c = true →
    ch_push (length (y_accepted s), c) (y_commands s) = Some q →
    client_step s (put_command (length (y_accepted s)) c q s)
| h_drop s : y_handles s = true → client_step s (drop_handles s).

Inductive step : sys → sys → Prop :=
| step_task s s' : task_step s s' → step s s'
| step_consumer s s' : consumer_step s s' → step s s'
| step_client s s' : client_step s s' → step s s'.

Definition reachable (s : sys) : Prop := rtc step spawn_session s.

(** The calls of [SessionHandle].  [sent] is the identifier the command got, or
    [None] when the channel was closed ([send] failed).  A call is still waiting
    ([None]) until its reply was sent or dropped. *)
Fixpoint reply_of (id : nat) (replies : list (nat * Reply)) : option Reply :=
  match replies with
  | [] => None
  | (i, r) :: replies => if decide (i = id) then Some r else reply_of id replies
  end.

Definition await_reply (dropped : string) (sent : option nat) (s : sys) : option (result Reply) :=
  match sent with
  | None => Some (Err ["wireless audio session stopped"])
  | Some id =>
      match reply_of id (y_replies s) with
      | Some r => Some (Ok r)
      | None => if bool_decide (id ∈ y_dropped s) then Some (Err [dropped]) else None
      end
  end.

(** [receive.await??]: the error of the channel, or the result sent. *)
Definition flatten_reply (r : result Reply) : result unit :=
  let? reply := r in match reply with RResult r => r | _ => Ok tt end.

Definition handle_configure (sent : option nat) (s : sys) : option (result unit) :=
  flatten_reply <$> await_reply "session dropped configure response" sent s.
(** [start], [suspend] and [stop], through [request]. *)
Definition handle_request (sent : option nat) (s : sys) : option (result unit) :=
  flatten_reply <$> await_reply "session dropped command response" sent s.
Definition handle_update_position (sent : option nat) (s : sys) : option (result unit) :=
  flatten_reply <$> await_reply "session dropped position response" sent s.
Definition handle_presentation_position (sent : option nat) (s : sys)
    : option (result PresentationPosition) :=
  (λ r, let? reply := r in
        match reply with RPosition p => Ok p | _ => Ok position_default end) <$>
  await_reply "session dropped position response" sent s.
Definition handle_close (sent : option nat) (s : sys) : option (result unit) :=
  flatten_reply <$> await_reply "session dropped close response" sent s.

End system.
Arguments sys Q : clear implicits.

(** ** One command at a time: the handler *)

(** The specification of the handler: what the state means. *)
Record session_wf (t : SessionType) (s : Session) : Prop := {
  sw_idle : ss_state s = Idle → ss_configuration s = None ∧ ss_position s = position_default;
  sw_active : ss_state s ≠ Idle → ss_state s ≠ Closed →
    ∃ c, ss_configuration s = Some c ∧ validate_for c t = Ok tt;
  sw_offload : is_offloaded t = true → pp_transmitted_octets (ss_position s) = 0;
}.

Lemma session_init_wf t : session_wf t session_init.
Proof. by split. Qed.

Lemma configure_check_Ok t next s :
  configure_check t next s = Ok tt ↔
  (ss_state s = Idle ∨ ss_state s = Configured ∨ ss_state s = Suspended) ∧
  validate_for next t = Ok tt.
Proof.
  unfold configure_check, ensure. destruct (ss_state s); cbn; naive_solver.
Qed.

Lemma position_check_Ok t next s :
  position_check t next s = Ok tt ↔
  ss_state s = Streaming ∧
  pp_monotonic_time_ns (ss_position s) <= pp_monotonic_time_ns next ∧
  (if is_offloaded t then pp_transmitted_octets next = 0
   else pp_transmitted_octets (ss_position s) <= pp_transmitted_octets next).
Proof.
  unfold position_check, ensure, carries_host_payload.
  destruct (bool_decide _) eqn:E1; b2p; cbn; [|naive_solver].
  destruct (_ <=? _) eqn:E2; b2p; cbn; [|split; [done|lia]].
  destruct (is_offloaded t); cbn.
  - destruct (_ =? _) eqn:E3; b2p; cbn; naive_solver.
  - destruct (_ <=? _) eqn:E3; b2p; cbn; split; intros; done || lia || destruct_and! ; lia.
Qed.

Lemma configure_check_defined t next s :
  config_typed next = true → defined (configure_check t next s) = true.
Proof.
  intros Ht. unfold configure_check, ensure.
  destruct (validate_for_cases next t Ht) as [[_ Hv]|[_ Hv]];
    destruct (ss_state s); cbn; rewrite ?Hv; try done; by destruct (validate_for next t).
Qed.

Lemma position_check_defined t next s : defined (position_check t next s) = true.
Proof. unfold position_check, ensure. by repeat (case_match; cbn). Qed.

(** The handler always has an outcome: no command can kill the task. *)
Lemma handle_command_total t c s :
  command_typed c = true → ∃ o, handle_command t c s = Ok o.
Proof.
  destruct c; cbn [command_typed handle_command]; intros Ht; unfold refuse, enter;
    try (repeat case_match; by eauto).
  - pose proof (configure_check_defined t configuration s Ht). case_match; naive_solver.
  - pose proof (position_check_defined t position s). case_match; naive_solver.
Qed.

(** Case analysis on what a command did. *)
Ltac handler_cases H :=
  unfold handle_command, refuse, enter in H; repeat case_match; simplify_eq; b2p;
  repeat match goal with u : unit |- _ => destruct u end;
  repeat match goal with
    | E : configure_check _ _ _ = Ok _ |- _ => apply configure_check_Ok in E
    | E : position_check _ _ _ = Ok _ |- _ => apply position_check_Ok in E
    | E : ¬ (_ ≠ _) |- _ => apply dec_stable in E
    end; cbn [oc_session oc_events oc_reply oc_break ss_state ss_configuration ss_position].

Lemma handle_command_wf t c s o :
  session_wf t s → handle_command t c s = Ok o → session_wf t (oc_session o).
Proof.
  intros Hwf H. pose proof Hwf as [Hi Ha Ho].
  destruct c; handler_cases H; try exact Hwf; split;
    cbn [ss_state ss_configuration ss_position]; try done;
    try (intros; apply Ha; congruence).
  - intros _ _. exists configuration. by destruct H0.
  - intros Hs. destruct H0 as [Hs' _]. congruence.
  - intros Hoff. destruct H0 as (_ & _ & H0). by rewrite Hoff in H0.
Qed.

Lemma handle_command_events t c s o :
  handle_command t c s = Ok o → (length (oc_events o) <= 2)%nat.
Proof. intros H. destruct c; handler_cases H; cbn; lia. Qed.

(** ** What the event stream tells

    An observer of the events: what it believes of the session, and the events
    it considers possible next.  [None] is a violation of the protocol. *)
Record view := {
  vw_session : Session;
  vw_pending : option AudioConfiguration;   (* announced, not yet Configured *)
}.

Definition view_of (s : Session) : view := {| vw_session := s; vw_pending := None |}.

Definition observe1 (t : SessionType) (e : SessionEvent) (v : view) : option view :=
  let s := vw_session v in
  match vw_pending v, e with
  | Some c, StateChanged Configured =>
      Some (view_of {| ss_state := Configured; ss_configuration := Some c;
                       ss_position := ss_position s |})
  | Some _, _ => None
  | None, ConfigurationChanged c =>
      match ss_state s with
      | Idle | Configured | Suspended =>
          if bool_decide (validate_for c t = Ok tt)
          then Some {| vw_session := s; vw_pending := Some c |} else None
      | _ => None
      end
  | None, StateChanged Streaming =>
      match ss_state s with
      | Configured | Suspended =>
          Some (view_of {| ss_state := Streaming; ss_configuration := ss_configuration s;
                           ss_position := ss_position s |})
      | _ => None
      end
  | None, StateChanged Suspended =>
      match ss_state s with
      | Streaming =>
          Some (view_of {| ss_state := Suspended; ss_configuration := ss_configuration s;
                           ss_position := ss_position s |})
      | _ => None
      end
  | None, StateChanged Idle =>
      match ss_state s with
      | Configured | Streaming | Suspended => Some (view_of session_init)
      | _ => None
      end
  | None, StateChanged Closed =>
      match ss_state s with
      | Closed => None
      | _ => Some (view_of {| ss_state := Closed; ss_configuration := ss_configuration s;
                              ss_position := ss_position s |})
      end
  | None, StateChanged Configured => None
  | None, PositionChanged p =>
      if bool_decide (ss_state s = Streaming) &&
         (pp_monotonic_time_ns (ss_position s) <=? pp_monotonic_time_ns p) &&
         (if is_offloaded t then pp_transmitted_octets p =? 0
          else pp_transmitted_octets (ss_position s) <=? pp_transmitted_octets p)
      then Some (view_of {| ss_state := Streaming; ss_configuration := ss_configuration s;
                            ss_position := p |})
      else None
  end.

Fixpoint observe (t : SessionType) (es : list SessionEvent) (v : view) : option view :=
  match es with
  | [] => Some v
  | e :: es => v' ← observe1 t e v; observe t es v'
  end.

Lemma observe_app t es1 es2 v :
  observe t (es1 ++ es2) v = observe t es1 v ≫= observe t es2.
Proof.
  revert v. induction es1 as [|e es1 IH]; intros v; [done|]. cbn.
  destruct (observe1 t e v); [apply IH|done].
Qed.

Lemma handle_command_observed t c s o :
  ss_state s ≠ Closed → handle_command t c s = Ok o →
  observe t (oc_events o) (view_of s) = Some (view_of (oc_session o)) ∧
  (ss_state (oc_session o) = Closed ↔ oc_break o = true).
Proof.
  intros Hnc H. destruct s as [st cf po]. cbn [ss_state] in Hnc.
  destruct c; handler_cases H;
    try match goal with E : ss_state _ = _ |- _ => cbn in E; subst end; try done;
    cbn [ss_state ss_position ss_configuration] in *;
    try subst cf; try (by split; [|split]).
  - destruct H0 as [Hs Hv]. split; [|done]. cbn.
    rewrite bool_decide_eq_true_2 by done. by destruct Hs as [-> | [-> | ->] ].
  - destruct H0 as (-> & Hm & Ho). split; [|done]. cbn -[Z.leb Z.eqb].
    rewrite (proj2 (Z.leb_le _ _)) by lia. cbn -[Z.leb Z.eqb].
    destruct (is_offloaded t); [by rewrite Ho|]. by rewrite (proj2 (Z.leb_le _ _)) by lia.
  - split; [|done]. by destruct st.
Qed.

(** ** The task serves its commands one after the other *)

(** The sequential reference: the replies, the events and the final locals of
    serving a list of commands with nobody else around. *)
Fixpoint serve (t : SessionType) (cs : list (nat * Command)) (s : Session)
    : list (nat * Reply) * list SessionEvent * Session :=
  match cs with
  | [] => ([], [], s)
  | (i, c) :: cs =>
      match handle_command t c s with
      | Ok o =>
          let '(rs, es, s') := serve t cs (oc_session o) in
          ((i, oc_reply o) :: rs, oc_events o ++ es, s')
      | _ => ([], [], s)
      end
  end.

Lemma serve_snoc t cs i c s rs es s1 o :
  Forall (λ ic, command_typed (snd ic) = true) cs →
  serve t cs s = (rs, es, s1) → handle_command t c s1 = Ok o →
  serve t (cs ++ [(i, c)]) s = (rs ++ [(i, oc_reply o)], es ++ oc_events o, oc_session o).
Proof.
  intros Ht. revert s rs es. induction Ht as [|[j d] cs Hd Ht IH]; intros s rs es H Ho; cbn in *.
  { simplify_eq. rewrite Ho. cbn. by rewrite app_nil_r. }
  destruct (handle_command_total t d s Hd) as [o' Ho']. rewrite Ho' in *.
  destruct (serve t cs (oc_session o')) as [[rs' es'] s'] eqn:Hs. simplify_eq.
  by rewrite (IH _ _ _ Hs Ho), app_assoc.
Qed.

Lemma serve_replies t cs s :
  Forall (λ ic, command_typed (snd ic) = true) cs → (serve t cs s).1.1.*1 = cs.*1.
Proof.
  intros Ht. revert s. induction Ht as [|[j d] cs Hd Ht IH]; intros s; [done|]. cbn.
  destruct (handle_command_total t d s Hd) as [o Ho]. rewrite Ho.
  specialize (IH (oc_session o)). destruct (serve t cs _) as [[rs es] s']. cbn in *. by f_equal.
Qed.

Section invariant.
Context {Q : Type → Type} `{!Channel Q} `{!ChannelLaws Q} (t : SessionType).
Implicit Types s : sys Q.

Abbreviation commands s := (ch_items (y_commands s)).

(** Between two commands: the locals are those after [served]. *)
Definition between (S : Session) (es : list SessionEvent) s : Prop :=
  y_session s = S ∧ y_sent s = es.

(** Inside of the command at the head of [rest], with [p] still to be sent. *)
Definition inside (S : Session) (es : list SessionEvent) (rest : list (nat * Command))
    (p : list SessionEvent) (id : nat) (o : outcome) s : Prop :=
  ∃ c rest' sent, rest = (id, c) :: rest' ∧ handle_command t c S = Ok o ∧
    y_session s = oc_session o ∧ oc_events o = sent ++ p ∧ y_sent s = es ++ sent.

Definition actor_ok (S : Session) (es : list SessionEvent) (rest : list (nat * Command)) s : Prop :=
  match y_actor s with
  | AtRecv => between S es s ∧ rest = commands s ∧ ss_state S ≠ Closed ∧ y_dropped s = []
  | Emitting p id reply last =>
      ss_state S ≠ Closed ∧ y_dropped s = [] ∧ tail rest = commands s ∧
      ∃ o, inside S es rest p id o s ∧ reply = oc_reply o ∧ last = oc_break o
  | Finished _ =>
      commands s = [] ∧ y_dropped s = rest.*1 ∧
      (between S es s ∨ ∃ p id o, ss_state S ≠ Closed ∧ inside S es rest p id o s)
  end.

Record progress s (served rest : list (nat * Command)) (es : list SessionEvent)
    (S : Session) : Prop := {
  pr_accepted : y_accepted s = served ++ rest;
  pr_ids : (y_accepted s).*1 = seq 0 (length (y_accepted s));
  pr_typed : Forall (λ ic, command_typed (snd ic) = true) (y_accepted s);
  pr_serve : serve t served session_init = (y_replies s, es, S);
  pr_wf : session_wf t S;
  pr_view : observe t es (view_of session_init) = Some (view_of S);
  pr_actor : actor_ok S es rest s;
  pr_events : if y_consumer s then y_sent s = y_received s ++ ch_items (y_events s)
              else y_received s `prefix_of` y_sent s;
  pr_capacity : ch_capacity (y_events s) = 16%nat;
}.

Definition inv s : Prop := ∃ served rest es S, progress s served rest es S.

Lemma inv_spawn : inv spawn_session.
Proof.
  exists [], [], [], session_init. split; try done.
  - split; [done|]. cbn. by rewrite ch_items_new.
  - cbn. by rewrite ch_items_new.
  - apply ch_capacity_new.
Qed.

Lemma inv_recv s id c q o :
  inv s → y_actor s = AtRecv → ch_pop (y_commands s) = Some ((id, c), q) →
  handle_command t c (y_session s) = Ok o →
  inv (take_command (oc_session o) (Emitting (oc_events o) id (oc_reply o) (oc_break o)) q s).
Proof.
  intros (served & rest & es & S & [Ha Hi Ht Hs Hw Hv Hact He Hc]) Hpc Hpop Ho.
  unfold actor_ok in Hact. rewrite Hpc in Hact.
  destruct Hact as ([HS Hsent] & Hrest & Hncl & Hdr).
  apply ch_items_pop in Hpop. rewrite Hpop in Hrest. rewrite HS in Ho.
  exists served, rest, es, S. split; try done.
  split; [done|]. split; [done|]. split; [by rewrite Hrest|].
  exists o. split; [|done]. exists c, (ch_items q), []. cbn. by rewrite app_nil_r.
Qed.

Lemma inv_emit s e events id reply last q :
  inv s → y_actor s = Emitting (e :: events) id reply last → y_consumer s = true →
  ch_push e (y_events s) = Some q →
  inv (put_event e (Emitting events id reply last) q s).
Proof.
  intros (served & rest & es & S & [Ha Hi Ht Hs Hw Hv Hact He Hc]) Hpc Hcon Hpush.
  unfold actor_ok in Hact. rewrite Hpc in Hact.
  destruct Hact as (Hncl & Hdr & Hq & o & (c & rest' & sent & Hr & Ho & HS & Hev & Hsent) & -> & ->).
  rewrite Hcon in He. exists served, rest, es, S. split; try done.
  - do 3 (split; [done|]). exists o. split; [|done]. exists c, rest', (sent ++ [e]).
    split; [done|]. split; [done|]. split; [done|]. rewrite <- app_assoc. split; [done|].
    cbn [put_event y_sent]. by rewrite Hsent, app_assoc.
  - cbn [put_event y_consumer y_sent y_received y_events]. rewrite Hcon.
    by rewrite (ch_items_push _ _ _ _ Hpush), He, app_assoc.
  - cbn. by rewrite (ch_capacity_push _ _ _ _ Hpush).
Qed.

(** The command that was served moves over to the served ones. *)
Lemma inv_served s id reply last :
  inv s → y_actor s = Emitting [] id reply last →
  ∃ served rest es S o c, progress s served ((id, c) :: rest) es S ∧
    rest = commands s ∧ y_session s = oc_session o ∧
    reply = oc_reply o ∧ last = oc_break o ∧ y_dropped s = [] ∧
    serve t (served ++ [(id, c)]) session_init =
      (y_replies s ++ [(id, oc_reply o)], y_sent s, oc_session o) ∧
    session_wf t (oc_session o) ∧
    observe t (y_sent s) (view_of session_init) = Some (view_of (oc_session o)) ∧
    (ss_state (oc_session o) = Closed ↔ last = true).
Proof.
  intros (served & rest & es & S & HP) Hpc. pose proof HP as [Ha Hi Ht Hs Hw Hv Hact He Hc].
  unfold actor_ok in Hact. rewrite Hpc in Hact.
  destruct Hact as (Hncl & Hdr & Hq & o & (c & rest' & sent & -> & Ho & HS & Hev & Hsent) & -> & ->).
  rewrite app_nil_r in Hev. subst sent. cbn in Hq. subst rest'.
  destruct (handle_command_observed t c S o Hncl Ho) as [Hob Hcl].
  exists served, (commands s), es, S, o, c. split; [done|]. repeat (split; [done|]).
  rewrite Hsent. split; [|split; [|split; [|done]]].
  - apply (serve_snoc t served id c session_init _ _ S); try done.
    rewrite Ha in Ht. by apply Forall_app in Ht as [? _].
  - by apply (handle_command_wf t c S).
  - by rewrite observe_app, Hv.
Qed.

Lemma inv_reply s id reply :
  inv s → y_actor s = Emitting [] id reply false → inv (send_reply id reply s).
Proof.
  intros Hinv Hpc. destruct (inv_served s id reply false Hinv Hpc)
    as (served & rest & es & S & o & c & [Ha Hi Ht Hs Hw Hv Hact He Hc] & Hr & HS & -> & Hl & Hdr
        & Hsv & Hwf & Hob & Hcl).
  exists (served ++ [(id, c)]), rest, (y_sent s), (oc_session o). split; try done.
  - cbn. by rewrite Ha, <- app_assoc.
  - split; [done|]. split; [done|]. split; [|done]. rewrite Hcl. done.
Qed.

Lemma inv_finish_between s served rest es S r :
  progress s served rest es S → between S es s → rest = commands s → y_dropped s = [] →
  inv (finish r [] s).
Proof.
  intros [Ha Hi Ht Hs Hw Hv Hact He Hc] Hb Hr Hdr. exists served, rest, es, S. split; try done.
  split; [apply ch_items_new|]. split; [|by left]. cbn. by rewrite Hdr, Hr.
Qed.

Lemma inv_reply_break s id reply :
  inv s → y_actor s = Emitting [] id reply true →
  inv (finish (Ok tt) [] (send_reply id reply s)).
Proof.
  intros Hinv Hpc. destruct (inv_served s id reply true Hinv Hpc)
    as (served & rest & es & S & o & c & [Ha Hi Ht Hs Hw Hv Hact He Hc] & Hr & HS & -> & Hl & Hdr
        & Hsv & Hwf & Hob & Hcl).
  exists (served ++ [(id, c)]), rest, (y_sent s), (oc_session o). split; try done.
  - cbn. by rewrite Ha, <- app_assoc.
  - split; [apply ch_items_new|]. split; [|by left]. cbn. by rewrite Hdr, Hr.
Qed.

Lemma inv_emit_fail s e events id reply last :
  inv s → y_actor s = Emitting (e :: events) id reply last → y_consumer s = false →
  inv (finish (Err ["session event consumer stopped"]) [id] s).
Proof.
  intros (served & rest & es & S & [Ha Hi Ht Hs Hw Hv Hact He Hc]) Hpc Hcon.
  unfold actor_ok in Hact. rewrite Hpc in Hact.
  destruct Hact as (Hncl & Hdr & Hq & o & Hin & -> & ->).
  exists served, rest, es, S. split; try done.
  pose proof Hin as (c & rest' & sent & -> & _). cbn in Hq. subst rest'.
  split; [apply ch_items_new|]. split; [cbn; by rewrite Hdr|].
  right. by exists (e :: events), id, o.
Qed.

(** A command in the queue never makes the handler panic. *)
Lemma queued_typed s id c q :
  inv s → ch_pop (y_commands s) = Some ((id, c), q) → y_actor s = AtRecv →
  command_typed c = true.
Proof.
  intros (served & rest & es & S & [Ha Hi Ht Hs Hw Hv Hact He Hc]) Hpop Hpc.
  unfold actor_ok in Hact. rewrite Hpc in Hact. destruct Hact as (_ & Hrest & _).
  apply ch_items_pop in Hpop. rewrite Ha, Hrest, Hpop in Ht.
  apply Forall_app in Ht as [_ Ht]. by apply Forall_cons in Ht as [? _].
Qed.

Lemma inv_task_step s s' : inv s → task_step t s s' → inv s'.
Proof.
  intros Hi Hs. destruct Hs as [s id c q o Hpc Hpop Ho|s id c q w Hpc Hpop Ho|s Hpc Hpop Hh
    |s e events id reply last q Hpc Hcon Hpush|s e events id reply last Hpc Hcon
    |s id reply Hpc|s id reply Hpc].
  - by eapply inv_recv.
  - destruct (handle_command_total t c (y_session s)) as [o Ho']; [by eapply queued_typed|].
    congruence.
  - destruct Hi as (served & rest & es & S & HP). pose proof (pr_actor _ _ _ _ _ HP) as Hact.
    unfold actor_ok in Hact. rewrite Hpc in Hact. destruct Hact as (? & ? & _ & ?).
    by eapply inv_finish_between.
  - by eapply inv_emit.
  - by eapply inv_emit_fail.
  - by apply inv_reply.
  - by apply inv_reply_break.
Qed.

Lemma inv_consumer_step s s' : inv s → consumer_step s s' → inv s'.
Proof.
  intros (served & rest & es & S & [Ha Hi Ht Hs Hw Hv Hact He Hc]) Hst.
  exists served, rest, es, S. destruct Hst as [s e q Hcon Hpop|s Hcon]; rewrite Hcon in He;
    split; try done; cbn.
  - by rewrite He, (ch_items_pop _ _ _ _ Hpop), <- app_assoc.
  - by rewrite (ch_capacity_pop _ _ _ _ Hpop).
  - rewrite app_nil_r, He. by apply prefix_app_r.
  - apply ch_capacity_new.
Qed.

Lemma inv_client_step s s' : inv s → client_step s s' → inv s'.
Proof.
  intros (served & rest & es & S & [Ha Hi Ht Hs Hw Hv Hact He Hc]) Hst.
  destruct Hst as [s c q Hh Hr Htc Hpush|s Hh]; [|by exists served, rest, es, S].
  set (n := length (y_accepted s)). exists served, (rest ++ [(n, c)]), es, S.
  apply ch_items_push in Hpush. split; try done; cbn [put_command y_accepted].
  - by rewrite Ha, app_assoc.
  - rewrite fmap_app, length_app, Hi, seq_app. cbn. done.
  - apply Forall_app. split; [done|]. by apply Forall_singleton.
  - unfold actor_ok, running in *. cbn [put_command y_actor y_commands y_dropped].
    destruct (y_actor s) as [|p id reply last|r]; [| |done].
    + destruct Hact as (? & -> & ? & ?). by rewrite Hpush.
    + destruct Hact as (? & ? & Hq & o & (c' & rest' & sent & -> & Hin) & ? & ?).
      do 2 (split; [done|]). cbn in Hq |- *. split; [by rewrite Hpush, Hq|].
      exists o. split; [|done]. by exists c', (rest' ++ [(n, c)]), sent.
Qed.

Lemma session_reachable_inv s : reachable t s → inv s.
Proof.
  unfold reachable. revert s. apply (rtc_ind_r inv); [apply inv_spawn|].
  intros s s' _ Hst Hi. destruct Hst;
    [by eapply inv_task_step|by eapply inv_consumer_step|by eapply inv_client_step].
Qed.
End invariant.

Section theorems.
Context {Q : Type → Type} `{!Channel Q} `{!ChannelLaws Q} (t : SessionType).
Implicit Types s : sys Q.

(** What has been sent is what serving the commands so far sends, possibly cut
    short inside of the command being served. *)
Lemma progress_sent s served rest es S :
  progress t s served rest es S →
  es `prefix_of` y_sent s ∧
  y_sent s `prefix_of` (serve t (served ++ take 1 rest) session_init).1.2 ∧
  session_wf t (y_session s) ∧
  ∃ v, observe t (y_sent s) (view_of session_init) = Some v.
Proof.
  intros [Ha Hi Ht Hs Hw Hv Hact He Hc].
  assert (Hbi : between S es s ∨ ∃ p id o, ss_state S ≠ Closed ∧ inside t S es rest p id o s).
  { unfold actor_ok in Hact. destruct (y_actor s); naive_solver. }
  rewrite Ha in Ht. apply Forall_app in Ht as [Ht1 Ht2].
  destruct Hbi as [[-> ->]|(p & id & o & Hn & c & rest' & sent & -> & Ho & -> & Hev & ->)].
  - split; [done|]. split; [|by eauto].
    destruct rest as [|[i c] rest]; simpl take; [by rewrite app_nil_r, Hs|].
    apply Forall_cons in Ht2 as [Hc2 _]. destruct (handle_command_total t c S Hc2) as [o Ho].
    rewrite take_0, (serve_snoc t served i c session_init _ _ _ _ Ht1 Hs Ho). by apply prefix_app_r.
  - split; [by apply prefix_app_r|]. destruct (handle_command_observed t c S o Hn Ho) as [Hob _].
    simpl take. rewrite take_0, (serve_snoc t served id c session_init _ _ _ _ Ht1 Hs Ho). cbn [fst snd].
    split; [rewrite Hev, app_assoc; by apply prefix_app_r|].
    split; [by eapply handle_command_wf|]. rewrite observe_app, Hv. cbn.
    rewrite Hev, observe_app in Hob. destruct (observe t sent (view_of S)); [eauto|done].
Qed.

Lemma received_prefix s served rest es S :
  progress t s served rest es S → y_received s `prefix_of` y_sent s.
Proof.
  intros [_ _ _ _ _ _ _ He _]. destruct (y_consumer s); [|done].
  rewrite He. by apply prefix_app_r.
Qed.

(** C4. The task serves the commands one at a time in the order in which they
    were accepted, whatever the clients and the consumer do: the replies sent so
    far are those of serving a prefix [served] of the accepted commands
    sequentially, and what the consumer received is a prefix of the events of
    serving them and the next one. *)
Theorem session_serves_in_order s :
  reachable t s →
  ∃ served rest, y_accepted s = served ++ rest ∧
    y_replies s = (serve t served session_init).1.1 ∧
    y_received s `prefix_of` (serve t (served ++ take 1 rest) session_init).1.2.
Proof.
  intros Hr. destruct (session_reachable_inv t s Hr) as (served & rest & es & S & HP).
  exists served, rest. pose proof HP as [Ha _ _ Hs _ _ _ _ _]. split; [done|].
  rewrite Hs. split; [done|]. etrans; [by eapply received_prefix|].
  by destruct (progress_sent s served rest es S HP) as (_ & ? & _).
Qed.

(** C5. The locals of the task are always consistent: an idle session has no
    configuration and the default position, a configured, streaming or suspended
    session has a configuration that [validate_for] accepts for its type, and an
    offloaded session never reports host octets. *)
Theorem session_state_invariant s : reachable t s → session_wf t (y_session s).
Proof.
  intros Hr. destruct (session_reachable_inv t s Hr) as (served & rest & es & S & HP).
  by destruct (progress_sent s served rest es S HP) as (_ & _ & ? & _).
Qed.

(** C6. The events are enough to follow the session: what the consumer has
    received is always a legal run of the state machine (configured before
    streaming, positions only while streaming and never backwards, nothing after
    closed), and when the task is between two commands and all events are
    received, replaying them gives exactly the state, the configuration and the
    position the task has. *)
Theorem observer_follows_session s :
  reachable t s →
  ∃ v, observe t (y_received s) (view_of session_init) = Some v ∧
    (y_actor s = AtRecv → y_consumer s = true → ch_items (y_events s) = [] →
     v = view_of (y_session s)).
Proof.
  intros Hr. destruct (session_reachable_inv t s Hr) as (served & rest & es & S & HP).
  destruct (progress_sent s served rest es S HP) as (_ & _ & _ & v & Hob).
  destruct (received_prefix s served rest es S HP) as [l Hl].
  rewrite Hl, observe_app in Hob.
  destruct (observe t (y_received s) _) as [w|] eqn:Hw; [|done]. exists w. split; [done|].
  intros Hpc Hcon Hem. destruct HP as [_ _ _ _ _ Hv Hact He _].
  unfold actor_ok in Hact. rewrite Hpc in Hact. destruct Hact as ([<- Hes] & _).
  rewrite Hcon, Hem, app_nil_r in He. rewrite <- Hes, He in Hv. congruence.
Qed.

Lemma replies_in_order s :
  inv t s →
  (y_replies s).*1 ++
  (match y_actor s with Emitting _ id _ _ => [id] | _ => [] end) ++
  y_dropped s ++ (ch_items (y_commands s)).*1 = seq 0 (length (y_accepted s)).
Proof.
  intros (served & rest & es & S & [Ha Hi Ht Hs _ _ Hact _ _]).
  rewrite <- Hi, Ha, fmap_app. rewrite Ha in Ht. apply Forall_app in Ht as [Ht _].
  assert ((y_replies s).*1 = served.*1) as ->
    by (rewrite <- (serve_replies t served session_init Ht), Hs; done).
  f_equal. unfold actor_ok in Hact. destruct (y_actor s).
  - destruct Hact as (_ & -> & _ & ->). done.
  - destruct Hact as (_ & -> & Hq & o & (c & rest' & sent & -> & _) & _). cbn in *. by rewrite Hq.
  - destruct Hact as (-> & -> & _). cbn. by rewrite app_nil_r.
Qed.

(** C7. No reply is lost, duplicated or misdirected: every accepted command is
    in exactly one of four places (answered, being served, queued, or dropped
    with its task), in the order of acceptance, and no command has two replies. *)
Theorem replies_exactly_once s :
  reachable t s →
  (y_replies s).*1 ++
  (match y_actor s with Emitting _ id _ _ => [id] | _ => [] end) ++
  y_dropped s ++ (ch_items (y_commands s)).*1 = seq 0 (length (y_accepted s)) ∧
  NoDup ((y_replies s).*1 ++ y_dropped s).
Proof.
  intros Hr. pose proof (replies_in_order s (session_reachable_inv t s Hr)) as H. split; [done|].
  pose proof (NoDup_seq 0 (length (y_accepted s))) as Hnd. rewrite <- H in Hnd.
  eapply sublist_NoDup; [exact Hnd|]. apply sublist_app; [done|].
  apply sublist_inserts_l, sublist_inserts_r. done.
Qed.

(** The reply to the [k]-th command is what the handler said in the state the
    commands before it left. *)
Lemma serve_lookup cs (s0 : Session) k i c :
  Forall (λ ic, command_typed (snd ic) = true) cs → cs !! k = Some (i, c) →
  ∃ o, handle_command t c (serve t (take k cs) s0).2 = Ok o ∧
    (serve t cs s0).1.1 !! k = Some (i, oc_reply o) ∧
    (serve t (take (S k) cs) s0).2 = oc_session o.
Proof.
  intros Ht. revert s0 k. induction Ht as [|[j d] cs Hd Ht IH]; intros s0 k Hk; [done|].
  destruct (handle_command_total t d s0 Hd) as [o' Ho'].
  destruct k as [|k]; cbn in Hk.
  - simplify_eq. exists o'. cbn. rewrite Ho', take_0. cbn.
    by destruct (serve t cs (oc_session o')) as [[rs es] s'].
  - destruct (IH (oc_session o') k Hk) as (o & Ho & Hl & Hs). exists o.
    rewrite !(firstn_cons _ (j, d)). cbn [serve]. rewrite Ho'.
    destruct (serve t (take k cs) _) as [[rs1 es1] s1].
    destruct (serve t (take (S k) cs) _) as [[rs2 es2] s2].
    destruct (serve t cs _) as [[rs es] s']. done.
Qed.

Lemma reply_of_seq (rs : list (nat * Reply)) b n id r :
  rs.*1 = seq b n → reply_of id rs = Some r → (b <= id)%nat ∧ rs !! (id - b)%nat = Some (id, r).
Proof.
  revert b n. induction rs as [|[i r'] rs IH]; intros b n Hs Hr; [done|].
  destruct n as [|n]; [done|]. cbn in Hs, Hr. simplify_eq.
  destruct (decide (b = id)) as [->|Hne].
  - simplify_eq. split; [lia|]. by rewrite Nat.sub_diag.
  - destruct (IH _ _ H0 Hr) as [Hb Hl]. split; [lia|].
    by replace (id - b)%nat with (S (id - S b)) by lia.
Qed.

(** C12. A call of [configure] that returns success is not a false success: the
    configuration is valid for the session's type, and serving the command left
    the session configured with exactly it. *)
Theorem configure_call_applied s id c :
  reachable t s → y_accepted s !! id = Some (id, Configure c) →
  handle_configure (Some id) s = Some (Ok tt) →
  validate_for c t = Ok tt ∧
  ss_state (serve t (take (S id) (y_accepted s)) session_init).2 = Configured ∧
  ss_configuration (serve t (take (S id) (y_accepted s)) session_init).2 = Some c.
Proof.
  intros Hr Hid Hcall. pose proof (session_reachable_inv t s Hr) as Hi.
  destruct Hi as (served & rest & es & S0 & [Ha Hids Ht Hs _ _ _ _ _]).
  unfold handle_configure, await_reply in Hcall.
  destruct (reply_of id (y_replies s)) as [r|] eqn:Hrep;
    [|by case_match; cbn in Hcall; simplify_eq].
  cbn in Hcall. assert (y_replies s = (serve t served session_init).1.1) as Hrs by by rewrite Hs.
  assert (Forall (λ ic, command_typed (snd ic) = true) served) as Hts
    by (rewrite Ha in Ht; by apply Forall_app in Ht as [? _]).
  assert ((y_replies s).*1 = seq 0 (length served)) as Hseq.
  { rewrite Hrs, serve_replies by done. rewrite Ha, fmap_app, length_app, seq_app in Hids.
    apply app_inj_1 in Hids as [? _]; [done|]. by rewrite length_fmap, length_seq. }
  destruct (reply_of_seq _ _ _ _ _ Hseq Hrep) as [_ Hl]. rewrite Nat.sub_0_r in Hl.
  assert (served !! id = Some (id, Configure c)) as Hsv.
  { rewrite Ha, lookup_app_l in Hid; [done|]. apply lookup_lt_Some in Hl.
    rewrite <- (length_fmap fst), Hseq, length_seq in Hl. done. }
  destruct (serve_lookup served session_init id id (Configure c) Hts Hsv) as (o & Ho & Hlo & Hso).
  rewrite <- Hrs, Hl in Hlo. simplify_eq.
  rewrite Ha, take_app_le by (apply lookup_lt_Some in Hsv; lia). rewrite Hso.
  handler_cases Ho. by destruct_and?.
Qed.

(** Steps that need no client, with a consumer that stays. *)
Inductive quiet_step : sys Q → sys Q → Prop :=
| quiet_task s s' : task_step t s s' → quiet_step s s'
| quiet_consumer s s' : consumer_step s s' → y_consumer s' = true → quiet_step s s'.

Definition work (s : sys Q) : nat :=
  7 * length (ch_items (y_commands s)) + length (ch_items (y_events s)) +
  (if y_consumer s then 1 else 0) +
  match y_actor s with
  | AtRecv => 1
  | Emitting es _ _ _ => 2 * length es + 2
  | Finished _ => 0
  end.

Lemma quiet_step_work s s' : quiet_step s s' → (work s' < work s)%nat.
Proof.
  intros Hq. destruct Hq as [s s' H|s s' H _].
  - destruct H as [s id c q o Hpc Hpop Ho|s id c q w Hpc Hpop Ho|s Hpc Hpop Hh
      |s e events id reply last q Hpc Hcon Hpush|s e events id reply last Hpc Hcon
      |s id reply Hpc|s id reply Hpc];
      unfold work; cbn -[Nat.mul]; rewrite ?Hpc, ?ch_items_new; cbn -[Nat.mul]; try lia.
    + rewrite (ch_items_pop _ _ _ _ Hpop). cbn -[Nat.mul].
      pose proof (handle_command_events t c (y_session s) o Ho). lia.
    + rewrite (ch_items_push _ _ _ _ Hpush), length_app. cbn -[Nat.mul]. lia.
  - destruct H as [s e q Hcon Hpop|s Hcon]; unfold work; cbn -[Nat.mul]; rewrite Hcon.
    + rewrite (ch_items_pop _ _ _ _ Hpop). cbn -[Nat.mul]. lia.
    + rewrite ch_items_new. cbn -[Nat.mul]. lia.
Qed.

(** When nothing but a client can move, the task is finished or idle. *)
Lemma quiet_stuck s :
  inv t s → (∀ s', ¬ quiet_step s s') →
  ch_items (y_commands s) = [] ∧
  match y_actor s with Emitting _ _ _ _ => False | _ => True end.
Proof.
  intros Hi Hst. pose proof Hi as (served & rest & es & S & [Ha Hids Ht Hs _ _ Hact He Hc]).
  destruct (y_actor s) as [|p id reply last|r] eqn:Hpc.
  - split; [|done]. destruct (ch_pop (y_commands s)) as [[[id c] q]|] eqn:Hpop.
    + destruct (handle_command_total t c (y_session s)) as [o Ho]; [by eapply queued_typed|].
      exfalso. eapply Hst, quiet_task, t_recv; eauto.
    + destruct (decide (ch_items (y_commands s) = [])) as [|Hne]; [done|].
      destruct (ch_pop_ready _ _ Hne) as [? ?]. congruence.
  - exfalso. destruct p as [|e p].
    + destruct last; eapply Hst, quiet_task; [by eapply t_reply_break|by eapply t_reply].
    + destruct (y_consumer s) eqn:Hcon; [|eapply Hst, quiet_task; by eapply t_emit_fail].
      destruct (decide (length (ch_items (y_events s)) < 16)%nat) as [Hlt|Hge].
      * rewrite <- Hc in Hlt. destruct (ch_push_ready _ e _ Hlt) as [q Hq].
        eapply Hst, quiet_task. by eapply t_emit.
      * destruct (ch_pop_ready _ (y_events s)) as [[e' q] Hq];
          [intros Hnil; rewrite Hnil in Hge; cbn in Hge; lia|].
        eapply Hst, quiet_consumer; [by eapply c_recv|done].
  - unfold actor_ok in Hact. rewrite Hpc in Hact. naive_solver.
Qed.

Lemma quiet_inv s s' : inv t s → rtc quiet_step s s' → inv t s' ∧ y_accepted s' = y_accepted s.
Proof.
  intros Hi Hs. induction Hs as [|s s1 s' Hst _ IH]; [done|].
  assert (inv t s1 ∧ y_accepted s1 = y_accepted s) as [Hi1 Ha].
  { destruct Hst as [? ? H|? ? H _].
    - split; [by eapply inv_task_step|by destruct H].
    - split; [by eapply inv_consumer_step|by destruct H]. }
  destruct (IH Hi1) as [? ?]. split; congruence.
Qed.

(** C11. Every accepted command is answered: without further commands, and with a
    consumer that keeps receiving, the task makes at most [work s] steps, and
    when it can make no more every command accepted so far has its reply sent or
    its reply channel dropped.  The task cannot deadlock with the two bounded
    channels. *)
Theorem commands_get_answered s :
  reachable t s →
  (∀ n s', nsteps quiet_step n s s' → (n <= work s)%nat) ∧
  (∀ s', rtc quiet_step s s' → nf quiet_step s' →
     (y_replies s').*1 ++ y_dropped s' = seq 0 (length (y_accepted s))).
Proof.
  intros Hr. apply session_reachable_inv in Hr. split.
  - intros n. clear Hr. revert s. induction n as [|n IH]; intros s s' Hn; [lia|].
    inversion Hn as [|? ? s1 ? Hst Hn']; simplify_eq.
    pose proof (quiet_step_work _ _ Hst). pose proof (IH _ _ Hn'). lia.
  - intros s' Hq Hnf. destruct (quiet_inv s s' Hr Hq) as [Hi Ha].
    destruct (quiet_stuck s' Hi) as [Hcm Hact].
    { intros s2 Hs2. apply Hnf. by exists s2. }
    pose proof (replies_in_order s' Hi) as Hro. rewrite Hcm, Ha in Hro. cbn in Hro.
    rewrite app_nil_r in Hro. by destruct (y_actor s').
Qed.
End theorems.

(** ** Running the system under a schedule *)

Inductive choice :=
| DoTask
| DoReceive
| DoDropConsumer
| DoSend (c : Command)
| DoDropHandles.

Section schedule.
Context {Q : Type → Type} `{!Channel Q} (t : SessionType).

Definition exec_task (s : sys Q) : option (sys Q) :=
  match y_actor s with
  | AtRecv =>
      match ch_pop (y_commands s) with
      | Some ((id, c), q) =>
          match handle_command t c (y_session s) with
          | Ok o => Some (take_command (oc_session o)
                            (Emitting (oc_events o) id (oc_reply o) (oc_break o)) q s)
          | Panic w => Some (finish (Panic w) [id] (take_command (y_session s) AtRecv q s))
          | _ => None
          end
      | None => if y_handles s then None else Some (finish (Ok tt) [] s)
      end
  | Emitting (e :: events) id reply last =>
      if y_consumer s then
        q ← ch_push e (y_events s); Some (put_event e (Emitting events id reply last) q s)
      else Some (finish (Err ["session event consumer stopped"]) [id] s)
  | Emitting [] id reply last =>
      if last then Some (finish (Ok tt) [] (send_reply id reply s))
      else Some (send_reply id reply s)
  | Finished _ => None
  end.

Definition exec (ch : choice) (s : sys Q) : option (sys Q) :=
  match ch with
  | DoTask => exec_task s
  | DoReceive =>
      if y_consumer s then
        '(e, q) ← ch_pop (y_events s); Some (set_events q true [e] s)
      else None
  | DoDropConsumer => if y_consumer s then Some (set_events (ch_new 16) false [] s) else None
  | DoSend c =>
      if y_handles s && running s && command_typed c then
        q ← ch_push (length (y_accepted s), c) (y_commands s);
        Some (put_command (length (y_accepted s)) c q s)
      else None
  | DoDropHandles => if y_handles s then Some (drop_handles s) else None
  end.

Fixpoint schedule (chs : list choice) (s : sys Q) : option (sys Q) :=
  match chs with
  | [] => Some s
  | ch :: chs => s' ← exec ch s; schedule chs s'
  end.

Lemma exec_task_sound s s' : exec_task s = Some s' → task_step t s s'.
Proof.
  unfold exec_task. intros H. destruct (y_actor s) as [|[|e events] id reply last|r] eqn:Hpc.
  - destruct (ch_pop (y_commands s)) as [[[id c] q]|] eqn:Hpop.
    + destruct (handle_command t c (y_session s)) eqn:Ho; simplify_eq;
        [by eapply t_recv|by eapply t_recv_panic].
    + destruct (y_handles s) eqn:Hh; simplify_eq. by apply t_recv_closed.
  - destruct last; simplify_eq; [by apply t_reply_break|by apply t_reply].
  - destruct (y_consumer s) eqn:Hc; simplify_eq; [|by eapply t_emit_fail].
    destruct (ch_push e (y_events s)) eqn:Hq; cbn in H; simplify_eq. by eapply t_emit.
  - done.
Qed.

Lemma exec_sound ch s s' : exec ch s = Some s' → step t s s'.
Proof.
  destruct ch; cbn; intros H.
  - by apply step_task, exec_task_sound.
  - destruct (y_consumer s) eqn:Hc; [|done].
    destruct (ch_pop (y_events s)) as [[e q]|] eqn:Hq; cbn in H; simplify_eq.
    by apply step_consumer; eapply c_recv.
  - destruct (y_consumer s) eqn:Hc; simplify_eq. by apply step_consumer, c_drop.
  - destruct (_ && _) eqn:Hg; [|done]. b2p.
    destruct (ch_push _ (y_commands s)) eqn:Hq; cbn in H; simplify_eq.
    by apply step_client, h_send.
  - destruct (y_handles s) eqn:Hh; simplify_eq. by apply step_client, h_drop.
Qed.

Lemma schedule_reachable chs s : schedule chs spawn_session = Some s → reachable t s.
Proof.
  unfold reachable. generalize (spawn_session (Q := Q)) as s0.
  induction chs as [|ch chs IH]; cbn; intros s0 H; [by simplify_eq|].
  destruct (exec ch s0) as [s1|] eqn:He; cbn in H; [|done].
  eapply rtc_l; [by eapply exec_sound|by apply IH].
Qed.
End schedule.

(** ** A run for the witnesses

    A client configures and starts an LE unicast session and reports a position;
    the consumer receives every event. *)

Abbreviation example_sys := (sys list_channel).

Definition example_pcm : AudioConfiguration :=
  Pcm {| pcm_sample_rate_hz := 48_000; pcm_bits_per_sample := 16;
         pcm_channels := 2; pcm_data_interval_us := 10_000 |}.

Definition example_position : PresentationPosition :=
  {| pp_remote_delay_ns := 20_000_000; pp_transmitted_octets := 100;
     pp_monotonic_time_ns := 10 |}.

Definition example_final : example_sys := {|
  y_session := {| ss_state := Streaming; ss_configuration := Some example_pcm;
                  ss_position := example_position |};
  y_actor := AtRecv;
  y_commands := {| lc_items := [(3%nat, Suspend)]; lc_capacity := 16 |};
  y_handles := true;
  y_events := {| lc_items := []; lc_capacity := 16 |};
  y_consumer := true;
  y_replies := [(0%nat, RResult (Ok tt)); (1%nat, RResult (Ok tt)); (2%nat, RResult (Ok tt))];
  y_dropped := [];
  y_accepted := [(0%nat, Configure example_pcm); (1%nat, Start);
                 (2%nat, UpdatePosition example_position); (3%nat, Suspend)];
  y_sent := [ConfigurationChanged example_pcm; StateChanged Configured;
             StateChanged Streaming; PositionChanged example_position];
  y_received := [ConfigurationChanged example_pcm; StateChanged Configured;
                 StateChanged Streaming; PositionChanged example_position];
|}.

Lemma example_final_reachable : reachable LeUnicastSoftwareEncoding example_final.
Proof.
  apply (schedule_reachable LeUnicastSoftwareEncoding
    [DoSend (Configure example_pcm); DoSend Start; DoTask; DoTask; DoTask; DoReceive; DoReceive;
     DoTask; DoTask; DoTask; DoReceive; DoTask; DoSend (UpdatePosition example_position);
     DoSend Suspend; DoTask; DoTask; DoReceive; DoTask]).
  vm_compute. reflexivity.
Qed.

Lemma session_serves_in_order_witness :
  ∃ served rest, y_accepted example_final = served ++ rest ∧
    y_replies example_final = (serve LeUnicastSoftwareEncoding served session_init).1.1 ∧
    y_received example_final `prefix_of`
      (serve LeUnicastSoftwareEncoding (served ++ take 1 rest) session_init).1.2.
Proof.
  exact (session_serves_in_order LeUnicastSoftwareEncoding example_final example_final_reachable).
Defined.

Lemma session_state_invariant_witness :
  session_wf LeUnicastSoftwareEncoding (y_session example_final) ∧
  ∃ c, ss_configuration (y_session example_final) = Some c ∧
       validate_for c LeUnicastSoftwareEncoding = Ok tt.
Proof.
  assert (session_wf LeUnicastSoftwareEncoding (y_session example_final)) as Hw
    by exact (session_state_invariant LeUnicastSoftwareEncoding example_final
                example_final_reachable).
  split; [exact Hw|]. apply (sw_active _ _ Hw); discriminate.
Defined.

Lemma observer_follows_session_witness :
  observe LeUnicastSoftwareEncoding (y_received example_final) (view_of session_init) =
  Some (view_of (y_session example_final)).
Proof.
  destruct (observer_follows_session LeUnicastSoftwareEncoding example_final
              example_final_reachable) as (v & Hv & Heq).
  rewrite Hv, Heq; reflexivity.
Defined.

Lemma replies_exactly_once_witness :
  NoDup ((y_replies example_final).*1 ++ y_dropped example_final) ∧
  (y_replies example_final).*1 = [0; 1; 2]%nat.
Proof.
  split; [|reflexivity].
  exact (proj2 (replies_exactly_once LeUnicastSoftwareEncoding example_final
                  example_final_reachable)).
Defined.

Lemma commands_get_answered_witness :
  work example_final = 9%nat ∧
  (∀ n s', nsteps (quiet_step LeUnicastSoftwareEncoding) n example_final s' → (n <= 9)%nat).
Proof.
  split; [reflexivity|].
  exact (proj1 (commands_get_answered LeUnicastSoftwareEncoding example_final
                  example_final_reachable)).
Defined.

Lemma configure_call_applied_witness :
  validate_for example_pcm LeUnicastSoftwareEncoding = Ok tt ∧
  ss_configuration (serve LeUnicastSoftwareEncoding (take 1 (y_accepted example_final))
                      session_init).2 = Some example_pcm.
Proof.
  destruct (configure_call_applied LeUnicastSoftwareEncoding example_final 0 example_pcm
              example_final_reachable eq_refl eq_refl) as (Hv & _ & Hc).
  split; [exact Hv|exact Hc].
Defined.
