(* ===== verification/Provider.v ===== *)
(** * Capability providers ([src/wireless/provider.rs])

    Which provider serves a session request: the capability predicates, the
    registry with its selection in registration order, the explicit fallback,
    and the software LC3 provider. *)

From S2P Require Import Prelude Types.

Record CodecCapability := {
  cc_sampling_frequencies_hz : list Z;
  cc_frame_durations_us : list Z;
  cc_octets_per_frame_min : Z;
  cc_octets_per_frame_max : Z;
  cc_max_codec_frames_per_sdu : Z;
  cc_channel_allocations : Z;
}.

(** [CodecCapability::supports]; [!x] on a [u32] flips its 32 bits. *)
Definition codec_supports (c : CodecCapability) (codec : Lc3Configuration) : bool :=
  one_of (lc3_sampling_frequency_hz codec) (cc_sampling_frequencies_hz c) &&
  one_of (lc3_frame_duration_us codec) (cc_frame_durations_us c) &&
  ((cc_octets_per_frame_min c <=? lc3_octets_per_codec_frame codec) &&
   (lc3_octets_per_codec_frame codec <=? cc_octets_per_frame_max c)) &&
  (lc3_codec_frames_per_sdu codec <=? cc_max_codec_frames_per_sdu c) &&
  (Z.land (lc3_audio_channel_allocation codec)
     (as_unsigned 32 (Z.lnot (cc_channel_allocations c))) =? 0).

Record ProviderCapabilities := {
  pc_name : string;
  pc_session_types : list SessionType;
  pc_codecs : list CodecCapability;
  pc_max_streams : Z;
  pc_supports_asymmetric : bool;
  pc_supports_multidirectional : bool;
  pc_supports_transparent_iso : bool;
  pc_supports_controller_codec : bool;
}.

Record SessionRequest := {
  sr_session_type : SessionType;
  sr_direction : StreamDirection;
  sr_context : AudioContext;
  sr_codec : Lc3Configuration;
  sr_require_multidirectional : bool;
}.

(** [ProviderCapabilities::supports] *)
Definition capabilities_support (p : ProviderCapabilities) (request : SessionRequest) : bool :=
  bool_decide (sr_session_type request ∈ pc_session_types p) &&
  existsb (λ c, codec_supports c (sr_codec request)) (pc_codecs p).

(** A [dyn CapabilityProvider]: an implementation may override [accepts]. *)
Record CapabilityProvider := {
  capabilities : ProviderCapabilities;
  accepts : SessionRequest → bool;
}.

(** The provided method of the trait. *)
Definition default_accepts (c : ProviderCapabilities) (request : SessionRequest) : bool :=
  capabilities_support c request &&
  (negb (sr_require_multidirectional request) || pc_supports_multidirectional c).

Definition CapabilityRegistry := list CapabilityProvider.

Definition registry_new : CapabilityRegistry := [].
Definition register (provider : CapabilityProvider) (r : CapabilityRegistry) : CapabilityRegistry :=
  r ++ [provider].

(** ** The derived [Debug] text of a request *)

Definition session_type_debug (t : SessionType) : string :=
  match t with
  | LeUnicastSoftwareEncoding => "LeUnicastSoftwareEncoding"
  | LeUnicastSoftwareDecoding => "LeUnicastSoftwareDecoding"
  | LeUnicastHardwareEncoding => "LeUnicastHardwareEncoding"
  | LeUnicastHardwareDecoding => "LeUnicastHardwareDecoding"
  | LeBroadcastSoftwareEncoding => "LeBroadcastSoftwareEncoding"
  | LeBroadcastHardwareEncoding => "LeBroadcastHardwareEncoding"
  end.

Definition direction_debug (d : StreamDirection) : string :=
  match d with Sink => "Sink" | Source => "Source" end.

Definition context_debug (c : AudioContext) : string :=
  match c with
  | Unspecified => "Unspecified" | Conversational => "Conversational" | Media => "Media"
  | Game => "Game" | Live => "Live" | SoundEffects => "SoundEffects"
  | Notifications => "Notifications" | EmergencyAlarm => "EmergencyAlarm"
  end.

Definition bool_debug (b : bool) : string := if b then "true" else "false".

Definition lc3_debug (c : Lc3Configuration) : string :=
  "Lc3Configuration { sampling_frequency_hz: " +:+ pretty (lc3_sampling_frequency_hz c) +:+
  ", frame_duration_us: " +:+ pretty (lc3_frame_duration_us c) +:+
  ", octets_per_codec_frame: " +:+ pretty (lc3_octets_per_codec_frame c) +:+
  ", codec_frames_per_sdu: " +:+ pretty (lc3_codec_frames_per_sdu c) +:+
  ", audio_channel_allocation: " +:+ pretty (lc3_audio_channel_allocation c) +:+ " }".

Definition request_debug (r : SessionRequest) : string :=
  "SessionRequest { session_type: " +:+ session_type_debug (sr_session_type r) +:+
  ", direction: " +:+ direction_debug (sr_direction r) +:+
  ", context: " +:+ context_debug (sr_context r) +:+
  ", codec: " +:+ lc3_debug (sr_codec r) +:+
  ", require_multidirectional: " +:+ bool_debug (sr_require_multidirectional r) +:+ " }".

(** ** Selection *)

(** [CapabilityRegistry::select] *)
Definition select (r : CapabilityRegistry) (request : SessionRequest)
    : result ProviderCapabilities :=
  ok_or (capabilities <$> List.find (λ p, accepts p request) r)
    ("no provider accepts " +:+ request_debug request).

Definition require_explicit_fallback (r : CapabilityRegistry) (preferred : SessionRequest)
    (fallback : option SessionRequest) : result ProviderCapabilities :=
  match select r preferred with
  | Err _ =>
      match fallback with
      | Some fallback => select r fallback
      | None => Err ["preferred provider unavailable and no explicit fallback supplied"]
      end
  | provider => provider
  end.

(** [SoftwareLc3Provider::new] *)
Definition software_lc3_capabilities : ProviderCapabilities := {|
  pc_name := "floss-host-lc3";
  pc_session_types := [LeUnicastSoftwareEncoding; LeUnicastSoftwareDecoding];
  pc_codecs := [{|
    cc_sampling_frequencies_hz := [8_000; 16_000; 24_000; 32_000; 44_100; 48_000];
    cc_frame_durations_us := [7_500; 10_000];
    cc_octets_per_frame_min := 20;
    cc_octets_per_frame_max := 400;
    cc_max_codec_frames_per_sdu := 4;
    cc_channel_allocations := 2 ^ 32 - 1;
  |}];
  pc_max_streams := 31;
  pc_supports_asymmetric := true;
  pc_supports_multidirectional := true;
  pc_supports_transparent_iso := true;
  pc_supports_controller_codec := false;
|}.

Definition SoftwareLc3Provider : CapabilityProvider :=
  {| capabilities := software_lc3_capabilities;
     accepts := default_accepts software_lc3_capabilities |}.

(** * Theorems *)

(** Case analysis on a selection: the first provider that accepts. *)
Lemma select_cases r request :
  (∃ pre p post, r = pre ++ p :: post ∧ Forall (λ q, accepts q request = false) pre ∧
     accepts p request = true ∧ select r request = Ok (capabilities p)) ∨
  (Forall (λ q, accepts q request = false) r ∧
   select r request = Err ["no provider accepts " +:+ request_debug request]).
Proof.
  unfold select. induction r as [|p r IH]; [by right|]. cbn [List.find].
  destruct (accepts p request) eqn:Hp; [left; by exists [], p, r|].
  destruct IH as [(pre & q & post & -> & Hpre & Hq & Hs)|[Hr Hs]]; rewrite Hs.
  - left. exists (p :: pre), q, post. split; [done|]. split; [by constructor|done].
  - right. split; [by constructor|done].
Qed.

(** A provider that accepts only what it advertises. *)
Definition honest (p : CapabilityProvider) : Prop :=
  ∀ r, accepts p r = true → capabilities_support (capabilities p) r = true.

Lemma default_accepts_honest c : honest {| capabilities := c; accepts := default_accepts c |}.
Proof. intros r H. cbn in *. unfold default_accepts in H. by b2p. Qed.

Lemma support_session_type c r :
  capabilities_support c r = true → sr_session_type r ∈ pc_session_types c.
Proof. unfold capabilities_support. intros. by b2p. Qed.

(** [select] returns the capabilities of the first registered provider that
    accepts the request, and an error exactly when none does: policy is the
    registration order and nothing else. *)
Theorem select_first_accepting r request caps :
  select r request = Ok caps ↔
  ∃ pre p post, r = pre ++ p :: post ∧ Forall (λ q, accepts q request = false) pre ∧
    accepts p request = true ∧ caps = capabilities p.
Proof.
  split.
  - intros H. destruct (select_cases r request) as [(pre & p & post & Hr & Hpre & Hp & Hs)|[_ Hs]];
      [|congruence]. exists pre, p, post. rewrite Hs in H. by apply Ok_inj in H.
  - intros (pre & p & post & -> & Hpre & Hp & ->). unfold select.
    assert (List.find (λ q, accepts q request) (pre ++ p :: post) = Some p) as ->; [|done].
    induction Hpre as [|q pre Hq _ IH]; cbn; [by rewrite Hp|by rewrite Hq].
Qed.

(** C32. No hidden fallback changes the session type: with providers that accept
    only what they advertise, the selected provider advertises the session type
    of the preferred request, or the preferred request is refused by every
    provider and the selected one advertises the session type of the fallback
    the caller supplied explicitly. *)
Theorem no_hidden_fallback r preferred fallback caps :
  Forall honest r →
  require_explicit_fallback r preferred fallback = Ok caps →
  sr_session_type preferred ∈ pc_session_types caps ∨
  ∃ f, fallback = Some f ∧ sr_session_type f ∈ pc_session_types caps ∧
    Forall (λ q, accepts q preferred = false) r.
Proof.
  intros Hh. unfold require_explicit_fallback.
  assert (∀ req c, select r req = Ok c → sr_session_type req ∈ pc_session_types c) as Hsel.
  { intros req c Hs. destruct (select_cases r req) as [(pre & p & post & -> & _ & Hp & Hs')|[_ ?]];
      [|congruence]. rewrite Hs' in Hs. apply Ok_inj in Hs as <-.
    apply Forall_app in Hh as [_ Hh]. apply Forall_cons in Hh as [Hh _].
    by apply support_session_type, Hh. }
  destruct (select_cases r preferred) as [(? & p & ? & ? & ? & ? & Hs)|[Hn Hs]];
    rewrite Hs; intros Hres.
  - left. apply Ok_inj in Hres as <-. by apply Hsel.
  - destruct fallback as [f|]; [|done]. right. eauto.
Qed.

Definition example_codec : Lc3Configuration :=
  {| lc3_sampling_frequency_hz := 48_000; lc3_frame_duration_us := 10_000;
     lc3_octets_per_codec_frame := 120; lc3_codec_frames_per_sdu := 1;
     lc3_audio_channel_allocation := 3 |}.

Definition example_request (t : SessionType) : SessionRequest :=
  {| sr_session_type := t; sr_direction := Sink; sr_context := Media; sr_codec := example_codec;
     sr_require_multidirectional := false |}.

Lemma no_hidden_fallback_witness :
  let offload := example_request LeUnicastHardwareEncoding in
  let software := example_request LeUnicastSoftwareEncoding in
  (sr_session_type offload ∈ pc_session_types software_lc3_capabilities ∨
   ∃ f, Some software = Some f ∧ sr_session_type f ∈ pc_session_types software_lc3_capabilities ∧
     Forall (λ q, accepts q offload = false) (register SoftwareLc3Provider registry_new)) ∧
  is_err (select (register SoftwareLc3Provider registry_new) offload) = true.
Proof.
  intros offload software. split; [|vm_compute; reflexivity].
  apply (no_hidden_fallback (register SoftwareLc3Provider registry_new) offload (Some software)
           software_lc3_capabilities).
  - constructor; [apply default_accepts_honest|constructor].
  - vm_compute. reflexivity.
Defined.

Lemma land_lnot_all x : is_u32 x = true → Z.land x (as_unsigned 32 (Z.lnot (2 ^ 32 - 1))) = 0.
Proof. intros. apply Z.land_0_r. Qed.

(** C33. What the software LC3 provider serves: exactly the host-encoded and
    host-decoded unicast sessions whose codec is in its ranges.  An accepted codec
    passes [Lc3Configuration::validate] if it has at least one frame per SDU; the
    ranges of the provider also admit zero frames per SDU, and [validate] rejects
    exactly those codecs. *)
Theorem software_provider_accepts r :
  lc3_typed (sr_codec r) = true →
  (accepts SoftwareLc3Provider r = true ↔
   (sr_session_type r = LeUnicastSoftwareEncoding ∨ sr_session_type r = LeUnicastSoftwareDecoding) ∧
   lc3_sampling_frequency_hz (sr_codec r) ∈ supported_rates ∧
   (lc3_frame_duration_us (sr_codec r) = 7_500 ∨ lc3_frame_duration_us (sr_codec r) = 10_000) ∧
   20 <= lc3_octets_per_codec_frame (sr_codec r) <= 400 ∧
   lc3_codec_frames_per_sdu (sr_codec r) <= 4) ∧
  (accepts SoftwareLc3Provider r = true →
   lc3_validate (sr_codec r) =
     if lc3_codec_frames_per_sdu (sr_codec r) =? 0 then Err ["SDU must contain at least one codec frame"]
     else Ok tt).
Proof.
  intros Ht. unfold lc3_typed in Ht. b2p.
  cbn [accepts SoftwareLc3Provider]. unfold default_accepts, capabilities_support, codec_supports.
  cbn [software_lc3_capabilities pc_session_types pc_codecs existsb cc_sampling_frequencies_hz
    cc_frame_durations_us cc_octets_per_frame_min cc_octets_per_frame_max
    cc_max_codec_frames_per_sdu cc_channel_allocations pc_supports_multidirectional].
  rewrite land_lnot_all by (by apply in_width_spec). rewrite orb_true_r, orb_false_r, !andb_true_r.
  rewrite !andb_true_iff, !one_of_spec, bool_decide_eq_true, !Z.leb_le.
  assert (sr_session_type r ∈ [LeUnicastSoftwareEncoding; LeUnicastSoftwareDecoding] ↔
    sr_session_type r = LeUnicastSoftwareEncoding ∨ sr_session_type r = LeUnicastSoftwareDecoding)
    as -> by set_solver.
  assert (lc3_frame_duration_us (sr_codec r) ∈ [7_500; 10_000] ↔
    lc3_frame_duration_us (sr_codec r) = 7_500 ∨ lc3_frame_duration_us (sr_codec r) = 10_000)
    as Hdur by set_solver.
  split; [rewrite Hdur; tauto|]. intros Hacc. unfold lc3_validate, ensure.
  rewrite !(proj2 (one_of_spec _ _)) by (tauto || (unfold supported_rates; tauto)).
  cbn [rbind]. rewrite (proj2 (Z.ltb_lt 0 (lc3_octets_per_codec_frame _))) by lia. cbn [rbind].
  destruct (Z.eqb_spec (lc3_codec_frames_per_sdu (sr_codec r)) 0) as [->|]; [done|].
  by rewrite (proj2 (Z.ltb_lt _ _)) by lia.
Qed.

Definition empty_sdu_request : SessionRequest :=
  {| sr_session_type := LeUnicastSoftwareEncoding; sr_direction := Sink; sr_context := Media;
     sr_codec := {| lc3_sampling_frequency_hz := 48_000; lc3_frame_duration_us := 10_000;
                    lc3_octets_per_codec_frame := 120; lc3_codec_frames_per_sdu := 0;
                    lc3_audio_channel_allocation := 3 |};
     sr_require_multidirectional := false |}.

Lemma software_provider_accepts_witness :
  accepts SoftwareLc3Provider (example_request LeUnicastSoftwareEncoding) = true ∧
  lc3_validate example_codec = Ok tt ∧
  accepts SoftwareLc3Provider empty_sdu_request = true ∧
  is_err (lc3_validate (sr_codec empty_sdu_request)) = true.
Proof.
  split; [vm_compute; reflexivity|]. split.
  - apply (software_provider_accepts (example_request LeUnicastSoftwareEncoding) eq_refl).
    vm_compute. reflexivity.
  - split; [vm_compute; reflexivity|].
    pose proof (proj2 (software_provider_accepts empty_sdu_request eq_refl) eq_refl) as Hv.
    rewrite Hv. vm_compute. reflexivity.
Defined.
