(* ===== verification/RingSetup.v ===== *)
(** * Creating and transferring a ring ([src/wireless/data_plane.rs])

    [RingPair::create], the conversion of an endpoint into its two descriptors
    and back, and the system calls they are made of.  Every early return drops
    the descriptors and mappings that are owned at that point; the theorems show
    that no path leaks one and that the two endpoints share one empty ring. *)

From stdpp Require Import gmap.
From S2P Require Import Prelude Types Bytes Ring RingSpec RingSafety.

(** ** The kernel

    What a process can tell about its descriptors and mappings.  [kv_fds] maps an
    open descriptor to the file it refers to, [kv_files] a file to its bytes,
    [kv_maps] the address of a mapping to its file and length. *)
Record kview := {
  kv_fds : gmap Z Z;
  kv_files : gmap Z memory;
  kv_maps : gmap Z (Z * Z);
}.

Class Kernel (K : Type) := {
  kv : K → kview;
  sys_memfd_create : string → K → (errno + Z) * K;
  sys_ftruncate : Z → Z → K → (errno + unit) * K;
  sys_add_seals : Z → K → (errno + unit) * K;
  sys_eventfd : K → (errno + Z) * K;
  sys_dupfd : Z → K → (errno + Z) * K;
  sys_fstat_size : Z → K → (errno + Z) * K;
  sys_mmap : Z → Z → K → (errno + Z) * K;
  sys_munmap : Z → K → K;
  sys_close : Z → K → K;
  (** [AsyncFd::new]: registration with the reactor. *)
  reactor_register : Z → K → (errno + unit) * K;
  (** A store through a mapping. *)
  poke : Z → nat → memory → K → K;
}.

(** The bytes a mapping shows: those of its file. *)
Definition mapped `{Kernel K} (k : K) (a : Z) : option memory :=
  '(o, _) ← kv_maps (kv k) !! a; kv_files (kv k) !! o.

(** [ftruncate]: cut off, or extended with zero bytes. *)
Definition resize_file (len : nat) (bs : memory) : memory :=
  take len bs ++ zeros (len - length bs).

(** Documented behaviour of the calls: a call that fails changes nothing, and a
    call that succeeds does what its manual page says. *)
Class KernelLaws (K : Type) `{!Kernel K} : Prop := {
  law_memfd name (k : K) r k' : sys_memfd_create name k = (r, k') →
    match r with
    | inl _ => kv k' = kv k
    | inr fd => ∃ o, 0 <= fd ∧ kv_fds (kv k) !! fd = None ∧ kv_files (kv k) !! o = None ∧
        kv k' = {| kv_fds := <[fd := o]> (kv_fds (kv k));
                   kv_files := <[o := []]> (kv_files (kv k)); kv_maps := kv_maps (kv k) |}
    end;
  law_ftruncate fd o bs len (k : K) r k' : sys_ftruncate fd len k = (r, k') →
    kv_fds (kv k) !! fd = Some o → kv_files (kv k) !! o = Some bs →
    match r with
    | inl _ => kv k' = kv k
    | inr _ => 0 <= len ∧
        kv k' = {| kv_fds := kv_fds (kv k);
                   kv_files := <[o := resize_file (Z.to_nat len) bs]> (kv_files (kv k));
                   kv_maps := kv_maps (kv k) |}
    end;
  law_add_seals fd (k : K) r k' : sys_add_seals fd k = (r, k') → kv k' = kv k;
  law_eventfd (k : K) r k' : sys_eventfd k = (r, k') →
    match r with
    | inl _ => kv k' = kv k
    | inr fd => ∃ o, 0 <= fd ∧ kv_fds (kv k) !! fd = None ∧ kv_files (kv k) !! o = None ∧
        kv k' = {| kv_fds := <[fd := o]> (kv_fds (kv k));
                   kv_files := kv_files (kv k); kv_maps := kv_maps (kv k) |}
    end;
  law_dupfd fd o (k : K) r k' : sys_dupfd fd k = (r, k') → kv_fds (kv k) !! fd = Some o →
    match r with
    | inl _ => kv k' = kv k
    | inr fd' => 0 <= fd' ∧ kv_fds (kv k) !! fd' = None ∧
        kv k' = {| kv_fds := <[fd' := o]> (kv_fds (kv k));
                   kv_files := kv_files (kv k); kv_maps := kv_maps (kv k) |}
    end;
  law_fstat fd o bs (k : K) r k' : sys_fstat_size fd k = (r, k') →
    kv_fds (kv k) !! fd = Some o → kv_files (kv k) !! o = Some bs →
    kv k' = kv k ∧ match r with inl _ => True | inr n => n = Z.of_nat (length bs) end;
  law_mmap fd o len (k : K) r k' : sys_mmap fd len k = (r, k') →
    kv_fds (kv k) !! fd = Some o →
    match r with
    | inl _ => kv k' = kv k
    | inr a => 0 < a ∧ a mod 4096 = 0 ∧ kv_maps (kv k) !! a = None ∧
        kv k' = {| kv_fds := kv_fds (kv k); kv_files := kv_files (kv k);
                   kv_maps := <[a := (o, len)]> (kv_maps (kv k)) |}
    end;
  law_munmap a (k : K) :
    kv (sys_munmap a k) = {| kv_fds := kv_fds (kv k); kv_files := kv_files (kv k);
                             kv_maps := delete a (kv_maps (kv k)) |};
  law_close fd (k : K) :
    kv (sys_close fd k) = {| kv_fds := delete fd (kv_fds (kv k)); kv_files := kv_files (kv k);
                             kv_maps := kv_maps (kv k) |};
  law_register fd (k : K) r k' : reactor_register fd k = (r, k') → kv k' = kv k;
  law_poke a o len bs off w (k : K) :
    kv_maps (kv k) !! a = Some (o, len) → kv_files (kv k) !! o = Some bs →
    kv (poke a off w k) = {| kv_fds := kv_fds (kv k);
                             kv_files := <[o := list_inserts off w bs]> (kv_files (kv k));
                             kv_maps := kv_maps (kv k) |};
}.

(** ** The code *)

Section setup.
Context {K : Type} `{!Kernel K}.

(** A call whose negative result is turned into [io::Error::last_os_error()]. *)
Definition os {A} (f : K → (errno + A) * K) : M K A := λ k,
  match f k with
  | (inl e, k) => (Err [errno_message e], k)
  | (inr a, k) => (Ok a, k)
  end.

(** An [OwnedFd] or a [Mapping] that is dropped when [body] returns early; on
    success its owner moves into the result. *)
Definition owning_fd {A} (fd : Z) (body : M K A) : M K A := λ k,
  match body k with
  | (Err e, k) => (Err e, sys_close fd k)
  | r => r
  end.

Definition owning_map {A} (a : Z) (body : M K A) : M K A := λ k,
  match body k with
  | (Err e, k) => (Err e, sys_munmap a k)
  | r => r
  end.

(** [len as libc::off_t] *)
Definition as_off_t (x : Z) : Z := if x <? 2 ^ 63 then x else x - 2 ^ 64.

Definition create_memfd (name : string) (len : Z) : M K Z :=
  let! fd := os (sys_memfd_create name) in
  owning_fd fd
    (os (sys_ftruncate fd (as_off_t len)) !;
     os (sys_add_seals fd) !;
     mret fd).

Definition fd_len (fd : Z) : M K Z :=
  let! size := os (sys_fstat_size fd) in
  lift (if is_usize size then Ok size else Err ["negative memfd size"]).

Definition create_eventfd : M K Z := os sys_eventfd.

Definition duplicate_fd (fd : Z) : M K Z := os (sys_dupfd fd).

Record Mapping := { map_address : Z; map_len : Z }.

(** [Mapping::shared]; a null address is the [expect]. *)
Definition mapping_shared (fd len : Z) : M K Mapping :=
  let! a := os (sys_mmap fd len) in
  if a =? 0 then lift (Panic "mmap returned null")
  else mret {| map_address := a; map_len := len |}.

(** [mapping.header()] read as a value; a mapping without memory behind it is
    undefined behaviour. *)
Definition mapping_header (m : Mapping) : M K RingHeader := λ k,
  match mapped k (map_address m) with
  | Some bs => (Ok (read_header bs), k)
  | None => (Undef "access to unmapped memory", k)
  end.

Record Producer := { pr_memory_fd : Z; pr_event_fd : Z; pr_mapping : Mapping }.
Record Consumer := { cn_memory_fd : Z; cn_event_fd : Z; cn_mapping : Mapping }.

(** [ptr::write] of the header at the start of the mapping. *)
Definition write_header (m : Mapping) (h : RingHeader) : M K unit :=
  mmodify (poke (map_address m) 0 (encode_header h)).

Definition create (slot_count payload_capacity : Z) : M K (Producer * Consumer) :=
  let! g := lift (ring_geometry slot_count payload_capacity) in
  let slot_stride := fst g in
  let map_len := snd g in
  let! memory_fd := create_memfd "dorsche-media-ring" map_len in
  owning_fd memory_fd
  (let! consumer_memory_fd := duplicate_fd memory_fd in
   owning_fd consumer_memory_fd
   (let! event_fd := create_eventfd in
    owning_fd event_fd
    (let! consumer_event_fd := duplicate_fd event_fd in
     owning_fd consumer_event_fd
     (let! producer_map := mapping_shared memory_fd map_len in
      owning_map (map_address producer_map)
      (lift (ensure (map_address producer_map mod 64 =? 0)
               "mmap did not satisfy atomic alignment") !;
       write_header producer_map (initial_header slot_count slot_stride payload_capacity) !;
       let! consumer_map := mapping_shared consumer_memory_fd map_len in
       owning_map (map_address consumer_map)
       (let! header := mapping_header consumer_map in
        lift (validate_header header map_len) !;
        os (reactor_register consumer_event_fd) !;
        mret ({| pr_memory_fd := memory_fd; pr_event_fd := event_fd;
                 pr_mapping := producer_map |},
              {| cn_memory_fd := consumer_memory_fd; cn_event_fd := consumer_event_fd;
                 cn_mapping := consumer_map |}))))))).

(** The mapping both [from_descriptor] functions set up. *)
Definition adopt_descriptor (memory_fd event_fd : Z) (register_event : bool) : M K Mapping :=
  owning_fd event_fd
  (owning_fd memory_fd
   (let! map_len := fd_len memory_fd in
    let! mapping := mapping_shared memory_fd map_len in
    owning_map (map_address mapping)
    (let! header := mapping_header mapping in
     lift (validate_header header map_len) !;
     (if register_event then os (reactor_register event_fd) else mret tt) !;
     mret mapping))).

Record RingDescriptor := { rd_memory_fd : Z; rd_event_fd : Z }.

Definition producer_from_descriptor (d : RingDescriptor) : M K Producer :=
  let! mapping := adopt_descriptor (rd_memory_fd d) (rd_event_fd d) false in
  mret {| pr_memory_fd := rd_memory_fd d; pr_event_fd := rd_event_fd d; pr_mapping := mapping |}.

Definition consumer_from_descriptor (d : RingDescriptor) : M K Consumer :=
  let! mapping := adopt_descriptor (rd_memory_fd d) (rd_event_fd d) true in
  mret {| cn_memory_fd := rd_memory_fd d; cn_event_fd := rd_event_fd d; cn_mapping := mapping |}.

(** [into_descriptor]: the mapping is dropped, the descriptors move out. *)
Definition producer_into_descriptor (p : Producer) : M K RingDescriptor :=
  mmodify (sys_munmap (map_address (pr_mapping p))) !;
  mret {| rd_memory_fd := pr_memory_fd p; rd_event_fd := pr_event_fd p |}.

Definition consumer_into_descriptor (c : Consumer) : M K RingDescriptor :=
  mmodify (sys_munmap (map_address (cn_mapping c))) !;
  mret {| rd_memory_fd := cn_memory_fd c; rd_event_fd := cn_event_fd c |}.

End setup.

(** * Theorems *)

Section wp_rules.
Context {K : Type} `{!Kernel K} `{!KernelLaws K}.
Implicit Types (k : K).

Lemma wp_owning_fd {A} fd (body : M K A) k Q E :
  wp body k Q (λ e k', E e (sys_close fd k')) → wp (owning_fd fd body) k Q E.
Proof. unfold wp, owning_fd. by destruct (body k) as [[] ?]. Qed.

Lemma wp_owning_map {A} a (body : M K A) k Q E :
  wp body k Q (λ e k', E e (sys_munmap a k')) → wp (owning_map a body) k Q E.
Proof. unfold wp, owning_map. by destruct (body k) as [[] ?]. Qed.

Lemma wp_os {A} (f : K → (errno + A) * K) k (Q : A → K → Prop) (E : error → K → Prop) :
  (∀ r k', f k = (r, k') →
     match r with inl e => E [errno_message e] k' | inr a => Q a k' end) →
  wp (os f) k Q E.
Proof. intros H. unfold wp, os. destruct (f k) as [[e|a] k']; exact (H _ _ eq_refl). Qed.
End wp_rules.

(** The resources of [k] are those of the view [V]. *)
Definition same_resources {K} `{!Kernel K} (V : kview) (k : K) : Prop :=
  kv_fds (kv k) = kv_fds V ∧ kv_maps (kv k) = kv_maps V.

Section cleanup.
Context {K : Type} `{!Kernel K} `{!KernelLaws K}.
Implicit Types (k : K).

Lemma same_view V k : kv k = V → same_resources V k.
Proof. by intros <-. Qed.

(** Dropping the last acquired resource gives the resources before it. *)
Lemma close_same V V' fd o k :
  kv_fds V' = <[fd := o]> (kv_fds V) → kv_fds V !! fd = None → kv_maps V' = kv_maps V →
  same_resources V' k → same_resources V (sys_close fd k).
Proof.
  intros Hf Hn Hm [Hk Hk']. unfold same_resources. rewrite law_close. cbn.
  by rewrite Hk, Hk', Hf, Hm, delete_insert_id.
Qed.

Lemma unmap_same V V' a x k :
  kv_maps V' = <[a := x]> (kv_maps V) → kv_maps V !! a = None → kv_fds V' = kv_fds V →
  same_resources V' k → same_resources V (sys_munmap a k).
Proof.
  intros Hf Hn Hm [Hk Hk']. unfold same_resources. rewrite law_munmap. cbn.
  by rewrite Hk, Hk', Hf, Hm, delete_insert_id.
Qed.

(** *** The helpers *)

Lemma wp_duplicate_fd fd o k Q (E : error → K → Prop) :
  kv_fds (kv k) !! fd = Some o →
  (∀ en k', same_resources (kv k) k' → E [errno_message en] k') →
  (∀ fd' k', kv_fds (kv k) !! fd' = None →
     kv k' = {| kv_fds := <[fd' := o]> (kv_fds (kv k)); kv_files := kv_files (kv k);
                kv_maps := kv_maps (kv k) |} → Q fd' k') →
  wp (duplicate_fd fd) k Q E.
Proof.
  intros Ho HE HQ. apply wp_os. intros r k' Hr.
  pose proof (law_dupfd fd o k r k' Hr Ho) as H.
  destruct r; [by apply HE, same_view|]. destruct H as (_ & ? & ?). by apply HQ.
Qed.

Lemma wp_create_eventfd k Q (E : error → K → Prop) :
  (∀ en k', same_resources (kv k) k' → E [errno_message en] k') →
  (∀ fd o k', kv_fds (kv k) !! fd = None → kv_files (kv k) !! o = None →
     kv k' = {| kv_fds := <[fd := o]> (kv_fds (kv k)); kv_files := kv_files (kv k);
                kv_maps := kv_maps (kv k) |} → Q fd k') →
  wp create_eventfd k Q E.
Proof.
  intros HE HQ. apply wp_os. intros r k' Hr. pose proof (law_eventfd k r k' Hr) as H.
  destruct r; [by apply HE, same_view|]. destruct H as (o & _ & ? & ? & ?). by apply (HQ _ o).
Qed.

Lemma wp_mapping_shared fd o len k Q (E : error → K → Prop) :
  kv_fds (kv k) !! fd = Some o →
  (∀ en k', same_resources (kv k) k' → E [errno_message en] k') →
  (∀ a k', kv_maps (kv k) !! a = None → a mod 64 = 0 →
     kv k' = {| kv_fds := kv_fds (kv k); kv_files := kv_files (kv k);
                kv_maps := <[a := (o, len)]> (kv_maps (kv k)) |} →
     Q {| map_address := a; map_len := len |} k') →
  wp (mapping_shared fd len) k Q E.
Proof.
  intros Ho HE HQ. apply wp_bind, wp_os. intros r k' Hr.
  pose proof (law_mmap fd o len k r k' Hr Ho) as H.
  destruct r as [|a]; [by apply HE, same_view|]. destruct H as (Hpos & Hal & Hn & Hk).
  rewrite (proj2 (Z.eqb_neq a 0)) by lia. apply wp_ret, HQ; try done.
  rewrite <- (Z.mod_mod_divide a 4096 64), Hal; [done|]. by exists 64.
Qed.

Lemma wp_mapping_header m o len bs k Q E :
  kv_maps (kv k) !! map_address m = Some (o, len) → kv_files (kv k) !! o = Some bs →
  Q (read_header bs) k → wp (mapping_header m) k Q E.
Proof.
  intros Hm Hf HQ. unfold wp, mapping_header, mapped. rewrite Hm. cbn. by rewrite Hf.
Qed.

Lemma wp_register fd k Q (E : error → K → Prop) :
  (∀ en k', same_resources (kv k) k' → E [errno_message en] k') → (∀ k', kv k' = kv k → Q tt k') →
  wp (os (reactor_register fd)) k Q E.
Proof.
  intros HE HQ. apply wp_os. intros r k' Hr. pose proof (law_register fd k r k' Hr) as H.
  destruct r as [|[]]; [by apply HE, same_view|by apply HQ].
Qed.

Lemma wp_create_memfd name len k Q (E : error → K → Prop) :
  0 <= len < 2 ^ 64 →
  (∀ en k', same_resources (kv k) k' → E [errno_message en] k') →
  (∀ fd o k', kv_fds (kv k) !! fd = None → kv_files (kv k) !! o = None →
     kv k' = {| kv_fds := <[fd := o]> (kv_fds (kv k));
                kv_files := <[o := zeros (Z.to_nat len)]> (kv_files (kv k));
                kv_maps := kv_maps (kv k) |} → Q fd k') →
  wp (create_memfd name len) k Q E.
Proof.
  intros Hlen HE HQ. apply wp_bind, wp_os. intros r k1 Hr. pose proof (law_memfd name k r k1 Hr) as H.
  destruct r as [|fd]; [by apply HE, same_view|]. destruct H as (o & _ & Hfd & Ho & Hk1).
  apply wp_owning_fd. assert (∀ en k', same_resources (kv k1) k' →
    E [errno_message en] (sys_close fd k')) as HE1.
  { intros en k' Hs. apply HE. eapply close_same; [|done| |done]; by rewrite Hk1. }
  apply wp_bind, wp_os. intros r k2 Hr2.
  pose proof (law_ftruncate fd o [] _ k1 r k2 Hr2) as H2. rewrite Hk1 in H2. cbn in H2.
  specialize (H2 (lookup_insert_eq _ _ _) (lookup_insert_eq _ _ _)).
  destruct r as [|[]]; [apply HE1, same_view; by rewrite Hk1|]. destruct H2 as [Hoff Hk2].
  assert (as_off_t len = len) as Hl by (unfold as_off_t in *; case_match; b2p; lia).
  apply wp_bind, wp_os. intros r k3 Hr3. pose proof (law_add_seals fd k2 r k3 Hr3) as Hk3.
  rewrite Hk2 in Hk3. destruct r as [|[]]; [apply HE1; split; by rewrite Hk3, Hk1|].
  apply wp_ret, (HQ fd o); try done. rewrite Hk3, Hl, insert_insert_eq. do 2 f_equal.
  unfold resize_file. cbn. by rewrite take_nil, Nat.sub_0_r.
Qed.
End cleanup.

(** A ring that holds a valid representation passes its own validation. *)
Lemma validate_header_rep n stride cap mem T H q :
  ring_rep n stride cap mem T H q →
  validate_header (read_header mem) (ring_header_size + stride * n) = Ok tt.
Proof.
  intros [[Hn Hc Hs Ha] _ (Hm & Hv & Hh & Hgn & Hgs & _) _ _ _ _ _ _].
  unfold validate_header. cbn [read_header rh_magic rh_abi_version rh_header_bytes rh_slot_count
    rh_slot_stride]. rewrite Hm, Hv, Hh, Hgn, Hgs. unfold CACHE_LINE, ensure. rewrite Ha.
  rewrite !Z.eqb_refl, (proj2 (Z.leb_le 2 n)) by lia. cbn [rbind].
  rewrite mul_u_in_range by nia. cbn [rbind]. unfold ring_header_size.
  rewrite add_u_in_range by nia. cbn [rbind]. by rewrite Z.eqb_refl.
Qed.

Section create.
Context {K : Type} `{!Kernel K} `{!KernelLaws K} (n cap : Z).
Implicit Types (k : K).

(** Two endpoints of one empty ring, and nothing else acquired. *)
Definition ring_created (V : kview) (pc : Producer * Consumer) k : Prop :=
  let '(p, c) := pc in
  ∃ o oe mem, fresh_ring n cap = Ok mem ∧ ring_rep n (stride_of cap) cap mem 0 0 [] ∧
    mapped k (map_address (pr_mapping p)) = Some mem ∧
    mapped k (map_address (cn_mapping c)) = Some mem ∧
    map_address (pr_mapping p) ≠ map_address (cn_mapping c) ∧
    map_len (pr_mapping p) = Z.of_nat (length mem) ∧
    map_len (cn_mapping c) = Z.of_nat (length mem) ∧
    kv_fds (kv k) = <[cn_event_fd c := oe]> (<[pr_event_fd p := oe]>
      (<[cn_memory_fd c := o]> (<[pr_memory_fd p := o]> (kv_fds V)))) ∧
    kv_maps (kv k) = <[map_address (cn_mapping c) := (o, map_len (cn_mapping c))]>
      (<[map_address (pr_mapping p) := (o, map_len (pr_mapping p))]> (kv_maps V)) ∧
    NoDup [pr_memory_fd p; cn_memory_fd c; pr_event_fd p; cn_event_fd c] ∧
    Forall (λ fd, kv_fds V !! fd = None)
      [pr_memory_fd p; cn_memory_fd c; pr_event_fd p; cn_event_fd c].

Definition create_failed (V : kview) (e : error) k : Prop :=
  same_resources V k ∧ (ring_geometry n cap = Err e ∨ ∃ en, e = [errno_message en]).

Lemma geometry_defined :
  is_u32 n = true → is_u32 cap = true → defined (ring_geometry n cap) = true.
Proof.
  intros Hn Hc. b2p. unfold ring_geometry, ensure.
  case_match; [|done]. cbn [rbind]. case_match; [|done]. cbn [rbind].
  unfold checked_add, frame_descriptor_size. rewrite (proj2 (in_width_spec _ _)) by lia.
  cbn [ok_or rbind]. rewrite align_up_Ok by lia. cbn [rbind].
  unfold checked_mul. case_match; [|done]. cbn [ok_or rbind]. case_match; [|done].
  cbn [ok_or rbind]. by case_match.
Qed.

Lemma fresh_ring_geometry stride len :
  ring_geometry n cap = Ok (stride, len) →
  fresh_ring n cap = Ok (list_inserts 0 (encode_header (initial_header n stride cap))
                           (zeros (Z.to_nat len))).
Proof. intros H. unfold fresh_ring. by rewrite H. Qed.

(** The part of [create] after the four descriptors exist. *)
Lemma create_maps k mfd cmfd efd cefd o stride len :
  is_u32 n = true → is_u32 cap = true →
  ring_geometry n cap = Ok (stride, len) →
  kv_fds (kv k) !! mfd = Some o → kv_fds (kv k) !! cmfd = Some o →
  kv_files (kv k) !! o = Some (zeros (Z.to_nat len)) →
  wp (let! producer_map := mapping_shared mfd len in
      owning_map (map_address producer_map)
      (lift (ensure (map_address producer_map mod 64 =? 0)
               "mmap did not satisfy atomic alignment") !;
       write_header producer_map (initial_header n stride cap) !;
       let! consumer_map := mapping_shared cmfd len in
       owning_map (map_address consumer_map)
       (let! header := mapping_header consumer_map in
        lift (validate_header header len) !;
        os (reactor_register cefd) !;
        mret ({| pr_memory_fd := mfd; pr_event_fd := efd; pr_mapping := producer_map |},
              {| cn_memory_fd := cmfd; cn_event_fd := cefd; cn_mapping := consumer_map |})))) k
    (λ pc k', ∃ pa ca mem, pc =
        ({| pr_memory_fd := mfd; pr_event_fd := efd;
            pr_mapping := {| map_address := pa; map_len := len |} |},
         {| cn_memory_fd := cmfd; cn_event_fd := cefd;
            cn_mapping := {| map_address := ca; map_len := len |} |}) ∧
       fresh_ring n cap = Ok mem ∧ kv_fds (kv k') = kv_fds (kv k) ∧
       kv_maps (kv k') = <[ca := (o, len)]> (<[pa := (o, len)]> (kv_maps (kv k))) ∧ pa ≠ ca ∧
       kv_files (kv k') !! o = Some mem)
    (λ e k', same_resources (kv k) k' ∧ ∃ en, e = [errno_message en]).
Proof.
  intros Hn Hc Hg Hm Hcm Ho. pose proof (fresh_ring_geometry _ _ Hg) as Hf.
  destruct (fresh_ring_rep n cap _ Hn Hc Hf) as [R _].
  pose proof (validate_header_rep _ _ _ _ _ _ _ R) as Hval.
  destruct (ring_geometry_Ok n cap stride len Hn Hc Hg) as (_ & _ & -> & _ & Hlen).
  rewrite <- Hlen in Hval. set (mem := list_inserts _ _ _) in *.
  apply wp_bind. apply (wp_mapping_shared mfd o); [done|by eauto|].
  intros pa k1 Hpa Hal Hk1. cbn [map_address].
  apply wp_owning_map, wp_bind, wp_ensure; [intros _|by rewrite Hal].
  apply wp_bind, wp_modify.
  assert (kv (poke pa 0 (encode_header (initial_header n (stride_of cap) cap)) k1) =
    {| kv_fds := kv_fds (kv k); kv_files := <[o := mem]> (kv_files (kv k));
       kv_maps := <[pa := (o, len)]> (kv_maps (kv k)) |}) as Hk2.
  { rewrite (law_poke pa o len (zeros (Z.to_nat len))); rewrite Hk1; cbn; [done| |done].
    apply lookup_insert_eq. }
  set (k2 := poke _ _ _ _) in *.
  assert (∀ k', same_resources (kv k2) k' → same_resources (kv k) (sys_munmap pa k')) as HE2.
  { intros k' Hs. eapply unmap_same; [|exact Hpa| |exact Hs]; by rewrite Hk2. }
  apply wp_bind. apply (wp_mapping_shared cmfd o); [by rewrite Hk2|by eauto|].
  intros ca k3 Hca _ Hk3. rewrite Hk2 in Hk3, Hca. cbn in Hk3, Hca. apply wp_owning_map. cbn [map_address].
  assert (∀ k', same_resources (kv k3) k' →
    same_resources (kv k) (sys_munmap pa (sys_munmap ca k'))) as HE3.
  { intros k' Hs. apply HE2. eapply unmap_same; [| | |exact Hs]; by rewrite ?Hk3, ?Hk2. }
  apply wp_bind. apply (wp_mapping_header _ o len mem);
    [rewrite Hk3; apply lookup_insert_eq|rewrite Hk3; apply lookup_insert_eq|].
  apply wp_bind, wp_lift; [by rewrite Hval|intros _ _|congruence].
  apply wp_bind, wp_register; [by eauto|]. intros k4 Hk4. apply wp_ret.
  apply lookup_insert_None in Hca as [_ Hne].
  exists pa, ca, mem. rewrite Hk4, Hk3. cbn. rewrite lookup_insert_eq. done.
Qed.

Lemma geometry_length stride len :
  is_u32 n = true → is_u32 cap = true → ring_geometry n cap = Ok (stride, len) → 0 <= len < 2 ^ 64.
Proof.
  intros Hn Hc Hg. destruct (ring_geometry_Ok n cap stride len Hn Hc Hg) as (? & _ & -> & ? & ->). b2p.
  destruct (stride_of_bounds cap ltac:(lia)). unfold ring_header_size. nia.
Qed.

Lemma fresh_ring_length stride len : 0 <= len →
  Z.of_nat (length (list_inserts 0 (encode_header (initial_header n stride cap))
    (zeros (Z.to_nat len)))) = len.
Proof. intros. rewrite length_inserts, length_zeros. lia. Qed.

(** C8. [RingPair::create], whatever the kernel calls do: it returns two
    endpoints with four fresh descriptors (the memfd and the eventfd, each
    twice) and two mappings of the same memfd, whose bytes are an empty ring; or
    it returns an error and every descriptor and mapping it had acquired is
    released again.  It never panics, and it fails only for a bad geometry or
    because the kernel reported an error. *)
Theorem create_ring_or_release k :
  is_u32 n = true → is_u32 cap = true →
  wp (create n cap) k (ring_created (kv k)) (create_failed (kv k)).
Proof.
  intros Hn Hc. unfold create.
  apply wp_bind, wp_lift; [by apply geometry_defined| |intros e He; split; [done|by left]].
  intros [stride len] Hg. cbn [fst snd].
  pose proof (fresh_ring_geometry _ _ Hg) as Hf.
  destruct (fresh_ring_rep n cap _ Hn Hc Hf) as [R _].
  pose proof (geometry_length _ _ Hn Hc Hg) as Hlen.
  assert (∀ en k', same_resources (kv k) k' → create_failed (kv k) [errno_message en] k') as HE0
    by (split; eauto).
  apply wp_bind, (wp_create_memfd _ len k); [done|done|]. intros mfd o k1 Hm Ho Hk1.
  apply wp_owning_fd. assert (∀ k', same_resources (kv k1) k' →
    same_resources (kv k) (sys_close mfd k')) as HE1.
  { intros k' Hs. eapply close_same; [|done| |exact Hs]; by rewrite Hk1. }
  apply wp_bind, (wp_duplicate_fd mfd o k1);
    [rewrite Hk1; apply lookup_insert_eq|intros; by apply HE0, HE1|].
  intros cmfd k2 Hcm Hk2. rewrite Hk1 in Hk2, Hcm. cbn in Hk2, Hcm.
  apply wp_owning_fd. assert (∀ k', same_resources (kv k2) k' →
    same_resources (kv k) (sys_close mfd (sys_close cmfd k'))) as HE2.
  { intros k' Hs. apply HE1. eapply close_same; [| | |exact Hs]; by rewrite ?Hk2, ?Hk1. }
  apply wp_bind, wp_create_eventfd; [intros; by apply HE0, HE2|].
  intros efd oe k3 He Hoe Hk3. rewrite Hk2 in Hk3, He, Hoe. cbn in Hk3, He, Hoe.
  apply wp_owning_fd. assert (∀ k', same_resources (kv k3) k' →
    same_resources (kv k) (sys_close mfd (sys_close cmfd (sys_close efd k')))) as HE3.
  { intros k' Hs. apply HE2. eapply close_same; [| | |exact Hs]; by rewrite ?Hk3, ?Hk2. }
  apply wp_bind, (wp_duplicate_fd efd oe k3);
    [rewrite Hk3; apply lookup_insert_eq|intros; by apply HE0, HE3|].
  intros cefd k4 Hce Hk4. rewrite Hk3 in Hk4, Hce. cbn in Hk4, Hce.
  apply wp_owning_fd. assert (∀ k', same_resources (kv k4) k' →
    same_resources (kv k) (sys_close mfd (sys_close cmfd (sys_close efd (sys_close cefd k')))))
    as HE4.
  { intros k' Hs. apply HE3. eapply close_same; [| | |exact Hs]; by rewrite ?Hk4, ?Hk3. }
  rewrite !lookup_insert_None in *. destruct_and?.
  eapply wp_mono; [apply (create_maps k4 mfd cmfd efd cefd o stride len); try done|..];
    rewrite ?Hk4; cbn; rewrite ?lookup_insert_ne, ?lookup_insert_eq by done;
    rewrite ?lookup_insert_ne, ?lookup_insert_eq by done; try done.
  - intros pc k' (pa & ca & mem & -> & Hfr & Hfds & Hmaps & Hne & Hfile). exists o, oe, mem.
    rewrite Hf in Hfr. apply Ok_inj in Hfr. subst mem. cbn. split; [done|].
    pose proof (fresh_ring_length stride len ltac:(lia)) as Hl.
    unfold mapped. rewrite Hmaps, Hfds, Hl, lookup_insert_eq, lookup_insert_ne, lookup_insert_eq
      by done. cbn. rewrite Hfile. split; [done|]. do 7 (split; [done|]).
    split; [|by repeat constructor]. rewrite !NoDup_cons, !not_elem_of_cons.
    repeat split; first [congruence|apply not_elem_of_nil|apply NoDup_nil_2].
  - intros e k' [Hs [en ->] ]. apply HE0, HE4. by rewrite Hk4.
Qed.
End create.

Section transfer.
Context {K : Type} `{!Kernel K} `{!KernelLaws K}.
Implicit Types (k : K).

(** What [from_descriptor] does to a memfd with contents [bs]. *)
Lemma wp_adopt_descriptor mfd efd reg o bs k :
  kv_fds (kv k) !! mfd = Some o → kv_files (kv k) !! o = Some bs →
  Z.of_nat (length bs) < 2 ^ 63 →
  wp (adopt_descriptor mfd efd reg) k
    (λ m k', adopt_mapping bs = Ok bs ∧ map_len m = Z.of_nat (length bs) ∧
       kv_maps (kv k) !! map_address m = None ∧
       kv k' = {| kv_fds := kv_fds (kv k); kv_files := kv_files (kv k);
                  kv_maps := <[map_address m := (o, map_len m)]> (kv_maps (kv k)) |})
    (λ e k', kv_fds (kv k') = delete efd (delete mfd (kv_fds (kv k))) ∧
       kv_maps (kv k') = kv_maps (kv k) ∧
       (adopt_mapping bs = Err e ∨ ∃ en, e = [errno_message en])).
Proof.
  intros Hm Ho Hlen. unfold adopt_descriptor. apply wp_owning_fd, wp_owning_fd, wp_bind, wp_bind.
  set (E := λ (e : error) k', _ ∧ _).
  assert (∀ e k', same_resources (kv k) k' → (adopt_mapping bs = Err e ∨ ∃ en, e = [errno_message en]) →
    E e k') as HE.
  { intros e k' [Hf Hmp] He. unfold E. rewrite !law_close. cbn [kv_fds kv_maps]. by rewrite Hf, Hmp. }
  apply wp_os. intros r k1 Hr. destruct (law_fstat mfd o bs k r k1 Hr Hm Ho) as [Hk1 Hsz].
  destruct r as [en|size]; [apply HE; [by apply same_view|by eauto]|]. subst size.
  rewrite (proj2 (in_width_spec _ _)) by lia. apply wp_ret.
  apply wp_bind, (wp_mapping_shared mfd o); [by rewrite Hk1| |].
  { intros en k' Hs. rewrite Hk1 in Hs. apply HE; eauto. }
  intros a k2 Ha _ Hk2. rewrite Hk1 in Ha, Hk2.
  apply wp_owning_map. cbn [map_address].
  assert (∀ k', same_resources (kv k2) k' → same_resources (kv k) (sys_munmap a k')) as HE2.
  { intros k' Hs. eapply unmap_same; [|exact Ha| |exact Hs]; by rewrite Hk2. }
  apply wp_bind, (wp_mapping_header _ o (Z.of_nat (length bs)) bs);
    [rewrite Hk2; apply lookup_insert_eq|by rewrite Hk2|].
  apply wp_bind, wp_lift; [apply validate_header_defined| |].
  - intros [] Hv. apply wp_bind.
    assert (adopt_mapping bs = Ok bs) as Had by (unfold adopt_mapping; by rewrite Hv).
    destruct reg; [apply wp_register; [intros; apply HE; eauto|]|apply wp_ret].
    + intros k3 Hk3. apply wp_ret. rewrite Hk3, Hk2. done.
    + apply wp_ret. rewrite Hk2. done.
  - intros e Hv. apply HE; [by apply HE2|]. left. unfold adopt_mapping. by rewrite Hv.
Qed.

(** The state an endpoint over the memfd [o] with contents [bs] is in. *)
Definition endpoint_of (mfd : Z) (m : Mapping) (o : Z) (bs : memory) k : Prop :=
  kv_fds (kv k) !! mfd = Some o ∧ kv_files (kv k) !! o = Some bs ∧
  kv_maps (kv k) !! map_address m = Some (o, Z.of_nat (length bs)) ∧
  Z.of_nat (length bs) < 2 ^ 63.

Definition moved (mfd efd : Z) (m m' : Mapping) (o : Z) (bs : memory) k k' : Prop :=
  mapped k' (map_address m') = Some bs ∧ map_len m' = Z.of_nat (length bs) ∧
  kv_fds (kv k') = kv_fds (kv k) ∧
  kv_maps (kv k') = <[map_address m' := (o, map_len m')]> (delete (map_address m) (kv_maps (kv k))).

Definition transfer_failed (mfd efd : Z) (m : Mapping) k (e : error) k' : Prop :=
  kv_fds (kv k') = delete efd (delete mfd (kv_fds (kv k))) ∧
  kv_maps (kv k') = delete (map_address m) (kv_maps (kv k)) ∧ ∃ en, e = [errno_message en].

Lemma wp_transfer mfd efd reg m o n stride cap bs T H q k :
  endpoint_of mfd m o bs k → ring_rep n stride cap bs T H q →
  wp (mmodify (sys_munmap (map_address m)) !; adopt_descriptor mfd efd reg) k
    (λ m' k', moved mfd efd m m' o bs k k') (transfer_failed mfd efd m k).
Proof.
  intros (Hm & Ho & Hmp & Hlen) R. apply wp_bind, wp_modify.
  pose proof (validate_header_rep _ _ _ _ _ _ _ R) as Hv.
  assert (Z.of_nat (length bs) = ring_header_size + stride * n) as Hl.
  { destruct R as [[? ? ? _] -> _ _ _ _ _ _ _]. unfold ring_header_size. nia. }
  assert (adopt_mapping bs = Ok bs) as Had by (unfold adopt_mapping; by rewrite Hl, Hv).
  pose proof (wp_adopt_descriptor mfd efd reg o bs (sys_munmap (map_address m) k)) as Hwp.
  rewrite law_munmap in Hwp. cbn in Hwp. specialize (Hwp Hm Ho Hlen).
  eapply wp_mono; [exact Hwp|..]; cbn.
  - intros m' k' (_ & Hml & _ & Hk'). unfold moved, mapped. rewrite Hk'. cbn.
    rewrite lookup_insert_eq. cbn. done.
  - intros e k' (Hf & Hmaps & [He|He]); [congruence|]. done.
Qed.

(** C13. Moving an endpoint to another process and back, producer or consumer,
    keeps the ring: the new mapping shows the same bytes, so the same queue of
    frames, and the old mapping is gone; no descriptor is acquired or lost.  If
    the kernel refuses the new mapping, both descriptors are closed. *)
Theorem endpoint_survives_transfer (p : Producer) (c : Consumer) op oc
    n stride cap bp bc Tp Hp qp Tc Hc qc k :
  endpoint_of (pr_memory_fd p) (pr_mapping p) op bp k → ring_rep n stride cap bp Tp Hp qp →
  endpoint_of (cn_memory_fd c) (cn_mapping c) oc bc k → ring_rep n stride cap bc Tc Hc qc →
  wp (let! d := producer_into_descriptor p in producer_from_descriptor d) k
    (λ p' k', pr_memory_fd p' = pr_memory_fd p ∧ pr_event_fd p' = pr_event_fd p ∧
       moved (pr_memory_fd p) (pr_event_fd p) (pr_mapping p) (pr_mapping p') op bp k k')
    (transfer_failed (pr_memory_fd p) (pr_event_fd p) (pr_mapping p) k) ∧
  wp (let! d := consumer_into_descriptor c in consumer_from_descriptor d) k
    (λ c' k', cn_memory_fd c' = cn_memory_fd c ∧ cn_event_fd c' = cn_event_fd c ∧
       moved (cn_memory_fd c) (cn_event_fd c) (cn_mapping c) (cn_mapping c') oc bc k k')
    (transfer_failed (cn_memory_fd c) (cn_event_fd c) (cn_mapping c) k).
Proof.
  intros Hep Rp Hec Rc.
  pose proof (wp_transfer _ (pr_event_fd p) false _ _ _ _ _ _ _ _ _ _ Hep Rp) as Wp.
  pose proof (wp_transfer _ (cn_event_fd c) true _ _ _ _ _ _ _ _ _ _ Hec Rc) as Wc.
  unfold wp, mbind, mmodify in Wp, Wc. split.
  - apply wp_bind. unfold producer_into_descriptor. apply wp_bind, wp_modify, wp_ret.
    unfold producer_from_descriptor. apply wp_bind. cbn.
    eapply wp_mono; [exact Wp| |done]. intros m' k' Hm. by apply wp_ret.
  - apply wp_bind. unfold consumer_into_descriptor. apply wp_bind, wp_modify, wp_ret.
    unfold consumer_from_descriptor. apply wp_bind. cbn.
    eapply wp_mono; [exact Wc| |done]. intros m' k' Hm. by apply wp_ret.
Qed.
End transfer.

(** ** A kernel to run the code on

    Descriptors and addresses are the smallest above all in use; the first
    [sk_budget] calls succeed. *)
Record sim_kernel := { sk_view : kview; sk_budget : nat }.

Definition max_key {A} (m : gmap Z A) : Z := foldr Z.max 0 (map_to_list m).*1.

Lemma max_key_above {A} (m : gmap Z A) i : max_key m < i → m !! i = None.
Proof.
  intros Hi. destruct (m !! i) as [a|] eqn:Hm; [|done].
  assert (i ∈ (map_to_list m).*1) as Hin.
  { apply list_elem_of_fmap. exists (i, a). by rewrite elem_of_map_to_list. }
  unfold max_key in Hi. exfalso. induction (map_to_list m).*1 as [|j l IH]; cbn in *;
    [by apply elem_of_nil in Hin|]. apply elem_of_cons in Hin as [->|Hin]; [lia|].
  apply IH; [lia|done].
Qed.

Definition spend {A} (f : kview → A * kview) (k : sim_kernel) : (errno + A) * sim_kernel :=
  match sk_budget k with
  | O => (inl (Eother "Too many open files"), k)
  | S b => let '(a, v) := f (sk_view k) in (inr a, {| sk_view := v; sk_budget := b |})
  end.

Definition with_view (f : kview → kview) (k : sim_kernel) : sim_kernel :=
  {| sk_view := f (sk_view k); sk_budget := sk_budget k |}.

Definition view_fds (f : gmap Z Z → gmap Z Z) (v : kview) : kview :=
  {| kv_fds := f (kv_fds v); kv_files := kv_files v; kv_maps := kv_maps v |}.
Definition view_files (f : gmap Z memory → gmap Z memory) (v : kview) : kview :=
  {| kv_fds := kv_fds v; kv_files := f (kv_files v); kv_maps := kv_maps v |}.
Definition view_maps (f : gmap Z (Z * Z) → gmap Z (Z * Z)) (v : kview) : kview :=
  {| kv_fds := kv_fds v; kv_files := kv_files v; kv_maps := f (kv_maps v) |}.

#[global] Instance sim_kernel_ops : Kernel sim_kernel := {|
  kv := sk_view;
  sys_memfd_create _ := spend (λ v,
    let fd := max_key (kv_fds v) + 1 in let o := max_key (kv_files v) + 1 in
    (fd, view_files <[o := []]> (view_fds <[fd := o]> v)));
  sys_ftruncate fd len k :=
    if len <? 0 then (inl (Eother "Invalid argument"), k) else spend (λ v,
      (tt, match kv_fds v !! fd with
           | Some o => match kv_files v !! o with
                       | Some bs => view_files <[o := resize_file (Z.to_nat len) bs]> v
                       | None => v end
           | None => v end)) k;
  sys_add_seals _ := spend (λ v, (tt, v));
  sys_eventfd := spend (λ v,
    let fd := max_key (kv_fds v) + 1 in
    (fd, view_fds <[fd := max_key (kv_files v) + 1]> v));
  sys_dupfd fd := spend (λ v,
    let fd' := max_key (kv_fds v) + 1 in
    (fd', match kv_fds v !! fd with Some o => view_fds <[fd' := o]> v | None => v end));
  sys_fstat_size fd := spend (λ v,
    (match kv_fds v !! fd with
     | Some o => match kv_files v !! o with
                 | Some bs => Z.of_nat (length bs) | None => 0 end
     | None => 0 end, v));
  sys_mmap fd len := spend (λ v,
    let a := 4096 * (max_key (kv_maps v) + 1) in
    (a, match kv_fds v !! fd with Some o => view_maps <[a := (o, len)]> v | None => v end));
  sys_munmap a := with_view (view_maps (delete a));
  sys_close fd := with_view (view_fds (delete fd));
  reactor_register _ := spend (λ v, (tt, v));
  poke a off w := with_view (λ v,
    match kv_maps v !! a with
    | Some (o, _) => match kv_files v !! o with
                     | Some bs => view_files <[o := list_inserts off w bs]> v
                     | None => v end
    | None => v end);
|}.

Lemma max_key_nonneg {A} (m : gmap Z A) : 0 <= max_key m.
Proof. unfold max_key. induction (map_to_list m).*1; cbn; lia. Qed.

#[global] Instance sim_kernel_laws : KernelLaws sim_kernel.
Proof.
  split; cbn; unfold spend; intros;
    repeat match goal with
    | H : kv_fds _ !! _ = Some _ |- _ => rewrite ?H in *; revert H
    | H : kv_files _ !! _ = Some _ |- _ => rewrite ?H in *; revert H
    | H : kv_maps _ !! _ = Some _ |- _ => rewrite ?H in *; revert H
    end; intros; repeat case_match; simplify_eq; b2p; try done;
    try (eexists; split; [|split; [|split] ]; [|apply max_key_above|apply max_key_above|done]);
    try (pose proof (max_key_nonneg (kv_fds (sk_view k)));
         pose proof (max_key_nonneg (kv_maps (sk_view k))); lia);
    pose proof (max_key_nonneg (kv_fds (sk_view k)));
    pose proof (max_key_nonneg (kv_maps (sk_view k))).
  - split; [lia|]. split; [apply max_key_above; lia|done].
  - split; [lia|]. split; [|split; [apply max_key_above; lia|done] ].
    rewrite Z.mul_comm. apply Z.mod_mul. lia.
Qed.

Definition empty_kernel (budget : nat) : sim_kernel :=
  {| sk_view := {| kv_fds := {[1 := 0]}; kv_files := ∅; kv_maps := ∅ |}; sk_budget := budget |}.

(** With enough descriptors the ring is created; when the kernel runs out after
    five calls, everything acquired by then is released. *)
Lemma create_ring_or_release_witness :
  is_ok (fst (create 2 16 (empty_kernel 100))) = true ∧
  wp (create 2 16) (empty_kernel 100) (ring_created 2 16 (kv (empty_kernel 100)))
    (create_failed 2 16 (kv (empty_kernel 100))) ∧
  is_err (fst (create 2 16 (empty_kernel 5))) = true ∧
  same_resources (kv (empty_kernel 5)) (snd (create 2 16 (empty_kernel 5))).
Proof.
  split; [vm_compute; reflexivity|].
  split; [apply (create_ring_or_release 2 16 (empty_kernel 100)); reflexivity|].
  split; [vm_compute; reflexivity|].
  assert (wp (create 2 16) (empty_kernel 5) (ring_created 2 16 (kv (empty_kernel 5)))
    (create_failed 2 16 (kv (empty_kernel 5)))) as Hw
    by (apply (create_ring_or_release 2 16 (empty_kernel 5)); reflexivity).
  assert (is_err (fst (create 2 16 (empty_kernel 5))) = true) as He by (vm_compute; reflexivity).
  unfold wp in Hw. destruct (create 2 16 (empty_kernel 5)) as [[pc|e|w|w] k']; try discriminate He.
  exact (proj1 Hw).
Defined.

Definition transfer_kernel : sim_kernel := snd (create 2 16 (empty_kernel 100)).
Definition transfer_memory : memory := match fresh_ring 2 16 with Ok m => m | _ => [] end.
Definition transfer_producer : Producer :=
  {| pr_memory_fd := 2; pr_event_fd := 4; pr_mapping := {| map_address := 4096; map_len := 512 |} |}.
Definition transfer_consumer : Consumer :=
  {| cn_memory_fd := 3; cn_event_fd := 5;
     cn_mapping := {| map_address := 4096 * 4097; map_len := 512 |} |}.

Lemma endpoint_survives_transfer_witness :
  create 2 16 (empty_kernel 100) = (Ok (transfer_producer, transfer_consumer), transfer_kernel) ∧
  wp (let! d := consumer_into_descriptor transfer_consumer in consumer_from_descriptor d)
    transfer_kernel
    (λ c' k', cn_memory_fd c' = 3 ∧ cn_event_fd c' = 5 ∧
       moved 3 5 (cn_mapping transfer_consumer) (cn_mapping c') 1 transfer_memory transfer_kernel k')
    (transfer_failed 3 5 (cn_mapping transfer_consumer) transfer_kernel).
Proof.
  split; [vm_compute; reflexivity|].
  assert (ring_rep 2 (stride_of 16) 16 transfer_memory 0 0 []) as R.
  { apply (fresh_ring_rep 2 16); vm_compute; reflexivity. }
  refine (proj2 (endpoint_survives_transfer transfer_producer transfer_consumer 1 1
    2 (stride_of 16) 16 transfer_memory transfer_memory 0 0 [] 0 0 [] transfer_kernel _ R _ R));
    unfold endpoint_of; repeat (split; [vm_compute; reflexivity|]); vm_compute; reflexivity.
Defined.
