(* ===== verification/Floss.v ===== *)
(** * The Floss LE Audio client ([src/wireless/floss.rs])

    The D-Bus client that starts and stops software LE Audio streams.  The D-Bus
    service, the clock and the UNIX socket are outside of the repository: a
    [Floss] world answers the calls, and the model keeps a log of the calls the
    client makes, so that the theorems can speak about what was started and what
    was rolled back. *)

From stdpp Require Import gmap.
From S2P Require Import Prelude Types.

Definition LE_AUDIO_DATA_PATH : string := "/run/bluetooth/audio/.lea_data".

(** ** The outside *)

(** A D-Bus variant ([zbus::zvariant::OwnedValue]) and the two conversions the
    client uses. *)
Class Variant (V : Type) := {
  try_u32 : V → result Z;
  try_u8 : V → result Z;
}.

Class VariantLaws (V : Type) `{!Variant V} : Prop := {
  try_u32_spec (v : V) : defined (try_u32 v) = true ∧ ∀ x, try_u32 v = Ok x → is_u32 x = true;
  try_u8_spec (v : V) : defined (try_u8 v) = true ∧ ∀ x, try_u8 v = Ok x → is_u8 x = true;
}.

(** The methods of the [BluetoothMedia] proxy, by the type they return. *)
Inductive unit_method := GroupSetActive (group_id : Z) | HostStopAudioRequest | PeerStopAudioRequest.
Inductive bool_method :=
| HostStartAudioRequest
| PeerStartAudioRequest
| SourceMetadataChanged (usage content_type : Z)   (* gain 1.0 *)
| SinkMetadataChanged (source : Z).                (* gain 1.0 *)
Inductive int_method :=
| GetHostStreamStarted
| GetPeerStreamStarted
| GetGroupStatus (group_id : Z)
| GetGroupStreamStatus (group_id : Z).
Inductive map_method := GetHostPcmConfig | GetPeerPcmConfig.

Section client.
Context {V : Type} `{!Variant V}.

Abbreviation PropertyMap := (gmap string V).

Class Floss (W : Type) := {
  (** [BluetoothMediaProxy::builder(..).build()] on an object path *)
  bus_proxy : string → W → result unit * W;
  bus_unit : unit_method → W → result unit * W;
  bus_bool : bool_method → W → result bool * W;
  bus_int : int_method → W → result Z * W;
  bus_map : map_method → W → result PropertyMap * W;
  (** [UnixStream::connect] *)
  unix_connect : string → W → result Z * W;
  (** [Instant::now()] in nanoseconds, and [sleep] *)
  now : W → Z;
  sleep : Z → W → W;
}.

Context {W : Type} `{!Floss W}.

(** What the client has done, in order; the boolean and integer answers are
    recorded, [None] is a failed call. *)
Inductive call :=
| CProxy (ok : bool)
| CUnit (m : unit_method) (ok : bool)
| CBool (m : bool_method) (answer : option bool)
| CInt (m : int_method) (answer : option Z)
| CMap (m : map_method) (ok : bool)
| CConnect (ok : bool)
| CDropWarning.

Record client := { cl_world : W; cl_log : list call }.

Definition logged {A} (f : W → result A * W) (entry : result A → call) : M client A := λ c,
  let '(r, w) := f (cl_world c) in
  (r, {| cl_world := w; cl_log := cl_log c ++ [entry r] |}).

Definition answer {A} (r : result A) : option A := match r with Ok a => Some a | _ => None end.

Definition call_unit (m : unit_method) : M client unit := logged (bus_unit m) (λ r, CUnit m (is_ok r)).
Definition call_bool (m : bool_method) : M client bool :=
  logged (bus_bool m) (λ r, CBool m (answer r)).
Definition call_int (m : int_method) : M client Z := logged (bus_int m) (λ r, CInt m (answer r)).
Definition call_map (m : map_method) : M client PropertyMap :=
  logged (bus_map m) (λ r, CMap m (is_ok r)).

(** ** The client *)

Record FlossLeDirections := { host_to_peer : bool; peer_to_host : bool }.

Definition OUTPUT : FlossLeDirections := {| host_to_peer := true; peer_to_host := false |}.
Definition INPUT : FlossLeDirections := {| host_to_peer := false; peer_to_host := true |}.
Definition FULL_DUPLEX : FlossLeDirections := {| host_to_peer := true; peer_to_host := true |}.

Definition directions_validate (d : FlossLeDirections) : result unit :=
  ensure (host_to_peer d || peer_to_host d) "at least one LE Audio direction must be selected".

Record FlossLeAudio := { media_path : string; data_path : string }.

(** [FlossLeAudio::with_connection] *)
Definition with_connection (adapter : Z) : FlossLeAudio :=
  {| media_path := "/org/chromium/bluetooth/hci" +:+ pretty adapter +:+ "/media";
     data_path := LE_AUDIO_DATA_PATH |}.

(** [FlossLeAudio::system]; [connected] is the outcome of the connection. *)
Definition system (connected : result unit) (adapter : Z) : result FlossLeAudio :=
  context connected "connect to system D-Bus" ?;
  Ok (with_connection adapter).

Definition with_data_path (p : string) (f : FlossLeAudio) : FlossLeAudio :=
  {| media_path := media_path f; data_path := p |}.

(** [FlossLeAudio::proxy] *)
Definition proxy (f : FlossLeAudio) : M client unit :=
  mcontext (logged (bus_proxy (media_path f)) (λ r, CProxy (is_ok r)))
    "create Floss BluetoothMedia proxy".

Definition group_status (f : FlossLeAudio) (group_id : Z) : M client (Z * Z) :=
  proxy f !;
  let! a := call_int (GetGroupStatus group_id) in
  let! b := call_int (GetGroupStreamStatus group_id) in
  mret (a, b).

(** [property]: the conversion is the [T::try_from] of the field's type. *)
Definition property (try_from : V → result Z) (properties : PropertyMap) (name : string)
    : result Z :=
  let? value := ok_or (properties !! name) ("Floss PCM config missing " +:+ name) in
  context (try_from value) ("invalid Floss PCM property " +:+ name).

Definition parse_pcm_config (properties : PropertyMap) : result PcmConfiguration :=
  let? data_interval_us := property try_u32 properties "data_interval_us" in
  let? sample_rate_hz := property try_u32 properties "sample_rate" in
  let? bits_per_sample := property try_u8 properties "bits_per_sample" in
  let? channels := property try_u8 properties "channels_count" in
  let config := {| pcm_sample_rate_hz := sample_rate_hz; pcm_bits_per_sample := bits_per_sample;
                   pcm_channels := channels; pcm_data_interval_us := data_interval_us |} in
  pcm_validate config ?;
  bytes_per_interval config ?;
  Ok config.

(** One evaluation of [!direction || proxy.get_.._stream_started().await? == 1]. *)
Definition started (wanted : bool) (m : int_method) : M client bool :=
  if wanted then let! n := call_int m in mret (n =? 1) else mret true.

Definition sleep_ns : Z := 20_000_000.

(** The loop of [wait_started]; every turn sleeps 20 ms, so [fuel] turns are
    enough for a timeout of [fuel] times 20 ms. *)
Fixpoint wait_started_loop (fuel : nat) (directions : FlossLeDirections) (deadline : Z)
    : M client unit :=
  match fuel with
  | O => lift (Undef "still waiting")
  | S fuel =>
      let! host := started (host_to_peer directions) GetHostStreamStarted in
      let! peer := started (peer_to_host directions) GetPeerStreamStarted in
      if host && peer then mret tt
      else
        let! t := mgets (λ c, now (cl_world c)) in
        if deadline <=? t then
          lift (Err ["timed out waiting for Floss LE Audio stream confirmation"])
        else
          mmodify (λ c, {| cl_world := sleep sleep_ns (cl_world c); cl_log := cl_log c |}) !;
          wait_started_loop fuel directions deadline
  end.

Definition turns (timeout : Z) : nat := S (S (Z.to_nat (timeout / sleep_ns))).

Definition wait_started (directions : FlossLeDirections) (timeout : Z) : M client unit :=
  let! t := mgets (λ c, now (cl_world c)) in
  wait_started_loop (turns timeout) directions (t + timeout).

Definition stop_directions (host peer : bool) : M client unit :=
  (if peer then mtry (call_unit PeerStopAudioRequest) !; mret tt else mret tt) !;
  (if host then mtry (call_unit HostStopAudioRequest) !; mret tt else mret tt).

Fixpoint connect_loop (fuel : nat) (path : string) (deadline : Z) : M client Z :=
  match fuel with
  | O => lift (Undef "still connecting")
  | S fuel =>
      let! r := mtry (logged (unix_connect path) (λ r, CConnect (is_ok r))) in
      match r with
      | Ok stream => mret stream
      | Err error =>
          let! t := mgets (λ c, now (cl_world c)) in
          if t <? deadline then
            mmodify (λ c, {| cl_world := sleep sleep_ns (cl_world c); cl_log := cl_log c |}) !;
            connect_loop fuel path deadline
          else lift (context (Err error) ("connect to " +:+ path))
      | Panic w => lift (Panic w)
      | Undef w => lift (Undef w)
      end
  end.

Definition connect_with_deadline (path : string) (timeout : Z) : M client Z :=
  let! t := mgets (λ c, now (cl_world c)) in
  connect_loop (turns timeout) path (t + timeout).

(** A call whose answer must be [true]. *)
Definition require (m : bool_method) (msg : string) : M client unit :=
  let! b := call_bool m in lift (ensure b msg).

Record FlossLeDataPath := {
  fp_owner : FlossLeAudio;
  fp_stream : option Z;
  fp_directions : FlossLeDirections;
  fp_host_pcm : option PcmConfiguration;
  fp_peer_pcm : option PcmConfiguration;
  fp_stopped : bool;
}.

(** The async block [start_result]: the flags are those it has set when it
    returns, on either outcome. *)
Definition start_block (directions : FlossLeDirections)
    : M client (result unit * (bool * bool)) :=
  let! h := (if host_to_peer directions
             then mtry (require HostStartAudioRequest "Floss rejected HostStartAudioRequest")
             else mret (Ok tt)) in
  let host_started := host_to_peer directions && is_ok h in
  match h with
  | Ok _ =>
      let! p := (if peer_to_host directions
                 then mtry (require PeerStartAudioRequest "Floss rejected PeerStartAudioRequest")
                 else mret (Ok tt)) in
      let peer_started := peer_to_host directions && is_ok p in
      match p with
      | Ok _ =>
          let! r := mtry (wait_started directions 8_000_000_000) in
          mret (r, (host_started, peer_started))
      | r => mret (r, (host_started, peer_started))
      end
  | r => mret (r, (host_started, false))
  end.

Definition get_pcm (wanted : bool) (m : map_method) : M client (option PcmConfiguration) :=
  if wanted then
    let! properties := call_map m in
    let! config := lift (parse_pcm_config properties) in
    mret (Some config)
  else mret None.

Definition start_software_unicast (f : FlossLeAudio) (group_id : Z)
    (directions : FlossLeDirections) : M client FlossLeDataPath :=
  lift (directions_validate directions) !;
  lift (ensure (0 <=? group_id) "LE Audio group id must be non-negative") !;
  proxy f !;
  call_unit (GroupSetActive group_id) !;
  (if host_to_peer directions
   then require (SourceMetadataChanged 1 2) "Floss rejected LE Audio media metadata"
   else mret tt) !;
  (if peer_to_host directions
   then require (SinkMetadataChanged 1) "Floss rejected LE Audio microphone metadata"
   else mret tt) !;
  let! start := start_block directions in
  let start_result := fst start in
  let host_started := fst (snd start) in
  let peer_started := snd (snd start) in
  match start_result with
  | Ok _ =>
      let! host_pcm := get_pcm (host_to_peer directions) GetHostPcmConfig in
      let! peer_pcm := get_pcm (peer_to_host directions) GetPeerPcmConfig in
      let! stream := mtry (connect_with_deadline (data_path f) 5_000_000_000) in
      match stream with
      | Ok stream =>
          mret {| fp_owner := f; fp_stream := Some stream; fp_directions := directions;
                  fp_host_pcm := host_pcm; fp_peer_pcm := peer_pcm; fp_stopped := false |}
      | Err error => stop_directions host_started peer_started !; lift (Err error)
      | Panic w => lift (Panic w)
      | Undef w => lift (Undef w)
      end
  | Err error => stop_directions host_started peer_started !; lift (Err error)
  | Panic w => lift (Panic w)
  | Undef w => lift (Undef w)
  end.

(** [FlossLeDataPath::take_stream] *)
Definition take_stream (p : FlossLeDataPath) : result Z * FlossLeDataPath :=
  (ok_or (fp_stream p) "LE Audio data stream already taken",
   {| fp_owner := fp_owner p; fp_stream := None; fp_directions := fp_directions p;
      fp_host_pcm := fp_host_pcm p; fp_peer_pcm := fp_peer_pcm p; fp_stopped := fp_stopped p |}).

(** [Drop for FlossLeDataPath] *)
Definition drop_data_path (stopped : bool) : M client unit :=
  if stopped then mret tt
  else mmodify (λ c, {| cl_world := cl_world c; cl_log := cl_log c ++ [CDropWarning] |}).

(** [if wanted && let Err(error) = proxy.stop().await]: the error, if any. *)
Definition try_stop (wanted : bool) (m : unit_method) : M client (option error) :=
  if wanted then
    let! r := mtry (call_unit m) in
    mret (match r with Err e => Some e | _ => None end)
  else mret None.

(** [FlossLeDataPath::stop]; it consumes the path, which is dropped on return. *)
Definition stop (p : FlossLeDataPath) : M client unit :=
  let! up := mtry (proxy (fp_owner p)) in
  match up with
  | Ok _ =>
      let! peer_error := try_stop (peer_to_host (fp_directions p)) PeerStopAudioRequest in
      let! host_error := try_stop (host_to_peer (fp_directions p)) HostStopAudioRequest in
      let first_error := match peer_error with Some e => Some e | None => host_error end in
      drop_data_path true !;
      match first_error with
      | Some e => lift (context (Err e) "stop Floss LE Audio data path")
      | None => mret tt
      end
  | r => drop_data_path (fp_stopped p) !; lift r
  end.
End client.

(** * Theorems *)

(** Documented behaviour of the outside: calls return (a value or an error),
    the monotonic clock does not go backwards, and a sleep lasts at least as long
    as asked for. *)
Class FlossLaws (V W : Type) `{!Floss (V := V) W} : Prop := {
  proxy_returns p w : defined (fst (bus_proxy p w)) = true ∧ now w <= now (snd (bus_proxy p w));
  unit_returns m w : defined (fst (bus_unit m w)) = true ∧ now w <= now (snd (bus_unit m w));
  bool_returns m w : defined (fst (bus_bool m w)) = true ∧ now w <= now (snd (bus_bool m w));
  int_returns m w : defined (fst (bus_int m w)) = true ∧ now w <= now (snd (bus_int m w));
  map_returns m w : defined (fst (bus_map m w)) = true ∧ now w <= now (snd (bus_map m w));
  connect_returns p w :
    defined (fst (unix_connect p w)) = true ∧ now w <= now (snd (unix_connect p w));
  sleep_lasts d w : 0 <= d → now w + d <= now (sleep d w);
}.

(** ** Reading a PCM configuration *)

Section parse.
Context {V : Type} `{!Variant V} `{!VariantLaws V}.
Implicit Types (m : gmap string V).

Lemma try_u32_range v x : try_u32 v = Ok x → is_u32 x = true.
Proof. apply try_u32_spec. Qed.

Lemma try_u8_range v x : try_u8 v = Ok x → is_u8 x = true.
Proof. apply try_u8_spec. Qed.

Lemma property_Ok try m name x :
  property try m name = Ok x ↔ ∃ v, m !! name = Some v ∧ try v = Ok x.
Proof.
  unfold property. destruct (m !! name) as [v|]; cbn.
  - transitivity (try v = Ok x); [unfold context; by destruct (try v)|].
    split; [by eauto|by intros (? & [= <-] & ?)].
  - split; [done|by intros (? & ? & _)].
Qed.

Lemma property_defined try m name :
  (∀ v, defined (try v) = true) → defined (property try m name) = true.
Proof.
  intros H. unfold property. destruct (m !! name) as [v|]; cbn; [|done].
  unfold context. specialize (H v). by destruct (try v).
Qed.

Lemma parse_pcm_config_Ok m c :
  parse_pcm_config m = Ok c →
  pcm_validate c = Ok tt ∧ pcm_typed c = true ∧ is_ok (bytes_per_interval c) = true ∧
  (∃ v, m !! "data_interval_us" = Some v ∧ try_u32 v = Ok (pcm_data_interval_us c)) ∧
  (∃ v, m !! "sample_rate" = Some v ∧ try_u32 v = Ok (pcm_sample_rate_hz c)) ∧
  (∃ v, m !! "bits_per_sample" = Some v ∧ try_u8 v = Ok (pcm_bits_per_sample c)) ∧
  (∃ v, m !! "channels_count" = Some v ∧ try_u8 v = Ok (pcm_channels c)).
Proof.
  intros H. unfold parse_pcm_config in H. inv_ok.
  repeat match goal with E : property _ _ _ = Ok _ |- _ => apply property_Ok in E end.
  destruct_and?. repeat match goal with E : ∃ _, _ |- _ => destruct E as (? & ? & ?) end.
  cbn [pcm_sample_rate_hz pcm_bits_per_sample pcm_channels pcm_data_interval_us].
  match goal with u : unit |- _ => destruct u end.
  split; [done|]. split; [|split; [|repeat (split || eexists); done] ].
  - unfold pcm_typed. cbn. rewrite !andb_true_iff.
    repeat split; first [by eapply try_u32_range|by eapply try_u8_range].
  - match goal with E : bytes_per_interval _ = Ok _ |- _ => by rewrite E end.
Qed.

Lemma parse_pcm_config_defined m : defined (parse_pcm_config m) = true.
Proof.
  unfold parse_pcm_config.
  do 4 (apply rbind_defined; split;
        [apply property_defined; intros; first [apply try_u32_spec|apply try_u8_spec]|];
        intros ? ?%property_Ok).
  apply rbind_defined. split; [apply pcm_validate_defined|intros [] _].
  apply rbind_defined. split; [|done].
  repeat match goal with E : ∃ _, _ |- _ => destruct E as (? & ? & ?) end.
  apply bytes_per_interval_defined. unfold pcm_typed. cbn. rewrite !andb_true_iff.
  repeat split; first [by eapply try_u32_range|by eapply try_u8_range].
Qed.
End parse.

(** ** Which directions the client has running

    [running]: a start request that was granted makes a direction run; asking
    for a stop ends it as far as the client is concerned.  [confirmed]: the latest
    answer to [GetHostStreamStarted] or [GetPeerStreamStarted] since the direction
    was last asked to start or to stop is 1. *)
Definition after_call (x : call) (run : bool * bool) : bool * bool :=
  match x with
  | CBool HostStartAudioRequest (Some true) => (true, snd run)
  | CBool PeerStartAudioRequest (Some true) => (fst run, true)
  | CUnit HostStopAudioRequest _ => (false, snd run)
  | CUnit PeerStopAudioRequest _ => (fst run, false)
  | _ => run
  end.

Definition running (log : list call) : bool * bool := foldl (λ run x, after_call x run) (false, false) log.

Lemma running_snoc log x : running (log ++ [x]) = after_call x (running log).
Proof. unfold running. by rewrite foldl_app. Qed.

Definition after_status (x : call) (st : bool * bool) : bool * bool :=
  match x with
  | CBool HostStartAudioRequest _ | CUnit HostStopAudioRequest _ => (false, snd st)
  | CBool PeerStartAudioRequest _ | CUnit PeerStopAudioRequest _ => (fst st, false)
  | CInt GetHostStreamStarted a => (bool_decide (a = Some 1), snd st)
  | CInt GetPeerStreamStarted a => (fst st, bool_decide (a = Some 1))
  | _ => st
  end.

Definition confirmed (log : list call) : bool * bool := foldl (λ st x, after_status x st) (false, false) log.

Lemma confirmed_app log l : confirmed (log ++ l) = foldl (λ st x, after_status x st) (confirmed log) l.
Proof. unfold confirmed. by rewrite foldl_app. Qed.

#[local] Arguments running : simpl never.
#[local] Arguments confirmed : simpl never.

(** Every direction of [d] is confirmed. *)
Definition all_confirmed (d : FlossLeDirections) (log : list call) : Prop :=
  implb (host_to_peer d) (fst (confirmed log)) = true ∧ implb (peer_to_host d) (snd (confirmed log)) = true.

Section client_proofs.
Context {V : Type} `{!Variant V} `{!VariantLaws V}.
Context {W : Type} `{!Floss (V := V) W} `{!FlossLaws V W}.
Implicit Types (c : client (W := W)).

Abbreviation time c := (now (cl_world c)).

(** [c'] is [c] after the calls [l]. *)
Definition after c (l : list call) c' : Prop :=
  cl_log c' = cl_log c ++ l ∧ time c <= time c'.

Lemma after_running c l c' : after c l c' → running (cl_log c') = foldl (λ run x, after_call x run) (running (cl_log c)) l.
Proof. intros [-> _]. unfold running. by rewrite foldl_app. Qed.

Lemma wp_logged {A} (f : W → result A * W) (entry : result A → call) c Q (E : error → client → Prop) :
  defined (fst (f (cl_world c))) = true → now (cl_world c) <= now (snd (f (cl_world c))) →
  (∀ a c', after c [entry (Ok a)] c' → Q a c') →
  (∀ e c', after c [entry (Err e)] c' → E e c') →
  wp (logged f entry) c Q E.
Proof.
  intros Hd Ht HQ HE. unfold wp, logged. destruct (f (cl_world c)) as [r w]. cbn in *.
  destruct r; [by apply HQ|by apply HE|done|done].
Qed.

Lemma wp_call_unit m c Q (E : error → client → Prop) :
  (∀ c', after c [CUnit m true] c' → Q tt c') → (∀ e c', after c [CUnit m false] c' → E e c') →
  wp (call_unit m) c Q E.
Proof. intros HQ HE. apply wp_logged; try apply unit_returns; [by intros []|done]. Qed.

Lemma wp_call_bool m c Q (E : error → client → Prop) :
  (∀ b c', after c [CBool m (Some b)] c' → Q b c') → (∀ e c', after c [CBool m None] c' → E e c') →
  wp (call_bool m) c Q E.
Proof. intros HQ HE. by apply wp_logged; try apply bool_returns. Qed.

Lemma wp_call_int m c Q (E : error → client → Prop) :
  (∀ n c', after c [CInt m (Some n)] c' → Q n c') → (∀ e c', after c [CInt m None] c' → E e c') →
  wp (call_int m) c Q E.
Proof. intros HQ HE. by apply wp_logged; try apply int_returns. Qed.

Lemma wp_call_map m c Q (E : error → client → Prop) :
  (∀ x c', after c [CMap m true] c' → Q x c') → (∀ e c', after c [CMap m false] c' → E e c') →
  wp (call_map m) c Q E.
Proof. intros HQ HE. by apply wp_logged; try apply map_returns. Qed.

(** A call that starts and stops nothing. *)
Definition keeps c c' : Prop := running (cl_log c') = running (cl_log c) ∧ time c <= time c'.

Lemma keeps_refl c : keeps c c.
Proof. split; [done|lia]. Qed.

Lemma keeps_trans c1 c2 c3 : keeps c1 c2 → keeps c2 c3 → keeps c1 c3.
Proof. intros [H1 ?] [H2 ?]. split; [by rewrite H2|lia]. Qed.

Lemma after_keeps c x c' : after c [x] c' → (∀ run, after_call x run = run) → keeps c c'.
Proof. intros Ha Hx. split; [|apply Ha]. rewrite (after_running _ _ _ Ha). apply Hx. Qed.

(** A call that changes neither what runs nor what is confirmed. *)
Definition still c c' : Prop := keeps c c' ∧ confirmed (cl_log c') = confirmed (cl_log c).

Lemma still_refl c : still c c.
Proof. split; [apply keeps_refl|done]. Qed.

Lemma still_trans c1 c2 c3 : still c1 c2 → still c2 c3 → still c1 c3.
Proof. intros [H1 E1] [H2 E2]. split; [by eapply keeps_trans|by rewrite E2]. Qed.

Lemma after_confirmed c x c' : after c [x] c' → confirmed (cl_log c') = after_status x (confirmed (cl_log c)).
Proof. intros [-> _]. by rewrite confirmed_app. Qed.

Lemma after_still c x c' :
  after c [x] c' → (∀ run, after_call x run = run) → (∀ st, after_status x st = st) → still c c'.
Proof.
  intros Ha Hx Hs. split; [by eapply after_keeps|]. by rewrite (after_confirmed _ _ _ Ha).
Qed.

(** The answer [b] of one evaluation: a direction that is not wanted counts as
    started, a wanted one has its status updated to [b]. *)
Lemma wp_started (wanted : bool) m c Q (E : error → client → Prop) :
  (∀ (b : bool) c', keeps c c' →
     confirmed (cl_log c') = (if wanted then after_status (CInt m (if b then Some 1 else None)) (confirmed (cl_log c))
                              else confirmed (cl_log c)) →
     (wanted = false → b = true) → Q b c') →
  (∀ e c', keeps c c' → E e c') → wp (started wanted m) c Q E.
Proof.
  intros HQ HE. unfold started. destruct wanted; [|by apply wp_ret, HQ; [apply keeps_refl|..]].
  apply wp_bind, wp_call_int; [|intros; eapply HE, after_keeps; done].
  intros n c' Ha. apply wp_ret, HQ; [by eapply after_keeps| |done].
  rewrite (after_confirmed _ _ _ Ha). destruct (Z.eqb_spec n 1) as [->|Hn]; [done|].
  destruct m; try done; cbn; by rewrite bool_decide_eq_false_2 by congruence.
Qed.

Lemma wp_sleep c (Q : unit → client → Prop) (E : error → client → Prop) :
  (∀ c', still c c' → time c + sleep_ns <= time c' → Q tt c') →
  wp (mmodify (λ c, {| cl_world := sleep sleep_ns (cl_world c); cl_log := cl_log c |})) c Q E.
Proof.
  intros HQ. apply wp_modify, HQ; cbn; [split; [split; cbn; [done|]|done]|];
    pose proof (sleep_lasts (V := V) sleep_ns (cl_world c)); unfold sleep_ns in *; lia.
Qed.

(** The waiting loop ends: it never uses up its turns; and it succeeds only when
    every wanted direction is confirmed. *)
Lemma wp_wait_started_loop fuel d deadline c :
  deadline <= time c + Z.of_nat fuel * sleep_ns →
  wp (wait_started_loop (S fuel) d deadline) c
    (λ _ c', keeps c c' ∧ all_confirmed d (cl_log c')) (λ _ c', keeps c c').
Proof.
  revert c. induction fuel as [|fuel IH]; intros c Hf; cbn [wait_started_loop];
    (apply wp_bind, wp_started; [|done]; intros host c1 H1 E1 Hh;
     apply wp_bind, wp_started; [|intros; by eapply keeps_trans]; intros peer c2 H2 E2 Hp;
     assert (keeps c c2) as H12 by (by eapply keeps_trans);
     destruct (host && peer) eqn:Hboth;
       [apply andb_true_iff in Hboth as [-> ->]; apply wp_ret; split; [done|];
        unfold all_confirmed; rewrite E2, E1; by destruct (host_to_peer d), (peer_to_host d)|];
     clear Hboth; apply wp_bind; unfold mgets, wp at 1;
     destruct (deadline <=? time c2) eqn:Hd; [done|b2p]).
  - destruct H12. unfold sleep_ns in *. lia.
  - apply wp_bind, wp_sleep. intros c3 [H3 _] Ht.
    assert (keeps c c3) as H13 by (by eapply keeps_trans).
    eapply wp_mono; [apply IH; destruct H12; lia|..]; cbn.
    + intros _ c4 [H4 ?]. split; [by eapply keeps_trans|done].
    + intros e c4 H4. by eapply keeps_trans.
Qed.

Lemma turns_enough timeout : 0 <= timeout → ∃ n, turns timeout = S n ∧ timeout <= Z.of_nat n * sleep_ns.
Proof.
  intros. exists (S (Z.to_nat (timeout / sleep_ns))). split; [done|].
  unfold sleep_ns in *. pose proof (Z.div_mod timeout 20_000_000). 
  pose proof (Z.mod_pos_bound timeout 20_000_000). lia.
Qed.

Lemma wp_wait_started d timeout c :
  0 <= timeout →
  wp (wait_started d timeout) c (λ _ c', keeps c c' ∧ all_confirmed d (cl_log c')) (λ _ c', keeps c c').
Proof.
  intros Ht. destruct (turns_enough timeout Ht) as (n & Hn & Hle). unfold wait_started.
  apply wp_bind. unfold mgets, wp at 1. rewrite Hn. apply wp_wait_started_loop. lia.
Qed.

Lemma wp_connect_loop fuel path deadline c :
  deadline <= time c + Z.of_nat fuel * sleep_ns →
  wp (connect_loop (S fuel) path deadline) c (λ _ c', still c c') (λ _ c', still c c').
Proof.
  revert c. induction fuel as [|fuel IH]; intros c Hf; cbn [connect_loop];
    (apply wp_bind, wp_try, wp_logged; [apply connect_returns|apply connect_returns| |];
     [intros stream c1 H1; eapply wp_ret, after_still; done|intros e c1 H1];
     assert (still c c1) as Hk by (eapply after_still; done);
     apply wp_bind; unfold mgets, wp at 1;
     destruct (time c1 <? deadline) eqn:Hd; [b2p|done]).
  - destruct Hk as [[_ ?] _]. lia.
  - apply wp_bind, wp_sleep. intros c2 H2 Ht.
    eapply wp_mono; [apply IH; destruct Hk as [[_ ?] _]; lia|..]; cbn; intros; eapply still_trans; try done;
      eapply still_trans; done.
Qed.

Lemma wp_connect path timeout c :
  0 <= timeout → wp (connect_with_deadline path timeout) c (λ _ c', still c c') (λ _ c', still c c').
Proof.
  intros Ht. destruct (turns_enough timeout Ht) as (n & Hn & Hle). unfold connect_with_deadline.
  apply wp_bind. unfold mgets, wp at 1. rewrite Hn. apply wp_connect_loop. lia.
Qed.

Lemma wp_require m msg c Q (E : error → client → Prop) :
  (∀ c', after c [CBool m (Some true)] c' → Q tt c') →
  (∀ e c', keeps c c' → E e c') → wp (require m msg) c Q E.
Proof.
  intros HQ HE. apply wp_bind, wp_call_bool.
  - intros b c' Ha. apply wp_ensure; [intros ->; by apply HQ|intros ->].
    eapply HE, after_keeps; [done|]. by destruct m.
  - intros e c' Ha. eapply HE, after_keeps; [done|]. by destruct m.
Qed.

Lemma wp_require_if (b : bool) m msg c Q (E : error → client → Prop) :
  (∀ a run, after_call (CBool m a) run = run) →
  (∀ c', keeps c c' → Q tt c') → (∀ e c', keeps c c' → E e c') →
  wp (if b then require m msg else mret tt) c Q E.
Proof.
  intros Hm HQ HE. destruct b; [|apply wp_ret, HQ, keeps_refl].
  apply wp_require; [|done]. intros c' Ha. apply HQ. by eapply after_keeps.
Qed.

(** The flags of the start block are what is running, and its success means that
    every direction was granted and confirmed. *)
Definition start_flags (d : FlossLeDirections) (s : result unit * (bool * bool)) c : Prop :=
  defined (fst s) = true ∧ running (cl_log c) = snd s ∧
  (is_ok (fst s) = true → snd s = (host_to_peer d, peer_to_host d) ∧ all_confirmed d (cl_log c)).

Lemma wp_start_block d c (E : error → client → Prop) :
  running (cl_log c) = (false, false) →
  wp (start_block d) c
    (λ s c', start_flags d s c') E.
Proof.
  intros H0. unfold start_block. apply wp_bind.
  assert (∀ c1 h, running (cl_log c1) = (h, false) → h = host_to_peer d →
    wp (let! p := if peer_to_host d
                  then mtry (require PeerStartAudioRequest "Floss rejected PeerStartAudioRequest")
                  else mret (Ok tt) in
        match p with
        | Ok _ =>
            let! r := mtry (wait_started d 8_000_000_000) in
            mret (r, (h, peer_to_host d && is_ok p))
        | r => mret (r, (h, peer_to_host d && is_ok p))
        end) c1 (start_flags d) E) as Hpeer.
  { intros c1 h H1 Hh. apply wp_bind.
    assert (∀ c2, running (cl_log c2) = (h, peer_to_host d) →
      wp (let! r := mtry (wait_started d 8_000_000_000) in mret (r, (h, peer_to_host d && true)))
        c2 (start_flags d) E) as Hwait.
    { intros c2 H2. apply wp_bind, wp_try. rewrite andb_true_r.
      eapply wp_mono; [by apply wp_wait_started|..]; cbn.
      - intros u c3 [ [H3 _] Hc]. apply wp_ret. unfold start_flags. cbn [fst snd]. rewrite H3, H2. subst h. by destruct u.
      - intros e c3 [H3 _]. apply wp_ret. unfold start_flags. cbn [fst snd]. by rewrite H3, H2. }
    destruct (peer_to_host d) eqn:Hp; [|by apply wp_ret, Hwait].
    apply wp_try, wp_require;
      [|intros e c2 [H2 _]; apply wp_ret; unfold start_flags; cbn [fst snd]; by rewrite H2, H1].
    intros c2 Ha. apply Hwait. rewrite (after_running _ _ _ Ha), H1. done. }
  destruct (host_to_peer d) eqn:Hh; [|by apply wp_ret, Hpeer].
  apply wp_try, wp_require;
    [|intros e c1 [H1 _]; apply wp_ret; unfold start_flags; cbn [fst snd]; by rewrite H1, H0].
  intros c1 Ha. apply Hpeer; [|done]. rewrite (after_running _ _ _ Ha), H0. done.
Qed.

Lemma wp_stop_directions host peer c (Q : unit → client → Prop) E :
  (∀ c', running (cl_log c') =
     (fst (running (cl_log c)) && negb host, snd (running (cl_log c)) && negb peer) → Q tt c') →
  wp (stop_directions host peer) c Q E.
Proof.
  intros HQ. unfold stop_directions. apply wp_bind.
  assert (∀ c1, running (cl_log c1) =
      (fst (running (cl_log c)), snd (running (cl_log c)) && negb peer) →
    wp (if host then mtry (call_unit HostStopAudioRequest) !; mret tt else mret tt) c1 Q E)
    as Hhost.
  { intros c1 H1. destruct host; [|apply wp_ret, HQ; by rewrite andb_true_r].
    apply wp_bind, wp_try, wp_call_unit; [intros c2 H2|intros e c2 H2]; apply wp_ret, HQ;
      rewrite (after_running _ _ _ H2), H1; cbn; by rewrite andb_false_r. }
  destruct peer; [|apply wp_ret, Hhost; rewrite andb_true_r; by destruct (running (cl_log c))].
  apply wp_bind, wp_try, wp_call_unit; [intros c2 H2|intros e c2 H2]; apply wp_ret, Hhost;
    rewrite (after_running _ _ _ H2); cbn; by rewrite andb_false_r.
Qed.

(** A configuration the caller can rely on, for a direction that was asked for. *)
Definition pcm_ready (wanted : bool) (o : option PcmConfiguration) : Prop :=
  match o with
  | Some p => wanted = true ∧ pcm_validate p = Ok tt ∧ pcm_typed p = true ∧
              is_ok (bytes_per_interval p) = true
  | None => wanted = false
  end.

(** The log ends with a request for a PCM configuration. *)
Definition ends_in_pcm_request (log : list call) : Prop := ∃ l m ok, log = l ++ [CMap m ok].

Lemma wp_get_pcm wanted m c Q (E : error → client → Prop) :
  (∀ o c', still c c' → pcm_ready wanted o → Q o c') →
  (∀ e c', ends_in_pcm_request (cl_log c') → E e c') →
  wp (get_pcm wanted m) c Q E.
Proof.
  intros HQ HE. unfold get_pcm. destruct wanted; [|by apply wp_ret, HQ; [apply still_refl|]].
  apply wp_bind, wp_call_map.
  - intros x c' Ha. pose proof (after_still _ _ _ Ha (λ _, eq_refl) (λ _, eq_refl)) as Hk.
    apply wp_bind, wp_lift; [apply parse_pcm_config_defined| |].
    + intros p Hp. apply wp_ret, HQ; [done|]. apply parse_pcm_config_Ok in Hp. naive_solver.
    + intros e _. apply HE. destruct Ha as [-> _]. by eexists _, _, _.
  - intros e c' [Hl _]. apply HE. rewrite Hl. by eexists _, _, _.
Qed.

Lemma wp_proxy f c Q (E : error → client → Prop) :
  (∀ c', after c [CProxy true] c' → Q tt c') → (∀ e c', after c [CProxy false] c' → E e c') →
  wp (proxy f) c Q E.
Proof.
  intros HQ HE. apply wp_context, wp_logged; try apply proxy_returns; [by intros []|].
  intros e c' Ha. by apply HE.
Qed.

Definition unicast_started (f : FlossLeAudio) (d : FlossLeDirections) (p : FlossLeDataPath) c : Prop :=
  running (cl_log c) = (host_to_peer d, peer_to_host d) ∧ all_confirmed d (cl_log c) ∧
  fp_owner p = f ∧ fp_directions p = d ∧ is_Some (fp_stream p) ∧ fp_stopped p = false ∧
  pcm_ready (host_to_peer d) (fp_host_pcm p) ∧ pcm_ready (peer_to_host d) (fp_peer_pcm p).

Lemma wp_start_software_unicast f group_id d c :
  running (cl_log c) = (false, false) →
  wp (start_software_unicast f group_id d) c
    (unicast_started f d)
    (λ _ c', running (cl_log c') = (false, false) ∨ ends_in_pcm_request (cl_log c')).
Proof.
  intros H0. unfold start_software_unicast.
  apply wp_bind, wp_lift; [unfold directions_validate, ensure; by case_match|intros _ _|by left].
  apply wp_bind, wp_ensure; [intros _|by left].
  apply wp_bind, wp_proxy; [|intros e c' Ha; left; by rewrite (after_running _ _ _ Ha), H0].
  intros c1 H1. assert (running (cl_log c1) = (false, false)) as R1
    by (rewrite (after_running _ _ _ H1), H0; done). clear H1.
  apply wp_bind, wp_call_unit; [|intros e c' Ha; left; by rewrite (after_running _ _ _ Ha), R1].
  intros c2 H2. assert (running (cl_log c2) = (false, false)) as R2
    by (rewrite (after_running _ _ _ H2), R1; done). clear H2.
  apply wp_bind, wp_require_if; [done| |intros e c' [Hk _]; left; congruence].
  intros c3 [R3 _]. rewrite R2 in R3.
  apply wp_bind, wp_require_if; [done| |intros e c' [Hk _]; left; congruence].
  intros c4 [R4 _]. rewrite R3 in R4.
  apply wp_bind. eapply wp_mono; [by apply (wp_start_block d c4 (λ _ _, False))| |done].
  intros [r [h p]] c5 (Hdef & R5 & Hok). cbn [fst snd] in *.
  assert (∀ e c6, running (cl_log c6) = (h, p) →
    wp (stop_directions h p !; lift (Err e)) c6 (unicast_started f d)
      (λ _ c', running (cl_log c') = (false, false) ∨ ends_in_pcm_request (cl_log c'))) as Hroll.
  { intros e c6 R6. apply wp_bind, wp_stop_directions. intros c7 R7. left. rewrite R7, R6. cbn.
    by rewrite !andb_negb_r. }
  destruct r as [[]|e|w|w]; try done; [|by apply Hroll].
  destruct (Hok eq_refl) as [Hflags Hcf]. simplify_eq.
  apply wp_bind, wp_get_pcm; [|by right]. intros host_pcm c6 S6 Hhost.
  apply wp_bind, wp_get_pcm; [|by right]. intros peer_pcm c7 S7 Hpeer.
  pose proof (still_trans _ _ _ S6 S7) as S57.
  apply wp_bind, wp_try. eapply wp_mono; [by apply wp_connect|..]; cbn.
  - intros stream c8 S8. destruct (still_trans _ _ _ S57 S8) as [ [R8 _] C8]. apply wp_ret.
    rewrite R5 in R8. unfold unicast_started, all_confirmed. rewrite C8. cbn. by eauto 10.
  - intros e c8 S8. destruct (still_trans _ _ _ S57 S8) as [ [R8 _] _]. rewrite R5 in R8. by apply Hroll.
Qed.

(** C17. [start_software_unicast] always returns (the two waits with a deadline
    end).  Either it succeeds: the service granted a start request for exactly
    the requested directions and then confirmed every one of them (the latest
    answer to its status query is 1), the data stream is connected and the PCM
    configurations are valid.  Or it returns an error, and then every direction
    it had started has been asked to stop again, unless the error came from
    asking for or reading a PCM configuration. *)
Theorem start_software_unicast_outcome f group_id d c :
  running (cl_log c) = (false, false) →
  wp (start_software_unicast f group_id d) c
    (unicast_started f d)
    (λ _ c', running (cl_log c') = (false, false) ∨ ends_in_pcm_request (cl_log c')).
Proof. apply wp_start_software_unicast. Qed.

Lemma wp_stop p c :
  let cleared := (fst (running (cl_log c)) && negb (host_to_peer (fp_directions p)),
                  snd (running (cl_log c)) && negb (peer_to_host (fp_directions p))) in
  wp (stop p) c
    (λ _ c', running (cl_log c') = cleared)
    (λ _ c', running (cl_log c') = cleared ∨
       (CProxy false ∈ cl_log c' ∧ running (cl_log c') = running (cl_log c) ∧
        (fp_stopped p = false → last (cl_log c') = Some CDropWarning))).
Proof.
  intros cleared. unfold stop. apply wp_bind, wp_try, wp_proxy.
  2:{ intros e c1 Ha. destruct Ha as [Hl Ht] eqn:Hq. unfold drop_data_path.
      assert (running (cl_log c1) = running (cl_log c)) as R1
        by (rewrite (after_running _ _ _ Ha); done).
      apply wp_bind. destruct (fp_stopped p) eqn:Hst;
        [apply wp_ret|apply wp_modify]; apply wp_lift; try done; intros e' _; right; cbn.
      - rewrite Hl at 1. split; [set_solver|]. done.
      - rewrite running_snoc, last_snoc. split; [rewrite Hl; set_solver|]. done. }
  intros c1 Ha. assert (running (cl_log c1) = running (cl_log c)) as R1
    by (rewrite (after_running _ _ _ Ha); done). clear Ha.
  assert (∀ (w : bool) m c2 (Q : option error → client → Prop) (E : error → client → Prop),
    (∀ o c3, running (cl_log c3) =
       (if w then after_call (CUnit m true) (running (cl_log c2)) else running (cl_log c2)) →
       Q o c3) → wp (try_stop w m) c2 Q E) as Htry.
  { intros w m c2 Q E HQ. unfold try_stop. destruct w; [|by apply wp_ret, HQ].
    apply wp_bind, wp_try, wp_call_unit; [intros c3 H3|intros e c3 H3]; apply wp_ret, HQ;
      rewrite (after_running _ _ _ H3); by destruct m. }
  apply wp_bind, Htry. intros o1 c2 R2. apply wp_bind, Htry. intros o2 c3 R3.
  assert (running (cl_log c3) = cleared) as R.
  { rewrite R3, R2, R1. unfold cleared. destruct (running (cl_log c)) as [a b]. cbn.
    destruct (peer_to_host _), (host_to_peer _); cbn; by rewrite ?andb_true_r, ?andb_false_r. }
  apply wp_bind, wp_ret.
  destruct o1, o2; first [apply wp_lift; [done|done|by left]|by apply wp_ret].
Qed.

(** C18. [stop] asks for the stop of both directions even when one call fails:
    once the proxy exists, no direction of the path is left running, and an
    error is only reported after that.  Without a proxy it stops nothing, and
    the path is dropped with a warning unless it was stopped before. *)
Theorem stop_stops_all_directions p c :
  let cleared := (fst (running (cl_log c)) && negb (host_to_peer (fp_directions p)),
                  snd (running (cl_log c)) && negb (peer_to_host (fp_directions p))) in
  wp (stop p) c
    (λ _ c', running (cl_log c') = cleared)
    (λ _ c', running (cl_log c') = cleared ∨
       (CProxy false ∈ cl_log c' ∧ running (cl_log c') = running (cl_log c) ∧
        (fp_stopped p = false → last (cl_log c') = Some CDropWarning))).
Proof. apply wp_stop. Qed.
End client_proofs.

(** C34. [parse_pcm_config] never panics on any property map; what it returns has
    in-range fields taken from the four properties, passes validation and has a
    whole number of frames per interval. *)
Theorem parse_pcm_config_sound {V} `{!Variant V} `{!VariantLaws V} (m : gmap string V) :
  match parse_pcm_config m with
  | Ok c =>
      pcm_validate c = Ok tt ∧ pcm_typed c = true ∧ is_ok (bytes_per_interval c) = true ∧
      (∃ v, m !! "data_interval_us" = Some v ∧ try_u32 v = Ok (pcm_data_interval_us c)) ∧
      (∃ v, m !! "sample_rate" = Some v ∧ try_u32 v = Ok (pcm_sample_rate_hz c)) ∧
      (∃ v, m !! "bits_per_sample" = Some v ∧ try_u8 v = Ok (pcm_bits_per_sample c)) ∧
      (∃ v, m !! "channels_count" = Some v ∧ try_u8 v = Ok (pcm_channels c))
  | Err _ => True
  | Panic _ | Undef _ => False
  end.
Proof.
  pose proof (parse_pcm_config_defined m) as Hd.
  destruct (parse_pcm_config m) eqn:H; try done. by apply parse_pcm_config_Ok.
Qed.

(** ** A service to run the client on *)

Inductive zvalue := VU8 (x : Z) | VU32 (x : Z) | VString (s : string).

#[global] Instance zvalue_variant : Variant zvalue := {|
  try_u32 v := match v with
               | VU32 x => if is_u32 x then Ok x else Err ["incorrect type"]
               | _ => Err ["incorrect type"] end;
  try_u8 v := match v with
              | VU8 x => if is_u8 x then Ok x else Err ["incorrect type"]
              | _ => Err ["incorrect type"] end;
|}.

#[global] Instance zvalue_laws : VariantLaws zvalue.
Proof. split; intros []; cbn; split; intros; repeat case_match; by simplify_eq. Qed.

(** [sw_pcm] is the property map it answers with, if any; [sw_socket] whether the
    data socket accepts. *)
Record sim_floss := { sw_time : Z; sw_pcm : option (gmap string zvalue); sw_socket : bool }.

Definition tick (w : sim_floss) : sim_floss :=
  {| sw_time := sw_time w + 1_000_000; sw_pcm := sw_pcm w; sw_socket := sw_socket w |}.

#[global] Instance sim_floss_ops : Floss (V := zvalue) sim_floss := {|
  bus_proxy _ w := (Ok tt, tick w);
  bus_unit _ w := (Ok tt, tick w);
  bus_bool _ w := (Ok true, tick w);
  bus_int _ w := (Ok 1, tick w);
  bus_map _ w := (ok_or (sw_pcm w) "org.freedesktop.DBus.Error.Failed", tick w);
  unix_connect _ w :=
    (if sw_socket w then Ok 7 else Err ["Connection refused"], tick w);
  now := sw_time;
  sleep d w := {| sw_time := sw_time w + d; sw_pcm := sw_pcm w; sw_socket := sw_socket w |};
|}.

#[global] Instance sim_floss_laws : FlossLaws zvalue sim_floss.
Proof.
  split; intros; cbn; try (split; [done|lia]); try lia;
    split; try lia; [by destruct (sw_pcm w)|by destruct (sw_socket w)].
Qed.

Definition upstream_properties : gmap string zvalue :=
  {["data_interval_us" := VU32 10_000; "sample_rate" := VU32 48_000;
    "bits_per_sample" := VU8 16; "channels_count" := VU8 2]}.

Definition sim_client (pcm : option (gmap string zvalue)) (socket : bool) : client :=
  {| cl_world := {| sw_time := 0; sw_pcm := pcm; sw_socket := socket |}; cl_log := [] |}.

Lemma parse_pcm_config_sound_witness :
  ∃ c, parse_pcm_config upstream_properties = Ok c ∧ pcm_validate c = Ok tt ∧
       bytes_per_interval c = Ok 1_920.
Proof.
  pose proof (parse_pcm_config_sound upstream_properties) as H.
  destruct (parse_pcm_config upstream_properties) as [c|?|?|?] eqn:Hp;
    [|vm_compute in Hp; discriminate..].
  exists c. split; [reflexivity|]. split; [exact (proj1 H)|].
  vm_compute in Hp. injection Hp as <-. vm_compute. reflexivity.
Defined.

(** The run where everything works, and the run where the data socket never
    accepts: both directions are stopped after five seconds. *)
Lemma start_software_unicast_outcome_witness :
  is_ok (fst (start_software_unicast (with_connection 0) 1 FULL_DUPLEX
                (sim_client (Some upstream_properties) true))) = true ∧
  running (cl_log (snd (start_software_unicast (with_connection 0) 1 FULL_DUPLEX
                (sim_client (Some upstream_properties) true)))) = (true, true) ∧
  running (cl_log (snd (start_software_unicast (with_connection 0) 1 FULL_DUPLEX
                (sim_client (Some upstream_properties) false)))) = (false, false).
Proof.
  split; [vm_compute; reflexivity|].
  assert (wp (start_software_unicast (with_connection 0) 1 FULL_DUPLEX)
    (sim_client (Some upstream_properties) true)
    (unicast_started (with_connection 0) FULL_DUPLEX)
    (λ _ c', running (cl_log c') = (false, false) ∨ ends_in_pcm_request (cl_log c'))) as Hw
    by (apply (start_software_unicast_outcome (with_connection 0) 1 FULL_DUPLEX); reflexivity).
  split; [|vm_compute; reflexivity].
  assert (is_ok (fst (start_software_unicast (with_connection 0) 1 FULL_DUPLEX
    (sim_client (Some upstream_properties) true))) = true) as Hok by (vm_compute; reflexivity).
  unfold wp in Hw.
  destruct (start_software_unicast (with_connection 0) 1 FULL_DUPLEX
    (sim_client (Some upstream_properties) true)) as [[p|?|?|?] c']; try discriminate Hok.
  exact (proj1 Hw).
Defined.

Lemma stop_stops_all_directions_witness :
  let p := {| fp_owner := with_connection 0; fp_stream := None; fp_directions := FULL_DUPLEX;
              fp_host_pcm := None; fp_peer_pcm := None; fp_stopped := false |} in
  let c := {| cl_world := cl_world (sim_client None true);
              cl_log := [CBool HostStartAudioRequest (Some true);
                         CBool PeerStartAudioRequest (Some true)] |} in
  running (cl_log (snd (stop p c))) = (false, false).
Proof.
  intros p c. pose proof (stop_stops_all_directions p c) as H. unfold wp in H.
  assert (is_ok (fst (stop p c)) = true) as Hok by (vm_compute; reflexivity).
  destruct (stop p c) as [[[]|?|?|?] c']; try discriminate Hok. cbn [snd]. rewrite H.
  vm_compute. reflexivity.
Defined.

(** The documentation of [start_software_unicast] promises that a partial
    failure rolls back every started direction.  An error from
    [GetHostPcmConfig] does not: the host direction stays started and no stop is
    ever requested. *)
Theorem pcm_failure_leaves_direction_started :
  let '(r, c) := start_software_unicast (with_connection 0) 1 OUTPUT (sim_client None true) in
  is_err r = true ∧ running (cl_log c) = (true, false) ∧
  Forall (λ x, match x with CUnit HostStopAudioRequest _ => False | _ => True end) (cl_log c).
Proof.
  destruct (start_software_unicast (with_connection 0) 1 OUTPUT (sim_client None true))
    as [r c] eqn:H.
  vm_compute in H. injection H as <- <-. repeat constructor.
Qed.
