(* ===== verification/Pipewire.v ===== *)
(** * The PipeWire adapter ([src/wireless/pipewire.rs])

    The two real-time callbacks that move PCM between a PipeWire buffer and the
    shared-memory ring, the format and stride computations, and the set-up
    sequence of a node.  PipeWire itself is a parameter. *)

From S2P Require Import Prelude Types Bytes Ring RingSpec.

(** ** PipeWire buffers

    [dequeue_buffer] may give no buffer; a buffer has data blocks; a block may
    have no mapped memory. *)
Record pw_data := {
  pd_bytes : option memory;
  pd_offset : Z;
  pd_stride : Z;
  pd_size : Z;
}.

Abbreviation pw_buffer := (list pw_data).

(** [x as i32] *)
Definition as_i32 (x : Z) : Z := let y := x mod 2 ^ 32 in if y <? 2 ^ 31 then y else y - 2 ^ 32.

Definition bytes_per_frame (pcm : PcmConfiguration) : result Z :=
  let sample_bytes := pcm_bits_per_sample pcm / 8 in
  let? stride := ok_or (checked_mul 64 sample_bytes (pcm_channels pcm))
                   "PipeWire PCM stride overflow" in
  ensure (0 <? stride) "PipeWire PCM stride is zero" ?;
  Ok stride.

(** [clock_gettime(CLOCK_MONOTONIC)]: [None] when the call fails. *)
Definition monotonic_time_ns (time : option (Z * Z)) : result Z :=
  match time with
  | None => Ok 0
  | Some (tv_sec, tv_nsec) =>
      let? ns := mul_u 64 (as_unsigned 64 tv_sec) 1_000_000_000 in
      add_u 64 ns (as_unsigned 64 tv_nsec)
  end.

Section callbacks.
Context {E : Type} `{EventFd E}.

(** The frame has the format the node was created with. *)
Definition format_matches (d : FrameDescriptor) (pcm : PcmConfiguration) : bool :=
  negb (negb (fd_payload_kind d =? payload_kind_u8 Pcm_kind)
        || negb (fd_sample_rate_hz d =? pcm_sample_rate_hz pcm)
        || negb (fd_channels d =? pcm_channels pcm)
        || negb (fd_bits_per_sample d =? pcm_bits_per_sample pcm)).

(** The [match] of the source callback: the bytes written to the destination
    and their number.  An acquired frame is dropped in every case. *)
Definition source_copy (pcm : PcmConfiguration) (destination : option memory)
    : M (Shared E) (option memory * Z) :=
  let! acquired := mtry try_acquire in
  match acquired with
  | Ok (Some frame) =>
      let! out :=
        (match destination with
         | Some dest =>
             if format_matches (fl_descriptor frame) pcm then
               let! payload := lease_payload frame in
               let bytes := Nat.min (length dest) (length payload) in
               mret (Some (list_inserts 0 (take bytes payload) dest), Z.of_nat bytes)
             else mret (Some dest, 0)
         | None => mret (None, 0)
         end) in
      drop_lease frame !;
      mret out
  | _ => mret (destination, 0)
  end.

(** The [process] callback of [run_source]; the result is the buffer it gives
    back to PipeWire. *)
Definition source_process (pcm : PcmConfiguration) (stride : Z) (buffer : option pw_buffer)
    : M (Shared E) (option pw_buffer) :=
  match buffer with
  | Some (data :: datas) =>
      let! out := source_copy pcm (pd_bytes data) in
      mret (Some ({| pd_bytes := fst out; pd_offset := 0; pd_stride := as_i32 stride;
                     pd_size := as_unsigned 32 (snd out) |} :: datas))
  | _ => mret buffer
  end.

(** The descriptor the sink callback stamps. *)
Definition sink_descriptor (pcm : PcmConfiguration) (sequence capture_time_ns : Z)
    : FrameDescriptor :=
  let d := frame_descriptor_new Pcm_kind sequence in
  {| fd_abi_version := fd_abi_version d; fd_header_bytes := fd_header_bytes d;
     fd_payload_kind := fd_payload_kind d; fd_iso_status := fd_iso_status d;
     fd_flags := fd_flags d; fd_payload_bytes := fd_payload_bytes d;
     fd_sequence := fd_sequence d; fd_stream_handle := fd_stream_handle d;
     fd_sample_rate_hz := pcm_sample_rate_hz pcm; fd_channels := pcm_channels pcm;
     fd_bits_per_sample := pcm_bits_per_sample pcm; fd_capture_time_ns := capture_time_ns;
     fd_presentation_time_ns := fd_presentation_time_ns d; fd_deadline_ns := fd_deadline_ns d |}.

(** [offset.checked_add(size).filter(|end| *end <= source.len())] *)
Definition chunk_end (offset size len : Z) : option Z :=
  match checked_add 64 offset size with
  | Some e => if e <=? len then Some e else None
  | None => None
  end.

(** [&source[start..end]] *)
Definition slice_range (source : memory) (start end_ : Z) : result memory :=
  if end_ <? start then Panic "slice index starts after its end"
  else if Z.of_nat (length source) <? end_ then Panic "range end index out of range for slice"
  else Ok (slice (Z.to_nat start) (Z.to_nat (end_ - start)) source).

(** The [process] callback of [run_sink]: the new value of [state.sequence]. *)
Definition sink_process (pcm : PcmConfiguration) (sequence : Z) (time : option (Z * Z))
    (buffer : option pw_buffer) : M (Shared E) Z :=
  match buffer with
  | Some (data :: _) =>
      let offset := pd_offset data in
      let size := pd_size data in
      match pd_bytes data with
      | None => mret sequence
      | Some source =>
          match chunk_end offset size (Z.of_nat (length source)) with
          | None => mret sequence
          | Some end_ =>
              let! reserved := try_reserve in
              match reserved with
              | None => mret sequence
              | Some reservation =>
                  let! capacity := lease_capacity in
                  if capacity <? size then mret sequence
                  else
                    let! chunk := lift (slice_range source offset end_) in
                    lift (if Z.of_nat (length chunk) =? size then Ok tt
                          else Panic "copy_from_slice: source slice length does not match") !;
                    lease_write reservation chunk !;
                    let! capture := lift (monotonic_time_ns time) in
                    let! committed :=
                      mtry (commit reservation (sink_descriptor pcm sequence capture) size) in
                    mret (if is_ok committed then wrapping_add 64 sequence 1 else sequence)
              end
          end
      end
  | _ => mret sequence
  end.
End callbacks.

(** ** Node set-up *)

Inductive AudioFormat := S16LE | S24LE | S32LE.

(** The format part of [format_pod]; the serialisation is the SPA library's. *)
Definition pod_format (bits_per_sample : Z) : result AudioFormat :=
  if bits_per_sample =? 16 then Ok S16LE
  else if bits_per_sample =? 24 then Ok S24LE
  else if bits_per_sample =? 32 then Ok S32LE
  else Panic "internal error: entered unreachable code: validated by PcmConfiguration".

Inductive direction := Input | Output.

(** The calls into PipeWire, in the order they are made. *)
Inductive pw_call :=
| MainLoopNew
| ContextNew
| ContextConnect
| StreamNew (node_name media_class : string)
| Register
| SerializePod (format : AudioFormat) (rate channels : Z)
| PodFromBytes
| StreamConnect (d : direction) (rt_process : bool)
| MainLoopRun.

Class PipeWire (P : Type) := { pw : pw_call → P → result unit * P }.

Section nodes.
Context {P : Type} `{!PipeWire P}.

Definition format_pod (pcm : PcmConfiguration) : M P unit :=
  let! format := lift (pod_format (pcm_bits_per_sample pcm)) in
  mcontext (pw (SerializePod format (pcm_sample_rate_hz pcm) (pcm_channels pcm)))
    "serialize PipeWire PCM format".

(** What the three entry points share after the listener is registered. *)
Definition connect_and_run (pcm : PcmConfiguration) (d : direction) (rt_process : bool) : M P unit :=
  format_pod pcm !;
  mcontext (pw PodFromBytes) "decode PipeWire format pod" !;
  pw (StreamConnect d rt_process) !;
  pw MainLoopRun.

Definition run_source (node_name : string) (pcm : PcmConfiguration) : M P unit :=
  lift (pcm_validate pcm) !;
  pw MainLoopNew !; pw ContextNew !; pw ContextConnect !;
  let! stride := lift (bytes_per_frame pcm) in
  pw (StreamNew node_name "Audio/Source") !;
  pw Register !;
  connect_and_run pcm Output true.

Definition run_sink (node_name : string) (pcm : PcmConfiguration) : M P unit :=
  lift (pcm_validate pcm) !;
  pw MainLoopNew !; pw ContextNew !; pw ContextConnect !;
  pw (StreamNew node_name "Audio/Sink") !;
  pw Register !;
  connect_and_run pcm Input true.

Definition probe_server (pcm : PcmConfiguration) : M P unit :=
  lift (pcm_validate pcm) !;
  pw MainLoopNew !; pw ContextNew !; pw ContextConnect !;
  pw (StreamNew "dorsche-pipewire-probe" "Audio/Source") !;
  pw Register !;
  connect_and_run pcm Output false.
End nodes.

(** * Theorems *)

Lemma bytes_per_frame_Ok pcm :
  pcm_validate pcm = Ok tt →
  bytes_per_frame pcm = Ok (pcm_bits_per_sample pcm / 8 * pcm_channels pcm) ∧
  2 <= pcm_bits_per_sample pcm / 8 * pcm_channels pcm <= 32 ∧
  is_ok (pod_format (pcm_bits_per_sample pcm)) = true.
Proof.
  intros (_ & Hb & Hc & _)%pcm_validate_Ok. rewrite !elem_of_cons, elem_of_nil in Hb.
  assert (2 <= pcm_bits_per_sample pcm / 8 <= 4 ∧
          is_ok (pod_format (pcm_bits_per_sample pcm)) = true) as [Hs Hf].
  { destruct Hb as [-> | [-> | [-> | [] ] ] ]; done. }
  unfold bytes_per_frame, checked_mul.
  set (s := pcm_bits_per_sample pcm / 8) in *. clearbody s.
  assert (2 <= s * pcm_channels pcm <= 32) by nia.
  split; [|done].
  rewrite (proj2 (in_width_spec _ _)) by lia. cbn. by rewrite (proj2 (Z.ltb_lt _ _)) by lia.
Qed.

Lemma format_matches_spec d pcm :
  format_matches d pcm = true ↔
  fd_payload_kind d = payload_kind_u8 Pcm_kind ∧ fd_sample_rate_hz d = pcm_sample_rate_hz pcm ∧
  fd_channels d = pcm_channels pcm ∧ fd_bits_per_sample d = pcm_bits_per_sample pcm.
Proof.
  unfold format_matches. rewrite !negb_orb, !negb_involutive, !andb_true_iff, !Z.eqb_eq. tauto.
Qed.

(** The guard of the sink callback accepts exactly the chunks inside of the
    mapped memory; its addition cannot overflow on [u32] values. *)
Lemma chunk_end_spec offset size len :
  is_u32 offset = true → is_u32 size = true →
  chunk_end offset size len = if offset + size <=? len then Some (offset + size) else None.
Proof.
  intros. b2p. unfold chunk_end, checked_add. by rewrite (proj2 (in_width_spec _ _)) by lia.
Qed.

Lemma slice_range_Ok source offset size :
  0 <= offset → 0 <= size → offset + size <= Z.of_nat (length source) →
  slice_range source offset (offset + size) = Ok (take (Z.to_nat size) (drop (Z.to_nat offset) source)) ∧
  Z.of_nat (length (take (Z.to_nat size) (drop (Z.to_nat offset) source))) = size.
Proof.
  intros. unfold slice_range. rewrite !(proj2 (Z.ltb_ge _ _)) by lia.
  replace (offset + size - offset) with size by lia. split; [done|].
  rewrite length_take, length_drop. lia.
Qed.

(** The clock reading is a [u64], or the multiplication by 10^9 overflows. *)
Lemma monotonic_time_ns_cases time :
  match monotonic_time_ns time with
  | Ok t => is_u64 t = true
  | Panic _ => True
  | _ => False
  end.
Proof.
  destruct time as [ [sec nsec]|]; cbn; [|done]. unfold mul_u, add_u.
  destruct (in_width 64 _); cbn; [|done]. by destruct (in_width 64 _) eqn:?.
Qed.

Section callback_proofs.
Context {E : Type} `{EventFd E} (n stride cap : Z).
Implicit Types (s : Shared E).

Abbreviation rep := (ring_rep n stride cap).

(** What the source callback gives PipeWire for the frame [f]: the payload cut
    to the length of the destination when the format is the node's, else nothing. *)
Definition delivered (pcm : PcmConfiguration) (f : frame) (dest : option memory) : option memory * Z :=
  match dest with
  | Some dest =>
      if format_matches (fst f) pcm then
        let m := Nat.min (length dest) (length (snd f)) in
        (Some (take m (snd f) ++ drop m dest), Z.of_nat m)
      else (Some dest, 0)
  | None => (None, 0)
  end.

Lemma source_copy_front s T K f q pcm dest :
  rep (sh_mem s) T K (f :: q) → wrap_ok n K →
  ∃ mem', rep mem' (T + 1) K q ∧ source_copy pcm dest s = (Ok (delivered pcm f dest), set_mem mem' s).
Proof.
  intros R Hw. unfold source_copy, delivered.
  pose proof (try_acquire_front n stride cap s T K f q R Hw) as Ha.
  pose proof (lease_payload_front n stride cap s T K f q R) as Hp.
  destruct (drop_lease_front n stride cap s T K f q (fst f)
    (ring_header_size + T mod n * stride + 64) R) as (mem' & Hdl & R' & _).
  exists mem'. split; [done|]. unfold mbind, mtry. rewrite Ha. cbn [fl_descriptor].
  destruct dest as [dest|]; [|unfold mret; by rewrite Hdl].
  destruct (format_matches (fst f) pcm); [|unfold mret; by rewrite Hdl].
  rewrite Hp. unfold mret. rewrite Hdl. set (m := Nat.min _ _). do 4 f_equal.
  assert (length (take m (snd f)) = m) as Hm by (rewrite length_take; lia).
  rewrite inserts_prefix, Hm by (rewrite Hm; lia). done.
Qed.

(** C26. The source callback, case by case, on a ring that holds the frames [q].
    Without a buffer or a data block it returns and takes nothing.  Otherwise it
    fills in offset, stride and size of the first block: on an empty ring it
    delivers nothing and leaves the memory as it is; else the oldest frame leaves
    the ring in every case, and its payload, cut to the length of the block, is
    delivered if the block is mapped and the frame has the node's format; a frame
    of another format or one for an unmapped block is discarded with size 0.  A
    payload longer than the block loses its tail.  It never panics. *)
Theorem source_delivers_oldest_frame s T K q pcm st buffer :
  rep (sh_mem s) T K q → wrap_ok n K →
  let given dest := λ out : option memory * Z,
    {| pd_bytes := fst out; pd_offset := 0; pd_stride := as_i32 st; pd_size := snd out |} :: dest in
  match buffer, q with
  | Some (data :: datas), f :: q' =>
      ∃ mem', rep mem' (T + 1) K q' ∧
        source_process pcm st buffer s =
        (Ok (Some (given datas (delivered pcm f (pd_bytes data)))), set_mem mem' s)
  | Some (data :: datas), [] =>
      source_process pcm st buffer s = (Ok (Some (given datas (pd_bytes data, 0))), s)
  | _, _ => source_process pcm st buffer s = (Ok buffer, s)
  end.
Proof.
  intros R Hw given. destruct buffer as [ [|data datas]|]; [done| |done].
  unfold source_process, given. destruct q as [|f q].
  - unfold source_copy, mbind, mtry. rewrite (try_acquire_empty n stride cap s T K R). done.
  - destruct (source_copy_front s T K f q pcm (pd_bytes data) R Hw) as (mem' & R' & Hc).
    exists mem'. split; [done|]. rewrite (mbind_step _ _ _ _ _ Hc).
    assert (0 <= snd (delivered pcm f (pd_bytes data)) < 2 ^ 32) as Hl32.
    { destruct R as [[_ Hcb _ _] _ _ _ _ _ _ _ Hfr].
      destruct (Hfr 0%nat f eq_refl) as (_ & _ & _ & _ & _ & Hle).
      unfold delivered. destruct (pd_bytes data); cbn; [|lia]. case_match; cbn; lia. }
    unfold as_unsigned. by rewrite Z.mod_small by done.
Qed.

(** What a call of the sink callback finds in its buffer: the [size] bytes at
    [offset] of the first block, if that range lies in its mapped memory. *)
Definition sink_chunk (buffer : option pw_buffer) : option memory :=
  match buffer with
  | Some ({| pd_bytes := Some source; pd_offset := offset; pd_size := size |} :: _) =>
      if offset + size <=? Z.of_nat (length source)
      then Some (take (Z.to_nat size) (drop (Z.to_nat offset) source)) else None
  | _ => None
  end.

(** Offset and size of the chunk are [u32]. *)
Definition buffer_typed (buffer : option pw_buffer) : bool :=
  match buffer with
  | Some (data :: _) => is_u32 (pd_offset data) && is_u32 (pd_size data)
  | _ => true
  end.

Definition sink_frame (pcm : PcmConfiguration) (sequence t : Z) (chunk : memory) : frame :=
  (stamp_descriptor (sink_descriptor pcm sequence t) (Z.of_nat (length chunk)), chunk).

Lemma sink_descriptor_typed pcm sequence t :
  pcm_typed pcm = true → is_u64 sequence = true → is_u64 t = true →
  descriptor_typed (sink_descriptor pcm sequence t) = true.
Proof.
  unfold pcm_typed, descriptor_typed, sink_descriptor. intros. b2p. cbn.
  rewrite !andb_true_iff. repeat split; try done; apply in_width_spec; lia.
Qed.

(** The callback on a buffer with a chunk, up to the reservation. *)
Lemma sink_process_chunk pcm sequence time buffer chunk s :
  buffer_typed buffer = true → sink_chunk buffer = Some chunk →
  sink_process pcm sequence time buffer s =
  (let! reserved := try_reserve in
   match reserved with
   | None => mret sequence
   | Some reservation =>
       let! capacity := lease_capacity in
       if capacity <? Z.of_nat (length chunk) then mret sequence
       else
         lease_write reservation chunk !;
         let! capture := lift (monotonic_time_ns time) in
         let! committed :=
           mtry (commit reservation (sink_descriptor pcm sequence capture) (Z.of_nat (length chunk))) in
         mret (if is_ok committed then wrapping_add 64 sequence 1 else sequence)
   end) s.
Proof.
  destruct buffer as [ [|[ [source|] offset st size] datas]|]; try done.
  cbn [sink_chunk buffer_typed pd_offset pd_size]. intros Hty Hch.
  apply andb_true_iff in Hty as [Ho Hs].
  destruct (offset + size <=? Z.of_nat (length source)) eqn:He; [|done]. simplify_eq.
  unfold sink_process. cbn [pd_bytes pd_offset pd_size]. rewrite chunk_end_spec, He by done. b2p.
  destruct (slice_range_Ok source offset size) as [Hsl Hlen]; [lia..|]. rewrite Hsl, Hlen.
  unfold mbind. destruct (try_reserve s) as [ [ [l|]|?|?|?] s1]; try done.
  destruct (lease_capacity s1) as [ [c|?|?|?] s2]; try done. destruct (c <? size); [done|].
  unfold lift. by rewrite Hlen, Z.eqb_refl.
Qed.

Lemma sink_process_none pcm sequence time buffer s :
  buffer_typed buffer = true → sink_chunk buffer = None →
  sink_process pcm sequence time buffer s = (Ok sequence, s).
Proof.
  destruct buffer as [ [|[ [source|] offset st size] datas]|]; try done.
  cbn [sink_chunk buffer_typed pd_offset pd_size]. intros Hty Hch.
  apply andb_true_iff in Hty as [Ho Hs]. unfold sink_process. cbn [pd_bytes pd_offset pd_size].
  rewrite chunk_end_spec by done. by destruct (offset + size <=? _).
Qed.

(** Turning a chunk into a frame of a ring with room. *)
Lemma sink_process_commit s T K q pcm sequence time t buffer chunk :
  rep (sh_mem s) T K q → wrap_ok n K → K - T < n →
  pcm_typed pcm = true → is_u64 sequence = true → monotonic_time_ns time = Ok t →
  buffer_typed buffer = true → sink_chunk buffer = Some chunk → Z.of_nat (length chunk) <= cap →
  ∃ s', sink_process pcm sequence time buffer s =
      (Ok (if is_ok (fst (signal_eventfd s)) then wrapping_add 64 sequence 1 else sequence), s') ∧
    rep (sh_mem s') T (K + 1) (q ++ [sink_frame pcm sequence t chunk]).
Proof.
  intros R Hw Hfree Hp Hs Ht Hty Hch Hcap. rewrite (sink_process_chunk _ _ _ _ _ _ Hty Hch).
  pose proof (monotonic_time_ns_cases time) as Htt. rewrite Ht in Htt.
  pose proof (sink_descriptor_typed pcm sequence t Hp Hs Htt) as Hdt.
  rewrite (mbind_step _ _ _ _ _ (try_reserve_free n stride cap s T K q R Hfree Hw)).
  rewrite (mbind_step _ _ _ _ _ (rep_capacity n stride cap s T K q R)).
  rewrite (proj2 (Z.ltb_ge _ _)) by lia.
  destruct (lease_write_spec n stride cap s T K q chunk false R Hfree Hcap) as [Hwr R1].
  rewrite (mbind_step _ _ _ _ _ Hwr), Ht.
  set (s1 := set_mem _ s) in *. rewrite (mbind_step _ _ s1 t s1) by done.
  destruct (commit_spec n stride cap s1 T K q (sink_descriptor pcm sequence t) chunk R1 Hfree Hw)
    as (mem' & R2 & _ & Hcm); [done|done| |].
  { apply slice_inserts_same. cbn. pose proof R as [[Hn Hc Hst _] _ _ _ _ Ho _ _ _].
    pose proof (slot_fits n stride cap _ _ _ _ (K mod n) R (Z.mod_pos_bound K n ltac:(lia))). lia. }
  unfold mbind, mtry. rewrite Hcm. unfold signal_eventfd. cbn [sh_mem sh_evt set_mem s1].
  destruct (ev_write 1 (sh_evt s)) as [r e]. destruct (r =? 8); [by eexists|].
  destruct (ev_errno e); by eexists.
Qed.

(** C25. The sink callback, case by case.  A buffer without a block, without
    mapped memory or with a chunk that is not inside of the mapped memory changes
    nothing.  On a full ring the chunk is lost and counted as a drop; a chunk
    longer than a slot is lost.  Every other chunk becomes the newest frame, with
    exactly its bytes, the node's format, the current sequence number and the
    clock reading, whether or not the consumer can be woken; the sequence number
    advances exactly when the wakeup succeeds.  The only panic is a clock reading
    that does not fit 64 bits of nanoseconds, and it publishes nothing. *)
Theorem sink_publishes_chunk s T K q pcm sequence time buffer :
  rep (sh_mem s) T K q → wrap_ok n K →
  pcm_typed pcm = true → is_u64 sequence = true → buffer_typed buffer = true →
  let '(r, s') := sink_process pcm sequence time buffer s in
  match sink_chunk buffer with
  | None => r = Ok sequence ∧ s' = s
  | Some chunk =>
      if K - T =? n then
        r = Ok sequence ∧ rep (sh_mem s') T K q ∧
        load 8 dropped_off (sh_mem s') = wrapping_add 64 (load 8 dropped_off (sh_mem s)) 1
      else if cap <? Z.of_nat (length chunk) then r = Ok sequence ∧ s' = s
      else
        match monotonic_time_ns time with
        | Ok t =>
            r = Ok (if is_ok (fst (signal_eventfd s)) then wrapping_add 64 sequence 1 else sequence) ∧
            rep (sh_mem s') T (K + 1) (q ++ [sink_frame pcm sequence t chunk])
        | o => r = o ∧ rep (sh_mem s') T K q
        end
  end.
Proof.
  intros R Hw Hp Hs Hty. pose proof R as [[Hnb Hcb Hst _] Hlen _ _ _ _ _ Hb _].
  destruct (sink_chunk buffer) as [chunk|] eqn:Hch; [|by rewrite sink_process_none].
  destruct (Z.eqb_spec (K - T) n) as [Hfull|Hfull].
  { rewrite (sink_process_chunk _ _ _ _ _ _ Hty Hch).
    rewrite (mbind_step _ _ _ _ _ (try_reserve_full n stride cap s T K q R Hfull)).
    split; [done|]. split; [by apply ring_rep_store_dropped|].
    cbn [sh_mem set_mem]. unfold dropped_off.
    rewrite load_store_same by (unfold ring_header_size in *; nia).
    change (8 * Z.of_nat 8) with 64. unfold wrapping_add. by rewrite Z.mod_mod by lia. }
  destruct (Z.ltb_spec cap (Z.of_nat (length chunk))) as [Hlong|Hlong].
  { rewrite (sink_process_chunk _ _ _ _ _ _ Hty Hch).
    rewrite (mbind_step _ _ _ _ _ (try_reserve_free n stride cap s T K q R ltac:(lia) Hw)).
    rewrite (mbind_step _ _ _ _ _ (rep_capacity n stride cap s T K q R)).
    by rewrite (proj2 (Z.ltb_lt _ _)) by lia. }
  destruct (monotonic_time_ns time) as [t|?|w|?] eqn:Ht;
    [|by pose proof (monotonic_time_ns_cases time) as Hc; rewrite Ht in Hc| |
     by pose proof (monotonic_time_ns_cases time) as Hc; rewrite Ht in Hc].
  - destruct (sink_process_commit s T K q pcm sequence time t buffer chunk) as (s' & Hr & R');
      try done; [lia|]. by rewrite Hr.
  - rewrite (sink_process_chunk _ _ _ _ _ _ Hty Hch), Ht.
    rewrite (mbind_step _ _ _ _ _ (try_reserve_free n stride cap s T K q R ltac:(lia) Hw)).
    rewrite (mbind_step _ _ _ _ _ (rep_capacity n stride cap s T K q R)).
    rewrite (proj2 (Z.ltb_ge _ _)) by lia.
    destruct (lease_write_spec n stride cap s T K q chunk false R ltac:(lia) Hlong) as [Hwr R1].
    by rewrite (mbind_step _ _ _ _ _ Hwr).
Qed.
End callback_proofs.

(** ** A concrete ring and buffers *)

Definition voice_pcm : PcmConfiguration :=
  {| pcm_sample_rate_hz := 16_000; pcm_bits_per_sample := 16; pcm_channels := 1;
     pcm_data_interval_us := 10_000 |}.

Definition voice_ring : Shared counter_eventfd :=
  {| sh_mem := match fresh_ring 2 16 with Ok mem => mem | _ => [] end; sh_evt := fresh_eventfd |}.

Definition voice_buffer : pw_data :=
  {| pd_bytes := Some [Byte.x00; Byte.x11; Byte.x22; Byte.x33]; pd_offset := 2; pd_stride := 2;
     pd_size := 2 |}.

Lemma voice_ring_rep : ring_rep 2 (stride_of 16) 16 (sh_mem voice_ring) 0 0 [].
Proof. apply (fresh_ring_rep 2 16); vm_compute; reflexivity. Qed.

(** The chunk ends exactly at the end of the mapped memory. *)
Lemma sink_publishes_chunk_witness :
  let '(r, s') := sink_process voice_pcm 7 (Some (1, 5)) (Some [voice_buffer]) voice_ring in
  r = Ok 8 ∧ ring_rep 2 (stride_of 16) 16 (sh_mem s') 0 (0 + 1)
               ([] ++ [sink_frame voice_pcm 7 1_000_000_005 [Byte.x22; Byte.x33] ]).
Proof.
  pose proof (sink_publishes_chunk 2 (stride_of 16) 16 voice_ring 0 0 [] voice_pcm 7 (Some (1, 5))
    (Some [voice_buffer]) voice_ring_rep (or_introl eq_refl) eq_refl eq_refl eq_refl) as Hp.
  assert (sink_chunk (Some [voice_buffer]) = Some [Byte.x22; Byte.x33]) as Hc by reflexivity.
  assert (monotonic_time_ns (Some (1, 5)) = Ok 1_000_000_005) as Ht by reflexivity.
  assert (is_ok (fst (signal_eventfd voice_ring)) = true) as Hev by (vm_compute; reflexivity).
  rewrite Hc, Ht, Hev in Hp. destruct (sink_process _ _ _ _ _) as [r s']. exact Hp.
Defined.

Lemma source_delivers_oldest_frame_witness :
  ∃ (s : Shared counter_eventfd) mem', ring_rep 2 (stride_of 16) 16 mem' (0 + 1) (0 + 1) [] ∧
    source_process voice_pcm 2 (Some [voice_buffer]) s =
    (Ok (Some [{| pd_bytes := Some [Byte.x22; Byte.x33; Byte.x22; Byte.x33]; pd_offset := 0;
                  pd_stride := 2; pd_size := 2 |} ]), set_mem mem' s).
Proof.
  destruct (sink_process_commit 2 (stride_of 16) 16 voice_ring 0 0 [] voice_pcm 7 (Some (1, 5))
    1_000_000_005 (Some [voice_buffer]) [Byte.x22; Byte.x33] voice_ring_rep (or_introl eq_refl)
    eq_refl eq_refl eq_refl eq_refl eq_refl eq_refl)
    as (s & _ & R); [discriminate|].
  exists s.
  destruct (source_delivers_oldest_frame 2 (stride_of 16) 16 s 0 (0 + 1)
    [sink_frame voice_pcm 7 1_000_000_005 [Byte.x22; Byte.x33] ] voice_pcm 2 (Some [voice_buffer])
    R (or_introl eq_refl)) as (mem' & R' & Hs).
  exists mem'. split; [exact R'|]. rewrite Hs. vm_compute. reflexivity.
Defined.

(** ** Node set-up *)

(** Creating a source, a sink or a probe never reaches the [unreachable!]
    arm of [format_pod] and never panics, whatever configuration it is given, as
    long as the PipeWire calls return; the stride of a valid format is between 2
    and 32 bytes, so the casts to [i32] are exact. *)
Theorem node_setup_never_panics {P} `{!PipeWire P} (name : string) (pcm : PcmConfiguration) (p : P) :
  (∀ call p, defined (fst (pw call p)) = true) →
  defined (fst (run_source name pcm p)) = true ∧ defined (fst (run_sink name pcm p)) = true ∧
  defined (fst (probe_server pcm p)) = true ∧
  (pcm_validate pcm = Ok tt → ∃ st, bytes_per_frame pcm = Ok st ∧ 2 <= st <= 32 ∧ as_i32 st = st).
Proof.
  intros Hpw.
  assert (∀ (A : Type) (c : M P A) p, wp c p (λ _ _, True) (λ _ _, True) ↔
    defined (fst (c p)) = true) as Hd.
  { intros A c p0. unfold wp. by destruct (c p0) as [[] ?]. }
  assert (∀ call p (Q : unit → P → Prop), (∀ p', Q tt p') → wp (pw call) p Q (λ _ _, True)) as Hw.
  { intros call p0 Q HQ. specialize (Hpw call p0). unfold wp.
    destruct (pw call p0) as [[[]|?|?|?] ?]; done. }
  assert (∀ d rt p, pcm_validate pcm = Ok tt →
    wp (connect_and_run pcm d rt) p (λ _ _, True) (λ _ _, True)) as Hrun.
  { intros d rt p0 Hv. destruct (bytes_per_frame_Ok pcm Hv) as (_ & _ & Hf).
    apply wp_bind, wp_bind, wp_lift; [by destruct (pod_format _)| |done].
    intros f _. apply wp_context, Hw. intros p1. apply wp_bind, wp_context, Hw. intros p2.
    apply wp_bind, Hw. intros p3. by apply Hw. }
  rewrite <- !Hd. split; [|split; [|split] ].
  - apply wp_bind, wp_lift; [apply pcm_validate_defined| |done]. intros [] Hv.
    destruct (bytes_per_frame_Ok pcm Hv) as (Hb & _ & _).
    do 3 (apply wp_bind, Hw; intros ?). rewrite Hb. apply wp_bind, wp_ret.
    do 2 (apply wp_bind, Hw; intros ?). by apply Hrun.
  - apply wp_bind, wp_lift; [apply pcm_validate_defined| |done]. intros [] Hv.
    do 5 (apply wp_bind, Hw; intros ?). by apply Hrun.
  - apply wp_bind, wp_lift; [apply pcm_validate_defined| |done]. intros [] Hv.
    do 5 (apply wp_bind, Hw; intros ?). by apply Hrun.
  - intros Hv. destruct (bytes_per_frame_Ok pcm Hv) as (Hb & Hr & _). eexists. split; [done|].
    split; [done|]. unfold as_i32. rewrite Z.mod_small by lia.
    by rewrite (proj2 (Z.ltb_lt _ _)) by lia.
Qed.

Lemma node_setup_never_panics_witness :
  let ops : PipeWire unit := {| pw _ p := (Ok tt, p) |} in
  defined (fst (run_source (PipeWire0 := ops) "dorsche.mic" voice_pcm tt)) = true.
Proof.
  intros ops. apply (node_setup_never_panics (PipeWire0 := ops) "dorsche.mic" voice_pcm tt).
  intros call p. reflexivity.
Defined.
