(* ===== verification/Pumps.v ===== *)
(** * The two pumps of the PipeWire bridge ([src/bin/dorsche_pipewire.rs])

    [pump_peer_to_ring] and [pump_ring_to_host] each own one end of the ring
    while the PipeWire thread works on the other end.  Both sides are programs
    over the atomic steps of [RingConcurrent]: the pump and the PipeWire callback
    may be preempted between any two of them, and inside of the awaits of
    [read_exact] and [write_all], which move their bytes in pieces straight into
    and out of the shared slot. *)

From S2P Require Import Prelude Types Bytes Ring RingSpec RingConcurrent Pipewire.

Module Pumps.

(** ** The peer pump *)

(** The [?]s of [pump_peer_to_ring]. *)
Inductive pump_stop := Overrun | ReadFailed (e : error) | CommitFailed (e : error).

Definition pump_error (r : pump_stop) : error :=
  match r with
  | Overrun => ["PipeWire source ring overrun"]
  | ReadFailed e => "read Floss LE Audio peer PCM" :: e
  | CommitFailed e => e
  end.

Inductive pump_pc :=
| Reserving (sequence : Z)            (* in try_reserve *)
| Reading (sequence got : Z)          (* in read_exact, with [got] bytes read *)
| Committing (sequence : Z)           (* commit: the descriptor is written *)
| Waking (sequence : Z)               (* commit: the head is stored *)
| Stopped (r : pump_stop)             (* returned an error *)
| Panicked (why : string).

(** [br_received] is what the socket has given; [br_played] what each callback
    gave PipeWire, with the length of its destination ([None]: not mapped);
    [br_copied] the same for the callback that holds a frame. *)
Record bridge := {
  br_ring : cstate;
  br_pump : pump_pc;
  br_received : memory;
  br_copied : option (option nat * memory);
  br_played : list (option nat * memory);
}.

Definition bridge_start (mem : memory) : bridge :=
  {| br_ring := start mem; br_pump := Reserving 0; br_received := []; br_copied := None; br_played := [] |}.

Definition pump_at (s : cstate) (pc : pump_pc) (i : bridge) : bridge :=
  {| br_ring := s; br_pump := pc; br_received := br_received i; br_copied := br_copied i;
     br_played := br_played i |}.

Definition receive (b : memory) (i : bridge) : bridge :=
  {| br_ring := br_ring i; br_pump := br_pump i; br_received := br_received i ++ b;
     br_copied := br_copied i; br_played := br_played i |}.

Definition reader_at (s : cstate) (copied : option (option nat * memory))
    (played : list (option nat * memory)) (i : bridge) : bridge :=
  {| br_ring := s; br_pump := br_pump i; br_received := br_received i; br_copied := copied;
     br_played := played |}.

Section source.
Context (pcm : PcmConfiguration) (bytes : Z).

(** The loop of [pump_peer_to_ring]. *)
Inductive pump_step : bridge → bridge → Prop :=
| pump_load_head i seq s' :
    br_pump i = Reserving seq → c_p (br_ring i) = PIdle → pstep (br_ring i) s' →
    pump_step i (pump_at s' (Reserving seq) i)
| pump_overrun i seq head s' :
    br_pump i = Reserving seq → c_p (br_ring i) = PGotHead head → pstep (br_ring i) s' →
    c_p s' = PIdle →
    pump_step i (pump_at s' (Stopped Overrun) i)
| pump_reserved i seq head s' lease :
    br_pump i = Reserving seq → c_p (br_ring i) = PGotHead head → pstep (br_ring i) s' →
    c_p s' = PLease lease → bytes <= capacity_of (c_mem s') →
    pump_step i (pump_at s' (Reading seq 0) i)
| pump_slice_panic i seq head s' lease :
    (* &mut slot.payload_mut()[..bytes] *)
    br_pump i = Reserving seq → c_p (br_ring i) = PGotHead head → pstep (br_ring i) s' →
    c_p s' = PLease lease → capacity_of (c_mem s') < bytes →
    pump_step i (pump_at s' (Panicked "range end index out of range") i)
| pump_wrong i s' :
    pstep (br_ring i) s' → c_p s' = PWrong →
    pump_step i (pump_at s' (Panicked "wrong access") i)
| pump_read i seq got lease b s' :
    (* read_exact has got the next bytes *)
    br_pump i = Reading seq got → c_p (br_ring i) = PLease lease →
    (0 < length b)%nat → got + Z.of_nat (length b) <= bytes →
    s' = with_mem (list_inserts (Z.to_nat (pl_slot lease + 64 + got)) b (c_mem (br_ring i))) (br_ring i) →
    pstep (br_ring i) s' →
    pump_step i (receive b (pump_at s' (Reading seq (got + Z.of_nat (length b))) i))
| pump_read_failed i seq got s' e :
    br_pump i = Reading seq got → got < bytes → pstep (br_ring i) s' → c_p s' = PIdle →
    pump_step i (pump_at s' (Stopped (ReadFailed e)) i)
| pump_clock_panic i seq s' time w :
    br_pump i = Reading seq bytes → monotonic_time_ns time = Panic w →
    pstep (br_ring i) s' → c_p s' = PIdle →
    pump_step i (pump_at s' (Panicked w) i)
| pump_describe i seq s' lease time t :
    br_pump i = Reading seq bytes → monotonic_time_ns time = Ok t →
    pstep (br_ring i) s' → c_p s' = PDescribed lease (sink_descriptor pcm seq t) bytes →
    pump_step i (pump_at s' (Committing seq) i)
| pump_publish i seq s' :
    br_pump i = Committing seq → pstep (br_ring i) s' → c_p s' = PIdle →
    pump_step i (pump_at s' (Waking seq) i)
| pump_woken i seq :
    br_pump i = Waking seq →
    pump_step i (pump_at (br_ring i) (Reserving (wrapping_add 64 seq 1)) i)
| pump_wake_failed i seq errno :
    br_pump i = Waking seq →
    pump_step i (pump_at (br_ring i) (Stopped (CommitFailed [errno_message errno])) i).

(** What a callback copies out of a payload. *)
Definition copied (dest : option nat) (payload : memory) : memory :=
  match dest with Some len => take len payload | None => [] end.

(** The callbacks of the PipeWire thread: acquire, copy if the format is the
    node's, release. *)
Inductive reader_step : bridge → bridge → Prop :=
| reader_acquire i s' :
    cstep (br_ring i) s' → c_T s' = c_T (br_ring i) →
    reader_step i (reader_at s' (br_copied i) (br_played i) i)
| reader_copy i lease dest :
    c_c (br_ring i) = CLease lease → br_copied i = None →
    let payload := slice (Z.to_nat (fl_payload lease))
                     (Z.to_nat (fd_payload_bytes (fl_descriptor lease))) (c_mem (br_ring i)) in
    let out := if format_matches (fl_descriptor lease) pcm then copied dest payload else [] in
    reader_step i (reader_at (br_ring i) (Some (dest, out)) (br_played i) i)
| reader_release i out s' :
    br_copied i = Some out → cstep (br_ring i) s' → c_T s' = c_T (br_ring i) + 1 →
    reader_step i (reader_at s' None (br_played i ++ [out]) i).

Inductive bridge_step : bridge → bridge → Prop :=
| by_pump i i' : pump_step i i' → bridge_step i i'
| by_reader i i' : reader_step i i' → bridge_step i i'.
End source.

(** ** The host pump *)

Inductive writer_stop := NotPcm | WriteFailed (e : error) | WaitFailed (e : error) | AcquireFailed.

Definition writer_error (r : writer_stop) : error :=
  match r with
  | NotPcm => ["PipeWire sink received a non-PCM frame"]
  | WriteFailed e => "write Floss LE Audio host PCM" :: e
  | WaitFailed e => e
  | AcquireFailed => ["corrupt frame"]
  end.

Inductive writer_pc :=
| Acquiring                          (* in try_acquire *)
| Writing (sent : Z)                 (* in write_all, with [sent] bytes written *)
| Waiting                            (* in wait_readable *)
| WriterStopped (r : writer_stop)
| WriterPanicked.

(** [ho_wire] is what the socket has taken. *)
Record host := { ho_ring : cstate; ho_pump : writer_pc; ho_wire : memory }.

Definition host_start (mem : memory) : host :=
  {| ho_ring := start mem; ho_pump := Acquiring; ho_wire := [] |}.

Definition host_at (s : cstate) (pc : writer_pc) (i : host) : host :=
  {| ho_ring := s; ho_pump := pc; ho_wire := ho_wire i |}.

Definition send (b : memory) (i : host) : host :=
  {| ho_ring := ho_ring i; ho_pump := ho_pump i; ho_wire := ho_wire i ++ b |}.

Definition is_pcm (lease : FrameLease) : bool :=
  fd_payload_kind (fl_descriptor lease) =? payload_kind_u8 Pcm_kind.

(** The loop of [pump_ring_to_host]; the lease is dropped by a release on every
    way out of the body of the [if]. *)
Inductive writer_step : host → host → Prop :=
| writer_load_tail i s' :
    ho_pump i = Acquiring → c_c (ho_ring i) = CIdle → cstep (ho_ring i) s' →
    writer_step i (host_at s' Acquiring i)
| writer_empty i tail s' :
    ho_pump i = Acquiring → c_c (ho_ring i) = CGotTail tail → cstep (ho_ring i) s' → c_c s' = CIdle →
    writer_step i (host_at s' Waiting i)
| writer_found i tail s' off :
    ho_pump i = Acquiring → c_c (ho_ring i) = CGotTail tail → cstep (ho_ring i) s' →
    c_c s' = CSlot tail off →
    writer_step i (host_at s' Acquiring i)
| writer_leased i tail off s' lease :
    ho_pump i = Acquiring → c_c (ho_ring i) = CSlot tail off → cstep (ho_ring i) s' →
    c_c s' = CLease lease → is_pcm lease = true →
    writer_step i (host_at s' (Writing 0) i)
| writer_leased_other i tail off s' lease :
    ho_pump i = Acquiring → c_c (ho_ring i) = CSlot tail off → cstep (ho_ring i) s' →
    c_c s' = CLease lease → is_pcm lease = false →
    writer_step i (host_at s' (WriterStopped NotPcm) i)
| writer_drop_other i lease s' :
    (* the lease of a frame that is not PCM is dropped on return *)
    ho_pump i = WriterStopped NotPcm → c_c (ho_ring i) = CLease lease → cstep (ho_ring i) s' →
    c_c s' = CIdle →
    writer_step i (host_at s' (WriterStopped NotPcm) i)
| writer_rejected i s' :
    ho_pump i = Acquiring → cstep (ho_ring i) s' → c_c s' = CRejected →
    writer_step i (host_at s' (WriterStopped AcquireFailed) i)
| writer_wrong i s' :
    cstep (ho_ring i) s' → c_c s' = CWrong →
    writer_step i (host_at s' WriterPanicked i)
| writer_write i sent lease k :
    (* the socket takes the next [k] bytes of frame.payload() *)
    ho_pump i = Writing sent → c_c (ho_ring i) = CLease lease →
    (0 < k)%nat → sent + Z.of_nat k <= fd_payload_bytes (fl_descriptor lease) →
    writer_step i (send (slice (Z.to_nat (fl_payload lease + sent)) k (c_mem (ho_ring i)))
                     (host_at (ho_ring i) (Writing (sent + Z.of_nat k)) i))
| writer_write_failed i sent lease s' e :
    ho_pump i = Writing sent → c_c (ho_ring i) = CLease lease →
    sent < fd_payload_bytes (fl_descriptor lease) → cstep (ho_ring i) s' → c_c s' = CIdle →
    writer_step i (host_at s' (WriterStopped (WriteFailed e)) i)
| writer_written i sent lease s' :
    ho_pump i = Writing sent → c_c (ho_ring i) = CLease lease →
    sent = fd_payload_bytes (fl_descriptor lease) → cstep (ho_ring i) s' → c_c s' = CIdle →
    writer_step i (host_at s' Acquiring i)
| writer_woken i :
    ho_pump i = Waiting → writer_step i (host_at (ho_ring i) Acquiring i)
| writer_wait_failed i e :
    ho_pump i = Waiting → writer_step i (host_at (ho_ring i) (WriterStopped (WaitFailed e)) i).

(** The PipeWire thread publishes frames through the producer, in any way its
    operations allow. *)
Inductive host_step : host → host → Prop :=
| by_writer i i' : writer_step i i' → host_step i i'
| by_publisher i s' : pstep (ho_ring i) s' → host_step i (host_at s' (ho_pump i) i).

(** * Theorems *)

Lemma wrap_16 H : wrap_ok 16 H.
Proof. by left. Qed.

(** The payloads of the first [k] frames published, one after the other. *)
Definition upto (k : nat) (hist : list frame) : memory := concat (take k (snd <$> hist)).

Lemma upto_prefix k hist hist' :
  hist `prefix_of` hist' → (k <= length hist)%nat → upto k hist' = upto k hist.
Proof.
  intros [l ->] Hk. unfold upto. by rewrite fmap_app, take_app_le by (rewrite length_fmap; lia).
Qed.

Lemma upto_S k hist f : hist !! k = Some f → upto (S k) hist = upto k hist ++ snd f.
Proof.
  intros Hf. unfold upto. rewrite (take_S_r _ _ (snd f)) by (by rewrite list_lookup_fmap, Hf).
  rewrite concat_app. cbn. by rewrite app_nil_r.
Qed.

Lemma upto_all hist : upto (length hist) hist = concat (snd <$> hist).
Proof. unfold upto. by rewrite take_ge by (by rewrite length_fmap). Qed.

Lemma upto_snoc hist f : upto (length (hist ++ [f])) (hist ++ [f]) = upto (length hist) hist ++ snd f.
Proof. rewrite !upto_all, fmap_app, concat_app. cbn. by rewrite app_nil_r. Qed.

(** ** The host pump *)

(** What is on the wire, by where the pump is: the payloads of the frames it has
    released, in order, and while it writes the bytes of the next one it has sent
    so far; a pump that stopped has cut the stream at the frame it stopped in. *)
Definition wire_in_order (i : host) : Prop :=
  let hist := c_hist (ho_ring i) in
  let T := Z.to_nat (c_T (ho_ring i)) in
  match ho_pump i with
  | Acquiring | Waiting | WriterStopped (WaitFailed _) => ho_wire i = upto T hist
  | Writing sent =>
      ∃ f, hist !! T = Some f ∧ 0 <= sent <= Z.of_nat (length (snd f)) ∧
        ho_wire i = upto T hist ++ take (Z.to_nat sent) (snd f)
  | WriterStopped (WriteFailed _) =>
      ∃ k f sent, T = S k ∧ hist !! k = Some f ∧ (sent < length (snd f))%nat ∧
        ho_wire i = upto k hist ++ take sent (snd f)
  | WriterStopped NotPcm =>
      ∃ k f, hist !! k = Some f ∧ fd_payload_kind (fst f) ≠ payload_kind_u8 Pcm_kind ∧
        ho_wire i = upto k hist
  | WriterStopped AcquireFailed | WriterPanicked => False
  end.

(** Where the consumer's half of the ring is, by where the pump is. *)
Definition writer_control (i : host) : Prop :=
  match ho_pump i with
  | Acquiring => match c_c (ho_ring i) with CLease _ => False | _ => True end
  | Waiting => c_c (ho_ring i) = CIdle
  | Writing _ => ∃ lease, c_c (ho_ring i) = CLease lease
  | _ => True
  end.

Section host_proofs.
Context (stride cap : Z).

Record host_inv (i : host) : Prop := {
  hi_ring : inv 16 stride cap (ho_ring i);
  hi_control : writer_control i;
  hi_wire : wire_in_order i;
}.

(** A release takes the frame at the tail. *)
Lemma release_consumes s s' lease :
  inv 16 stride cap s → cstep s s' → c_c s = CLease lease → c_c s' = CIdle →
  c_T s' = c_T s + 1 ∧ c_hist s' = c_hist s ∧ 0 <= c_T s.
Proof.
  intros [ [_ _ _ _ _ Ho _ _ _] _ _ _ _ _] Hst Hc Hc'. destruct Hst; cbn in *; try congruence. split; [done|]. split; [done|lia].
Qed.

(** The other steps of the consumer keep the tail. *)
Lemma acquire_keeps s s' :
  cstep s s' → match c_c s with CLease _ => False | _ => True end →
  c_T s' = c_T s ∧ c_hist s' = c_hist s.
Proof. intros [] Hc; cbn in *; try done; by rewrite H in Hc. Qed.

Lemma consumed_le s : inv 16 stride cap s → (Z.to_nat (c_T s) <= length (c_hist s))%nat.
Proof. intros [ [_ _ _ _ _ Ho _ _ _] Hh _ _ _ _]. lia. Qed.

Lemma publisher_inv i s' : host_inv i → pstep (ho_ring i) s' → host_inv (host_at s' (ho_pump i) i).
Proof.
  intros [Hr Hc Hw] Hs. destruct (pstep_consumer _ _ Hs) as (Hcc & HT & _ & Hpre).
  pose proof (consumed_le _ Hr) as HTl.
  assert (∀ k f, c_hist (ho_ring i) !! k = Some f →
    c_hist s' !! k = Some f ∧ upto k (c_hist s') = upto k (c_hist (ho_ring i))) as Hk.
  { intros k f Hf. split; [by eapply prefix_lookup_Some|]. apply upto_prefix; [done|].
    apply lookup_lt_Some in Hf. lia. }
  split; cbn; [eapply pstep_inv; try done; apply wrap_16|unfold writer_control in *; cbn; by rewrite Hcc|].
  unfold wire_in_order in *. cbn. rewrite HT. rewrite (upto_prefix _ _ _ Hpre) by done.
  destruct (ho_pump i) as [|sent| |[ | | |]|]; try done.
  - destruct Hw as (f & Hf & ?). exists f. by destruct (Hk _ _ Hf) as [-> _].
  - destruct Hw as (k & f & Hf & ? & ?). exists k, f. by destruct (Hk _ _ Hf) as [-> ->].
  - destruct Hw as (k & f & sent & -> & Hf & ?). exists k, f, sent. by destruct (Hk _ _ Hf) as [-> ->].
Qed.

(** The bytes a write takes are those of the published frame. *)
Lemma writer_write_wire i sent lease k :
  host_inv i → ho_pump i = Writing sent → c_c (ho_ring i) = CLease lease →
  sent + Z.of_nat k <= fd_payload_bytes (fl_descriptor lease) →
  wire_in_order (send (slice (Z.to_nat (fl_payload lease + sent)) k (c_mem (ho_ring i)))
                   (host_at (ho_ring i) (Writing (sent + Z.of_nat k)) i)).
Proof.
  intros [Hr _ Hw] Hp Hl Hk. unfold wire_in_order in *. rewrite Hp in Hw. cbn.
  destruct Hw as (f & Hf & Hs & Hwire).
  destruct (inv_lease 16 stride cap _ _ Hr Hl) as (payload & Hf' & Hpb & Hsl & Hin).
  rewrite Hf in Hf'. simplify_eq. cbn [snd] in *.
  unfold in_mapping in Hin. apply andb_true_iff in Hin as [H0 _]. apply Z.leb_le in H0.
  eexists. split; [done|]. cbn [snd]. split; [lia|]. rewrite Hwire, <- app_assoc. f_equal.
  replace (Z.to_nat (sent + Z.of_nat k)) with (Z.to_nat sent + k)%nat by lia.
  replace (Z.to_nat (fl_payload lease + sent)) with
    (Z.to_nat (fl_payload lease) + Z.to_nat sent)%nat by lia.
  rewrite <- (slice_slice _ (length payload) _ k), Hsl by lia. apply take_take_drop.
Qed.

Lemma writer_inv i i' : host_inv i → writer_step i i' → host_inv i'.
Proof.
  intros Hi Hst. pose proof Hi as [Hr Hc Hw].
  assert (∀ s' pc, cstep (ho_ring i) s' → inv 16 stride cap (ho_ring (host_at s' pc i))) as Hinv
    by (intros; eapply cstep_inv; try done; apply wrap_16).
  assert (∀ s' lease, cstep (ho_ring i) s' → c_c (ho_ring i) = CLease lease → c_c s' = CIdle →
    Z.to_nat (c_T s') = S (Z.to_nat (c_T (ho_ring i))) ∧ c_hist s' = c_hist (ho_ring i)) as Hrel.
  { intros s' lease Hs Hl Hid. destruct (release_consumes _ _ _ Hr Hs Hl Hid) as (-> & -> & ?). split; [lia|done]. }
  assert (∀ s', cstep (ho_ring i) s' → c_c s' ≠ CWrong ∧ c_c s' ≠ CRejected) as Hsound.
  { intros s' Hs. destruct (Hinv s' Waiting Hs) as [_ _ _ _ _ Hcc]. unfold c_ok in Hcc. cbn in Hcc.
    by destruct (c_c s'). }
  unfold wire_in_order, writer_control in *.
  destruct Hst as [i s' Hp Hcs Hs|i tail s' Hp Hcs Hs Hid|i tail s' off Hp Hcs Hs Hid
    |i tail off s' lease Hp Hcs Hs Hid Hk|i tail off s' lease Hp Hcs Hs Hid Hk|i lease s' Hp Hl Hs Hid
    |i s' Hp Hs Hid|i s' Hs Hid|i sent lease k Hp Hl Hk Hle|i sent lease s' e Hp Hl Hlt Hs Hid
    |i sent lease s' Hp Hl Heq Hs Hid|i Hp|i e Hp]; try (by destruct (Hsound _ Hs));
    rewrite Hp in Hc, Hw.
  1-5: destruct (acquire_keeps _ _ Hs Hc) as [HT Hh].
  all: try destruct (Hrel _ _ Hs Hl Hid) as [HT Hh].
  - split; [by apply Hinv| |unfold wire_in_order; cbn; by rewrite HT, Hh].
    destruct Hs; unfold writer_control; cbn; congruence || done.
  - split; [by apply Hinv|done|unfold wire_in_order; cbn; by rewrite HT, Hh].
  - split; [by apply Hinv|unfold writer_control; cbn; by rewrite Hid|].
    unfold wire_in_order; cbn; by rewrite HT, Hh.
  - split; [by apply Hinv|by exists lease|]. unfold wire_in_order. cbn.
    destruct (inv_lease 16 stride cap _ _ (Hinv _ Waiting Hs) Hid) as (payload & Hf & _).
    eexists. split; [exact Hf|]. split; [lia|]. rewrite HT, Hh. by rewrite take_0, app_nil_r.
  - split; [by apply Hinv|done|]. unfold wire_in_order. cbn.
    destruct (inv_lease 16 stride cap _ _ (Hinv _ Waiting Hs) Hid) as (payload & Hf & _).
    eexists _, _. split; [exact Hf|]. split; [by apply Z.eqb_neq|]. cbn. by rewrite HT, Hh.
  - split; [by apply Hinv|done|]. unfold wire_in_order. cbn. by rewrite Hh.
  - split; [done|by exists lease|by apply writer_write_wire].
  - split; [by apply Hinv|exact I|]. unfold wire_in_order. cbn. rewrite HT, Hh.
    destruct Hw as (f & Hf & Hb & Hwire).
    destruct (inv_lease 16 stride cap _ _ Hr Hl) as (payload & Hf' & Hpb & _).
    eexists _, f, (Z.to_nat sent). split; [done|]. split; [done|]. rewrite Hf in Hf'. simplify_eq.
    cbn [snd] in *. split; [lia|done].
  - split; [by apply Hinv|unfold writer_control; cbn; by rewrite Hid|].
    unfold wire_in_order. cbn. rewrite HT, Hh. destruct Hw as (f & Hf & Hb & Hwire).
    destruct (inv_lease 16 stride cap _ _ Hr Hl) as (payload & Hf' & Hpb & _).
    rewrite (upto_S _ _ _ Hf), Hwire. rewrite Hf in Hf'. simplify_eq. cbn [snd] in *.
    by rewrite take_ge by lia.
  - split; [done|unfold writer_control; cbn; by rewrite Hc|done].
  - by split.
Qed.

Lemma host_step_inv i i' : host_inv i → host_step i i' → host_inv i'.
Proof. intros Hi Hs. destruct Hs as [i i' Hs|i s' Hs]; [exact (writer_inv _ _ Hi Hs)|exact (publisher_inv _ _ Hi Hs)]. Qed.
End host_proofs.

(** ** The peer pump *)

Section bridge_proofs.
Context (pcm : PcmConfiguration) (stride n : Z).
Implicit Types (i : bridge) (s : cstate) (partial : memory).

(** The reserved slot holds the bytes read so far. *)
Definition slot_holds s partial : Prop :=
  slice (slot_pos stride (c_H s mod 16) + 64) (length partial) (c_mem s) = partial.

(** Where the producer's half of the ring is, by where the pump is; [partial]
    are the bytes received that are not published yet. *)
Definition pump_control i partial : Prop :=
  let s := br_ring i in
  match br_pump i with
  | Reserving seq =>
      partial = [] ∧ seq = c_H s mod 2 ^ 64 ∧
      match c_p s with PIdle | PGotHead _ => True | _ => False end
  | Reading seq got =>
      seq = c_H s mod 2 ^ 64 ∧ got = Z.of_nat (length partial) ∧ slot_holds s partial ∧
      ∃ lease, c_p s = PLease lease
  | Committing seq =>
      seq = c_H s mod 2 ^ 64 ∧ Z.of_nat (length partial) = n ∧ slot_holds s partial ∧
      ∃ lease t, c_p s = PDescribed lease (sink_descriptor pcm seq t) n
  | Waking seq => partial = [] ∧ wrapping_add 64 seq 1 = c_H s mod 2 ^ 64 ∧ c_p s = PIdle
  | Stopped Overrun => partial = [] ∧ c_H s - c_seenT s = 16
  | Stopped (ReadFailed _) => Z.of_nat (length partial) < n
  | Stopped (CommitFailed _) => partial = []
  | Panicked w => ∃ time, monotonic_time_ns time = Panic w
  end.

(** Every published frame is a whole interval, has the node's format, and the
    sequence numbers count up. *)
Definition frames_ok (hist : list frame) : Prop :=
  ∀ j f, hist !! j = Some f →
    Z.of_nat (length (snd f)) = n ∧ format_matches (fst f) pcm = true ∧
    fd_sequence (fst f) = Z.of_nat j mod 2 ^ 64.

(** Every delivery is the copy of the frame with its number. *)
Definition played_ok (played : list (option nat * memory)) (hist : list frame) : Prop :=
  ∀ j dest b, played !! j = Some (dest, b) → ∃ f, hist !! j = Some f ∧ b = copied dest (snd f).

Definition copy_ok i : Prop :=
  match br_copied i with
  | Some (dest, b) =>
      ∃ lease f, c_c (br_ring i) = CLease lease ∧
        c_hist (br_ring i) !! Z.to_nat (c_T (br_ring i)) = Some f ∧ b = copied dest (snd f)
  | None => True
  end.

Record bridge_inv i : Prop := {
  bi_ring : inv 16 stride n (br_ring i);
  bi_frames : frames_ok (c_hist (br_ring i));
  bi_received : ∃ partial,
    concat (snd <$> c_hist (br_ring i)) ++ partial = br_received i ∧
    Z.of_nat (length partial) <= n ∧ pump_control i partial;
  bi_count : length (br_played i) = Z.to_nat (c_T (br_ring i));
  bi_played : played_ok (br_played i) (c_hist (br_ring i));
  bi_copy : copy_ok i;
}.

(** *** Steps of the PipeWire thread *)

Lemma pump_control_reader i s' c pl partial :
  inv 16 stride n (br_ring i) → cstep (br_ring i) s' →
  pump_control i partial → pump_control (reader_at s' c pl i) partial.
Proof.
  intros Hi Hs. destruct (cstep_producer _ _ Hs) as (Hp & HH & HsT & _).
  assert (slot_holds (br_ring i) partial → slot_holds s' partial) as Hsl.
  { unfold slot_holds. rewrite HH. destruct (slot_head_pos 16 stride n _ Hi) as (_ & Hge & _).
    by rewrite (cstep_slice _ _ _ _ Hs) by lia. }
  unfold pump_control. cbn. rewrite Hp, HH, HsT. destruct (br_pump i) as [| | | |[]|]; naive_solver.
Qed.

Lemma lease_of_release s s' : cstep s s' → c_T s' = c_T s + 1 → ∃ lease, c_c s = CLease lease.
Proof. intros []; cbn; intros; try lia. by eexists. Qed.

Lemma reader_inv i i' : bridge_inv i → reader_step pcm i i' → bridge_inv i'.
Proof.
  intros [Hr Hf (partial & Hrc & Hpl & Hpc) Hn Hpd Hcp] Hst.
  assert (∀ s', cstep (br_ring i) s' → inv 16 stride n s') as Hinv
    by (intros; eapply cstep_inv; try done; apply wrap_16).
  destruct Hst as [i s' Hs HT|i lease dest Hl Hc payload out|i out s' Hc Hs HT].
  - destruct (cstep_producer _ _ Hs) as (_ & _ & _ & Hh).
    split; cbn; rewrite ?Hh, ?HT; try done; [by apply Hinv| |].
    + exists partial. split; [done|]. split; [done|]. by apply pump_control_reader.
    + unfold copy_ok in *. cbn. destruct (br_copied i) as [ [dest b]|]; [|done].
      destruct Hcp as (lease & f & Hl & Hff & Hb). exfalso.
      pose proof (Hinv _ Hs) as [_ _ _ _ _ Hcc]. unfold c_ok in Hcc.
      destruct Hs; cbn in *; try congruence; lia.
  - destruct (inv_lease 16 stride n _ _ Hr Hl) as (p & Hp & Hpb & Hsl & _).
    split; cbn; try done; [by exists partial|]. unfold copy_ok. cbn.
    eexists lease, _. split; [done|]. split; [exact Hp|].
    destruct (Hf _ _ Hp) as (_ & Hfm & _). cbn [fst snd] in *.
    unfold out, payload. by rewrite Hfm, Hpb, Nat2Z.id, Hsl.
  - destruct (cstep_producer _ _ Hs) as (_ & _ & _ & Hh).
    pose proof Hr as [ [_ _ _ _ _ Ho _ _ _] _ _ _ _ _].
    unfold copy_ok in Hcp. rewrite Hc in Hcp. destruct out as [dest b].
    destruct Hcp as (lease & f & Hl & Hff & Hb).
    split; cbn; rewrite ?Hh; try done; [by apply Hinv| | |].
    + exists partial. split; [done|]. split; [done|]. by apply pump_control_reader.
    + rewrite length_app, HT. cbn. lia.
    + intros j d b' Hj. apply lookup_app_Some in Hj as [Hj|[Hge Hj]]; [by eapply Hpd|].
      apply list_lookup_singleton_Some in Hj as [Hz [= -> ->]].
      exists f. split; [|done]. by replace j with (Z.to_nat (c_T (br_ring i))) by lia.
Qed.

(** *** Steps of the pump *)

Lemma slice_grow o m (b l : memory) :
  (o + m + length b <= length l)%nat →
  slice o (m + length b) (list_inserts (o + m) b l) = slice o m l ++ b.
Proof.
  intros Hl. unfold slice at 1. rewrite <- take_take_drop. f_equal.
  - apply (slice_inserts_disjoint o m (o + m) b l). lia.
  - rewrite drop_drop. by apply slice_inserts_same.
Qed.

(** What a step of the pump must establish beside the producer's step. *)
Lemma bridge_inv_pump i s' pc b :
  bridge_inv i → pstep (br_ring i) s' ∨ s' = br_ring i → frames_ok (c_hist s') →
  (∃ partial, concat (snd <$> c_hist s') ++ partial = br_received i ++ b ∧
     Z.of_nat (length partial) <= n ∧ pump_control (receive b (pump_at s' pc i)) partial) →
  bridge_inv (receive b (pump_at s' pc i)).
Proof.
  intros [Hr Hf _ Hn Hpd Hcp] Hs Hf' Hrc.
  assert (inv 16 stride n s' ∧ c_c s' = c_c (br_ring i) ∧ c_T s' = c_T (br_ring i) ∧
          c_hist (br_ring i) `prefix_of` c_hist s') as (Hr' & Hcc & HT & Hpre).
  { destruct Hs as [Hs| ->]; [|done]. destruct (pstep_consumer _ _ Hs) as (? & ? & _ & ?).
    split; [eapply pstep_inv; try done; apply wrap_16|done]. }
  split; cbn; try done; [by rewrite HT| |].
  - intros j d b' Hj. destruct (Hpd _ _ _ Hj) as (f & Hjf & ?). exists f.
    split; [by eapply prefix_lookup_Some|done].
  - unfold copy_ok in *. cbn. rewrite Hcc, HT. destruct (br_copied i) as [ [d b']|]; [|done].
    destruct Hcp as (lease & f & ? & Hjf & ?). exists lease, f.
    split; [done|]. split; [by eapply prefix_lookup_Some|done].
Qed.

Lemma receive_nil i : receive [] i = i.
Proof. destruct i. unfold receive. cbn. by rewrite app_nil_r. Qed.

Lemma bridge_inv_pump0 i s' pc partial :
  bridge_inv i → pstep (br_ring i) s' ∨ s' = br_ring i → frames_ok (c_hist s') →
  concat (snd <$> c_hist s') ++ partial = br_received i → Z.of_nat (length partial) <= n →
  pump_control (pump_at s' pc i) partial → bridge_inv (pump_at s' pc i).
Proof.
  intros Hi Hs Hf Hrc Hl Hpc. rewrite <- (receive_nil (pump_at s' pc i)).
  apply bridge_inv_pump; try done. exists partial. rewrite app_nil_r, receive_nil. done.
Qed.

(** [try_reserve]. *)
Lemma reserve_head i seq s' :
  bridge_inv i → br_pump i = Reserving seq → c_p (br_ring i) = PIdle → pstep (br_ring i) s' →
  bridge_inv (pump_at s' (Reserving seq) i).
Proof.
  intros Hi Hp Hpc Hs. pose proof Hi as [Hr Hf (partial & Hrc & Hpl & Hctl) _ _ _].
  unfold pump_control in Hctl. rewrite Hp in Hctl.
  assert (c_hist s' = c_hist (br_ring i) ∧ c_H s' = c_H (br_ring i) ∧ ∃ h, c_p s' = PGotHead h)
    as (Hh & HH & h & Hp') by (inversion Hs; subst; try congruence; cbn; eauto).
  destruct Hctl as (-> & Hseq & _). eapply bridge_inv_pump0; rewrite ?Hh; try done; [by left|].
  unfold pump_control. cbn. by rewrite HH, Hp'.
Qed.

Lemma reserve_tail i seq head s' :
  bridge_inv i → br_pump i = Reserving seq → c_p (br_ring i) = PGotHead head → pstep (br_ring i) s' →
  (c_p s' = PIdle → bridge_inv (pump_at s' (Stopped Overrun) i)) ∧
  (∀ lease, c_p s' = PLease lease → bridge_inv (pump_at s' (Reading seq 0) i)).
Proof.
  intros Hi Hp Hpc Hs. pose proof Hi as [Hr Hf (partial & Hrc & Hpl & Hctl) _ _ _].
  unfold pump_control in Hctl. rewrite Hp in Hctl. destruct Hctl as (-> & Hseq & _).
  assert (c_hist s' = c_hist (br_ring i) ∧ c_H s' = c_H (br_ring i)) as (Hh & HH)
    by (inversion Hs; subst; try congruence; done).
  split.
  - intros Hidle. eapply bridge_inv_pump0; rewrite ?Hh; try done; [by left|].
    unfold pump_control. cbn. split; [done|]. rewrite HH.
    pose proof Hr as [R _ HsT HsH Hpo _]. pose proof R as [_ _ _ _ _ Ho _ _ _].
    destruct (rep_slot_count 16 stride n _ _ _ _ R) as [Hsc _].
    unfold p_ok in Hpo. rewrite Hpc in Hpo.
    inversion Hs; subst; try congruence; try (cbn in Hidle; congruence).
    match goal with Hge : slot_count_of _ <= wrapping_sub 64 ?h _, He : c_p _ = PGotHead ?h |- _ =>
      rewrite Hpc in He; injection He as <-; rewrite Hsc, wrapping_sub_mod in Hge by lia end.
    cbn. lia.
  - intros lease Hl. eapply bridge_inv_pump0; rewrite ?Hh; try done; [by left|].
    unfold pump_control. cbn. rewrite HH. split; [done|]. split; [done|]. by split; [|exists lease].
Qed.

(** [read_exact] has got the next bytes. *)
Lemma read_bytes i seq got lease b s' :
  bridge_inv i → br_pump i = Reading seq got → c_p (br_ring i) = PLease lease →
  got + Z.of_nat (length b) <= n →
  s' = with_mem (list_inserts (Z.to_nat (pl_slot lease + 64 + got)) b (c_mem (br_ring i))) (br_ring i) →
  pstep (br_ring i) s' →
  bridge_inv (receive b (pump_at s' (Reading seq (got + Z.of_nat (length b))) i)).
Proof.
  intros Hi Hp Hpc Hb -> Hs. pose proof Hi as [Hr Hf (partial & Hrc & Hpl & Hctl) _ _ _].
  unfold pump_control in Hctl. rewrite Hp in Hctl. destruct Hctl as (Hseq & -> & Hsl & _).
  destruct (inv_reserved 16 stride n _ _ Hr Hpc) as (_ & Hpos & Hge & Hfit).
  eapply bridge_inv_pump; try done; [by left|]. exists (partial ++ b). cbn.
  rewrite app_assoc, Hrc, length_app. split; [done|]. split; [lia|].
  unfold pump_control. cbn. split; [done|]. split; [rewrite ?length_app; lia|].
  split; [|by exists lease]. unfold slot_holds in *. cbn. rewrite ?length_app.
  replace (Z.to_nat (pl_slot lease + 64 + Z.of_nat (length partial))) with
    (slot_pos stride (c_H (br_ring i) mod 16) + 64 + length partial)%nat by lia.
  rewrite slice_grow by lia. by rewrite Hsl.
Qed.

(** The reservation is given up. *)
Lemma abandon i seq got s' pc :
  bridge_inv i → br_pump i = Reading seq got → pstep (br_ring i) s' → c_p s' = PIdle →
  (∀ partial, got = Z.of_nat (length partial) → pump_control (pump_at s' pc i) partial) →
  bridge_inv (pump_at s' pc i).
Proof.
  intros Hi Hp Hs Hidle Hpc'. pose proof Hi as [Hr Hf (partial & Hrc & Hpl & Hctl) _ _ _].
  unfold pump_control in Hctl. rewrite Hp in Hctl. destruct Hctl as (_ & Hgot & _ & lease & Hpc).
  assert (c_hist s' = c_hist (br_ring i)) as Hh by (inversion Hs; subst; cbn in *; congruence || done).
  eapply bridge_inv_pump0; rewrite ?Hh; try done; [by left|by apply Hpc'].
Qed.

(** The first half of [commit]. *)
Lemma describe i seq s' lease time t :
  bridge_inv i → br_pump i = Reading seq n → monotonic_time_ns time = Ok t →
  pstep (br_ring i) s' → c_p s' = PDescribed lease (sink_descriptor pcm seq t) n →
  bridge_inv (pump_at s' (Committing seq) i).
Proof.
  intros Hi Hp Ht Hs Hd. pose proof Hi as [Hr Hf (partial & Hrc & Hpl & Hctl) _ _ _].
  unfold pump_control in Hctl. rewrite Hp in Hctl. destruct Hctl as (Hseq & Hgot & Hsl & lease' & Hpc).
  destruct (inv_reserved 16 stride n _ _ Hr Hpc) as (_ & Hpos & Hge & Hfit).
  assert (c_hist s' = c_hist (br_ring i) ∧ c_H s' = c_H (br_ring i) ∧
    ∃ k, length k = 64%nat ∧ c_mem s' = list_inserts (slot_pos stride (c_H (br_ring i) mod 16)) k (c_mem (br_ring i)))
    as (Hh & HH & k & Hk & Hmem).
  { inversion Hs; subst; cbn in *; try congruence. split; [done|]. split; [done|].
    match goal with |- context [pl_slot ?l] => replace l with lease' by congruence end.
    rewrite Hpos. eexists. split; [|done].
    apply length_encode_descriptor, length_slice. lia. }
  eapply bridge_inv_pump0; rewrite ?Hh; try done; [by left|].
  unfold pump_control. cbn. rewrite HH. split; [done|]. split; [lia|]. split; [|by eexists _, _].
  unfold slot_holds in *. rewrite HH, Hmem. by rewrite slice_inserts_disjoint by lia.
Qed.

Lemma format_matches_stamped seq t k : format_matches (stamp_descriptor (sink_descriptor pcm seq t) k) pcm = true.
Proof. by apply format_matches_spec. Qed.

(** The store of the head. *)
Lemma publish_interval i seq s' :
  bridge_inv i → br_pump i = Committing seq → pstep (br_ring i) s' → c_p s' = PIdle →
  bridge_inv (pump_at s' (Waking seq) i).
Proof.
  intros Hi Hp Hs Hidle. pose proof Hi as [Hr Hf (partial & Hrc & Hpl & Hctl) _ _ _].
  unfold pump_control in Hctl. rewrite Hp in Hctl.
  destruct Hctl as (Hseq & Hlen & Hsl & lease & t & Hpc).
  pose proof Hr as [ [ [Hn Hc Hst _] _ _ _ _ Ho _ _ _] Hhist _ _ Hpo _].
  unfold p_ok in Hpo. rewrite Hpc in Hpo. destruct Hpo as (_ & -> & _ & _ & _).
  pose proof (Z.mod_pos_bound (c_H (br_ring i)) 16 ltac:(lia)) as Hj.
  assert (c_hist s' = c_hist (br_ring i) ++ [(stamp_descriptor (sink_descriptor pcm seq t) n, partial)] ∧
          c_H s' = c_H (br_ring i) + 1) as (Hh & HH).
  { inversion Hs; subst; cbn in *; try congruence. split; [|done].
    match goal with He : c_p (br_ring i) = PDescribed ?l ?d ?k |- context [stamp_descriptor ?d ?k] =>
      rewrite Hpc in He; injection He as <- <- <- end.
    do 3 f_equal. cbn [lease_at pl_slot]. rewrite slot_pos_offset by lia.
    replace (Z.to_nat n) with (length partial) by lia. exact Hsl. }
  eapply (bridge_inv_pump0 _ _ _ []); rewrite ?Hh; try done; [by left| | |cbn; lia|].
  - intros j f Hj'. apply lookup_app_Some in Hj' as [Hj'|[Hge Hj'] ]; [by apply Hf|].
    apply list_lookup_singleton_Some in Hj' as [Hz <-]. cbn [fst snd].
    split; [done|]. split; [apply format_matches_stamped|]. cbn. rewrite Hseq. f_equal. lia.
  - rewrite fmap_app, concat_app. cbn. by rewrite !app_nil_r.
  - unfold pump_control. cbn. split; [done|]. split; [|done]. by rewrite Hseq, HH, wrapping_add_mod.
Qed.

Lemma pump_inv i i' : bridge_inv i → pump_step pcm n i i' → bridge_inv i'.
Proof.
  intros Hi Hst. pose proof Hi as [Hr Hf (partial & Hrc & Hpl & Hctl) _ _ _].
  assert (∀ s', pstep (br_ring i) s' → inv 16 stride n s') as Hinv
    by (intros; eapply pstep_inv; try done; apply wrap_16).
  destruct Hst as [i seq s' Hp Hpc Hs|i seq head s' Hp Hpc Hs Hid|i seq head s' lease Hp Hpc Hs Hl _
    |i seq head s' lease Hp Hpc Hs Hl Hlt|i s' Hs Hw|i seq got lease b s' Hp Hpc _ Hle Heq Hs
    |i seq got s' e Hp Hlt Hs Hid|i seq s' time w Hp Ht Hs Hid|i seq s' lease time t Hp Ht Hs Hd
    |i seq s' Hp Hs Hid|i seq Hp|i seq errno Hp].
  - by apply reserve_head.
  - by eapply reserve_tail.
  - by eapply reserve_tail.
  - destruct (Hinv _ Hs) as [R _ _ _ _ _]. destruct (rep_slot_count 16 stride n _ _ _ _ R). lia.
  - destruct (Hinv _ Hs) as [_ _ _ _ Hpo _]. unfold p_ok in Hpo. by rewrite Hw in Hpo.
  - by eapply read_bytes.
  - eapply abandon; try done. intros p ->. exact Hlt.
  - eapply abandon; try done. intros p _. by exists time.
  - by eapply describe.
  - by apply publish_interval.
  - unfold pump_control in Hctl. rewrite Hp in Hctl. destruct Hctl as (-> & Hseq & Hidle).
    eapply bridge_inv_pump0; try done; [by right|]. unfold pump_control. cbn. by rewrite Hidle.
  - unfold pump_control in Hctl. rewrite Hp in Hctl. destruct Hctl as (-> & Hseq & Hidle).
    eapply bridge_inv_pump0; try done. by right.
Qed.

Lemma bridge_step_inv i i' : bridge_inv i → bridge_step pcm n i i' → bridge_inv i'.
Proof. intros Hi Hs. destruct Hs as [i i' Hs|i i' Hs]; [exact (pump_inv _ _ Hi Hs)|exact (reader_inv _ _ Hi Hs)]. Qed.
End bridge_proofs.

(** ** Reachable states *)

Lemma reachable_bridge_inv pcm n mem i :
  0 < n < 2 ^ 32 → fresh_ring 16 n = Ok mem → rtc (bridge_step pcm n) (bridge_start mem) i →
  bridge_inv pcm (stride_of n) n i.
Proof.
  intros Hn Hf. apply (rtc_ind_r (bridge_inv pcm (stride_of n) n)).
  - split; cbn; try done.
    + apply start_inv; [done|by apply in_width_spec; lia|done].
    + exists []. cbn. split; [done|]. split; [lia|]. by unfold pump_control.
  - intros i1 i2 _ Hs Hi. exact (bridge_step_inv pcm (stride_of n) n _ _ Hi Hs).
Qed.

Lemma reachable_host_inv cap mem i :
  is_u32 cap = true → fresh_ring 16 cap = Ok mem → rtc host_step (host_start mem) i →
  host_inv (stride_of cap) cap i.
Proof.
  intros Hc Hf. apply (rtc_ind_r (host_inv (stride_of cap) cap)).
  - split; cbn; try done. by apply start_inv.
  - intros i1 i2 _ Hs Hi. exact (host_step_inv (stride_of cap) cap _ _ Hi Hs).
Qed.

(** Deliveries into destinations that are long enough are whole frames. *)
Lemma played_whole pcm n played hist :
  frames_ok pcm n hist → played_ok played hist →
  Forall (λ out, ∃ len, fst out = Some len ∧ n <= Z.of_nat len) played →
  concat (snd <$> played) = concat (take (length played) (snd <$> hist)).
Proof.
  intros Hf Hp Hall. f_equal. apply list_eq. intros j. rewrite list_lookup_fmap.
  destruct (played !! j) as [ [dest b]|] eqn:Hj; cbn.
  - destruct (Hp _ _ _ Hj) as (f & Hjf & ->). pose proof (lookup_lt_Some _ _ _ Hj).
    rewrite lookup_take_lt, list_lookup_fmap, Hjf by done. cbn. f_equal.
    destruct (proj1 (Forall_lookup _ _) Hall _ _ Hj) as (len & Hd & Hlen). cbn in Hd. subst dest.
    destruct (Hf _ _ Hjf) as (Hl & _). cbn. by rewrite take_ge by lia.
  - apply lookup_ge_None in Hj. by rewrite lookup_take_ge by done.
Qed.

Lemma upto_is_prefix k (hist : list frame) : upto k hist `prefix_of` concat (snd <$> hist).
Proof.
  unfold upto. rewrite <- (take_drop k (snd <$> hist)) at 2. rewrite concat_app. by apply prefix_app_r.
Qed.

Lemma wire_prefix i : wire_in_order i → ho_wire i `prefix_of` concat (snd <$> c_hist (ho_ring i)).
Proof.
  assert (∀ k f m, c_hist (ho_ring i) !! k = Some f →
    upto k (c_hist (ho_ring i)) ++ take m (snd f) `prefix_of` concat (snd <$> c_hist (ho_ring i))) as Hk.
  { intros k f m Hf. etrans; [|apply (upto_is_prefix (S k))]. rewrite (upto_S _ _ _ Hf).
    apply prefix_app. rewrite <- (take_drop m (snd f)) at 2. by apply prefix_app_r. }
  unfold wire_in_order. destruct (ho_pump i) as [|sent| |[ | | |]|]; try done; try (intros ->; apply upto_is_prefix).
  - intros (f & Hf & _ & ->). by apply Hk.
  - intros (k & f & Hf & _ & ->). apply upto_is_prefix.
  - intros (k & f & sent & _ & Hf & _ & ->). by apply Hk.
Qed.


(** C22. The host pump loses nothing.  For every interleaving of the pump, also
    inside of its [write_all], with any use of the producer by the PipeWire
    thread, and however stale the cursors each side sees: while the pump runs,
    the wire has the payloads of the released frames, byte for byte and in order
    of publication, followed by the bytes of the frame it is writing; a failed
    write cuts the stream inside of a frame, and a frame that is not PCM ends it
    before that frame.  The ring is never the reason to stop, and neither side
    panics or leaves the mapping. *)
Theorem host_pump_in_order cap mem i :
  is_u32 cap = true → fresh_ring 16 cap = Ok mem → rtc host_step (host_start mem) i →
  wire_in_order i ∧ ho_wire i `prefix_of` concat (snd <$> c_hist (ho_ring i)) ∧
  p_went_wrong (c_p (ho_ring i)) = false ∧ c_went_wrong (c_c (ho_ring i)) = false.
Proof.
  intros Hc Hf Hr. destruct (reachable_host_inv cap mem i Hc Hf Hr) as [Hi _ Hw].
  split; [done|]. split; [by apply wire_prefix|].
  destruct Hi as [_ _ _ _ Hpo Hcc]. unfold p_ok in Hpo. unfold c_ok in Hcc.
  by destruct (c_p (ho_ring i)), (c_c (ho_ring i)).
Qed.


(** ** Runs the theorems apply to *)

Definition tiny_pcm : PcmConfiguration := {|
  pcm_sample_rate_hz := 8_000; pcm_bits_per_sample := 16; pcm_channels := 1;
  pcm_data_interval_us := 1_000 |}.

Definition tiny_mem : memory := match fresh_ring 16 16 with Ok m => m | _ => [] end.

Lemma tiny_mem_fresh : fresh_ring 16 16 = Ok tiny_mem.
Proof. vm_compute. reflexivity. Qed.

(** Compute the fields of a state, and nothing of its memory. *)
Ltac fields :=
  lazy beta iota zeta delta [br_ring br_pump br_received br_copied br_played pump_at reader_at receive bridge_start
       ho_ring ho_pump ho_wire host_at send host_start start
       with_p with_c with_mem see_T see_H publish consume
       c_mem c_p c_c c_T c_H c_seenT c_seenH c_hist pl_slot pl_head fl_payload fl_tail fl_descriptor].

Ltac by_fields := fields; reflexivity.

(** Take a step of a run. *)
Ltac take tac := eapply rtc_l; [tac|]; fields.

(** The headset's interval arrives in two pieces; PipeWire looks at the ring in
    between, and takes the frame after it was published. *)
Lemma bridge_run :
  ∃ i, rtc (bridge_step tiny_pcm 16) (bridge_start tiny_mem) i ∧
    br_received i = replicate 16 Byte.x2a ∧ br_played i = [(Some 32%nat, replicate 16 Byte.x2a)].
Proof.
  eexists. split; [|shelve].
  take ltac:(eapply by_pump, pump_load_head; [by_fields..|apply p_load_head; reflexivity]).
  take ltac:(eapply by_pump, pump_reserved;
    [by_fields|by_fields|eapply (p_load_tail_free _ 0 0 256); vm_compute; done|by_fields|vm_compute; done]).
  take ltac:(eapply by_pump, (pump_read _ _ _ _ _ _ (replicate 10 Byte.x2a));
    [by_fields|by_fields|vm_compute; lia|vm_compute; done|reflexivity|
     eapply (p_fill _ _ 0); vm_compute; done]).
  take ltac:(eapply by_reader, reader_acquire; [apply c_load_tail; by_fields|by_fields]).
  take ltac:(eapply by_reader, reader_acquire;
    [eapply (c_load_head_empty _ 0 0); vm_compute; done|by_fields]).
  take ltac:(eapply by_pump, (pump_read _ _ _ _ _ _ (replicate 6 Byte.x2a));
    [by_fields|by_fields|vm_compute; lia|vm_compute; done|reflexivity|
     eapply (p_fill _ _ 10); vm_compute; done]).
  take ltac:(eapply by_pump, (pump_describe _ _ _ _ _ _ (Some (1, 5)));
    [by_fields|by_fields|eapply (p_describe _ _ (sink_descriptor tiny_pcm 0 1_000_000_005) 16);
     vm_compute; done|by_fields]).
  take ltac:(eapply by_pump, pump_publish; [by_fields|eapply p_publish; by_fields|by_fields]).
  take ltac:(eapply by_pump, pump_woken; by_fields).
  take ltac:(eapply by_reader, reader_acquire; [apply c_load_tail; by_fields|by_fields]).
  take ltac:(eapply by_reader, reader_acquire;
    [eapply (c_load_head_frame _ 0 1 256); vm_compute; done|by_fields]).
  take ltac:(eapply by_reader, reader_acquire; [eapply (c_read_descriptor _ 0 256); vm_compute; done|by_fields]).
  take ltac:(eapply by_reader, (reader_copy _ _ _ (Some 32%nat)); by_fields).
  take ltac:(eapply by_reader, reader_release; [by_fields|eapply c_release; by_fields|by_fields]).
  apply rtc_refl.
  Unshelve. split; vm_compute; reflexivity.
Qed.


(** PipeWire publishes a frame of two bytes, reserves the next slot, and the pump
    writes the frame in two pieces. *)
Lemma host_run :
  ∃ i, rtc host_step (host_start tiny_mem) i ∧ ho_pump i = Writing 2 ∧ ho_wire i = [Byte.x01; Byte.x02].
Proof.
  eexists. split; [|shelve].
  take ltac:(eapply by_publisher, p_load_head; by_fields).
  take ltac:(eapply by_publisher, (p_load_tail_free _ 0 0 256); vm_compute; done).
  take ltac:(eapply by_publisher, (p_fill _ _ 0 [Byte.x01; Byte.x02]); vm_compute; done).
  take ltac:(eapply by_publisher, (p_describe _ _ (frame_descriptor_new Pcm_kind 0) 2); vm_compute; done).
  take ltac:(eapply by_publisher, p_publish; by_fields).
  take ltac:(eapply by_writer, writer_load_tail; [by_fields..|apply c_load_tail; reflexivity]).
  take ltac:(eapply by_writer, writer_found;
    [by_fields|by_fields|eapply (c_load_head_frame _ 0 1 256); vm_compute; done|by_fields]).
  take ltac:(eapply by_writer, writer_leased;
    [by_fields|by_fields|eapply (c_read_descriptor _ 0 256); vm_compute; done|by_fields|vm_compute; reflexivity]).
  take ltac:(eapply by_writer, (writer_write _ _ _ 1); [by_fields|by_fields|lia|vm_compute; done]).
  take ltac:(eapply by_publisher, p_load_head; by_fields).
  take ltac:(eapply by_publisher, (p_load_tail_free _ 1 0 384); vm_compute; done).
  take ltac:(eapply by_writer, (writer_write _ _ _ 1); [by_fields|by_fields|lia|vm_compute; done]).
  apply rtc_refl.
  Unshelve. split; vm_compute; reflexivity.
Qed.

Lemma host_pump_in_order_witness :
  ∃ i, rtc host_step (host_start tiny_mem) i ∧ ho_wire i = [Byte.x01; Byte.x02] ∧
    wire_in_order i ∧ ho_wire i `prefix_of` concat (snd <$> c_hist (ho_ring i)).
Proof.
  destruct host_run as (i & Hr & _ & Hw). exists i. split; [exact Hr|]. split; [exact Hw|].
  destruct (host_pump_in_order 16 tiny_mem i eq_refl tiny_mem_fresh Hr) as (H1 & H2 & _).
  split; [exact H1|exact H2].
Defined.
End Pumps.
