(* ===== verification/Frame.v ===== *)
(** * Captured frames ([src/topshim/frame.rs], [src/bridge.rs], [src/dorsche_core.cc])

    [SharedPcmFrame::from_cpp] takes the two descriptors out of the C++ frame
    object, waits for the capture fence and maps the samples.  The model follows
    every descriptor and mapping through all of its exits. *)

From stdpp Require Import gmap.
From S2P Require Import Prelude Types Bytes Ring RingSpec RingSafety RingSetup.

(** ** The C++ frame object

    [HardwareFrame] of [dorsche_core.cc]; -1 is a descriptor it no longer owns. *)
Record HardwareFrame := {
  hf_sample_count : Z;
  hf_sample_rate : Z;
  hf_sequence : Z;
  hf_capture_time_ns : Z;
  hf_is_dma_buf : bool;
  hf_buffer_fd : Z;
  hf_fence_fd : Z;
  hf_mapping : option Z;
}.

Definition with_fds (buffer fence : Z) (mapping : option Z) (f : HardwareFrame) : HardwareFrame :=
  {| hf_sample_count := hf_sample_count f; hf_sample_rate := hf_sample_rate f;
     hf_sequence := hf_sequence f; hf_capture_time_ns := hf_capture_time_ns f;
     hf_is_dma_buf := hf_is_dma_buf f; hf_buffer_fd := buffer; hf_fence_fd := fence;
     hf_mapping := mapping |}.

(** Reading the pollable fence: one round of [readable().await?] and
    [read_exact]. *)
Class Fence (K : Type) := {
  fence_readable : Z → K → (errno + unit) * K;
  fence_read : Z → K → (errno + unit) * K;
}.

Record SharedPcmFrame := {
  sf_buffer : Z;
  sf_mapping : Mapping;
  sf_sample_count : Z;
  sf_sample_rate : Z;
  sf_sequence : Z;
  sf_capture_time_ns : Z;
  sf_dma_buf : bool;
}.

Section from_cpp.
Context {K : Type} `{!Kernel K} `{!Fence K}.

Definition unmap_cpp (f : HardwareFrame) : K → K :=
  match hf_mapping f with Some a => sys_munmap a | None => λ k, k end.

(** [HardwareFrame::take_buffer_fd]: ends C++ access, then [exchange(fd, -1)]. *)
Definition take_buffer_fd (f : HardwareFrame) : M K (Z * HardwareFrame) := λ k,
  (Ok (hf_buffer_fd f, with_fds (-1) (hf_fence_fd f) None f), unmap_cpp f k).

Definition take_fence_fd (f : HardwareFrame) : M K (Z * HardwareFrame) := λ k,
  (Ok (hf_fence_fd f, with_fds (hf_buffer_fd f) (-1) (hf_mapping f) f), k).

Definition close_if (fd : Z) (k : K) : K := if 0 <=? fd then sys_close fd k else k.

(** [~HardwareFrame] *)
Definition drop_hardware_frame (f : HardwareFrame) (k : K) : K :=
  close_if (hf_fence_fd f) (close_if (hf_buffer_fd f) (unmap_cpp f k)).

(** The loop of [wait_for_fence]; [None] when the fence is still pending. *)
Fixpoint fence_loop (fuel : nat) (fd : Z) : M K (option unit) :=
  match fuel with
  | O => mret None
  | S fuel =>
      os (fence_readable fd) !;
      let! r := (λ k, let '(r, k) := fence_read fd k in (Ok r, k)) in
      match r with
      | inr _ => mret (Some tt)
      | inl EAGAIN => fence_loop fuel fd
      | inl error => lift (Err [errno_message error])
      end
  end.

(** [wait_for_fence] owns the fence file: it is closed on every return. *)
Definition wait_for_fence (fuel : nat) (fd : Z) : M K (option unit) :=
  owning_fd fd
    (os (reactor_register fd) !;
     let! r := fence_loop fuel fd in
     match r with
     | Some _ => mmodify (sys_close fd) !; mret r
     | None => mret r
     end).

(** [SharedPcmFrame::from_cpp]; the descriptors of [raw] are its state, so a
    dropped [raw] closes exactly those it still has. *)
Definition from_cpp (fuel : nat) (raw : option HardwareFrame) : M K (option SharedPcmFrame) :=
  match raw with
  | None => lift (Err ["C++ returned a null capture frame"])
  | Some raw =>
      match checked_mul 64 (hf_sample_count raw) 4 with
      | None => mmodify (drop_hardware_frame raw) !; lift (Err ["PCM byte length overflow"])
      | Some byte_count =>
          let! taken := take_buffer_fd raw in
          let buffer_fd := fst taken in
          let! taken := take_fence_fd (snd taken) in
          let fence_fd := fst taken in
          let raw := snd taken in
          if negb (0 <=? buffer_fd) then
            mmodify (drop_hardware_frame raw) !;
            lift (Err ["C++ transferred an invalid buffer fd"])
          else if fence_fd <? 0 then
            mmodify (sys_close buffer_fd) !; mmodify (drop_hardware_frame raw) !;
            lift (Err ["C++ transferred an invalid fence fd"])
          else
            mmodify (drop_hardware_frame raw) !;
            owning_fd buffer_fd
            (let! done := mcontext (wait_for_fence fuel fence_fd) "capture fence" in
             match done with
             | None => mret None
             | Some _ =>
                 let! a := mcontext (os (sys_mmap buffer_fd byte_count))
                             "read-only map of capture buffer" in
                 let mapping := {| map_address := a; map_len := byte_count |} in
                 owning_map a
                 (lift (ensure (map_len mapping =? byte_count) "short PCM mapping") !;
                  lift (ensure (map_address mapping mod 4 =? 0) "PCM mapping is not f32-aligned") !;
                  mret (Some {| sf_buffer := buffer_fd;
                                sf_mapping := mapping;
                                sf_sample_count := hf_sample_count raw;
                                sf_sample_rate := hf_sample_rate raw;
                                sf_sequence := hf_sequence raw;
                                sf_capture_time_ns := hf_capture_time_ns raw;
                                sf_dma_buf := hf_is_dma_buf raw |}))
             end)
      end
  end.

(** [Deref]: the samples, as the bit patterns of the [f32] values; a slice that
    leaves the mapping is undefined behaviour. *)
Definition frame_samples (f : SharedPcmFrame) : M K (list Z) := λ k,
  match mapped k (map_address (sf_mapping f)) with
  | Some bs =>
      if (4 * sf_sample_count f <=? map_len (sf_mapping f)) &&
         (map_len (sf_mapping f) <=? Z.of_nat (length bs))
      then (Ok ((λ i, load 4 (4 * i) bs) <$> seq 0 (Z.to_nat (sf_sample_count f))), k)
      else (Undef "slice outside of the mapping", k)
  | None => (Undef "access to unmapped memory", k)
  end.

End from_cpp.

(** The fence operations do not change what the process owns. *)
Class FenceLaws (K : Type) `{!Kernel K} `{!Fence K} : Prop := {
  law_readable fd (k : K) r k' : fence_readable fd k = (r, k') → kv k' = kv k;
  law_fence_read fd (k : K) r k' : fence_read fd k = (r, k') → kv k' = kv k;
}.

(** * Theorems *)

Section proofs.
Context {K : Type} `{!Kernel K} `{!KernelLaws K} `{!Fence K} `{!FenceLaws K}.
Implicit Types (k : K).

Lemma wp_fence_loop fuel fd k :
  wp (fence_loop fuel fd) k (λ _ k', kv k' = kv k) (λ _ k', kv k' = kv k).
Proof.
  revert k. induction fuel as [|fuel IH]; intros k; [by apply wp_ret|]. cbn [fence_loop].
  apply wp_bind, wp_os. intros r k1 Hr. apply law_readable in Hr. destruct r as [e|[]]; [done|].
  apply wp_bind. unfold wp at 1. destruct (fence_read fd k1) as [r k2] eqn:Hr2.
  apply law_fence_read in Hr2.
  destruct r as [[|w]|[]]; [|by apply wp_lift; naive_solver congruence|apply wp_ret; congruence].
  eapply wp_mono; [apply IH|..]; cbn; intros; congruence.
Qed.

(** Descriptors and mappings of [k] with the fence closed. *)
Lemma wp_wait_for_fence fuel fd k :
  wp (wait_for_fence fuel fd) k
    (λ r k', match r with
             | Some _ => kv k' = view_fds (delete fd) (kv k)
             | None => kv k' = kv k
             end)
    (λ _ k', kv k' = view_fds (delete fd) (kv k)).
Proof.
  unfold wait_for_fence. apply wp_owning_fd, wp_bind, wp_os. intros r k1 Hr.
  apply law_register in Hr. destruct r as [e|[]]; [by rewrite law_close, Hr|].
  apply wp_bind. eapply wp_mono; [apply wp_fence_loop|..]; cbn.
  - intros [[]|] k2 Hk2; [|apply wp_ret; congruence]. apply wp_bind, wp_modify, wp_ret.
    by rewrite law_close, Hk2, Hr.
  - intros e k2 Hk2. by rewrite law_close, Hk2, Hr.
Qed.

Lemma kv_unmap_cpp f k :
  kv (unmap_cpp f k) =
  view_maps (match hf_mapping f with Some a => delete a | None => λ m, m end) (kv k).
Proof.
  unfold unmap_cpp. destruct (hf_mapping f); [apply law_munmap|]. by destruct (kv k).
Qed.

Definition cpp_maps (f : HardwareFrame) (k : K) : gmap Z (Z * Z) :=
  match hf_mapping f with
  | Some a => delete a (kv_maps (kv k)) | None => kv_maps (kv k) end.

(** Closing a descriptor that may be the invalid one. *)
Definition closed (fd : Z) (fds : gmap Z Z) : gmap Z Z := if 0 <=? fd then delete fd fds else fds.

(** The exit that forgets the fence: the buffer descriptor is invalid and the
    byte length did not overflow before the fence was taken. *)
Definition forgets_fence (f : HardwareFrame) : bool :=
  (hf_buffer_fd f <? 0) && in_width 64 (hf_sample_count f * 4).

(** What [from_cpp] leaves in the process, for each of its outcomes. *)
Definition frame_owned (raw : HardwareFrame) (o : Z) k (r : option SharedPcmFrame) (k' : K) : Prop :=
  0 <= hf_buffer_fd raw ∧ 0 <= hf_fence_fd raw ∧
  match r with
  | Some f =>
      kv_fds (kv k') = delete (hf_fence_fd raw) (kv_fds (kv k)) ∧
      kv_maps (kv k') = <[map_address (sf_mapping f) := (o, map_len (sf_mapping f))]> (cpp_maps raw k) ∧
      map_len (sf_mapping f) = 4 * sf_sample_count f ∧
      sf_buffer f = hf_buffer_fd raw ∧ sf_sample_count f = hf_sample_count raw ∧
      sf_sequence f = hf_sequence raw
  | None => kv_fds (kv k') = kv_fds (kv k) ∧ kv_maps (kv k') = cpp_maps raw k
  end.

Definition frame_released (raw : HardwareFrame) k (k' : K) : Prop :=
  kv_fds (kv k') = closed (hf_buffer_fd raw)
    (if forgets_fence raw then kv_fds (kv k) else closed (hf_fence_fd raw) (kv_fds (kv k))) ∧
  kv_maps (kv k') = cpp_maps raw k.

Lemma kv_drop_hardware_frame f k :
  kv_fds (kv (drop_hardware_frame f k)) = closed (hf_fence_fd f) (closed (hf_buffer_fd f) (kv_fds (kv k))) ∧
  kv_maps (kv (drop_hardware_frame f k)) = cpp_maps f k.
Proof.
  unfold drop_hardware_frame, close_if, closed, cpp_maps.
  destruct (0 <=? hf_fence_fd f), (0 <=? hf_buffer_fd f); rewrite ?law_close, kv_unmap_cpp; cbn;
    by destruct (hf_mapping f).
Qed.

(** The part of [from_cpp] after the two descriptors were found valid. *)
Lemma wp_from_cpp_valid fuel raw o k :
  0 <= hf_buffer_fd raw → 0 <= hf_fence_fd raw → 0 <= hf_sample_count raw →
  hf_buffer_fd raw ≠ hf_fence_fd raw → kv_fds (kv k) !! hf_buffer_fd raw = Some o →
  in_width 64 (hf_sample_count raw * 4) = true →
  wp (from_cpp fuel (Some raw)) k (frame_owned raw o k) (λ _ k', frame_released raw k k').
Proof.
  intros Hb Hf Hsc Hne Ho Hw. unfold from_cpp, frame_owned, frame_released, forgets_fence, closed, cpp_maps.
  unfold checked_mul. rewrite Hw. replace (hf_sample_count raw * 4) with (4 * hf_sample_count raw) by lia.
  apply wp_bind. unfold wp at 1, take_buffer_fd. cbn [fst snd].
  apply wp_bind. unfold wp at 1, take_fence_fd. cbn [fst snd].
  cbn [with_fds hf_buffer_fd hf_fence_fd hf_mapping].
  rewrite !(proj2 (Z.leb_le 0 _)), !(proj2 (Z.ltb_ge _ 0)) by lia. cbn [negb andb].
  apply wp_bind, wp_modify.
  set (k1 := drop_hardware_frame _ _).
  assert (kv k1 = view_maps (match hf_mapping raw with Some a => delete a | None => λ m, m end)
                    (kv k)) as Hk1 by exact (kv_unmap_cpp raw k).
  clearbody k1. apply wp_owning_fd, wp_bind, wp_context.
  eapply wp_mono; [apply wp_wait_for_fence|..]; cbn.
  2:{ intros e k2 Hk2. rewrite law_close, Hk2, Hk1. cbn. split; [done|]. by destruct (hf_mapping raw). }
  intros [[]|] k2 Hk2.
  2:{ apply wp_ret. rewrite Hk2, Hk1. cbn. do 2 (split; [done|]). split; [done|]. by destruct (hf_mapping raw). }
  apply wp_bind, wp_context, wp_os. intros r k3 Hr.
  pose proof (law_mmap (hf_buffer_fd raw) o _ k2 r k3 Hr) as Hm.
  assert (kv_fds (kv k2) !! hf_buffer_fd raw = Some o) as Ho2
    by (rewrite Hk2, Hk1; cbn; by rewrite lookup_delete_ne).
  specialize (Hm Ho2). destruct r as [e|a].
  { rewrite law_close, Hm, Hk2, Hk1. cbn. split; [done|]. by destruct (hf_mapping raw). }
  destruct Hm as (_ & Hal & _ & Hk3). apply wp_owning_map, wp_bind.
  rewrite Z.eqb_refl. apply wp_ensure; [intros _|done]. apply wp_bind, wp_ensure.
  - intros _. apply wp_ret. rewrite Hk3, Hk2, Hk1. cbn. do 2 (split; [done|]). by destruct (hf_mapping raw).
  - intros Hbad. exfalso. apply Z.eqb_neq in Hbad. apply Hbad.
    rewrite <- (Z.mod_mod_divide a 4096 4), Hal; [done|]. by exists 1024.
Qed.

(** C23. [from_cpp] accounts for both descriptors of the C++ frame on every exit,
    whatever descriptors the frame hands over.  It succeeds only with two valid
    ones: then the frame keeps the buffer descriptor with a new mapping of exactly
    [sample_count] samples, and the fence is closed.  While the fence is pending
    both are still owned.  On every error both are closed and no mapping is left,
    with one exception, which is exactly [forgets_fence]: when the buffer
    descriptor is invalid, the fence that was already taken stays open.  The C++
    mapping is gone in all cases, nothing is closed twice, and nothing panics. *)
Theorem from_cpp_owns_descriptors fuel raw o k :
  0 <= hf_sample_count raw →
  (0 <= hf_buffer_fd raw →
   hf_buffer_fd raw ≠ hf_fence_fd raw ∧ kv_fds (kv k) !! hf_buffer_fd raw = Some o) →
  wp (from_cpp fuel (Some raw)) k (frame_owned raw o k) (λ _ k', frame_released raw k k').
Proof.
  intros Hsc Hbuf. destruct (in_width 64 (hf_sample_count raw * 4)) eqn:Hw.
  2:{ unfold from_cpp, frame_released, forgets_fence, checked_mul. rewrite Hw, andb_false_r.
      apply wp_bind, wp_modify. destruct (kv_drop_hardware_frame raw k) as [Hfd Hmp].
      unfold wp, lift. split; [|done]. rewrite Hfd. unfold closed.
      repeat case_match; try done. by rewrite delete_delete. }
  destruct (decide (0 <= hf_buffer_fd raw)) as [Hb|Hb], (decide (0 <= hf_fence_fd raw)) as [Hf|Hf];
    [by apply wp_from_cpp_valid; naive_solver|..].
  all: unfold from_cpp, frame_released, forgets_fence, checked_mul; rewrite Hw;
    apply wp_bind; unfold wp at 1, take_buffer_fd; cbn [fst snd];
    apply wp_bind; unfold wp at 1, take_fence_fd; cbn [fst snd];
    cbn [with_fds hf_buffer_fd hf_fence_fd hf_mapping].
  1: rewrite (proj2 (Z.leb_le 0 _)), (proj2 (Z.ltb_lt (hf_fence_fd raw) 0)) by lia; cbn [negb];
     apply wp_bind, wp_modify.
  2-3: rewrite (proj2 (Z.leb_gt 0 (hf_buffer_fd raw))) by lia; cbn [negb].
  all: apply wp_bind, wp_modify; unfold wp, lift;
    (match goal with |- context [drop_hardware_frame ?f ?k1] =>
       destruct (kv_drop_hardware_frame f k1) as [-> ->] end);
    unfold closed, cpp_maps; cbn [with_fds hf_buffer_fd hf_fence_fd hf_mapping];
    rewrite ?law_close, kv_unmap_cpp; cbn;
    repeat (case_match; b2p; try lia); done.
Qed.

(** A C++ frame that hands over an invalid buffer descriptor with a valid
    fence makes [from_cpp] fail with the fence descriptor still open: it was
    taken out of the C++ object and is never turned into an owned [File]. *)
Theorem invalid_buffer_leaks_fence fuel raw o k :
  hf_buffer_fd raw < 0 → 0 <= hf_fence_fd raw →
  in_width 64 (hf_sample_count raw * 4) = true →
  kv_fds (kv k) !! hf_fence_fd raw = Some o →
  ∃ k', from_cpp fuel (Some raw) k = (Err ["C++ transferred an invalid buffer fd"], k') ∧
    kv_fds (kv k') !! hf_fence_fd raw = Some o.
Proof.
  intros Hb Hf Hw Ho. unfold from_cpp, checked_mul. rewrite Hw.
  unfold mbind, take_buffer_fd, take_fence_fd, mmodify, lift.
  cbn [fst snd with_fds hf_buffer_fd hf_fence_fd hf_mapping].
  rewrite (proj2 (Z.leb_gt 0 _)) by lia. cbn [negb]. eexists. split; [done|].
  unfold drop_hardware_frame, close_if. cbn. by rewrite kv_unmap_cpp.
Qed.
End proofs.

(** ** A captured frame to run the code on *)

#[global] Instance sim_fence : Fence sim_kernel := {|
  fence_readable _ k := (inr tt, k);
  fence_read _ k := (inr tt, k);
|}.

#[global] Instance sim_fence_laws : FenceLaws sim_kernel.
Proof. split; cbn; intros; by simplify_eq. Qed.

Definition captured_frame (buffer : Z) : HardwareFrame :=
  {| hf_sample_count := 160; hf_sample_rate := 16_000; hf_sequence := 0;
     hf_capture_time_ns := 5; hf_is_dma_buf := false; hf_buffer_fd := buffer; hf_fence_fd := 4;
     hf_mapping := Some 8192 |}.

Definition capture_kernel : sim_kernel :=
  {| sk_view := {| kv_fds := {[3 := 1; 4 := 2]}; kv_files := {[1 := zeros 640]};
                   kv_maps := {[8192 := (1, 640)]} |}; sk_budget := 10 |}.

Lemma from_cpp_owns_descriptors_witness :
  match from_cpp 1 (Some (captured_frame 3)) capture_kernel with
  | (Ok (Some f), k') =>
      kv_fds (kv k') = delete 4 (kv_fds (kv capture_kernel)) ∧
      map_len (sf_mapping f) = 4 * sf_sample_count f ∧
      is_ok (fst (frame_samples f k')) = true
  | _ => False
  end.
Proof.
  assert (is_ok (fst (from_cpp 1 (Some (captured_frame 3)) capture_kernel)) = true ∧
    match from_cpp 1 (Some (captured_frame 3)) capture_kernel with
    | (Ok (Some f), k') => is_ok (fst (frame_samples f k')) = true
    | _ => False end) as [Hok Hs] by (vm_compute; auto).
  pose proof (from_cpp_owns_descriptors 1 (captured_frame 3) 1 capture_kernel
    ltac:(done) ltac:(done)) as Hw. unfold wp in Hw.
  destruct (from_cpp 1 (Some (captured_frame 3)) capture_kernel) as [[[f|]|?|?|?] k'];
    try discriminate Hok; [|destruct Hs].
  destruct Hw as (_ & _ & Hfd & _ & Hl & _). split; [exact Hfd|]. split; [exact Hl|exact Hs].
Defined.

Lemma invalid_buffer_leaks_fence_witness :
  ∃ k', from_cpp 1 (Some (captured_frame (-1))) capture_kernel =
      (Err ["C++ transferred an invalid buffer fd"], k') ∧ kv_fds (kv k') !! 4 = Some 2.
Proof.
  exact (invalid_buffer_leaks_fence 1 (captured_frame (-1)) 2 capture_kernel
    eq_refl ltac:(done) eq_refl eq_refl).
Defined.
