(* ===== verification/Float.v ===== *)
(** * Floating point

    The [f32] and [f64] arithmetic the audio code uses, as IEEE-754 binary32 and
    binary64 values computed with [SpecFloat] (round to nearest even), and the
    conversions to and from 16-bit samples. *)

From Stdlib Require Import Floats.SpecFloat.
From S2P Require Import Prelude.

(** ** Binary32 *)

Abbreviation f32 := spec_float.

Definition f32_add : f32 → f32 → f32 := SFadd 24 128.
Definition f32_sub : f32 → f32 → f32 := SFsub 24 128.
Definition f32_mul : f32 → f32 → f32 := SFmul 24 128.
Definition f32_div : f32 → f32 → f32 := SFdiv 24 128.
Definition f32_sqrt : f32 → f32 := SFsqrt 24 128.
Definition f32_zero : f32 := S754_zero false.

(** [n as f32], rounded to nearest even. *)
Definition f32_of_Z (n : Z) : f32 := binary_normalize 24 128 n 0 false.

(** [x > y] *)
Definition f32_gt (x y : f32) : bool := match SFcompare x y with Some Gt => true | _ => false end.

(** [x.is_finite()], [x <= 0.0], [x > 1.0] *)
Definition f32_is_finite (x : f32) : bool :=
  match x with S754_zero _ | S754_finite _ _ _ => true | _ => false end.
Definition f32_le (x y : f32) : bool :=
  match SFcompare x y with Some Lt | Some Eq => true | _ => false end.
Definition f32_one : f32 := f32_of_Z 1.

(** [std::f32::consts::TAU] *)
Definition TAU_f32 : f32 := S754_finite false 13176795 (-21).

(** ** Binary64 *)

Abbreviation f64 := spec_float.

Definition f64_add : f64 → f64 → f64 := SFadd 53 1024.
Definition f64_mul : f64 → f64 → f64 := SFmul 53 1024.
Definition f64_div : f64 → f64 → f64 := SFdiv 53 1024.
Definition f64_sqrt : f64 → f64 := SFsqrt 53 1024.
Definition f64_of_Z (n : Z) : f64 := binary_normalize 53 1024 n 0 false.
Definition f64_zero : f64 := S754_zero false.

(** [std::f64::consts::TAU] and 0.05 *)
Definition TAU_f64 : f64 := S754_finite false 7074237752028440 (-50).
Definition f64_0_05 : f64 := S754_finite false 7205759403792794 (-57).

Definition f64_abs : f64 → f64 := SFabs.
Definition f64_is_nan (x : f64) : bool := match x with S754_nan => true | _ => false end.

(** [x.max(y)]: the other one if one is NaN. *)
Definition f64_max (x y : f64) : f64 :=
  match SFcompare x y with
  | Some Lt => y
  | Some _ => x
  | None => if f64_is_nan x then y else x
  end.

(** ** Samples *)

Definition i16_min : Z := - 2 ^ 15.
Definition i16_max : Z := 2 ^ 15 - 1.

(** [i16::from_le_bytes] and [to_le_bytes] on the low and high byte. *)
Definition i16_of_bits (u : Z) : Z := if u <? 2 ^ 15 then u else u - 2 ^ 16.
Definition i16_bits (x : Z) : Z := x mod 2 ^ 16.

Lemma i16_of_bits_range u : 0 <= u < 2 ^ 16 → i16_min <= i16_of_bits u <= i16_max.
Proof. unfold i16_of_bits, i16_min, i16_max. case_match; b2p; lia. Qed.

Lemma i16_of_bits_bits x : i16_min <= x <= i16_max → i16_of_bits (i16_bits x) = x.
Proof.
  unfold i16_of_bits, i16_bits, i16_min, i16_max. intros.
  destruct (decide (0 <= x)).
  - rewrite Z.mod_small by lia. by rewrite (proj2 (Z.ltb_lt _ _)) by lia.
  - assert (x mod 2 ^ 16 = x + 2 ^ 16) as ->
      by (symmetry; apply (Z.mod_unique _ _ (-1)); lia).
    rewrite (proj2 (Z.ltb_ge _ _)) by lia. lia.
Qed.

(** [x.round()]: to the nearest integer, halves away from zero. *)
Definition round_magnitude (m e : Z) : Z :=
  if 0 <=? e then m * 2 ^ e else (m + 2 ^ (- e - 1)) / 2 ^ (- e).

(** [x.round().clamp(lo, hi) as i16] and, with a step before the cast, the
    truncating [x as i16]: both saturate, and NaN becomes zero. *)
Definition clamp (lo hi x : Z) : Z := Z.max lo (Z.min hi x).

Definition f32_round_i16 (x : f32) : Z :=
  match x with
  | S754_zero _ => 0
  | S754_infinity s => if s then i16_min else i16_max
  | S754_nan => 0
  | S754_finite s m e =>
      let r := round_magnitude (Zpos m) e in clamp i16_min i16_max (if s then - r else r)
  end.

Definition truncate_magnitude (m e : Z) : Z := if 0 <=? e then m * 2 ^ e else m / 2 ^ (- e).

Definition f32_as_i16 (x : f32) : Z :=
  match x with
  | S754_zero _ => 0
  | S754_infinity s => if s then i16_min else i16_max
  | S754_nan => 0
  | S754_finite s m e =>
      let r := truncate_magnitude (Zpos m) e in clamp i16_min i16_max (if s then - r else r)
  end.

Lemma clamp_range lo hi x : lo <= hi → lo <= clamp lo hi x <= hi.
Proof. unfold clamp. lia. Qed.

Lemma f32_round_i16_range x : i16_min <= f32_round_i16 x <= i16_max.
Proof.
  destruct x; cbn; try (unfold i16_min, i16_max; try case_match; lia).
  apply clamp_range. by vm_compute.
Qed.

Definition i64_min : Z := - 2 ^ 63.
Definition i64_max : Z := 2 ^ 63 - 1.

(** [x as i64] *)
Definition f64_as_i64 (x : f64) : Z :=
  match x with
  | S754_zero _ => 0
  | S754_infinity s => if s then i64_min else i64_max
  | S754_nan => 0
  | S754_finite s m e =>
      let r := truncate_magnitude (Zpos m) e in clamp i64_min i64_max (if s then - r else r)
  end.
