(* ===== verification/Actors.v ===== *)
(** * The audio actors ([src/topshim/actors.rs], [src/main.rs])

    The controller proxy, the microphone capture, the voice-activity detector and
    the playback sink.  Each actor is a loop around [tokio::select!]: a round
    records what every branch of the select finds, the select picks a branch the
    way the code orders them, and the branch's body updates the actor's locals.
    Samples are IEEE-754 binary32 values computed with [SpecFloat]. *)

From Stdlib Require Import Floats.SpecFloat.
From S2P Require Import Prelude Float.

(** The literals [0.20], [0.10] and [0.18], correctly rounded to 24 bits. *)
Definition f32_0_20 : f32 := S754_finite false 13421773 (-26).
Definition f32_0_10 : f32 := S754_finite false 13421773 (-27).
Definition f32_0_18 : f32 := S754_finite false 12079596 (-26).
(** [std::f32::consts::TAU] *)
Definition f32_TAU : f32 := S754_finite false 13176795 (-21).

Definition FRAME_SAMPLES : Z := 160.
Definition SAMPLE_RATE : Z := 16_000.

(** ** Select *)

Inductive watch_status :=
| WQuiet                       (* changed() is pending *)
| WChanged (value : bool)
| WClosed.                     (* the sender is gone *)

Inductive recv_status (A : Type) :=
| Ready (a : A)
| Pending
| Gone.                        (* closed and drained: recv() is None *)
Arguments Ready {A} a.
Arguments Pending {A}.
Arguments Gone {A}.

(** The first branch of the loops: break on shutdown.  [Some true]: break,
    [Some false]: the branch ran and the loop continues, [None]: not ready. *)
Definition shutdown_branch (w : watch_status) : option bool :=
  match w with
  | WQuiet => None
  | WChanged v => Some v
  | WClosed => Some true
  end.

(** How an actor leaves a round. *)
Inductive flow (S : Type) :=
| Next (s : S)                 (* another turn of the loop *)
| Wait                         (* no branch is ready *)
| Finish                       (* break, the actor returns Ok *)
| Failed (e : error)           (* the actor returns Err *)
| Died (why : string).         (* the actor panics *)
Arguments Next {S} s.
Arguments Wait {S}.
Arguments Finish {S}.
Arguments Failed {S} e.
Arguments Died {S} why.

(** ** Actor 3: voice activity and barge-in *)

Record MicFrame := {
  mf_samples : list f32;
  mf_sequence : Z;
  mf_capture_time_ns : Z;
}.

Record EchoReference := {
  er_pcm : list f32;
  er_playback_sequence : Z;
  er_presentation_time_ns : Z;
}.

Record BargeIn := { bi_microphone_sequence : Z }.

Record vad_state := { vs_latest_echo : option EchoReference; vs_speech_active : bool }.

Definition vad_init : vad_state := {| vs_latest_echo := None; vs_speech_active := false |}.

(** [latest_echo.as_ref().filter(..)]: within 50 ms of the capture. *)
Definition aligned_echo (latest : option EchoReference) (f : MicFrame) : option EchoReference :=
  match latest with
  | Some e =>
      if Z.abs (mf_capture_time_ns f - er_presentation_time_ns e) <=? 50_000_000
      then Some e else None
  | None => None
  end.

(** The residual energy of one sample against the echo reference. *)
Definition residual_square (echo : option EchoReference) (index : nat) (mic : f32) : f32 :=
  let reference := match echo with
                   | Some e => default f32_zero (er_pcm e !! index)
                   | None => f32_zero
                   end in
  let residual := f32_sub mic (f32_mul f32_0_20 reference) in
  f32_mul residual residual.

Fixpoint sum_residuals (echo : option EchoReference) (index : nat) (l : list f32) (acc : f32) : f32 :=
  match l with
  | [] => acc
  | mic :: l => sum_residuals echo (S index) l (f32_add acc (residual_square echo index mic))
  end.

Definition vad_energy (echo : option EchoReference) (f : MicFrame) : f32 :=
  f32_div (sum_residuals echo 0 (mf_samples f) f32_zero)
          (f32_of_Z (Z.of_nat (length (mf_samples f)))).

Definition vad_speaking (echo : option EchoReference) (f : MicFrame) : bool :=
  f32_gt (f32_sqrt (vad_energy echo f)) f32_0_10.

(** The microphone branch: the new locals and the barge-in it tries to send. *)
Definition vad_frame (f : MicFrame) (s : vad_state) : vad_state * option BargeIn :=
  let echo := aligned_echo (vs_latest_echo s) f in
  let speaking := vad_speaking echo f in
  ({| vs_latest_echo := vs_latest_echo s; vs_speech_active := speaking |},
   match echo with
   | Some _ => if speaking && negb (vs_speech_active s)
               then Some {| bi_microphone_sequence := mf_sequence f |} else None
   | None => None
   end).

Record vad_round := {
  vr_shutdown : watch_status;
  vr_echo : recv_status EchoReference;
  vr_microphone : recv_status MicFrame;
}.

(** One turn of the loop.  The [else] arm needs every branch to be disabled; the
    shutdown branch takes any value, so it never is. *)
Definition vad_turn (r : vad_round) (s : vad_state) : flow vad_state * option BargeIn :=
  match shutdown_branch (vr_shutdown r) with
  | Some true => (Finish, None)
  | Some false => (Next s, None)
  | None =>
      match vr_echo r with
      | Ready echo =>
          (Next {| vs_latest_echo := Some echo; vs_speech_active := vs_speech_active s |}, None)
      | _ =>
          match vr_microphone r with
          | Ready f => let '(s, b) := vad_frame f s in (Next s, b)
          | _ => (Wait, None)
          end
      end
  end.

(** [barge_tx.try_send] on the channel of capacity one: dropped when full. *)
Definition try_send_one (b : option BargeIn) (inbox : option BargeIn) : option BargeIn :=
  match inbox with Some _ => inbox | None => b end.

(** ** The controller *)

Record PlaybackReceipt := { rc_sequence : Z; rc_presentation_time_ns : Z }.

(** [HardwareController] of the C++ core. *)
Record HardwareController := { hc_capture_sequence : Z }.

(** [play_pcm]: the receipt carries the sequence and the current time. *)
Definition play_pcm (sequence now_ns : Z) : PlaybackReceipt :=
  {| rc_sequence := sequence; rc_presentation_time_ns := now_ns |}.

(** [capture_next]: the next sequence number; the allocation may throw. *)
Definition capture_next (alloc : result unit) (c : HardwareController)
    : result Z * HardwareController :=
  (rbind alloc (λ _, Ok (hc_capture_sequence c)),
   {| hc_capture_sequence := wrapping_add 64 (hc_capture_sequence c) 1 |}).

Record HardwarePlaybackRequest := { hp_pcm : list f32; hp_sequence : Z }.

Record proxy_round := {
  px_shutdown : watch_status;
  px_playback : recv_status HardwarePlaybackRequest;
  px_capture : recv_status unit;
  px_now : Z;
  px_alloc : result unit;
}.

Inductive proxy_reply :=
| PlaybackReply (r : PlaybackReceipt)
| CaptureReply (r : result Z).

(** One turn of [run_controller_proxy]; an error of [capture_next] becomes its
    text. *)
Definition proxy_turn (r : proxy_round) (c : HardwareController)
    : flow HardwareController * option proxy_reply :=
  match shutdown_branch (px_shutdown r) with
  | Some true => (Finish, None)
  | Some false => (Next c, None)
  | None =>
      match px_playback r with
      | Ready request => (Next c, Some (PlaybackReply (play_pcm (hp_sequence request) (px_now r))))
      | _ =>
          match px_capture r with
          | Ready _ => let '(x, c) := capture_next (px_alloc r) c in (Next c, Some (CaptureReply x))
          | _ => (Wait, None)
          end
      end
  end.

(** ** Actor 1: microphone capture *)

(** One turn of [run_microphone_capture].  The select is not biased: when both
    branches are ready, [tick_first] says which one runs. *)
Definition mic_turn (shutdown : watch_status) (tick tick_first : bool)
    (captured : result MicFrame) (receiver_alive : bool) : flow unit * option MicFrame :=
  let on_shutdown := match shutdown_branch shutdown with
                     | Some true => Some (Finish, None)
                     | Some false => Some (Next tt, None)
                     | None => None
                     end in
  let on_tick := if tick then
                   Some (match captured with
                         | Ok f => if receiver_alive then (Next tt, Some f) else (Finish, None)
                         | Err e => (Failed e, None)
                         | Panic w | Undef w => (Died w, None)
                         end)
                 else None in
  default (Wait, None)
    (if tick_first then (match on_tick with Some x => Some x | None => on_shutdown end)
     else (match on_shutdown with Some x => Some x | None => on_tick end)).

(** ** Actor 4: playback *)

Record sink_state := { sk_current : option (Z * list (list f32)); sk_sequence : Z }.

Definition sink_init : sink_state := {| sk_current := None; sk_sequence := 0 |}.

Record sink_round := {
  sr_shutdown : watch_status;
  sr_barge : recv_status BargeIn;
  sr_command : recv_status (Z * list (list f32));   (* PlaybackCommand::Start *)
  sr_tick : bool;
  sr_play : result PlaybackReceipt;                 (* what proxy.play answers *)
  sr_echo_alive : bool;                             (* whether echo_tx.send succeeds *)
}.

(** What a tick submits: the samples, their sequence number and the echo
    reference mirrored after the receipt. *)
Record submission := { sb_pcm : list f32; sb_sequence : Z; sb_echo : option EchoReference }.

Definition sink_tick (r : sink_round) (s : sink_state) : flow sink_state * option submission :=
  match sk_current s with
  | Some (id, pcm :: frames) =>
      match sr_play r with
      | Ok receipt =>
          let echo := {| er_pcm := pcm; er_playback_sequence := rc_sequence receipt;
                         er_presentation_time_ns := rc_presentation_time_ns receipt |} in
          let sub := {| sb_pcm := pcm; sb_sequence := sk_sequence s; sb_echo := Some echo |} in
          if sr_echo_alive r then
            match add_u 64 (sk_sequence s) 1 with
            | Ok sequence => (Next {| sk_current := Some (id, frames); sk_sequence := sequence |},
                              Some sub)
            | _ => (Died "attempt to add with overflow", Some sub)
            end
          else (Finish, Some {| sb_pcm := pcm; sb_sequence := sk_sequence s; sb_echo := None |})
      | Err e => (Failed e, Some {| sb_pcm := pcm; sb_sequence := sk_sequence s; sb_echo := None |})
      | Panic w | Undef w => (Died w, None)
      end
  | _ => (Next {| sk_current := None; sk_sequence := sk_sequence s |}, None)
  end.

Definition sink_turn (r : sink_round) (s : sink_state) : flow sink_state * option submission :=
  match shutdown_branch (sr_shutdown r) with
  | Some true => (Finish, None)
  | Some false => (Next s, None)
  | None =>
      match sr_barge r with
      | Ready _ => (Next {| sk_current := None; sk_sequence := sk_sequence s |}, None)
      | _ =>
          match sr_command r with
          | Ready start => (Next {| sk_current := Some start; sk_sequence := sk_sequence s |}, None)
          | _ =>
              if sr_tick r && bool_decide (is_Some (sk_current s)) then sink_tick r s
              else (Wait, None)
          end
      end
  end.

(** ** The demo utterance *)

(** One sample of the 220 Hz tone; [sinf] is the platform's [f32::sin]. *)
Definition demo_sample (sinf : f32 → f32) (sample : Z) : f32 :=
  f32_mul f32_0_18
    (sinf (f32_div (f32_mul (f32_mul f32_TAU (f32_of_Z 220)) (f32_of_Z sample))
                   (f32_of_Z SAMPLE_RATE))).

Definition make_demo_utterance (sinf : f32 → f32) (milliseconds : Z) : list (list f32) :=
  (λ frame, (λ index, demo_sample sinf (Z.of_nat frame * FRAME_SAMPLES + Z.of_nat index))
              <$> seq 0 (Z.to_nat FRAME_SAMPLES))
  <$> seq 0 (Z.to_nat (milliseconds / 10)).

(** ** The program ([src/main.rs]) *)

(** What the environment gives [main]: whether the first command is accepted, the
    parsed [DORSCHE_DEMO_MS] if it is set, the outcome of waiting for Ctrl-C, and
    how each of the four tasks ended ([Err] of the outer result is a panic). *)
Record environment := {
  en_send : result unit;
  en_demo_ms : option (result Z);
  en_ctrl_c : result unit;
  en_tasks : list (result (result unit));
}.

(** [for task in [..] { task.await.context("actor panicked")??; }] *)
Definition join_tasks (tasks : list (result (result unit))) : result unit :=
  for_each (λ task, let? r := context task "actor panicked" in r) tasks.

(** The result of [main] and whether it sent the shutdown. *)
Definition main (e : environment) : result unit * bool :=
  match context (en_send e) "start demo utterance" with
  | Ok _ =>
      let waited := match en_demo_ms e with
                    | Some ms => let? _ := context ms "DORSCHE_DEMO_MS" in Ok tt
                    | None => context (en_ctrl_c e) "Ctrl-C handler"
                    end in
      match waited with
      | Ok _ => (join_tasks (en_tasks e), true)
      | r => (r, false)
      end
  | r => (r, false)
  end.

(** * Theorems *)

(** ** Barge-in *)

(** The microphone frames an execution of the detector processes: whether each
    was speech, and the barge-in it raised. *)
Record vad_item := { vi_speaking : bool; vi_barge : option BargeIn }.

Fixpoint vad_trace (rounds : list vad_round) (s : vad_state) : list vad_item :=
  match rounds with
  | [] => []
  | r :: rounds =>
      let item := match shutdown_branch (vr_shutdown r), vr_echo r, vr_microphone r with
                  | None, Ready _, _ => []
                  | None, _, Ready f =>
                      [{| vi_speaking := vad_speaking (aligned_echo (vs_latest_echo s) f) f;
                          vi_barge := snd (vad_turn r s) |}]
                  | _, _, _ => []
                  end in
      match fst (vad_turn r s) with
      | Next s' => item ++ vad_trace rounds s'
      | Wait => vad_trace rounds s
      | _ => item
      end
  end.

(** The local [speech_active] is the verdict on the frame before. *)
Lemma vad_trace_edge rounds : ∀ s j y b,
  vad_trace rounds s !! j = Some y → vi_barge y = Some b →
  vi_speaking y = true ∧
  match j with
  | O => vs_speech_active s = false
  | S j => ∃ x, vad_trace rounds s !! j = Some x ∧ vi_speaking x = false
  end.
Proof.
  induction rounds as [|r rounds IH]; intros s j y b Hj Hb; [done|].
  cbn [vad_trace] in *. unfold vad_turn in *.
  destruct (shutdown_branch (vr_shutdown r)) as [[]|]; cbn in *; [done|by eapply IH|].
  destruct (vr_echo r) as [e| |]; cbn in *.
  { destruct (IH _ _ _ _ Hj Hb) as [? Hp]. split; [done|]. by destruct j. }
  all: destruct (vr_microphone r) as [f| |]; cbn in *; try (by eapply IH).
  all: destruct j as [|j]; cbn in *;
    [simplify_eq; cbn in Hb |- *; destruct (aligned_echo _ f); [|done]; case_match; b2p; done|].
  all: destruct (IH _ _ _ _ Hj Hb) as [? Hp]; split; [done|]; destruct j; [|done];
    cbn in Hp; eexists; by split.
Qed.

(** C35. One speech burst interrupts at most once: every barge-in is raised by a
    speech frame, and between two barge-ins there is a microphone frame that is
    not speech. *)
Theorem barge_in_once_per_burst rounds s i j x y bx by_ :
  vad_trace rounds s !! i = Some x → vad_trace rounds s !! j = Some y → (i < j)%nat →
  vi_barge x = Some bx → vi_barge y = Some by_ →
  vi_speaking x = true ∧ vi_speaking y = true ∧
  ∃ k z, (i < k < j)%nat ∧ vad_trace rounds s !! k = Some z ∧ vi_speaking z = false.
Proof.
  intros Hi Hj Hlt Hbx Hby.
  destruct (vad_trace_edge _ _ _ _ _ Hi Hbx) as [Hx _].
  destruct (vad_trace_edge _ _ _ _ _ Hj Hby) as [Hy Hprev].
  split; [done|]. split; [done|]. destruct j as [|j]; [lia|]. destruct Hprev as (z & Hz & Hnz).
  exists j, z. split; [|done]. split; [|lia].
  destruct (decide (i = j)) as [->|]; [|lia]. congruence.
Qed.

(** Three frames next to an echo: speech, silence, speech. *)
Definition example_echo : EchoReference :=
  {| er_pcm := []; er_playback_sequence := 0; er_presentation_time_ns := 0 |}.
Definition mic_round (amplitude : f32) (sequence : Z) : vad_round :=
  {| vr_shutdown := WQuiet; vr_echo := Pending;
     vr_microphone := Ready {| mf_samples := replicate 4 amplitude; mf_sequence := sequence;
                               mf_capture_time_ns := 1 |} |}.
Definition example_vad : list vad_item :=
  vad_trace [{| vr_shutdown := WQuiet; vr_echo := Ready example_echo; vr_microphone := Pending |};
             mic_round f32_0_20 7; mic_round f32_zero 8; mic_round f32_0_18 9] vad_init.

Lemma barge_in_once_per_burst_witness :
  ∃ k z, (0 < k < 2)%nat ∧ example_vad !! k = Some z ∧ vi_speaking z = false.
Proof.
  refine (proj2 (proj2 (barge_in_once_per_burst _ vad_init 0 2
    {| vi_speaking := true; vi_barge := Some {| bi_microphone_sequence := 7 |} |}
    {| vi_speaking := true; vi_barge := Some {| bi_microphone_sequence := 9 |} |}
    {| bi_microphone_sequence := 7 |} {| bi_microphone_sequence := 9 |} _ _ _ eq_refl eq_refl)));
    [vm_compute; reflexivity|vm_compute; reflexivity|lia].
Defined.

(** ** Playback *)

Fixpoint sink_run (rounds : list sink_round) (s : sink_state) : list submission :=
  match rounds with
  | [] => []
  | r :: rounds =>
      let '(f, sub) := sink_turn r s in
      option_list sub ++
      match f with
      | Next s' => sink_run rounds s'
      | Wait => sink_run rounds s
      | _ => []
      end
  end.

Definition serves_command (r : sink_round) : bool :=
  match sr_command r with Ready _ => true | _ => false end.

Definition pending_frames (s : sink_state) : list (list f32) :=
  match sk_current s with Some (_, frames) => frames | None => [] end.

(** What a turn without a command does to the frames still to be played. *)
Lemma sink_turn_frames r s f sub :
  serves_command r = false → sink_turn r s = (f, sub) →
  match sub with
  | Some x =>
      ∃ frames, pending_frames s = sb_pcm x :: frames ∧ sb_sequence x = sk_sequence s ∧
        ∀ s', f = Next s' → pending_frames s' = frames ∧ sk_sequence s' = sk_sequence s + 1
  | None =>
      ∀ s', f = Next s' → pending_frames s' `prefix_of` pending_frames s ∧
        sk_sequence s' = sk_sequence s
  end.
Proof.
  intros Hc H. unfold serves_command, sink_turn, pending_frames in *.
  destruct (shutdown_branch (sr_shutdown r)) as [[]|];
    [by simplify_eq|simplify_eq; by intros s' [= <-]|].
  destruct (sr_barge r); [simplify_eq; intros s' [= <-]; cbn; split; [apply prefix_nil|done]|..].
  all: destruct (sr_command r); [done|..].
  all: destruct (sr_tick r && _); [|by simplify_eq].
  all: unfold sink_tick in H; destruct (sk_current s) as [[id [|pcm frames]]|] eqn:Hcur.
  all: try (simplify_eq; intros s' [= <-]; cbn; split; [done|done]).
  all: destruct (sr_play r) as [receipt|e|w|w]; try by simplify_eq.
  all: try (simplify_eq; eexists; by repeat (split; [done|])).
  all: destruct (sr_echo_alive r); [|simplify_eq; eexists; by repeat (split; [done|])].
  all: unfold add_u in H; destruct (in_width 64 _); simplify_eq; eexists; (split; [done|]); (split; [done|]);
    intros s' H'; by simplify_eq.
Qed.


(** After a turn that leaves nothing to play, nothing is played without a new
    command. *)
Lemma sink_run_idle rounds s :
  pending_frames s = [] → Forall (λ r, serves_command r = false) rounds → sink_run rounds s = [].
Proof.
  intros Hp Hr. revert s Hp. induction Hr as [|r rounds Hc _ IH]; intros s Hp; [done|]. cbn.
  destruct (sink_turn r s) as [f sub] eqn:Ht. pose proof (sink_turn_frames r s f sub Hc Ht) as H.
  destruct sub as [x|].
  - destruct H as (frames & Hf & _). congruence.
  - destruct f as [s'| | | |]; try done; [|by apply IH].
    destruct (H s' eq_refl) as [[l Hl] _]. apply IH. rewrite Hp in Hl.
    by destruct (pending_frames s').
Qed.

(** C24. A barge-in stops the utterance at once: with no new command, what is
    submitted in all is the part of the current utterance submitted before the
    interrupt was taken, in order from its first pending frame and with
    consecutive sequence numbers; nothing of it is played afterwards. *)
Theorem barge_in_stops_playback rs1 r rs2 s b :
  Forall (λ r, serves_command r = false) (rs1 ++ r :: rs2) →
  sr_shutdown r = WQuiet → sr_barge r = Ready b →
  sink_run (rs1 ++ r :: rs2) s = sink_run rs1 s ∧
  (sb_pcm <$> sink_run rs1 s) `prefix_of` pending_frames s ∧
  (∀ i x, sink_run rs1 s !! i = Some x → sb_sequence x = sk_sequence s + Z.of_nat i).
Proof.
  intros Hr Hsh Hb. revert s. induction rs1 as [|r1 rs1 IH]; intros s; cbn [app] in *.
  - apply Forall_cons in Hr as [Hc Hr]. cbn [sink_run]. unfold sink_turn. rewrite Hsh, Hb. cbn.
    split; [by apply sink_run_idle|]. split; [apply prefix_nil|done].
  - apply Forall_cons in Hr as [Hc Hr]. specialize (IH Hr). cbn [sink_run].
    destruct (sink_turn r1 s) as [f sub] eqn:Ht.
    pose proof (sink_turn_frames r1 s f sub Hc Ht) as H.
    destruct sub as [x|]; cbn.
    + destruct H as (frames & Hp & Hs & Hn). rewrite Hp.
      destruct f as [s'| | | |]; try (unfold sink_turn, sink_tick in Ht; by repeat case_match; simplify_eq).
      * destruct (Hn s' eq_refl) as [Hp' Hs']. destruct (IH s') as (-> & Hpre & Hseq).
        split; [done|]. split; [apply prefix_cons; by rewrite <- Hp'|].
        intros [|i] y Hy; cbn in Hy; [simplify_eq; lia|]. apply Hseq in Hy. lia.
      * split; [done|]. split; [apply prefix_cons, prefix_nil|].
        intros [|i] y Hy; cbn in Hy; simplify_eq; lia.
      * split; [done|]. split; [apply prefix_cons, prefix_nil|].
        intros [|i] y Hy; cbn in Hy; simplify_eq; lia.
      * split; [done|]. split; [apply prefix_cons, prefix_nil|].
        intros [|i] y Hy; cbn in Hy; simplify_eq; lia.
    + destruct f as [s'| | | |]; [|by apply IH|..]; try (split; [done|]; split; [apply prefix_nil|done]).
      destruct (H s' eq_refl) as [Hp Hs]. destruct (IH s') as (-> & Hpre & Hseq).
      split; [done|]. split; [by etrans|]. rewrite <- Hs. done.
Qed.

Definition tick_round : sink_round :=
  {| sr_shutdown := WQuiet; sr_barge := Pending; sr_command := Pending; sr_tick := true;
     sr_play := Ok (play_pcm 0 5); sr_echo_alive := true |}.
Definition barge_round : sink_round :=
  {| sr_shutdown := WQuiet; sr_barge := Ready {| bi_microphone_sequence := 3 |};
     sr_command := Pending; sr_tick := true; sr_play := Ok (play_pcm 0 5); sr_echo_alive := true |}.
Definition speaking_sink : sink_state :=
  {| sk_current := Some (1, [[f32_0_10]; [f32_0_20]; [f32_0_18] ]); sk_sequence := 4 |}.

Lemma barge_in_stops_playback_witness :
  sink_run ([tick_round] ++ barge_round :: [tick_round; tick_round]) speaking_sink =
    sink_run [tick_round] speaking_sink ∧
  (sb_pcm <$> sink_run [tick_round] speaking_sink) = [ [f32_0_10] ].
Proof.
  split; [|vm_compute; reflexivity].
  apply (barge_in_stops_playback [tick_round] barge_round [tick_round; tick_round] speaking_sink
           {| bi_microphone_sequence := 3 |}); [repeat constructor|reflexivity|reflexivity].
Defined.

(** ** The demo utterance *)

Lemma concat_blocks {A} (g : Z → A) n m :
  0 <= m →
  concat ((λ frame, (λ index, g (Z.of_nat frame * m + Z.of_nat index)) <$> seq 0 (Z.to_nat m))
            <$> seq 0 n) =
  (λ k, g (Z.of_nat k)) <$> seq 0 (n * Z.to_nat m).
Proof.
  intros Hm. induction n as [|n IH]; [done|].
  rewrite seq_S, fmap_app, concat_app, IH. cbn [Nat.mul].
  replace (Z.to_nat m + n * Z.to_nat m)%nat with (n * Z.to_nat m + Z.to_nat m)%nat by lia.
  rewrite seq_app, fmap_app. f_equal. cbn. rewrite app_nil_r.
  rewrite <- (Nat.add_0_r (n * Z.to_nat m)), <- fmap_add_seq, <- list_fmap_compose.
  apply list_fmap_ext. intros i k _. cbn. f_equal. lia.
Qed.

(** [make_demo_utterance] gives [milliseconds / 10] frames of 160 samples, and
    the frames put together are one tone without a phase jump at the frame
    borders. *)
Theorem demo_utterance_continuous sinf milliseconds :
  length (make_demo_utterance sinf milliseconds) = Z.to_nat (milliseconds / 10) ∧
  Forall (λ frame, length frame = 160%nat) (make_demo_utterance sinf milliseconds) ∧
  concat (make_demo_utterance sinf milliseconds) =
    (λ k, demo_sample sinf (Z.of_nat k)) <$> seq 0 (Z.to_nat (milliseconds / 10) * 160).
Proof.
  unfold make_demo_utterance. split; [by rewrite length_fmap, length_seq|]. split.
  - apply Forall_fmap, Forall_forall. intros x _. cbn. by rewrite length_fmap, length_seq.
  - by apply (concat_blocks (demo_sample sinf)).
Qed.

(** ** Shutdown *)

(** A clean shutdown can end in an error: the proxy leaves its loop on the
    shutdown, but the select of the microphone actor is not biased, so with a
    tick pending it may still ask the stopped proxy for a frame; it then returns
    that error and [main] reports it. *)
Theorem shutdown_race_fails_main c demo_ms :
  fst (proxy_turn {| px_shutdown := WChanged true; px_playback := Pending; px_capture := Ready tt;
                     px_now := 0; px_alloc := Ok tt |} c) = Finish ∧
  fst (mic_turn (WChanged true) true true (Err ["controller proxy stopped"]) true) =
    Failed ["controller proxy stopped"] ∧
  main {| en_send := Ok tt; en_demo_ms := Some (Ok demo_ms); en_ctrl_c := Ok tt;
          en_tasks := [Ok (Ok tt); Ok (Err ["controller proxy stopped"]); Ok (Ok tt); Ok (Ok tt)] |} =
    (Err ["controller proxy stopped"], true).
Proof. done. Qed.
