(* ===== verification/SmokeIo.v ===== *)
(** * What the command line programs share ([src/bin/*.rs])

    The loop over the command line, deadlines, the polling loops with their
    20 ms sleeps, listener sockets, and the downlink socket.  The clock, the
    sockets and the D-Bus peer are outside of the repository: worlds of a type
    class, with the laws the loops rely on. *)

From S2P Require Import Prelude Types Bytes Ring RingSpec.

(** ** Command lines *)

(** How [Args::parse] ends; [--help] exits the process. *)
Inductive parse_outcome (A : Type) := Parsed (a : A) | Exited (code : Z) | Rejected (e : error).
Arguments Parsed {A} a.
Arguments Exited {A} code.
Arguments Rejected {A} e.

(** One option of the [match]: the updated arguments and those left to read, or
    the exit code. *)
Definition option_step (A : Type) : Type := string → list string → A → result (A * list string) + Z.

(** [args.next().ok_or_else(value)?] followed by [k]. *)
Definition with_value {A} (arg : string) (rest : list string) (k : string → result A)
    : result (A * list string) + Z :=
  match rest with
  | [] => inl (Err [arg +:+ " requires a value"])
  | v :: rest => inl (let? a := k v in Ok (a, rest))
  end.

(** The [while let] loop over the arguments and the checks after it. *)
Fixpoint parse_loop {A} (step : option_step A) (check : A → result A) (fuel : nat)
    (args : list string) (a : A) : parse_outcome A :=
  match fuel, args with
  | _, [] => match check a with
             | Ok a => Parsed a
             | Err e => Rejected e
             | Panic w | Undef w => Rejected [w]
             end
  | O, _ => Rejected ["out of fuel"]
  | S fuel, arg :: rest =>
      match step arg rest a with
      | inl (Ok (a, rest)) => parse_loop step check fuel rest a
      | inl (Err e) => Rejected e
      | inl (Panic w) | inl (Undef w) => Rejected [w]
      | inr code => Exited code
      end
  end.

Lemma parse_loop_checked {A} (step : option_step A) check fuel : ∀ args a p,
  parse_loop step check fuel args a = Parsed p → ∃ a', check a' = Ok p.
Proof.
  induction fuel as [|fuel IH]; intros [|arg args] a p; cbn [parse_loop]; try done.
  1,2: destruct (check a) eqn:Hc; try done; intros [= ->]; by exists a.
  destruct (step arg args a) as [[[a' rest]|?|?|?]|?]; try done. apply IH.
Qed.

(** A step that consumes arguments makes the fuel enough: the loop does not
    depend on more of it. *)
Definition consumes {A} (step : option_step A) : Prop :=
  ∀ arg rest a a' rest', step arg rest a = inl (Ok (a', rest')) → (length rest' <= length rest)%nat.

Lemma with_value_consumes {A} arg rest (k : string → result A) a' rest' :
  with_value arg rest k = inl (Ok (a', rest')) → (length rest' <= length rest)%nat.
Proof.
  destruct rest as [|v rest]; cbn; [done|]. destruct (k v); cbn; try done. intros [= -> ->]. lia.
Qed.

Lemma parse_loop_fuel {A} (step : option_step A) check : consumes step → ∀ fuel fuel' args a,
  (length args <= fuel)%nat → (length args <= fuel')%nat →
  parse_loop step check fuel args a = parse_loop step check fuel' args a.
Proof.
  intros Hs. induction fuel as [|fuel IH]; intros [|fuel'] [|arg args] a; cbn; try done; try lia.
  intros. destruct (step arg args a) as [[[a' rest]|?|?|?]|?] eqn:Hst; try done.
  apply Hs in Hst. apply IH; lia.
Qed.

(** ** Time

    [Instant]s are nanoseconds.  [Instant + Duration] panics when the seconds
    leave the range of an [i64]. *)
Definition ms : Z := 1_000_000.
Definition sec : Z := 1_000_000_000.

Definition instant_add (now seconds : Z) : result Z :=
  if now / sec + seconds <? 2 ^ 63 then Ok (now + seconds * sec)
  else Panic "overflow when adding duration to instant".

(** [Vec::with_capacity]: more than [isize::MAX] bytes is a panic. *)
Definition with_capacity (bytes : Z) : result unit :=
  if bytes <? 2 ^ 63 then Ok tt else Panic "capacity overflow".

(** ** The world of the programs *)

Class Host (W : Type) := {
  (** [Instant::now()] and [tokio::time::sleep] *)
  host_now : W → Z;
  host_sleep : Z → W → W;
  (** [UnixStream::connect] *)
  host_connect : string → W → result unit * W;
  (** the three steps of [listener_pair] *)
  host_socketpair : W → result unit * W;
  (** a byte read from a listener before the time given *)
  host_listen : Z → W → result (option Z) * W;
}.

(** Time does not run backwards, and a sleep lasts at least its duration; the
    calls return. *)
Class HostLaws (W : Type) `{!Host W} : Prop := {
  sleep_lasts d (w : W) : host_now w + d <= host_now (host_sleep d w);
  connect_returns p (w : W) : defined (fst (host_connect p w)) = true;
  connect_clock p (w : W) : host_now w <= host_now (snd (host_connect p w));
  socketpair_returns (w : W) : defined (fst (host_socketpair w)) = true;
  listen_returns d (w : W) : defined (fst (host_listen d w)) = true;
}.

(** A world with the log of the calls made. *)
Record traced (W L : Type) := { tr_world : W; tr_log : list L }.
Arguments Build_traced {W L} _ _.
Arguments tr_world {W L} _.
Arguments tr_log {W L} _.

Definition logged {W L A} (f : W → result A * W) (entry : result A → L) : M (traced W L) A := λ t,
  let '(r, w) := f (tr_world t) in
  (r, {| tr_world := w; tr_log := tr_log t ++ [entry r] |}).

(** A computation on the world that is not logged. *)
Definition quiet {W L A} (c : M W A) : M (traced W L) A := λ t,
  let '(r, w) := c (tr_world t) in (r, {| tr_world := w; tr_log := tr_log t |}).

Lemma wp_traced {W L A} (f : W → result A * W) (entry : result A → L) t Q E :
  defined (fst (f (tr_world t))) = true →
  (∀ a w, Q a {| tr_world := w; tr_log := tr_log t ++ [entry (Ok a)] |}) →
  (∀ e w, E e {| tr_world := w; tr_log := tr_log t ++ [entry (Err e)] |}) →
  wp (logged f entry) t Q E.
Proof. unfold wp, logged. destruct (f (tr_world t)) as [[] w]; naive_solver. Qed.

Lemma wp_quiet {W L A} (c : M W A) (t : traced W L) Q E :
  wp c (tr_world t) (λ a w, Q a {| tr_world := w; tr_log := tr_log t |})
    (λ e w, E e {| tr_world := w; tr_log := tr_log t |}) → wp (quiet c) t Q E.
Proof. unfold wp, quiet. by destruct (c (tr_world t)) as [[] w]. Qed.

Section polling.
Context {W : Type} `{!Host W}.

(** [wait_for_listener]: the read times out, fails, or gives the status. *)
Definition wait_for_listener (seconds : Z) (operation : string) : M W Z :=
  let! status := host_listen (seconds * sec) in
  lift (match status with
        | Some s => Ok s
        | None => Err ["timed out waiting for Floss " +:+ operation; "deadline has elapsed"]
        end).

(** [connect_uipc] and [connect_sco_uipc]: try every 20 ms until [deadline]. *)
Fixpoint connect_loop (path : string) (fuel : nat) (deadline : Z) : M W unit :=
  match fuel with
  | O => lift (Undef "still connecting")
  | S fuel =>
      let! r := mtry (host_connect path) in
      match r with
      | Err e =>
          let! t := mgets host_now in
          if t <? deadline then mmodify (host_sleep (20 * ms)) !; connect_loop path fuel deadline
          else lift (Err (("connect to " +:+ path) :: e))
      | r => lift r
      end
  end.

(** Three seconds of 20 ms sleeps are 150 tries and a last one. *)
Definition connect_uipc (path : string) : M W unit :=
  let! t := mgets host_now in
  connect_loop path 151 (t + 3 * sec).

Context `{!HostLaws W}.

Lemma wp_returns {A} (f : M W A) w : defined (fst (f w)) = true → wp f w (λ _ _, True) (λ _ _, True).
Proof. unfold wp. by destruct (f w) as [[] ?]. Qed.

Lemma wp_wait_for_listener s op w : wp (wait_for_listener s op) w (λ _ _, True) (λ _ _, True).
Proof.
  apply wp_bind. eapply wp_mono; [apply wp_returns, listen_returns| |done].
  intros [] w' _; by apply wp_lift.
Qed.

Lemma connect_loop_eq path n deadline :
  connect_loop path (S n) deadline =
  (let! r := mtry (host_connect path) in
   match r with
   | Err e =>
       let! t := mgets host_now in
       if t <? deadline then mmodify (host_sleep (20 * ms)) !; connect_loop path n deadline
       else lift (Err (("connect to " +:+ path) :: e))
   | r => lift r
   end).
Proof. done. Qed.

Lemma wp_uipc_loop path n : ∀ deadline w,
  deadline - host_now w <= Z.of_nat n * (20 * ms) →
  wp (connect_loop path (S n) deadline) w (λ _ _, True) (λ _ _, True).
Proof.
  induction n as [|n IH]; intros deadline w Hf; pose proof (connect_returns path w) as Hr;
    pose proof (connect_clock path w) as Hc.
  all: rewrite connect_loop_eq; apply wp_bind, wp_try; unfold wp at 1;
    destruct (host_connect path w) as [[u|e|?|?] w1]; cbn in Hr, Hc; try done.
  all: apply wp_bind; change (wp (mgets host_now) w1 ?Q ?E) with (Q (host_now w1) w1);
    cbv beta; case_match; b2p; try done; try lia.
  apply wp_bind, wp_modify, IH. pose proof (sleep_lasts (20 * ms) w1). lia.
Qed.

Lemma wp_connect_uipc path w : wp (connect_uipc path) w (λ _ _, True) (λ _ _, True).
Proof.
  unfold connect_uipc. apply wp_bind.
  change (wp (mgets host_now) w ?Q ?E) with (Q (host_now w) w). cbv beta.
  apply wp_uipc_loop. unfold sec, ms. lia.
Qed.
End polling.

(** ** The downlink socket *)

(** The write half of a stream: bytes are accepted or the write fails. *)
Class Socket (S : Type) := {
  sock_write : memory → S → result unit * S;
  sock_shutdown : S → result unit * S;
}.

(** The socket, what was written to it, and the byte counter of the program. *)
Record downlink (S : Type) := { dl_socket : S; dl_written : memory; dl_bytes : Z }.
Arguments Build_downlink {S} _ _ _.
Arguments dl_socket {S} _.
Arguments dl_written {S} _.
Arguments dl_bytes {S} _.

Definition fresh_downlink {S} (s : S) : downlink S :=
  {| dl_socket := s; dl_written := []; dl_bytes := 0 |}.

Section downlink.
Context {S : Type} `{!Socket S}.
Implicit Types (w : downlink S).

(** [writer.write_all(bytes).await.context(msg)?] *)
Definition write_all (msg : string) (bytes : memory) : M (downlink S) unit := λ d,
  match sock_write bytes (dl_socket d) with
  | (Ok _, s) => (Ok tt, {| dl_socket := s; dl_written := dl_written d ++ bytes;
                            dl_bytes := dl_bytes d |})
  | (r, s) => (context (rbind r (λ _, Ok tt)) msg,
               {| dl_socket := s; dl_written := dl_written d; dl_bytes := dl_bytes d |})
  end.

(** [bytes += n], which panics when the counter overflows *)
Definition count (n : Z) : M (downlink S) unit := λ d,
  match add_u 64 (dl_bytes d) n with
  | Ok b => (Ok tt, {| dl_socket := dl_socket d; dl_written := dl_written d; dl_bytes := b |})
  | r => (rbind r (λ _, Ok tt), d)
  end.

(** A write and its bytes counted. *)
Definition write_counted (msg : string) (bytes : memory) : M (downlink S) unit :=
  write_all msg bytes !;
  count (Z.of_nat (length bytes)).

(** [writer.shutdown().await.context(msg)?] *)
Definition shutdown (msg : string) : M (downlink S) unit := λ d,
  let '(r, s) := sock_shutdown (dl_socket d) in
  (context r msg, {| dl_socket := s; dl_written := dl_written d; dl_bytes := dl_bytes d |}).

(** A write returns: it succeeds or reports an error. *)
Definition writes_return : Prop :=
  (∀ bytes s, defined (fst (sock_write bytes s)) = true) ∧
  (∀ s, defined (fst (sock_shutdown s)) = true).

(** The byte counter counts what was written. *)
Definition counted w : Prop := dl_bytes w = Z.of_nat (length (dl_written w)).

(** More bytes than the counter can count. *)
Definition uncountable (stream : memory) : Prop := 2 ^ 64 <= Z.of_nat (length stream).

Lemma uncountable_prefix a b : a `prefix_of` b → uncountable a → uncountable b.
Proof. intros Hp%prefix_length. unfold uncountable. lia. Qed.

Lemma wp_write_all msg bytes w Q (E : error → downlink S → Prop) :
  writes_return →
  (∀ w', dl_written w' = dl_written w ++ bytes → dl_bytes w' = dl_bytes w → Q tt w') →
  (∀ e w', dl_written w' = dl_written w → E e w') →
  wp (write_all msg bytes) w Q E.
Proof.
  intros [Hr _] HQ HE. unfold wp, write_all. specialize (Hr bytes (dl_socket w)).
  destruct (sock_write bytes (dl_socket w)) as [[[]|e|?|?] s]; try done; [by apply HQ|by apply HE].
Qed.

Lemma wpp_write_counted msg bytes w Q (E : error → downlink S → Prop) P :
  writes_return → counted w →
  (∀ w', dl_written w' = dl_written w ++ bytes → counted w' →
     Z.of_nat (length (dl_written w')) < 2 ^ 64 → Q tt w') →
  (∀ e w', dl_written w' = dl_written w → E e w') →
  (∀ m w', dl_written w' = dl_written w ++ bytes → uncountable (dl_written w') → P m w') →
  wpp (write_counted msg bytes) w Q E P.
Proof.
  intros Hr Hc HQ HE HP. apply wpp_bind_wp, wp_write_all; [done| |done].
  intros w1 Hw1 Hb1. unfold wpp, count, add_u. unfold counted in Hc.
  assert (Z.of_nat (length (dl_written w1)) = dl_bytes w1 + Z.of_nat (length bytes)) as Hl
    by (rewrite Hw1, Hb1, Hc, length_app; lia).
  destruct (in_width 64 _) eqn:Hin; cbn.
  - apply HQ; cbn; [done|done|]. apply in_width_spec in Hin. lia.
  - apply HP; [done|]. unfold uncountable. destruct (decide (2 ^ 64 <= Z.of_nat (length (dl_written w1)))); [done|].
    rewrite (proj2 (in_width_spec _ _)) in Hin; [done|lia].
Qed.

Lemma wp_shutdown msg w Q (E : error → downlink S → Prop) :
  writes_return →
  (∀ w', dl_written w' = dl_written w → dl_bytes w' = dl_bytes w → Q tt w') →
  (∀ e w', dl_written w' = dl_written w → E e w') →
  wp (shutdown msg) w Q E.
Proof.
  intros [_ Hr] HQ HE. unfold wp, shutdown. specialize (Hr (dl_socket w)).
  destruct (sock_shutdown (dl_socket w)) as [[[]|e|?|?] s]; try done; [by apply HQ|by apply HE].
Qed.

(** The loop [for frame in frames { writer.write_all(frame) }]. *)
Fixpoint write_frames (msg : string) (frames : list memory) : M (downlink S) unit :=
  match frames with
  | [] => mret tt
  | f :: frames => write_all msg f !; write_frames msg frames
  end.

Lemma wp_write_frames msg frames : ∀ w, writes_return →
  wp (write_frames msg frames) w
    (λ _ w', dl_written w' = dl_written w ++ concat frames)
    (λ _ w', dl_written w' `prefix_of` dl_written w ++ concat frames).
Proof.
  induction frames as [|f frames IH]; intros w Hr; cbn.
  { apply wp_ret. by rewrite app_nil_r. }
  apply wp_bind, wp_write_all; [done|..].
  - intros w1 Hw1 _. rewrite app_assoc, <- Hw1. by apply IH.
  - intros e w1 ->. by apply prefix_app_r.
Qed.

(** The same loop with [bytes += frame.len()] in its body. *)
Fixpoint write_frames_counted (msg : string) (frames : list memory) : M (downlink S) unit :=
  match frames with
  | [] => mret tt
  | f :: frames => write_counted msg f !; write_frames_counted msg frames
  end.

Lemma wpp_write_frames_counted msg frames : ∀ w, writes_return → counted w →
  let stream := dl_written w ++ concat frames in
  wpp (write_frames_counted msg frames) w
    (λ _ w', dl_written w' = stream ∧ counted w')
    (λ _ w', dl_written w' `prefix_of` stream)
    (λ _ _, uncountable stream).
Proof.
  induction frames as [|f frames IH]; intros w Hr Hc stream; cbn.
  { apply wpp_ret. unfold stream. cbn. by rewrite app_nil_r. }
  assert (stream = (dl_written w ++ f) ++ concat frames) as Hs by (unfold stream; cbn; by rewrite app_assoc).
  apply wpp_bind, wpp_write_counted; [done|done|..].
  - intros w1 Hw1 Hc1 _. rewrite Hs, <- Hw1. by apply IH.
  - intros e w1 ->. unfold stream. by apply prefix_app_r.
  - intros m w1 Hw1. rewrite Hs, <- Hw1. unfold uncountable. rewrite length_app. lia.
Qed.
End downlink.

(** A socket that accepts [n] writes and then fails. *)
#[global] Instance bounded_socket : Socket nat := {|
  sock_write := λ _ n, match n with O => (Err ["broken pipe"], O) | S n => (Ok tt, n) end;
  sock_shutdown := λ n, (Ok tt, n);
|}.

Lemma bounded_socket_returns : writes_return (S := nat).
Proof. split; [by intros ? []|done]. Qed.

(** ** Interleaved frames *)

(** [buffer[offset..offset + bytes.len()].copy_from_slice(bytes)] *)
Definition copy_into (buffer : memory) (offset : Z) (bytes : memory) : result memory :=
  if (0 <=? offset) && (offset + Z.of_nat (length bytes) <=? Z.of_nat (length buffer))
  then Ok (list_inserts (Z.to_nat offset) bytes buffer)
  else Panic "range end index out of range".

(** The loop over the channels of one frame: the same sample in each. *)
Fixpoint put_channels (n : nat) (channel frame channels width : Z) (sample buffer : memory)
    : result memory :=
  match n with
  | O => Ok buffer
  | S n =>
      let offset := (frame * channels + channel) * width in
      let? buffer := copy_into buffer offset sample in
      put_channels n (channel + 1) frame channels width sample buffer
  end.

(** The loop over the frames of a buffer; [sample k] are the bytes of the sample
    with number [k], counted on from frame to frame. *)
Fixpoint put_frames (n : nat) (frame channels width : Z) (sample : Z → result memory)
    (k : Z) (buffer : memory) : result memory :=
  match n with
  | O => Ok buffer
  | S n =>
      let? bytes := sample k in
      let? buffer := put_channels (Z.to_nat channels) 0 frame channels width bytes buffer in
      let? k := add_u 64 k 1 in
      put_frames n (frame + 1) channels width sample k buffer
  end.

(** [n] samples from number [k] on, each in [channels] channels. *)
Fixpoint interleaved (n : nat) (channels : Z) (sample : Z → memory) (k : Z) : memory :=
  match n with
  | O => []
  | S n => concat (replicate (Z.to_nat channels) (sample k)) ++ interleaved n channels sample (k + 1)
  end.

Lemma interleaved_app a b c sample : ∀ k,
  interleaved (a + b) c sample k =
  interleaved a c sample k ++ interleaved b c sample (k + Z.of_nat a).
Proof.
  induction a as [|a IH]; intros k; cbn [Nat.add interleaved app]; [by rewrite Z.add_0_r|].
  rewrite IH, app_assoc. do 2 f_equal. lia.
Qed.

Lemma length_concat_replicate {A} n (l : list A) : length (concat (replicate n l)) = (n * length l)%nat.
Proof. induction n as [|n IH]; cbn; [done|]. rewrite length_app, IH. lia. Qed.

Lemma length_interleaved n c sample width : ∀ k, (∀ k, length (sample k) = width) →
  length (interleaved n c sample k) = (n * (Z.to_nat c * width))%nat.
Proof.
  induction n as [|n IH]; intros k Hw; cbn [interleaved]; [done|].
  rewrite length_app, length_concat_replicate, IH, Hw by done. lia.
Qed.

(** [take o buf ++ new ++ rest]: a copy in the middle of a buffer that is already
    written up to it. *)
Lemma copy_into_next done_ bytes rest :
  (length bytes <= length rest)%nat →
  copy_into (done_ ++ rest) (Z.of_nat (length done_)) bytes =
  Ok ((done_ ++ bytes) ++ drop (length bytes) rest).
Proof.
  intros Hl. unfold copy_into. rewrite length_app.
  rewrite (proj2 (Z.leb_le _ _)), (proj2 (Z.leb_le _ _)) by lia. cbn [andb]. f_equal.
  rewrite Nat2Z.id, <- (Nat.add_0_r (length done_)), list_inserts_app_r, <- app_assoc. f_equal.
  by apply inserts_prefix.
Qed.

Lemma put_channels_spec n frame channels width sample : ∀ channel done_ rest,
  0 <= width → Z.of_nat (length sample) = width →
  Z.of_nat (length done_) = (frame * channels + channel) * width →
  (n * length sample <= length rest)%nat →
  put_channels n channel frame channels width sample (done_ ++ rest) =
  Ok ((done_ ++ concat (replicate n sample)) ++ drop (n * length sample) rest).
Proof.
  induction n as [|n IH]; intros channel done_ rest Hw Hs Hd Hl; cbn [put_channels].
  { cbn. by rewrite app_nil_r. }
  rewrite <- Hd, copy_into_next by lia. cbn [rbind].
  rewrite IH; [|done|done|rewrite length_app; lia|rewrite length_drop; lia].
  cbn [replicate concat]. rewrite drop_drop, <- !app_assoc. done.
Qed.

Lemma put_frames_spec n channels width sample bytes : ∀ frame k done_ rest,
  0 <= channels → 0 <= width → 0 <= k → k + Z.of_nat n < 2 ^ 64 →
  (∀ j, k <= j → sample j = Ok (bytes j) ∧ Z.of_nat (length (bytes j)) = width) →
  Z.of_nat (length done_) = frame * channels * width →
  length rest = (n * (Z.to_nat channels * Z.to_nat width))%nat →
  put_frames n frame channels width sample k (done_ ++ rest) =
  Ok (done_ ++ interleaved n channels bytes k).
Proof.
  induction n as [|n IH]; intros frame k done_ rest Hc Hw H0 Hb Hs Hd Hl; cbn [put_frames].
  { apply nil_length_inv in Hl as ->. done. }
  destruct (Hs k) as [-> Hk]; [lia|]. cbn [rbind].
  assert (length (bytes k) = Z.to_nat width) as Hk' by lia.
  rewrite put_channels_spec; [|done|done|rewrite Hd; lia|rewrite Hk'; lia].
  cbn [rbind]. rewrite add_u_in_range by lia. cbn [rbind].
  rewrite (IH (frame + 1) (k + 1)); [|done|done|lia|lia|intros; apply Hs; lia| |].
  - cbn [interleaved]. by rewrite <- app_assoc.
  - rewrite length_app, length_concat_replicate, Hk'. nia.
  - rewrite length_drop, Hl, Hk'. lia.
Qed.

(** A whole buffer. *)
Lemma put_frames_buffer n channels width sample bytes k buffer :
  0 <= channels → 0 <= width → 0 <= k → k + Z.of_nat n < 2 ^ 64 →
  (∀ j, k <= j → sample j = Ok (bytes j) ∧ Z.of_nat (length (bytes j)) = width) →
  length buffer = (n * (Z.to_nat channels * Z.to_nat width))%nat →
  put_frames n 0 channels width sample k buffer = Ok (interleaved n channels bytes k).
Proof. intros. by apply (put_frames_spec n channels width sample bytes 0 k []). Qed.

(** ** Chunks *)

(** [slice.chunks(n)]; every chunk is not empty, [fuel] of them at most. *)
Fixpoint chunks {A} (fuel n : nat) (l : list A) : list (list A) :=
  match fuel, l with
  | O, _ | _, [] => []
  | S fuel, _ => take n l :: chunks fuel n (drop n l)
  end.

Lemma chunks_concat {A} n (l : list A) : (0 < n)%nat → ∀ fuel, (length l <= fuel)%nat →
  concat (chunks fuel n l) = l.
Proof.
  intros Hn fuel. revert l. induction fuel as [|fuel IH]; intros [|x l] Hl; cbn [chunks]; try done.
  { cbn in Hl. lia. }
  cbn [concat]. rewrite IH; [apply take_drop|]. rewrite length_drop. cbn in *. lia.
Qed.

Lemma chunks_length {A} n (l : list A) fuel : Forall (λ c, (length c <= n)%nat) (chunks fuel n l).
Proof.
  revert l. induction fuel as [|fuel IH]; intros [|x l]; cbn [chunks]; constructor; auto.
  rewrite length_take. lia.
Qed.

(** [slice.chunks_exact(n)]: a last shorter chunk is left out. *)
Fixpoint chunks_exact {A} (fuel n : nat) (l : list A) : list (list A) :=
  match fuel with
  | O => []
  | S fuel => if (length l <? n)%nat then [] else take n l :: chunks_exact fuel n (drop n l)
  end.

Lemma chunks_exact_spec {A} n k : (0 < n)%nat → ∀ (l : list A) fuel, (length l <= fuel)%nat →
  length l = (k * n)%nat →
  length (chunks_exact fuel n l) = k ∧ Forall (λ c, length c = n) (chunks_exact fuel n l) ∧
  concat (chunks_exact fuel n l) = l.
Proof.
  intros Hn. induction k as [|k IH]; intros l fuel Hf Hl.
  { apply nil_length_inv in Hl as ->. destruct n; [lia|]. by destruct fuel. }
  destruct fuel as [|fuel]; [lia|]. cbn [chunks_exact]. rewrite (proj2 (Nat.ltb_ge _ _)) by lia. cbn.
  destruct (IH (drop n l) fuel) as (H1 & H2 & H3); [rewrite length_drop; lia..|].
  split; [by f_equal|]. split; [constructor; [rewrite length_take; lia|done]|].
  rewrite H3. apply take_drop.
Qed.
