(* ===== verification/HfpSmoke.v ===== *)
(** * The HFP smoke test ([src/bin/floss_hfp_smoke.rs])

    A full-duplex test of a hands-free voice link: command line, codecs, capture
    statistics, the capture loop with its two deadlines, the delayed loopback and
    the session that must always be stopped. *)

From Stdlib Require Import Floats.SpecFloat.
From S2P Require Import Prelude Types Bytes Ring RingSpec Float SmokeIo.

Inductive Codec := Cvsd | Msbc.

Definition codec_parse (value : string) : result Codec :=
  if bool_decide (value = "cvsd") then Ok Cvsd
  else if bool_decide (value = "msbc") then Ok Msbc
  else Err ["--codec must be cvsd or msbc"].

Definition codec_name (c : Codec) : string := match c with Cvsd => "CVSD" | Msbc => "mSBC" end.
Definition sample_rate (c : Codec) : Z := match c with Cvsd => 8_000 | Msbc => 16_000 end.
Definition expected_bit (c : Codec) : Z := match c with Cvsd => 1 | Msbc => 2 end.
Definition disabled_codecs (c : Codec) : Z := match c with Cvsd => 6 | Msbc => 5 end.

(** ** The command line *)

Record Args := {
  ar_address : string;
  ar_seconds : Z;
  ar_frequency_hz : f32;
  ar_loopback : bool;
  ar_loopback_gain : f32;
  ar_loopback_delay_seconds : Z;
  ar_capture_path : option string;
  ar_codec : Codec;
}.

(** The defaults; 0.35 rounded to binary32. *)
Definition args_default : Args := {|
  ar_address := ""; ar_seconds := 5; ar_frequency_hz := f32_of_Z 440; ar_loopback := false;
  ar_loopback_gain := S754_finite false 11744051 (-25); ar_loopback_delay_seconds := 0;
  ar_capture_path := None; ar_codec := Cvsd |}.

Section arguments.
(** [str::parse] for [u64] and [f32]. *)
Context (parse_u64 : string → result Z) (parse_f32 : string → result f32).

(** One option of the [match]: the updated arguments and those left to read. *)
Definition parse_step : option_step Args := λ arg rest a,
  let set addr secs freq lb gain delay cap codec : Args :=
    {| ar_address := addr; ar_seconds := secs; ar_frequency_hz := freq; ar_loopback := lb;
       ar_loopback_gain := gain; ar_loopback_delay_seconds := delay; ar_capture_path := cap;
       ar_codec := codec |} in
  let 'Build_Args addr secs freq lb gain delay cap codec := a in
  if bool_decide (arg = "--address") then
    with_value arg rest (λ v, Ok (set v secs freq lb gain delay cap codec))
  else if bool_decide (arg = "--seconds") then
    with_value arg rest (λ v, let? n := parse_u64 v in Ok (set addr n freq lb gain delay cap codec))
  else if bool_decide (arg = "--frequency") then
    with_value arg rest (λ v, let? x := parse_f32 v in Ok (set addr secs x lb gain delay cap codec))
  else if bool_decide (arg = "--loopback") then
    inl (Ok (set addr secs freq true gain delay cap codec, rest))
  else if bool_decide (arg = "--loopback-gain") then
    with_value arg rest (λ v, let? x := parse_f32 v in Ok (set addr secs freq lb x delay cap codec))
  else if bool_decide (arg = "--loopback-delay-seconds") then
    with_value arg rest (λ v, let? n := parse_u64 v in Ok (set addr secs freq lb gain n cap codec))
  else if bool_decide (arg = "--capture") then
    with_value arg rest (λ v, Ok (set addr secs freq lb gain delay (Some v) codec))
  else if bool_decide (arg = "--codec") then
    with_value arg rest (λ v, let? c := codec_parse v in Ok (set addr secs freq lb gain delay cap c))
  else if bool_decide (arg = "-h") || bool_decide (arg = "--help") then inr 0
  else inl (Err ["unknown argument: " +:+ arg]).

(** The checks after the loop. *)
Definition check_args (a : Args) : result Args :=
  ensure (negb (bool_decide (ar_address a = ""))) "--address is required" ?;
  ensure (negb ((ar_seconds a =? 0) || negb (f32_is_finite (ar_frequency_hz a))
                || f32_le (ar_frequency_hz a) f32_zero))
    "duration and frequency must be positive" ?;
  ensure (negb (negb (f32_is_finite (ar_loopback_gain a)) || f32_le (ar_loopback_gain a) f32_zero
                || f32_gt (ar_loopback_gain a) f32_one))
    "--loopback-gain must be in (0.0, 1.0]" ?;
  ensure (negb (60 <? ar_loopback_delay_seconds a))
    "--loopback-delay-seconds must not exceed 60" ?;
  ensure (negb (negb (ar_loopback_delay_seconds a =? 0) && negb (ar_loopback a)))
    "--loopback-delay-seconds requires --loopback" ?;
  Ok a.

Definition parse_args (args : list string) : parse_outcome Args :=
  parse_loop parse_step check_args (length args) args args_default.
End arguments.

(** ** Capture statistics *)

Record CaptureStats := {
  cs_bytes : Z;
  cs_samples : Z;
  cs_sum_squares : f64;
  cs_peak : Z;
}.

Definition stats_default : CaptureStats :=
  {| cs_bytes := 0; cs_samples := 0; cs_sum_squares := f64_zero; cs_peak := 0 |}.

(** [chunks_exact(2)] read as little-endian [i16]; a last odd byte is left out. *)
Fixpoint samples_of (pcm : memory) : list Z :=
  match pcm with
  | lo :: hi :: pcm => i16_of_bits (le_combine [lo; hi]) :: samples_of pcm
  | _ => []
  end.

(** [i16::saturating_abs] *)
Definition saturating_abs (x : Z) : Z := Z.min (Z.abs x) i16_max.

Definition account_sample (s : CaptureStats) (value : Z) : result CaptureStats :=
  let? samples := add_u 64 (cs_samples s) 1 in
  Ok {| cs_bytes := cs_bytes s; cs_samples := samples;
        cs_sum_squares := f64_add (cs_sum_squares s) (f64_mul (f64_of_Z value) (f64_of_Z value));
        cs_peak := Z.max (cs_peak s) (saturating_abs value) |}.

Fixpoint account_samples (values : list Z) (s : CaptureStats) : result CaptureStats :=
  match values with
  | [] => Ok s
  | value :: values => let? s := account_sample s value in account_samples values s
  end.

Definition account (pcm : memory) (s : CaptureStats) : result CaptureStats :=
  let? bytes := add_u 64 (cs_bytes s) (Z.of_nat (length pcm)) in
  account_samples (samples_of pcm)
    {| cs_bytes := bytes; cs_samples := cs_samples s; cs_sum_squares := cs_sum_squares s;
       cs_peak := cs_peak s |}.

Definition rms (s : CaptureStats) : f64 :=
  if cs_samples s =? 0 then f64_zero
  else f64_sqrt (f64_div (cs_sum_squares s) (f64_of_Z (cs_samples s))).

(** ** The loopback: capture side

    A round of the capture loop: what the first select gave, the clock after it,
    and what the send gave.  Times are those at which the awaits completed. *)
Inductive first_select := PhaseDeadline | ReadDone (r : result memory).
Inductive send_select := SendDeadline | SendDone (ok : bool).

Record capture_round := {
  cr_first : first_select;
  cr_first_time : Z;
  cr_now : Z;                    (* Instant::now() after a read *)
  cr_send : send_select;
  cr_send_time : Z;
}.

Record capture_state := {
  ca_tx : bool;                  (* the sender is still there *)
  ca_stats : CaptureStats;
  ca_pcm : memory;
  ca_sent : list memory;         (* frames handed to the playback side *)
}.

Definition capture_init : capture_state :=
  {| ca_tx := true; ca_stats := stats_default; ca_pcm := []; ca_sent := [] |}.

Definition drop_tx (s : capture_state) : capture_state :=
  {| ca_tx := false; ca_stats := ca_stats s; ca_pcm := ca_pcm s; ca_sent := ca_sent s |}.

(** The outcome of a round: go on, leave the loop, or return an error. *)
Inductive loop_flow := Continue | Break | Return (e : error).

Definition capture_turn (capture_deadline drain_deadline : Z) (r : capture_round)
    (s : capture_state) : result (capture_state * loop_flow) :=
  let phase_deadline := if ca_tx s then capture_deadline else drain_deadline in
  match cr_first r with
  | PhaseDeadline =>
      if ca_tx s && (phase_deadline <? drain_deadline) then Ok (drop_tx s, Continue)
      else Ok (drop_tx s, Break)
  | ReadDone (Err e) => Ok (s, Return ("read SCO microphone PCM" :: e))
  | ReadDone (Panic w) => Panic w
  | ReadDone (Undef w) => Undef w
  | ReadDone (Ok bytes) =>
      if is_empty bytes then Ok (s, Break)
      else if capture_deadline <=? cr_now r then Ok (drop_tx s, Continue)
      else
        let? stats := account bytes (ca_stats s) in
        let s := {| ca_tx := ca_tx s; ca_stats := stats;
                    ca_pcm := ca_pcm s ++ bytes; ca_sent := ca_sent s |} in
        if ca_tx s then
          match cr_send r with
          | SendDeadline => Ok (drop_tx s, Continue)
          | SendDone true =>
              Ok ({| ca_tx := true; ca_stats := ca_stats s; ca_pcm := ca_pcm s;
                     ca_sent := ca_sent s ++ [bytes] |}, Continue)
          | SendDone false => Ok (s, Break)
          end
        else Panic "sender exists before capture deadline"
  end.

Fixpoint capture_loop (capture_deadline drain_deadline : Z) (rounds : list capture_round)
    (s : capture_state) : result (capture_state * loop_flow) :=
  match rounds with
  | [] => Ok (s, Continue)
  | r :: rounds =>
      let? o := capture_turn capture_deadline drain_deadline r s in
      match snd o with
      | Continue => capture_loop capture_deadline drain_deadline rounds (fst o)
      | f => Ok (fst o, f)
      end
  end.

(** ** The loopback: playback side *)

(** [(f32::from(input) * gain).round().clamp(..) as i16] *)
Definition gain_sample (gain : f32) (input : Z) : Z :=
  f32_round_i16 (f32_mul (f32_of_Z input) gain).

(** The loop over [frame.chunks_exact_mut(2)]. *)
Fixpoint attenuate (gain : f32) (frame : memory) : memory :=
  match frame with
  | lo :: hi :: frame =>
      le_split 2 (i16_bits (gain_sample gain (i16_of_bits (le_combine [lo; hi])))) ++
      attenuate gain frame
  | _ => frame
  end.

Record delay := { de_line : memory; de_cursor : Z }.

Definition advance (d : delay) : Z :=
  if de_cursor d + 1 =? Z.of_nat (length (de_line d)) then 0 else de_cursor d + 1.

(** [mem::swap(byte, &mut delay_line[delay_cursor])] for every byte of a frame. *)
Fixpoint delay_frame (frame : memory) (d : delay) : result (memory * delay) :=
  match frame with
  | [] => Ok ([], d)
  | b :: frame =>
      let? old := index (de_line d) (de_cursor d) in
      let d := {| de_line := <[Z.to_nat (de_cursor d) := b]> (de_line d);
                  de_cursor := advance d |} in
      let? rest := delay_frame frame d in
      Ok (old :: fst rest, snd rest)
  end.

(** The drain reads without writing. *)
Fixpoint drain_bytes (n : nat) (d : delay) : result (memory * delay) :=
  match n with
  | O => Ok ([], d)
  | S n =>
      let? b := index (de_line d) (de_cursor d) in
      let d := {| de_line := de_line d; de_cursor := advance d |} in
      let? rest := drain_bytes n d in
      Ok (b :: fst rest, snd rest)
  end.

Section playback.
Context {S : Type} `{!Socket S}.

(** The loop over the received frames. *)
Fixpoint echo_frames (gain : f32) (frames : list memory) (d : delay) : M (downlink S) delay :=
  match frames with
  | [] => mret d
  | frame :: frames =>
      let frame := attenuate gain frame in
      let! out := lift (if is_empty (de_line d) then Ok (frame, d) else delay_frame frame d) in
      write_counted "echo SCO microphone PCM to headset" (fst out) !;
      echo_frames gain frames (snd out)
  end.

(** The drain loop, [remaining] bytes in frames of [frame_bytes]; [fuel] turns. *)
Fixpoint drain (fuel : nat) (frame_bytes remaining : nat) (d : delay) : M (downlink S) unit :=
  match remaining, fuel with
  | O, _ => mret tt
  | _, O => lift (Undef "still draining")
  | _, Datatypes.S fuel =>
      let length := Nat.min remaining frame_bytes in
      let! out := lift (drain_bytes length d) in
      write_counted "drain delayed SCO microphone PCM" (fst out) !;
      drain fuel frame_bytes (remaining - length) (snd out)
  end.

Definition delay_bytes (codec : Codec) (delay_seconds : Z) : Z :=
  sample_rate codec * 2 * delay_seconds.

(** The playback half of [exercise_loopback] on the frames the capture sends. *)
Definition loopback_playback (codec : Codec) (gain : f32) (delay_seconds : Z)
    (frames : list memory) : M (downlink S) Z :=
  let line := zeros (Z.to_nat (delay_bytes codec delay_seconds)) in
  let! d := echo_frames gain frames {| de_line := line; de_cursor := 0 |} in
  (if is_empty (de_line d) then mret tt
   else
     let frame_bytes := Z.to_nat (sample_rate codec / 100 * 2) in
     drain (length (de_line d)) frame_bytes (length (de_line d)) d) !;
  shutdown "close SCO loopback half" !;
  mgets dl_bytes.
End playback.

(** ** The reference tone *)

Section tone.
(** [f32::sin], and [10_f32.powf(-36.0 / 20.0)]: the platform's mathematics
    library. *)
Context (sin : f32 → f32) (powf10 : f32 → f32).

Definition amplitude : f32 :=
  f32_mul (f32_of_Z i16_max) (powf10 (f32_div (f32_of_Z (-36)) (f32_of_Z 20))).

(** The sample with number [k] of the tone. *)
Definition tone_sample (rate : Z) (frequency_hz : f32) (k : Z) : Z :=
  let phase := f32_div (f32_mul (f32_mul TAU_f32 frequency_hz) (f32_of_Z k)) (f32_of_Z rate) in
  f32_as_i16 (f32_mul amplitude (sin phase)).

(** The frame that starts at [sample_index]: [chunks_exact_mut(2).enumerate()]. *)
Fixpoint tone_frame (n : nat) (rate : Z) (frequency_hz : f32) (sample_index index : Z)
    : result memory :=
  match n with
  | O => Ok []
  | S n =>
      let? k := add_u 64 sample_index index in
      let? rest := tone_frame n rate frequency_hz sample_index (index + 1) in
      Ok (le_split 2 (i16_bits (tone_sample rate frequency_hz k)) ++ rest)
  end.

(** [duration.as_millis() as usize / FRAME_TIME.as_millis() as usize] *)
Definition tone_ticks (seconds : Z) : Z := as_unsigned 64 (seconds * 1000) / 10.

Section duplex_playback.
Context {S : Type} `{!Socket S}.

Fixpoint tone_loop (ticks : nat) (codec : Codec) (frequency_hz : f32) (sample_index : Z)
    : M (downlink S) unit :=
  match ticks with
  | O => mret tt
  | Datatypes.S ticks =>
      let samples_per_frame := sample_rate codec / 100 in
      let! pcm := lift (tone_frame (Z.to_nat samples_per_frame) (sample_rate codec) frequency_hz
                          sample_index 0) in
      let! sample_index := lift (add_u 64 sample_index samples_per_frame) in
      write_counted "write SCO playback PCM" pcm !;
      tone_loop ticks codec frequency_hz sample_index
  end.

(** The playback half of [exercise_full_duplex]. *)
Definition tone_playback (codec : Codec) (frequency_hz : f32) (seconds : Z) : M (downlink S) Z :=
  tone_loop (Z.to_nat (tone_ticks seconds)) codec frequency_hz 0 !;
  shutdown "close SCO playback half" !;
  mgets dl_bytes.
End duplex_playback.

(** The capture half: reads until the deadline or the end of the stream; [None]
    when the reads end while it is still waiting. *)
Fixpoint duplex_capture (reads : list first_select) (stats : CaptureStats) (pcm : memory)
    : result (option (CaptureStats * memory)) :=
  match reads with
  | [] => Ok None
  | PhaseDeadline :: _ => Ok (Some (stats, pcm))
  | ReadDone (Ok bytes) :: reads =>
      if is_empty bytes then Ok (Some (stats, pcm))
      else let? stats := account bytes stats in duplex_capture reads stats (pcm ++ bytes)
  | ReadDone (Err e) :: _ => Err ("read SCO microphone PCM" :: e)
  | ReadDone (Panic w) :: _ => Panic w
  | ReadDone (Undef w) :: _ => Undef w
  end.

(** ** The two exercises

    What the data socket and the clock do while an exercise runs. *)
Record exercise_script (S : Type) := {
  sc_now : Z;                          (* Instant::now() at its start *)
  sc_socket : S;                       (* the write half *)
  sc_reads : list first_select;        (* full duplex: what the reads give *)
  sc_rounds : list capture_round;      (* loopback: the rounds of the capture *)
  sc_capture_first : bool;             (* whose error try_join! sees first *)
}.
#[global] Arguments sc_now {S} _.
#[global] Arguments sc_socket {S} _.
#[global] Arguments sc_reads {S} _.
#[global] Arguments sc_rounds {S} _.
#[global] Arguments sc_capture_first {S} _.

(** [try_join!]: both values, or the first error; [None] while a half runs. *)
Definition try_join {A B} (a_first : bool) (a : result (option A)) (b : result B)
    : result (option (A * B)) :=
  match a, b with
  | Panic w, _ | _, Panic w => Panic w
  | Undef w, _ | _, Undef w => Undef w
  | Ok (Some a), Ok b => Ok (Some (a, b))
  | Ok None, Ok _ => Ok None
  | Err e, Ok _ | Ok _, Err e => Err e
  | Err e, Err e' => Err (if a_first then e else e')
  end.

Section exercises.
Context {S : Type} `{!Socket S}.

Abbreviation measured := (Z * CaptureStats * memory)%type.

(** The capacity asked for the recording. *)
Definition recording_capacity (codec : Codec) (seconds : Z) : result unit :=
  let? n := mul_u 64 (sample_rate codec * 2) seconds in with_capacity n.

Definition exercise_full_duplex (script : exercise_script S) (args : Args)
    : result (option measured) :=
  let? _ := instant_add (sc_now script) (ar_seconds args) in
  recording_capacity (ar_codec args) (ar_seconds args) ?;
  let capture := duplex_capture (sc_reads script) stats_default [] in
  let playback := fst (tone_playback (ar_codec args) (ar_frequency_hz args) (ar_seconds args)
                         (fresh_downlink (sc_socket script))) in
  let? both := try_join (sc_capture_first script) capture playback in
  Ok (option_map (λ b, (snd b, fst (fst b), snd (fst b))) both).

Definition exercise_loopback (script : exercise_script S) (args : Args)
    : result (option measured) :=
  let? capture_deadline := instant_add (sc_now script) (ar_seconds args) in
  let? drain_deadline := instant_add capture_deadline (ar_loopback_delay_seconds args) in
  recording_capacity (ar_codec args) (ar_seconds args) ?;
  let? run := capture_loop capture_deadline drain_deadline (sc_rounds script) capture_init in
  let s := fst run in
  let capture := match snd run with
                 | Break => Ok (Some (ca_stats s, ca_pcm s))
                 | Return e => Err e
                 | Continue => Ok None
                 end in
  let playback := fst (loopback_playback (ar_codec args) (ar_loopback_gain args)
                         (ar_loopback_delay_seconds args) (ca_sent s)
                         (fresh_downlink (sc_socket script))) in
  let? both := try_join (sc_capture_first script) capture playback in
  Ok (option_map (λ b, (snd b, fst (fst b), snd (fst b))) both).

(** ** [main] *)

Definition SCO_DATA_PATH : string := "/run/bluetooth/audio/.sco_data".

(** The D-Bus peer, the exercise that the data socket gives, the file system. *)
Class HfpBus (W : Type) := {
  hfp_connect : W → result unit * W;
  hfp_proxy : W → result unit * W;
  hfp_set_active : string → W → result unit * W;
  hfp_start_sco : string → bool → Z → W → result bool * W;
  hfp_final_codecs : string → W → result Z * W;
  hfp_stop_sco : string → W → result unit * W;
  hfp_exercise : Args → W → result (exercise_script S) * W;
  hfp_write_file : string → memory → W → result unit * W;
}.

(** What [main] did, in order. *)
Inductive hfp_event :=
| EConnect
| EProxy
| ESetActive (address : string)
| EListenerPair (ok : bool)
| EStartSco (address : string) (disabled_codecs : Z) (accepted : bool)
| EFinalCodecs
| EExercise
| EWriteFile (path : string) (pcm : memory)
| EStopSco (address : string).

Context {W : Type} `{!Host W} `{!HfpBus W}.
Abbreviation P := (M (traced W hfp_event)).

Definition listener_pair : P unit := logged host_socketpair (λ r, EListenerPair (is_ok r)).

Definition stop_sco (address : string) : P Z :=
  listener_pair !;
  logged (hfp_stop_sco address) (λ _, EStopSco address) !;
  quiet (wait_for_listener 10 "SCO stop").

(** [timeout(..).await.context(..)?]: an exercise that is still running when the
    time is over. *)
Definition within_timeout {A} (r : result (option A)) : result A :=
  let? o := r in
  match o with
  | Some a => Ok a
  | None => Err ["full-duplex SCO test timed out"; "deadline has elapsed"]
  end.

(** The exercise and its timeout. *)
Definition run_exercise (args : Args) : P measured :=
  let! _ := lift (let? n := add_u 64 (ar_seconds args) (ar_loopback_delay_seconds args) in
                  add_u 64 n 5) in
  let! script := logged (hfp_exercise args) (λ _, EExercise) in
  lift (within_timeout (if ar_loopback args then exercise_loopback script args
                        else exercise_full_duplex script args)).

(** The [async] block whose result is kept until the call is stopped. *)
Definition sco_test (args : Args) : P unit :=
  let! codec := quiet (wait_for_listener 10 "SCO start") in
  let! reported := logged (hfp_final_codecs (ar_address args)) (λ _, EFinalCodecs) in
  let expected := expected_bit (ar_codec args) in
  lift (ensure ((codec =? expected) && (reported =? expected))
          ("expected " +:+ codec_name (ar_codec args) +:+ " codec bit " +:+ pretty expected +:+
           ", listener=" +:+ pretty codec +:+ ", reported=" +:+ pretty reported)) !;
  quiet (connect_uipc SCO_DATA_PATH) !;
  let! m := run_exercise args in
  let captured := snd (fst m) in
  lift (ensure (negb (cs_bytes captured =? 0)) "SCO uplink produced no microphone PCM") !;
  lift (ensure (negb ((cs_samples captured =? 0) || (cs_peak captured =? 0)))
          "SCO uplink produced only zero-valued microphone PCM") !;
  match ar_capture_path args with
  | Some path =>
      mcontext (logged (hfp_write_file path (snd m)) (λ _, EWriteFile path (snd m)))
        ("write captured PCM to " +:+ path)
  | None => mret tt
  end.

(** [{stop_error:#}]: the chain of messages. *)
Definition error_chain (e : error) : string := String.concat ": " e.

(** The final [match (test_result, stop_result)]. *)
Definition combine_results (test : result unit) (stop : result Z) : result unit :=
  match test, stop with
  | Ok _, Ok status =>
      ensure (status =? 0) ("unexpected SCO stop listener status=" +:+ pretty status)
  | Ok _, Err e => Err ("SCO test passed but cleanup failed" :: e)
  | Err e, Err e' => Err (("SCO cleanup also failed: " +:+ error_chain e') :: e)
  | test, _ => test
  end.

(** [main] with its arguments. *)
Definition run (args : Args) : P unit :=
  mcontext (logged hfp_connect (λ _, EConnect)) "connect to system D-Bus" !;
  mcontext (logged hfp_proxy (λ _, EProxy)) "create Floss BluetoothMedia proxy" !;
  logged (hfp_set_active (ar_address args)) (λ _, ESetActive (ar_address args)) !;
  listener_pair !;
  let! accepted := logged (hfp_start_sco (ar_address args) false (disabled_codecs (ar_codec args)))
    (λ r, EStartSco (ar_address args) (disabled_codecs (ar_codec args))
            (match r with Ok b => b | _ => false end)) in
  lift (ensure accepted "Floss rejected StartScoCall (is the HFP SLC connected?)") !;
  let! test_result := mtry (sco_test args) in
  let! stop_result := mtry (stop_sco (ar_address args)) in
  lift (combine_results test_result stop_result).

Definition main (parse_u64 : string → result Z) (parse_f32 : string → result f32)
    (argv : list string) : P unit :=
  match parse_args parse_u64 parse_f32 argv with
  | Parsed args => run args
  | Exited _ => mret tt
  | Rejected e => lift (Err e)
  end.
End exercises.
End tone.

(** * Theorems *)

(** ** The delay line is a FIFO *)

Definition delay_ok (d : delay) : Prop := 0 <= de_cursor d < Z.of_nat (length (de_line d)).

(** The bytes in the line, the oldest first. *)
Definition queue (d : delay) : memory :=
  drop (Z.to_nat (de_cursor d)) (de_line d) ++ take (Z.to_nat (de_cursor d)) (de_line d).

Lemma length_queue d : length (queue d) = length (de_line d).
Proof. unfold queue. rewrite length_app, length_drop, length_take. lia. Qed.

Lemma index_Ok {A} (l : list A) i a : 0 <= i → l !! Z.to_nat i = Some a → index l i = Ok a.
Proof. intros Hi Hl. unfold index. rewrite (proj2 (Z.leb_le _ _)) by done. by rewrite Hl. Qed.

Lemma delay_step d b :
  delay_ok d →
  ∃ x q, index (de_line d) (de_cursor d) = Ok x ∧ queue d = x :: q ∧
    let d' := {| de_line := <[Z.to_nat (de_cursor d) := b]> (de_line d); de_cursor := advance d |} in
    queue d' = q ++ [b] ∧ delay_ok d' ∧ length (de_line d') = length (de_line d).
Proof.
  intros Hok. unfold delay_ok in Hok.
  destruct (lookup_lt_is_Some_2 (de_line d) (Z.to_nat (de_cursor d))) as [x Hx]; [lia|].
  pose proof (drop_S _ _ _ Hx) as Hd.
  set (c := Z.to_nat (de_cursor d)) in *. set (l := de_line d) in *.
  exists x, (drop (S c) l ++ take c l).
  split; [apply index_Ok; [lia|done]|]. split; [unfold queue; fold c l; by rewrite Hd|].
  cbn zeta. unfold queue, delay_ok, advance. cbn [de_line de_cursor]. rewrite length_insert. fold l.
  destruct (de_cursor d + 1 =? Z.of_nat (length l)) eqn:He; b2p.
  - replace (Z.to_nat 0) with 0%nat by lia. rewrite drop_0, take_0, app_nil_r.
    split; [|split; [lia|done]]. rewrite (drop_ge l (S c)) by lia. cbn.
    rewrite insert_take_drop by lia. rewrite (drop_ge l (S c)) by lia. done.
  - replace (Z.to_nat (de_cursor d + 1)) with (S c) by lia.
    split; [|split; [lia|done]]. rewrite drop_insert_lt by lia.
    rewrite (take_S_r _ _ b) by (apply list_lookup_insert_eq; lia).
    rewrite take_insert_ge by lia. by rewrite app_assoc.
Qed.

Lemma delay_frame_spec frame : ∀ d, delay_ok d →
  ∃ out d', delay_frame frame d = Ok (out, d') ∧ delay_ok d' ∧
    length (de_line d') = length (de_line d) ∧ length out = length frame ∧
    out ++ queue d' = queue d ++ frame.
Proof.
  induction frame as [|b frame IH]; intros d Hd; cbn [delay_frame].
  { exists [], d. by rewrite app_nil_r. }
  destruct (delay_step d b Hd) as (x & q & Hx & Hq & Hq' & Hd' & Hl). rewrite Hx. cbn [rbind].
  set (d1 := {| de_line := _; de_cursor := _ |}) in *.
  destruct (IH d1 Hd') as (out & d' & Hf & Hok & Hl' & Hlen & Happ). rewrite Hf. cbn [rbind fst snd].
  exists (x :: out), d'. split; [done|]. split; [done|]. split; [congruence|].
  split; [by cbn; f_equal|]. cbn. rewrite Happ, Hq', Hq. cbn. by rewrite <- app_assoc.
Qed.

Lemma drain_bytes_spec n : ∀ d, delay_ok d →
  ∃ out d', drain_bytes n d = Ok (out, d') ∧ delay_ok d' ∧ de_line d' = de_line d ∧
    length out = n ∧ (n <= length (de_line d) → queue d = out ++ take (length (de_line d) - n) (queue d'))%nat.
Proof.
  induction n as [|n IH]; intros d Hd; cbn [drain_bytes].
  { exists [], d. do 4 (split; [done|]). intros _. cbn. rewrite take_ge; [done|].
    rewrite length_queue. lia. }
  assert (∃ x q, index (de_line d) (de_cursor d) = Ok x ∧ queue d = x :: q ∧
    let d1 := {| de_line := de_line d; de_cursor := advance d |} in
    delay_ok d1 ∧ queue d1 = q ++ [x]) as (x & q & Hx & Hq & Hok1 & Hq1).
  { unfold delay_ok in Hd.
    destruct (lookup_lt_is_Some_2 (de_line d) (Z.to_nat (de_cursor d))) as [x Hx]; [lia|].
    destruct (delay_step d x Hd) as (x' & q & Hi & Hq & Hq' & Hok & Hl).
    exists x', q. split; [done|]. split; [done|].
    assert (x' = x) as -> by (rewrite (index_Ok _ _ x) in Hi by (done || lia); by apply Ok_inj in Hi).
    cbn zeta in *. rewrite list_insert_id in Hq', Hok, Hl by done. done. }
  rewrite Hx. cbn [rbind]. set (d1 := {| de_line := _; de_cursor := _ |}) in *.
  destruct (IH d1 Hok1) as (out & d' & Hf & Hok & Hl & Hlen & Happ). rewrite Hf. cbn [rbind fst snd].
  exists (x :: out), d'. split; [done|]. split; [done|]. split; [done|]. split; [by cbn; f_equal|].
  intros Hn. change (de_line d1) with (de_line d) in *. specialize (Happ ltac:(lia)).
  rewrite Hq. cbn. f_equal.
  assert (q ++ [x] = out ++ take (length (de_line d) - n) (queue d')) as Hqx by congruence.
  replace (length (de_line d) - n)%nat with (S (length (de_line d) - S n)) in Hqx by lia.
  pose proof (length_queue d') as Hlq. rewrite Hl in Hlq. change (de_line d1) with (de_line d) in Hlq.
  destruct (lookup_lt_is_Some_2 (queue d') (length (de_line d) - S n)) as [y Hy]; [lia|].
  rewrite (take_S_r _ _ _ Hy), app_assoc in Hqx. by apply app_inj_tail in Hqx as [-> _].
Qed.

Section playback_proofs.
Context {S : Type} `{!Socket S}.
Implicit Types (w : downlink S) (stream : memory).

(** One pass over the frames with the line [d] in front of them. *)
Lemma wpp_echo_frames gain frames : ∀ d w,
  writes_return → counted w → de_line d = [] ∨ delay_ok d →
  let stream := dl_written w ++ queue d ++ concat (attenuate gain <$> frames) in
  wpp (echo_frames gain frames d) w
    (λ d' w', dl_written w' ++ queue d' = stream ∧ counted w' ∧
       length (de_line d') = length (de_line d) ∧ (de_line d' = [] ∨ delay_ok d'))
    (λ _ w', dl_written w' `prefix_of` stream) (λ _ _, uncountable stream).
Proof.
  induction frames as [|frame frames IH]; intros d w Hr Hc Hd stream; cbn [echo_frames].
  { apply wpp_ret. unfold stream. cbn. by rewrite app_nil_r. }
  apply wpp_bind. set (frame' := attenuate gain frame) in *.
  assert (∃ out d', (if is_empty (de_line d) then Ok (frame', d) else delay_frame frame' d) =
    Ok (out, d') ∧ (de_line d' = [] ∨ delay_ok d') ∧ length (de_line d') = length (de_line d) ∧
    out ++ queue d' = queue d ++ frame') as (out & d' & Ho & Hd' & Hl & Happ).
  { destruct Hd as [Hd|Hd].
    - exists frame', d. rewrite Hd. cbn. split; [done|]. split; [by left|]. split; [done|].
      unfold queue. rewrite Hd. by rewrite drop_nil, take_nil, !app_nil_r.
    - destruct (delay_frame_spec frame' d Hd) as (out & d' & Hf & Hok & Hl & _ & Happ).
      exists out, d'. destruct (de_line d) eqn:Hln; [unfold delay_ok in Hd; rewrite Hln in Hd; cbn in Hd; lia|].
      cbn. split; [done|]. split; [by right|]. by rewrite Hl. }
  rewrite Ho. apply wpp_ret. cbn [fst snd]. apply wpp_bind, wpp_write_counted; [done|done| | |].
  - intros w1 Hw1 Hc1 _. specialize (IH d' w1 Hr Hc1 Hd').
    assert (dl_written w1 ++ queue d' ++ concat (attenuate gain <$> frames) = stream) as Hs.
    { unfold stream. rewrite Hw1, <- !app_assoc. f_equal. cbn. fold frame'.
      rewrite !app_assoc. f_equal. done. }
    rewrite Hs in IH. eapply wpp_mono; [apply IH|cbn|done|done]. intros d2 w2 (? & ? & ? & ?).
    repeat (split; [done|]). split; [congruence|done].
  - intros e w1 Hw1. rewrite Hw1. unfold stream. by apply prefix_app_r.
  - intros m w1 Hw1. apply uncountable_prefix. exists (queue d' ++ concat (attenuate gain <$> frames)).
    unfold stream. rewrite Hw1, <- !app_assoc. f_equal. cbn. fold frame'. by rewrite !app_assoc, Happ.
Qed.

Lemma wpp_drain fuel fb : ∀ remaining d w,
  writes_return → counted w → (0 < fb)%nat → (remaining <= fuel)%nat →
  (remaining <= length (de_line d))%nat → delay_ok d →
  let stream := dl_written w ++ take remaining (queue d) in
  wpp (drain fuel fb remaining d) w
    (λ _ w', dl_written w' = stream ∧ counted w') (λ _ w', dl_written w' `prefix_of` stream)
    (λ _ _, uncountable stream).
Proof.
  induction fuel as [|fuel IH]; intros remaining d w Hr Hc Hfb Hfuel Hrem Hd stream.
  { destruct remaining; [|lia]. cbn. apply wpp_ret. unfold stream. cbn. by rewrite app_nil_r. }
  destruct remaining as [|remaining]; cbn [drain].
  { apply wpp_ret. unfold stream. cbn. by rewrite app_nil_r. }
  set (r := Datatypes.S remaining) in *. set (n := Nat.min r fb).
  destruct (drain_bytes_spec n d Hd) as (out & d' & Ho & Hok & Hl & Hlen & Happ).
  specialize (Happ ltac:(lia)). apply wpp_bind. rewrite Ho. apply wpp_ret. cbn [fst snd].
  assert (take r (queue d) = out ++ take (r - n) (queue d')) as Htake.
  { rewrite Happ, take_app, Hlen, take_ge by lia. rewrite take_take. do 2 f_equal. lia. }
  apply wpp_bind, wpp_write_counted; [done|done| | |].
  - intros w1 Hw1 Hc1 _. specialize (IH (r - n)%nat d' w1 Hr Hc1 Hfb).
    rewrite Hl in IH. specialize (IH ltac:(lia) ltac:(lia) Hok).
    assert (dl_written w1 ++ take (r - n) (queue d') = stream) as Hs
      by (unfold stream; by rewrite Hw1, Htake, app_assoc).
    rewrite Hs in IH. exact IH.
  - intros e w1 ->. unfold stream. by apply prefix_app_r.
  - intros m w1 Hw1. apply uncountable_prefix. unfold stream. rewrite Hw1, Htake, app_assoc.
    by apply prefix_app_r.
Qed.

(** The drain of the whole line, or nothing without a delay. *)
Lemma wpp_drain_line codec d w :
  writes_return → counted w → de_line d = [] ∨ delay_ok d →
  let stream := dl_written w ++ queue d in
  wpp (if is_empty (de_line d) then mret tt
      else drain (length (de_line d)) (Z.to_nat (sample_rate codec / 100 * 2)) (length (de_line d)) d) w
    (λ _ w', dl_written w' = stream ∧ counted w') (λ _ w', dl_written w' `prefix_of` stream)
    (λ _ _, uncountable stream).
Proof.
  intros Hr Hc Hd. destruct Hd as [Hd|Hd].
  - rewrite Hd. apply wpp_ret. unfold queue. rewrite Hd. by rewrite drop_nil, take_nil, !app_nil_r.
  - destruct (de_line d) as [|b l] eqn:Hln;
      [unfold delay_ok in Hd; rewrite Hln in Hd; cbn in Hd; lia|]. cbn [is_empty]. rewrite <- Hln.
    eapply wpp_mono; [apply (wpp_drain (length (de_line d)) _ (length (de_line d)) d w); try done|..].
    { apply Nat.ltb_lt. by destruct codec. }
    all: by rewrite <- (length_queue d), firstn_all.
Qed.

Lemma wpp_loopback_playback codec gain delay_seconds frames (s : S) :
  writes_return → 0 <= delay_seconds →
  let stream := zeros (Z.to_nat (delay_bytes codec delay_seconds)) ++
                concat (attenuate gain <$> frames) in
  wpp (loopback_playback codec gain delay_seconds frames) (fresh_downlink s)
    (λ bytes w, dl_written w = stream ∧ bytes = Z.of_nat (length stream))
    (λ _ w, dl_written w `prefix_of` stream) (λ _ _, uncountable stream).
Proof.
  intros Hr Hds stream. unfold loopback_playback. set (n := Z.to_nat _) in *.
  set (d0 := {| de_line := zeros n; de_cursor := 0 |}).
  assert (queue d0 = zeros n) as Hq0 by (unfold queue; cbn; by rewrite drop_0, app_nil_r).
  assert (de_line d0 = [] ∨ delay_ok d0) as Hd0.
  { destruct n as [|n']; [by left|right]. unfold delay_ok. cbn. lia. }
  apply wpp_bind. eapply wpp_mono; [apply (wpp_echo_frames gain frames d0); [done|done|done]|..].
  all: cbn [dl_written]; rewrite Hq0; cbn [app]; fold stream.
  2,3: done.
  intros d w (Hw & Hc & Hl & Hd). apply wpp_bind.
  eapply wpp_mono; [apply (wpp_drain_line codec d w); done|..]; rewrite Hw; [|done|done].
  intros _ w1 [Hw1 Hc1]. apply wpp_bind_wp, wp_shutdown; [done| |by intros e w2 ->; rewrite Hw1].
  intros w2 Hw2 Hb2. unfold wpp, mgets. rewrite Hw2, Hw1, Hb2. split; [done|].
  unfold counted in Hc1. by rewrite Hc1, Hw1.
Qed.

(** C28. The loopback plays back what it captured, attenuated, exactly
    [delay_seconds] later: the downlink is [delay_seconds] of silence followed
    by the attenuated frames, complete (the tail in the delay line is drained),
    and the reported count is its length; if a write fails, what was written is
    a prefix of that.  The delay line is never indexed out of bounds and the
    drain ends: the only panic is that of the counter, on a stream of at least
    2^64 bytes. *)
Theorem loopback_is_delayed_input codec gain delay_seconds frames (s : S) :
  writes_return → 0 <= delay_seconds →
  let stream := zeros (Z.to_nat (delay_bytes codec delay_seconds)) ++
                concat (attenuate gain <$> frames) in
  wpp (loopback_playback codec gain delay_seconds frames) (fresh_downlink s)
    (λ bytes w, dl_written w = stream ∧ bytes = Z.of_nat (length stream))
    (λ _ w, dl_written w `prefix_of` stream) (λ _ _, uncountable stream).
Proof. apply wpp_loopback_playback. Qed.
End playback_proofs.

(** ** Frame boundaries and samples *)

Lemma attenuate_app gain a b :
  Nat.even (length a) = true → attenuate gain (a ++ b) = attenuate gain a ++ attenuate gain b.
Proof.
  revert a. fix IH 1. intros [|x [|y a]] He; [done|done|]. cbn [app attenuate].
  rewrite (IH a) by done. by rewrite app_assoc.
Qed.

Lemma length_attenuate gain a : length (attenuate gain a) = length a.
Proof.
  revert a. fix IH 1. intros [|x [|y a]]; [done|done|]. cbn [attenuate].
  rewrite length_app, length_le_split, IH. done.
Qed.

(** With reads of whole samples the attenuation of the frames is the attenuation
    of the stream; a read that splits a sample leaves both of its halves as they
    were and pairs the following bytes wrongly. *)
Lemma attenuate_frames gain frames :
  Forall (λ f, Nat.even (length f) = true) frames →
  concat (attenuate gain <$> frames) = attenuate gain (concat frames).
Proof.
  induction 1 as [|f frames Hf _ IH]; [done|]. cbn. by rewrite IH, attenuate_app.
Qed.

(** The socket is a byte stream, but gain and statistics are computed per
    read: reads of an even length give the attenuation of the stream; a stream
    of one sample of value -256 read one byte at a time is passed on at full
    volume and counted as no sample at all. *)
Theorem attenuation_depends_on_reads :
  (∀ gain frames, Forall (λ f, Nat.even (length f) = true) frames →
     concat (attenuate gain <$> frames) = attenuate gain (concat frames)) ∧
  concat (attenuate (ar_loopback_gain args_default) <$> [[Byte.x00]; [Byte.xff] ]) = [Byte.x00; Byte.xff] ∧
  attenuate (ar_loopback_gain args_default) [Byte.x00; Byte.xff] = [Byte.xa6; Byte.xff] ∧
  (let? s := account [Byte.x00] stats_default in let? s := account [Byte.xff] s in Ok (cs_samples s)) = Ok 0 ∧
  (let? s := account [Byte.x00; Byte.xff] stats_default in Ok (cs_samples s)) = Ok 1.
Proof. split; [apply attenuate_frames|]. vm_compute. auto. Qed.

Lemma loopback_is_delayed_input_witness :
  let frames := [[Byte.x00; Byte.x10]; [Byte.x00; Byte.xf0] ] in
  let stream := zeros (Z.to_nat 16000) ++ concat (attenuate f32_one <$> frames) in
  wpp (loopback_playback Cvsd f32_one 1 frames) (fresh_downlink 200%nat)
    (λ bytes w, dl_written w = stream ∧ bytes = Z.of_nat (length stream))
    (λ _ w, dl_written w `prefix_of` stream) (λ _ _, uncountable stream).
Proof.
  intros frames. apply (loopback_is_delayed_input Cvsd f32_one 1 frames 200%nat);
    [apply bounded_socket_returns|lia].
Defined.

(** ** The capture loop *)

Lemma samples_of_length pcm : (length (samples_of pcm) <= length pcm)%nat.
Proof.
  revert pcm. fix IH 1. intros [|x [|y pcm] ]; cbn; [lia..|]. specialize (IH pcm). lia.
Qed.

Lemma account_samples_Ok values : ∀ s,
  0 <= cs_samples s → cs_samples s + Z.of_nat (length values) < 2 ^ 64 →
  ∃ s', account_samples values s = Ok s' ∧ cs_bytes s' = cs_bytes s ∧
    cs_samples s' = cs_samples s + Z.of_nat (length values).
Proof.
  induction values as [|x values IH]; intros s H0 Hb; cbn [account_samples length] in *.
  { exists s. split_and! ; [done|done|lia]. }
  unfold account_sample. rewrite add_u_in_range by lia. cbn [rbind].
  match goal with |- context [account_samples values ?s1] => destruct (IH s1) as (s' & Hs' & Hb' & Hn') end;
    cbn [cs_samples cs_bytes] in *; [lia|lia|].
  exists s'. split_and! ; [done|done|lia].
Qed.

(** As many samples as bytes at the most. *)
Definition counts_ok (s : CaptureStats) : Prop := 0 <= cs_samples s <= cs_bytes s.

(** The statistics follow the bytes, or the byte counter overflows. *)
Lemma account_spec pcm s :
  counts_ok s →
  match account pcm s with
  | Ok s' => cs_bytes s' = cs_bytes s + Z.of_nat (length pcm) ∧ counts_ok s'
  | Panic _ => 2 ^ 64 <= cs_bytes s + Z.of_nat (length pcm)
  | _ => False
  end.
Proof.
  intros Hs. unfold counts_ok, account in *. pose proof (samples_of_length pcm).
  destruct (decide (cs_bytes s + Z.of_nat (length pcm) < 2 ^ 64)).
  - rewrite add_u_in_range by lia. cbn [rbind]. set (s0 := Build_CaptureStats _ _ _ _).
    destruct (account_samples_Ok (samples_of pcm) s0) as (s' & -> & Hb & Hn); cbn in *; lia.
  - unfold add_u. destruct (in_width 64 _) eqn:Hi; b2p; [lia|]. cbn. lia.
Qed.

(** The clock of a run: what each await waits for has come when it completes,
    and time does not run backwards. *)
Fixpoint clocked (capture_deadline t : Z) (rounds : list capture_round) : bool :=
  match rounds with
  | [] => true
  | r :: rounds =>
      (t <=? cr_first_time r) && (cr_first_time r <=? cr_now r) && (cr_now r <=? cr_send_time r) &&
      match cr_first r with
      | PhaseDeadline => capture_deadline <=? cr_first_time r
      | ReadDone r => defined r
      end &&
      match cr_send r with
      | SendDeadline => capture_deadline <=? cr_send_time r
      | SendDone _ => true
      end && clocked capture_deadline (cr_send_time r) rounds
  end.

(** The bytes that a run reads before the capture deadline. *)
Definition round_bytes (capture_deadline : Z) (r : capture_round) : Z :=
  match cr_first r with
  | ReadDone (Ok bytes) => if capture_deadline <=? cr_now r then 0 else Z.of_nat (length bytes)
  | _ => 0
  end.

Fixpoint read_bytes (capture_deadline : Z) (rounds : list capture_round) : Z :=
  match rounds with
  | [] => 0
  | r :: rounds => round_bytes capture_deadline r + read_bytes capture_deadline rounds
  end.

Lemma round_bytes_nonneg cd r : 0 <= round_bytes cd r.
Proof. unfold round_bytes. repeat case_match; lia. Qed.

Lemma read_bytes_nonneg cd rounds : 0 <= read_bytes cd rounds.
Proof. induction rounds as [|r rounds IH]; cbn; [lia|]. pose proof (round_bytes_nonneg cd r). lia. Qed.

(** The capture, seen from outside: what it recorded and what it sent. *)
Definition recorded (s : capture_state) : Prop :=
  cs_bytes (ca_stats s) = Z.of_nat (length (ca_pcm s)) ∧ counts_ok (ca_stats s) ∧
  concat (ca_sent s) `prefix_of` ca_pcm s.

(** Between two rounds at time [t]: the sender is only dropped once the capture
    deadline has passed, and while it is there nothing was lost. *)
Definition capture_inv (capture_deadline t : Z) (s : capture_state) : Prop :=
  recorded s ∧ if ca_tx s then concat (ca_sent s) = ca_pcm s else capture_deadline <= t.

Lemma capture_turn_spec cd dd t r rounds s :
  cd <= dd → clocked cd t (r :: rounds) = true → capture_inv cd t s →
  match capture_turn cd dd r s with
  | Ok (s', f) => recorded s' ∧
      Z.of_nat (length (ca_pcm s')) <= Z.of_nat (length (ca_pcm s)) + round_bytes cd r ∧
      clocked cd (cr_send_time r) rounds = true ∧ (f = Continue → capture_inv cd (cr_send_time r) s')
  | Panic _ => 2 ^ 64 <= Z.of_nat (length (ca_pcm s)) + round_bytes cd r
  | _ => False
  end.
Proof.
  intros Hdd Hck [Hrec Htx]. cbn [clocked] in Hck. b2p. unfold capture_turn, capture_inv, round_bytes in *.
  destruct (cr_first r) as [|[bytes|e|?|?] ] eqn:Hf; b2p; try done.
  - destruct (ca_tx s && _) eqn:Hb; split_and! ; try done; cbn; try lia; intros _; (split; [done|lia]).
  - destruct (is_empty bytes); [split_and! ; try done; destruct (cd <=? cr_now r); lia|].
    destruct (cd <=? cr_now r) eqn:Hn; b2p.
    { split_and! ; try done; cbn; [lia|]. intros _. split; [done|lia]. }
    destruct Hrec as (Hb & Hcnt & Hpre). pose proof (account_spec bytes (ca_stats s) Hcnt) as Ha.
    destruct (account bytes (ca_stats s)) as [stats|?|?|?]; cbn [rbind]; [|done|lia|done].
    destruct Ha as [Hbytes Hcnt'].
    destruct (ca_tx s) eqn:Ht; cbn [ca_tx ca_stats ca_pcm ca_sent]; [|lia].
    assert (cs_bytes stats = Z.of_nat (length (ca_pcm s ++ bytes))) as Hb' by (rewrite length_app; lia).
    assert (concat (ca_sent s ++ [bytes]) = ca_pcm s ++ bytes) as Heq
      by (rewrite concat_app; cbn; by rewrite Htx, app_nil_r).
    destruct (cr_send r) as [|[] ]; b2p; unfold recorded; cbn [drop_tx ca_tx ca_stats ca_pcm ca_sent];
      rewrite ?Heq; split_and! ; try done; try (by apply prefix_app_r); try (rewrite length_app; lia).
    all: intros _; split_and! ; first [done|by apply prefix_app_r|lia].
  - split_and! ; try done; lia.
Qed.

Lemma capture_loop_spec cd dd rounds : ∀ t s,
  cd <= dd → clocked cd t rounds = true → capture_inv cd t s →
  match capture_loop cd dd rounds s with
  | Ok (s', _) => recorded s' ∧
      Z.of_nat (length (ca_pcm s')) <= Z.of_nat (length (ca_pcm s)) + read_bytes cd rounds
  | Panic _ => 2 ^ 64 <= Z.of_nat (length (ca_pcm s)) + read_bytes cd rounds
  | _ => False
  end.
Proof.
  induction rounds as [|r rounds IH]; intros t s Hdd Hck Hinv; cbn [capture_loop read_bytes].
  { split; [apply Hinv|lia]. }
  pose proof (capture_turn_spec cd dd t r rounds s Hdd Hck Hinv) as Hturn.
  pose proof (read_bytes_nonneg cd rounds).
  destruct (capture_turn cd dd r s) as [ [s1 f]|?|?|?]; cbn [rbind fst snd]; [|done|lia|done].
  destruct Hturn as (Hr1 & Hl1 & Hck1 & Hi1). destruct f; [|split; [done|lia]..].
  specialize (IH _ s1 Hdd Hck1 (Hi1 eq_refl)).
  destruct (capture_loop cd dd rounds s1) as [ [s2 f2]|?|?|?]; [|done|lia|done].
  destruct IH. split; [done|lia].
Qed.

(** C36. The capture half finds its sender: with a clock that does not run
    backwards, whatever the order in which reads, sends and the two deadlines
    complete, the sender is there when a frame is to be sent.  The byte count it
    reports is the length of the recording, and what it sends on is the beginning
    of the recording, in order.  The only panic is that
    of the byte counter, after 2^64 bytes were read before the deadline. *)
Theorem capture_finds_its_sender capture_deadline drain_deadline start rounds :
  capture_deadline <= drain_deadline → clocked capture_deadline start rounds = true →
  match capture_loop capture_deadline drain_deadline rounds capture_init with
  | Ok (s, f) =>
      cs_bytes (ca_stats s) = Z.of_nat (length (ca_pcm s)) ∧ concat (ca_sent s) `prefix_of` ca_pcm s
  | Panic _ => 2 ^ 64 <= read_bytes capture_deadline rounds
  | Err _ | Undef _ => False
  end.
Proof.
  intros Hdd Hck.
  assert (capture_inv capture_deadline start capture_init) as Hi by (split; [by split_and!|done]).
  pose proof (capture_loop_spec _ _ _ _ _ Hdd Hck Hi) as Hl.
  destruct (capture_loop _ _ _ _) as [ [s f]|?|?|?]; try done. by destruct Hl as [(? & _ & ?) _].
Qed.

Lemma capture_finds_its_sender_witness :
  let rounds := [
    {| cr_first := ReadDone (Ok [Byte.x01; Byte.x02]); cr_first_time := 1; cr_now := 2;
       cr_send := SendDone true; cr_send_time := 3 |};
    {| cr_first := ReadDone (Ok [Byte.x03]); cr_first_time := 4; cr_now := 5;
       cr_send := SendDeadline; cr_send_time := 10 |};
    {| cr_first := PhaseDeadline; cr_first_time := 20; cr_now := 20;
       cr_send := SendDone true; cr_send_time := 20 |} ] in
  read_bytes 10 rounds = 3 ∧
  match capture_loop 10 20 rounds capture_init with
  | Ok (s, f) =>
      cs_bytes (ca_stats s) = Z.of_nat (length (ca_pcm s)) ∧ concat (ca_sent s) `prefix_of` ca_pcm s
  | Panic _ => 2 ^ 64 <= read_bytes 10 rounds
  | Err _ | Undef _ => False
  end.
Proof. intros rounds. split; [reflexivity|]. apply (capture_finds_its_sender 10 20 0 rounds); [lia|reflexivity]. Defined.

(** ** The reference tone *)

Section tone_proofs.
Context (sin powf10 : f32 → f32).
Context {S : Type} `{!Socket S}.
(** The samples from number [k] on. *)
Fixpoint tone (n : nat) (rate : Z) (frequency_hz : f32) (k : Z) : memory :=
  match n with
  | O => []
  | Datatypes.S n => le_split 2 (i16_bits (tone_sample sin powf10 rate frequency_hz k)) ++
                     tone n rate frequency_hz (k + 1)
  end.

Lemma tone_app rate f a b : ∀ k,
  tone (a + b) rate f k = tone a rate f k ++ tone b rate f (k + Z.of_nat a).
Proof.
  induction a as [|a IH]; intros k; cbn [Nat.add tone app]; [by rewrite Z.add_0_r|].
  rewrite IH, app_assoc. do 2 f_equal. lia.
Qed.

Lemma length_tone rate f n : ∀ k, length (tone n rate f k) = (2 * n)%nat.
Proof.
  induction n as [|n IH]; intros k; cbn [tone]; [done|]. rewrite length_app, length_le_split, IH. lia.
Qed.

Lemma tone_frame_Ok rate f n : ∀ k index,
  0 <= k → 0 <= index → k + index + Z.of_nat n < 2 ^ 64 →
  tone_frame sin powf10 n rate f k index = Ok (tone n rate f (k + index)).
Proof.
  induction n as [|n IH]; intros k index Hk Hi Hb; cbn [tone_frame tone]; [done|].
  rewrite add_u_in_range by lia. cbn [rbind]. rewrite IH by lia. cbn [rbind]. by rewrite Z.add_assoc.
Qed.

(** Two bytes per sample: the byte counter overflows before the sample number. *)
Lemma wpp_tone_loop codec f n : ∀ k (w : downlink S),
  writes_return → counted w → Z.of_nat (length (dl_written w)) = 2 * k → 2 * k < 2 ^ 64 →
  let stream := dl_written w ++ tone (n * Z.to_nat (sample_rate codec / 100)) (sample_rate codec) f k in
  wpp (tone_loop sin powf10 n codec f k) w
    (λ _ w', dl_written w' = stream ∧ counted w') (λ _ w', dl_written w' `prefix_of` stream)
    (λ _ _, uncountable stream).
Proof.
  assert (Z.of_nat (Z.to_nat (sample_rate codec / 100)) = sample_rate codec / 100 ∧
          0 <= sample_rate codec / 100 <= 160) as [Hspf Hspf'] by (by destruct codec).
  induction n as [|n IH]; intros k w Hr Hc Hk Hb stream; cbn [tone_loop].
  { apply wpp_ret. unfold stream. cbn. by rewrite app_nil_r. }
  set (spf := Z.to_nat (sample_rate codec / 100)) in *.
  assert (stream = (dl_written w ++ tone spf (sample_rate codec) f k) ++
    tone (n * spf) (sample_rate codec) f (k + sample_rate codec / 100)) as Hs.
  { unfold stream. rewrite <- app_assoc. f_equal. rewrite Nat.mul_succ_l, Nat.add_comm.
    by rewrite tone_app, Hspf. }
  apply wpp_bind. rewrite tone_frame_Ok, Z.add_0_r by lia. apply wpp_ret.
  apply wpp_bind. rewrite add_u_in_range by lia. apply wpp_ret.
  apply wpp_bind, wpp_write_counted; [done|done|..].
  - intros w1 Hw1 Hc1 Hl1.
    assert (Z.of_nat (length (dl_written w1)) = 2 * (k + sample_rate codec / 100)) as Hk1
      by (rewrite Hw1, length_app, length_tone; lia).
    rewrite Hs, <- Hw1. apply IH; [done|done|done|lia].
  - intros e w1 ->. unfold stream. by apply prefix_app_r.
  - intros m w1 Hw1. apply uncountable_prefix. rewrite Hs, Hw1. by apply prefix_app_r.
Qed.

Lemma wpp_tone_playback codec f seconds (s : S) :
  writes_return →
  let stream := tone (Z.to_nat (tone_ticks seconds) * Z.to_nat (sample_rate codec / 100))
                  (sample_rate codec) f 0 in
  wpp (tone_playback sin powf10 codec f seconds) (fresh_downlink s)
    (λ bytes w, dl_written w = stream ∧ bytes = Z.of_nat (length stream))
    (λ _ w, dl_written w `prefix_of` stream) (λ _ _, uncountable stream).
Proof.
  intros Hr stream. unfold tone_playback. apply wpp_bind.
  eapply wpp_mono; [by apply (wpp_tone_loop codec f _ 0)|..]; cbn [dl_written fresh_downlink app]; fold stream; [|done|done].
  intros _ w1 [Hw1 Hc1]. apply wpp_bind_wp, wp_shutdown; [done| |by intros e w2 ->; rewrite Hw1].
  intros w2 Hw2 Hb2. unfold wpp, mgets. rewrite Hw2, Hb2. split; [done|].
  unfold counted in Hc1. by rewrite Hc1, Hw1.
Qed.

Lemma tone_samples codec seconds : 0 <= seconds → seconds * 1000 < 2 ^ 64 →
  (Z.to_nat (tone_ticks seconds) * Z.to_nat (sample_rate codec / 100) =
   Z.to_nat (seconds * sample_rate codec))%nat.
Proof.
  intros H0 Hs. unfold tone_ticks, as_unsigned. rewrite Z.mod_small by lia.
  replace (seconds * 1000) with (seconds * 100 * 10) by lia. rewrite Z.div_mul by lia.
  rewrite <- Z2Nat.inj_mul by (lia || by destruct codec). f_equal.
  destruct codec; [change (sample_rate Cvsd / 100) with 80|change (sample_rate Msbc / 100) with 160];
    cbn [sample_rate]; lia.
Qed.

(** The reference tone has no gaps: over all frames the downlink carries
    one tone of [seconds] times the sample rate, each sample computed from its
    number in the whole stream, and the count of bytes reported is two per
    sample; after a failed write what was sent is a prefix of it. *)
Theorem tone_is_continuous codec f seconds (s : S) :
  writes_return → 0 <= seconds → seconds * 32_000 < 2 ^ 64 →
  let samples := Z.to_nat (seconds * sample_rate codec) in
  wp (tone_playback sin powf10 codec f seconds) (fresh_downlink s)
    (λ bytes w, dl_written w = tone samples (sample_rate codec) f 0 ∧
       bytes = 2 * (seconds * sample_rate codec))
    (λ _ w, dl_written w `prefix_of` tone samples (sample_rate codec) f 0).
Proof.
  intros Hr H0 Hs samples. pose proof (tone_samples codec seconds H0 ltac:(lia)) as Hn. fold samples in Hn.
  pose proof (wpp_tone_playback codec f seconds s Hr) as Hp. rewrite Hn in Hp.
  eapply wp_mono; [eapply wpp_wp; [exact Hp|]|..]; cbv beta; [|intros bytes w [Hw ->]|done].
  - intros _ _. unfold uncountable. rewrite length_tone. unfold samples. destruct codec; cbn in *; lia.
  - split; [done|]. rewrite length_tone. unfold samples. destruct codec; cbn in *; lia.
Qed.
End tone_proofs.

Lemma tone_is_continuous_witness :
  wp (tone_playback id id Cvsd f32_one 1) (fresh_downlink 200%nat)
    (λ bytes w, dl_written w = tone id id (Z.to_nat 8000) 8000 f32_one 0 ∧ bytes = 2 * (1 * 8000))
    (λ _ w, dl_written w `prefix_of` tone id id (Z.to_nat 8000) 8000 f32_one 0).
Proof.
  apply (tone_is_continuous id id Cvsd f32_one 1 200%nat); [apply bounded_socket_returns|lia|lia].
Defined.

(** ** The call is stopped *)

Section session_proofs.
Context (sin powf10 : f32 → f32).
Context {S : Type} `{!Socket S} {W : Type} `{!Host W, !HostLaws W} `{!HfpBus (S := S) W}.

(** The bytes that the reads of a full-duplex exercise give. *)
Definition select_bytes (r : first_select) : Z :=
  match r with ReadDone (Ok bytes) => Z.of_nat (length bytes) | _ => 0 end.

Fixpoint selects_bytes (reads : list first_select) : Z :=
  match reads with [] => 0 | r :: reads => select_bytes r + selects_bytes reads end.

(** A run of the exercise that can happen: a clock that does not run backwards,
    reads that return, and a recording that a [Vec] can hold (at most
    [isize::MAX] bytes). *)
Definition valid_script (args : Args) (sc : exercise_script S) : Prop :=
  0 <= sc_now sc < 2 ^ 62 ∧
  Forall (λ r, match r with ReadDone r => defined r = true | _ => True end) (sc_reads sc) ∧
  selects_bytes (sc_reads sc) < 2 ^ 63 ∧
  let deadline := sc_now sc + ar_seconds args * sec in
  clocked deadline (sc_now sc) (sc_rounds sc) = true ∧ read_bytes deadline (sc_rounds sc) < 2 ^ 63.

Class HfpBusLaws : Prop := {
  hfp_writes : writes_return (S := S);
  hfp_connect_returns (w : W) : defined (fst (hfp_connect w)) = true;
  hfp_proxy_returns (w : W) : defined (fst (hfp_proxy w)) = true;
  hfp_set_active_returns a (w : W) : defined (fst (hfp_set_active a w)) = true;
  hfp_start_returns a o d (w : W) : defined (fst (hfp_start_sco a o d w)) = true;
  hfp_codecs_returns a (w : W) : defined (fst (hfp_final_codecs a w)) = true;
  hfp_stop_returns a (w : W) : defined (fst (hfp_stop_sco a w)) = true;
  hfp_write_file_returns p b (w : W) : defined (fst (hfp_write_file p b w)) = true;
  hfp_exercise_valid args (w : W) :
    defined (fst (hfp_exercise args w)) = true ∧
    ∀ sc, fst (hfp_exercise args w) = Ok sc → valid_script args sc;
}.
Context `{!HfpBusLaws}.

(** Returned, or panicked where [P] holds. *)
Definition panics_only {A} (P : Prop) (r : result A) : Prop :=
  match r with Panic _ => P | Undef _ => False | _ => True end.

Lemma wpp_panics {T A} (P : Prop) (c : M T A) s Q E : wpp c s Q E (λ _ _, P) → panics_only P (fst (c s)).
Proof. unfold wpp. by destruct (c s) as [[] ?]. Qed.

Lemma panics_mono {A} (P P' : Prop) (r : result A) : panics_only P r → (P → P') → panics_only P' r.
Proof. destruct r; cbn; auto. Qed.

Lemma try_join_panics {A B} (P : Prop) b (x : result (option A)) (y : result B) :
  panics_only P x → panics_only P y → panics_only P (try_join b x y).
Proof. by destruct x as [[]|?|?|?], y. Qed.

Lemma panics_bind {A B} (P : Prop) (c : result A) (k : A → result B) :
  panics_only P c → (∀ a, c = Ok a → panics_only P (k a)) → panics_only P (rbind c k).
Proof. destruct c; cbn; auto. Qed.

Lemma instant_add_Ok now s : 0 <= now < 2 ^ 63 * sec → now / sec + s < 2 ^ 63 →
  instant_add now s = Ok (now + s * sec).
Proof. intros ? ?. unfold instant_add. by rewrite (proj2 (Z.ltb_lt _ _)). Qed.

(** More seconds than the machine can represent: with at most 2^48 the deadlines
    fit an [Instant] and the recording an allocation request. *)
Abbreviation too_long args := (2 ^ 48 < ar_seconds args).

Lemma instant_add_panics now s : 0 <= now < 2 ^ 62 → panics_only (2 ^ 48 < s) (instant_add now s).
Proof.
  intros Hn. unfold instant_add. case_match; [done|]. b2p. cbn.
  assert (now / sec <= now) by (apply Z.div_le_upper_bound; unfold sec; lia). lia.
Qed.

Lemma recording_capacity_panics codec s : 0 <= s → panics_only (2 ^ 48 < s) (recording_capacity codec s).
Proof.
  intros Hs. destruct (decide (s <= 2 ^ 48)) as [Hle|Hgt].
  - unfold recording_capacity. rewrite mul_u_in_range by (destruct codec; cbn; lia).
    cbn [rbind]. unfold with_capacity. rewrite (proj2 (Z.ltb_lt _ _)); [done|]. destruct codec; cbn; lia.
  - unfold recording_capacity, mul_u, with_capacity. case_match; cbn; [case_match; cbn; [done|lia]|lia].
Qed.

Lemma duplex_capture_returns reads : ∀ stats pcm,
  counts_ok stats → cs_bytes stats + selects_bytes reads < 2 ^ 64 →
  Forall (λ r, match r with ReadDone r => defined r = true | _ => True end) reads →
  panics_only False (duplex_capture reads stats pcm).
Proof.
  induction reads as [|[|[bytes|?|?|?] ] reads IH]; intros stats pcm Hs Hb Hr; inversion Hr; cbn in *; try done.
  assert (0 <= selects_bytes reads).
  { clear. induction reads as [|[|[] ] reads IH]; cbn; lia. }
  case_match; [done|]. pose proof (account_spec bytes stats Hs) as Ha.
  destruct (account bytes stats) as [s'|?|?|?]; cbn; [|done|lia|done].
  destruct Ha. apply IH; [done|lia|done].
Qed.

(** The frames that the capture hands on are no longer than the recording. *)
Lemma length_attenuated gain frames :
  length (concat (attenuate gain <$> frames)) = length (concat frames).
Proof.
  induction frames as [|f frames IH]; cbn; [done|]. by rewrite !length_app, length_attenuate, IH.
Qed.

Lemma exercise_panics args sc :
  0 <= ar_seconds args → 0 <= ar_loopback_delay_seconds args <= 60 → valid_script args sc →
  panics_only (too_long args)
    (if ar_loopback args then exercise_loopback sc args else exercise_full_duplex sin powf10 sc args).
Proof.
  intros Hs Hd (Hnow & Hreads & Hrb & Hck & Hlb). pose proof hfp_writes as Hw.
  pose proof (instant_add_panics (sc_now sc) (ar_seconds args) Hnow) as Hi.
  destruct (ar_loopback args).
  - unfold exercise_loopback. apply panics_bind; [done|]. intros cd Hcd.
    assert (cd = sc_now sc + ar_seconds args * sec) as ->
      by (unfold instant_add in Hcd; case_match; by inv_ok).
    assert (panics_only (too_long args) (instant_add (sc_now sc + ar_seconds args * sec)
      (ar_loopback_delay_seconds args))) as Hi2.
    { unfold instant_add. case_match; [done|]. b2p. cbn. rewrite Z.div_add in * by (by unfold sec).
      assert (sc_now sc / sec <= sc_now sc) by (apply Z.div_le_upper_bound; unfold sec; lia). lia. }
    apply panics_bind; [done|]. intros dd Hdd.
    assert (sc_now sc + ar_seconds args * sec <= dd) as Hle
      by (unfold instant_add in Hdd; case_match; [inv_ok; unfold sec; lia|done]).
    apply panics_bind; [by apply recording_capacity_panics|]. intros _ _.
    pose proof (capture_loop_spec _ dd _ _ capture_init Hle Hck ltac:(split; [by split_and!|done])) as Hcap.
    cbn [ca_pcm capture_init length] in Hcap.
    destruct (capture_loop _ _ _ _) as [ [s' f]|?|?|?]; cbn [rbind fst snd]; [|done|exfalso; lia|done].
    destruct Hcap as [(_ & _ & Hpre%prefix_length) Hlen].
    apply panics_bind; [|done]. apply try_join_panics; [by destruct f|].
    eapply panics_mono; [eapply wpp_panics, wpp_loopback_playback; [done|lia]|]. unfold uncountable.
    rewrite length_app, length_zeros, length_attenuated. unfold delay_bytes. destruct (ar_codec args); cbn; lia.
  - unfold exercise_full_duplex. apply panics_bind; [done|]. intros _ _.
    apply panics_bind; [by apply recording_capacity_panics|]. intros _ _.
    apply panics_bind; [|done]. apply try_join_panics.
    + eapply panics_mono; [apply duplex_capture_returns; [done|cbn; lia|done]|done].
    + eapply panics_mono; [by eapply wpp_panics, wpp_tone_playback|]. intros Hu.
      destruct (decide (ar_seconds args <= 2 ^ 48)); [|lia]. exfalso. unfold uncountable in Hu.
      rewrite tone_samples, length_tone in Hu by lia. destruct (ar_codec args); cbn in *; lia.
Qed.

Implicit Types (t : traced W hfp_event).

Definition capture_events (args : Args) (pcm : memory) : list hfp_event :=
  match ar_capture_path args with Some path => [EWriteFile path pcm] | None => [] end.

Lemma wpp_run_exercise args t :
  0 <= ar_seconds args → 0 <= ar_loopback_delay_seconds args <= 60 →
  wpp (run_exercise sin powf10 args) t (λ _ t', tr_log t' = tr_log t ++ [EExercise]) (λ _ _, True)
    (λ _ t', too_long args ∧ ∃ l, (l = [] ∨ l = [EExercise]) ∧ tr_log t' = tr_log t ++ l).
Proof.
  intros Hs Hd. unfold run_exercise. apply wpp_bind.
  assert (panics_only (too_long args)
    (let? n := add_u 64 (ar_seconds args) (ar_loopback_delay_seconds args) in add_u 64 n 5)) as Hadd.
  { unfold add_u. repeat (case_match; cbn; b2p; try done); destruct (decide (ar_seconds args <= 2 ^ 48)); try lia.
    all: match goal with H : in_width _ _ = false |- _ => rewrite (proj2 (in_width_spec _ _)) in H; [done|lia] end. }
  unfold wpp at 1, lift. destruct (rbind _ _) as [n|e|?|?] eqn:He; cbn in Hadd; [|done| |done].
  2:{ split; [done|]. exists []. rewrite app_nil_r. auto. }
  apply wpp_bind. destruct (hfp_exercise_valid args (tr_world t)) as [Hret Hval].
  unfold wpp at 1, logged. destruct (hfp_exercise args (tr_world t)) as [[sc|?|?|?] w] eqn:Hex; try done.
  pose proof (exercise_panics args sc Hs Hd (Hval sc eq_refl)) as Hp.
  unfold wpp, lift, within_timeout. destruct (if ar_loopback args then _ else _) as [o|?|?|?]; cbn in *; [|done| |done].
  - by destruct o.
  - split; [done|]. exists [EExercise]. auto.
Qed.

Lemma wpp_sco_test args t :
  0 <= ar_seconds args → 0 <= ar_loopback_delay_seconds args <= 60 →
  wpp (sco_test sin powf10 args) t
    (λ _ t', ∃ pcm, tr_log t' = tr_log t ++ [EFinalCodecs; EExercise] ++ capture_events args pcm)
    (λ _ _, True)
    (λ _ t', too_long args ∧ ∃ l, (l = [] ∨ l = [EExercise]) ∧ tr_log t' = tr_log t ++ EFinalCodecs :: l).
Proof.
  intros Hs Hd. unfold sco_test. apply wpp_bind_wp, wp_quiet.
  eapply wp_mono; [apply wp_wait_for_listener| |done]. intros codec w1 _. cbv beta.
  apply wpp_bind_wp, wp_traced; [apply hfp_codecs_returns| |done]. intros reported w2.
  apply wpp_bind_wp, wp_ensure; [|done]. intros _. apply wpp_bind_wp, wp_quiet.
  eapply wp_mono; [apply wp_connect_uipc| |done]. intros ? w3 _. cbv beta. apply wpp_bind.
  eapply wpp_mono; [by apply wpp_run_exercise| |done|]; cbn [tr_log tr_world].
  2:{ intros m t4 (? & l & ? & Ht4). rewrite <- app_assoc in Ht4. eauto. }
  intros m t4 Ht4. apply wpp_bind_wp, wp_ensure; [|done]. intros _. apply wpp_bind_wp, wp_ensure; [|done]. intros _.
  apply wp_wpp. unfold capture_events. destruct (ar_capture_path args).
  - apply wp_context, wp_traced; [apply hfp_write_file_returns| |done]. intros ? w5. cbn [tr_log].
    exists (snd m). rewrite Ht4, <- !app_assoc. done.
  - apply wp_ret. exists []. rewrite Ht4, <- !app_assoc. done.
Qed.

(** However the cleanup ends, the call was stopped or there was no socket pair
    to stop it with. *)
Lemma wp_stop_sco a t :
  wp (stop_sco a) t
    (λ _ t', tr_log t' = tr_log t ++ [EListenerPair true; EStopSco a])
    (λ _ t', tr_log t' = tr_log t ++ [EListenerPair true; EStopSco a] ∨
             tr_log t' = tr_log t ++ [EListenerPair false]).
Proof.
  unfold stop_sco, listener_pair. apply wp_bind, wp_traced; [apply socketpair_returns| |by right].
  intros ? w1. apply wp_bind, wp_traced; [apply hfp_stop_returns|..]; cbn [tr_log is_ok].
  2:{ intros e w2. left. by rewrite <- app_assoc. }
  intros ? w2. apply wp_quiet. eapply wp_mono; [apply wp_wait_for_listener|..]; cbn [tr_log].
  - intros ? w3 _. by rewrite <- app_assoc.
  - intros ? w3 _. left. by rewrite <- app_assoc.
Qed.

(** The calls up to the start, and the complete run. *)
Definition start_events (args : Args) : list hfp_event :=
  [EConnect; EProxy; ESetActive (ar_address args); EListenerPair true;
   EStartSco (ar_address args) (disabled_codecs (ar_codec args)) true].

Definition not_started (log : list hfp_event) : Prop := ∀ a d, EStartSco a d true ∉ log.

Ltac unstarted :=
  intros; subst; left; intros a' d' Hin; cbn in Hin;
  repeat (apply elem_of_cons in Hin as [Hin|Hin]; [discriminate Hin|]); by apply not_elem_of_nil in Hin.

(** C19. From the moment StartScoCall was accepted every exit path that returns
    issues StopScoCall: whatever fails in the test or in the cleanup, the last
    call is the stop, unless the socket pair for its listener cannot be created.
    A successful run has made exactly the expected calls.  The exception is a
    panic, which unwinds past the stop and leaves the call started: it happens
    only for durations of more than 2^48 seconds, which the command line
    accepts, and in the exercise or just before it. *)
Theorem accepted_call_is_stopped args (w : W) :
  0 <= ar_seconds args → 0 <= ar_loopback_delay_seconds args <= 60 →
  let '(r, t) := run sin powf10 args {| tr_world := w; tr_log := [] |} in
  match r with
  | Ok _ => ∃ pcm, tr_log t = start_events args ++ [EFinalCodecs; EExercise] ++
              capture_events args pcm ++ [EListenerPair true; EStopSco (ar_address args)]
  | Err _ => not_started (tr_log t) ∨ last (tr_log t) = Some (EStopSco (ar_address args)) ∨
             last (tr_log t) = Some (EListenerPair false)
  | Panic _ => 2 ^ 48 < ar_seconds args ∧
               ∃ l, (l = [] ∨ l = [EExercise]) ∧ tr_log t = start_events args ++ EFinalCodecs :: l
  | Undef _ => False
  end.
Proof.
  intros Hs Hd. pose (stopped log := last log = Some (EStopSco (ar_address args)) ∨ last log = Some (EListenerPair false)).
  cut (wpp (run sin powf10 args) {| tr_world := w; tr_log := [] |}
    (λ _ t, ∃ pcm, tr_log t = start_events args ++ [EFinalCodecs; EExercise] ++
       capture_events args pcm ++ [EListenerPair true; EStopSco (ar_address args)])
    (λ _ t, not_started (tr_log t) ∨ stopped (tr_log t))
    (λ _ t, too_long args ∧ ∃ l, (l = [] ∨ l = [EExercise]) ∧ tr_log t = start_events args ++ EFinalCodecs :: l)).
  { unfold wpp. by destruct (run _ _ _ _) as [[] ?]. }
  unfold run, listener_pair.
  apply wpp_bind_wp, wp_context, wp_traced; [apply hfp_connect_returns| |unstarted].
  intros ? w1. apply wpp_bind_wp, wp_context, wp_traced;
    [apply hfp_proxy_returns| |unstarted].
  intros ? w2. apply wpp_bind_wp, wp_traced; [apply hfp_set_active_returns| |unstarted].
  intros ? w3. apply wpp_bind_wp, wp_traced; [apply socketpair_returns| |unstarted].
  intros ? w4. apply wpp_bind_wp, wp_traced; [apply hfp_start_returns| |unstarted].
  intros accepted w5. apply wpp_bind_wp, wp_ensure; [|unstarted].
  intros ->. apply wpp_bind, wpp_try. eapply wpp_mono; [by apply wpp_sco_test|..]; cbn [tr_log app]; [..|done].
  all: intros u t Ht; apply wpp_bind_wp, wp_try; (eapply wp_mono; [apply wp_stop_sco|..]); cbv beta.
  - destruct Ht as (pcm & Ht). intros status t' Ht'. unfold combine_results. apply wp_wpp, wp_ensure; intros _.
    + exists pcm. rewrite Ht', Ht. cbn. rewrite <- ?app_assoc. done.
    + right. left. by rewrite Ht', last_app.
  - intros e t' Ht'. apply wp_wpp, wp_lift; [done|done|]. intros _ _. right. unfold stopped.
    destruct Ht' as [-> | ->]; rewrite last_app; auto.
  - intros status t' Ht'. apply wp_wpp, wp_lift; [done|done|]. intros _ _. right. left. by rewrite Ht', last_app.
  - intros e' t' Ht'. apply wp_wpp, wp_lift; [done|done|]. intros _ _. right. unfold stopped.
    destruct Ht' as [-> | ->]; rewrite last_app; auto.
Qed.
End session_proofs.

(** A headset that answers: the world is its clock. *)
Section sim_headset.
#[local] Instance sim_host : Host Z := {|
  host_now := id; host_sleep := λ d t, t + d; host_connect := λ _ t, (Ok tt, t);
  host_socketpair := λ t, (Ok tt, t); host_listen := λ _ t, (Ok (Some 1), t);
|}.

#[local] Instance sim_host_laws : HostLaws Z.
Proof. split; intros; cbn; (done || lia). Qed.

Definition sim_script : exercise_script nat := {|
  sc_now := 0; sc_socket := 200%nat;
  sc_reads := [ReadDone (Ok [Byte.x01; Byte.x02]); PhaseDeadline];
  sc_rounds := []; sc_capture_first := true |}.

#[local] Instance sim_bus : HfpBus (S := nat) Z := {|
  hfp_connect := λ t, (Ok tt, t); hfp_proxy := λ t, (Ok tt, t);
  hfp_set_active := λ _ t, (Ok tt, t); hfp_start_sco := λ _ _ _ t, (Ok true, t);
  hfp_final_codecs := λ _ t, (Ok 1, t); hfp_stop_sco := λ _ t, (Ok tt, t);
  hfp_exercise := λ _ t, (Ok sim_script, t); hfp_write_file := λ _ _ t, (Ok tt, t);
|}.

#[local] Instance sim_bus_laws : HfpBusLaws (S := nat) (W := Z).
Proof.
  split; try done; [apply bounded_socket_returns|].
  intros args w. split; [done|]. intros sc [= <-]. split; [cbn; lia|]. split; [by repeat constructor|]. done.
Qed.

Definition sim_args (seconds : Z) : Args := {|
  ar_address := "00:11:22:33:44:55"; ar_seconds := seconds; ar_frequency_hz := f32_of_Z 440;
  ar_loopback := false; ar_loopback_gain := f32_one; ar_loopback_delay_seconds := 0;
  ar_capture_path := Some "mic.raw"; ar_codec := Cvsd |}.

Lemma accepted_call_is_stopped_witness :
  let args := sim_args 1 in
  let '(r, t) := run id id args {| tr_world := 0; tr_log := [] |} in
  match r with
  | Ok _ => ∃ pcm, tr_log t = start_events args ++ [EFinalCodecs; EExercise] ++
              capture_events args pcm ++ [EListenerPair true; EStopSco (ar_address args)]
  | Err _ => not_started (tr_log t) ∨ last (tr_log t) = Some (EStopSco (ar_address args)) ∨
             last (tr_log t) = Some (EListenerPair false)
  | Panic _ => 2 ^ 48 < 1 ∧
               ∃ l, (l = [] ∨ l = [EExercise]) ∧ tr_log t = start_events args ++ EFinalCodecs :: l
  | Undef _ => False
  end.
Proof. intros args. apply (accepted_call_is_stopped id id (sim_args 1) 0); cbn; lia. Defined.

(** A duration that the clock cannot represent is accepted by the command
    line but panics in the exercise, after StartScoCall and without
    StopScoCall: the comment that every exit path stops the call does not hold
    for it. *)
Theorem huge_duration_leaves_call_started :
  check_args (sim_args (2 ^ 63)) = Ok (sim_args (2 ^ 63)) ∧
  let '(r, t) := run id id (sim_args (2 ^ 63)) {| tr_world := 0; tr_log := [] |} in
  r = Panic "overflow when adding duration to instant" ∧
  tr_log t = start_events (sim_args (2 ^ 63)) ++ [EFinalCodecs; EExercise].
Proof. vm_compute. auto. Qed.
End sim_headset.
