(* ===== verification/A2dpSmoke.v ===== *)
(** * The A2DP smoke test ([src/bin/floss_audio_smoke.rs])

    Plays a tone or a PCM file over an A2DP link: the command line, the wait for
    the daemon to be idle, the two writers, and the session. *)

From Stdlib Require Import Floats.SpecFloat.
From S2P Require Import Prelude Types Bytes Ring RingSpec Float SmokeIo.

Module A2dp.

Definition A2DP_DATA_PATH : string := "/run/bluetooth/audio/.a2dp_data".
Definition SAMPLE_RATE : Z := 48_000.
Definition CHANNELS : Z := 2.
Definition FRAMES_PER_TICK : Z := 960.
(** [FRAME_TIME.as_millis()] *)
Definition FRAME_TIME_MS : Z := 20.

(** ** The command line *)

Record Args := {
  address : string;
  seconds : Z;
  volume : Z;
  frequency_hz : f32;
  pcm_path : option string;
}.

Definition args_default : Args := {|
  address := ""; seconds := 3; volume := 40; frequency_hz := f32_of_Z 440; pcm_path := None |}.

Section arguments.
(** [str::parse] for [u64], [u8] and [f32]. *)
Context (parse_u64 parse_u8 : string → result Z) (parse_f32 : string → result f32).

Definition parse_step : option_step Args := λ arg rest a,
  let 'Build_Args addr secs vol freq pcm := a in
  if bool_decide (arg = "--address") then
    with_value arg rest (λ v, Ok (Build_Args v secs vol freq pcm))
  else if bool_decide (arg = "--seconds") then
    with_value arg rest (λ v, let? n := parse_u64 v in Ok (Build_Args addr n vol freq pcm))
  else if bool_decide (arg = "--volume") then
    with_value arg rest (λ v, let? n := parse_u8 v in Ok (Build_Args addr secs n freq pcm))
  else if bool_decide (arg = "--frequency") then
    with_value arg rest (λ v, let? x := parse_f32 v in Ok (Build_Args addr secs vol x pcm))
  else if bool_decide (arg = "--pcm") then
    with_value arg rest (λ v, Ok (Build_Args addr secs vol freq (Some v)))
  else if bool_decide (arg = "-h") || bool_decide (arg = "--help") then inr 0
  else inl (Err ["unknown argument: " +:+ arg]).

Definition check_args (a : Args) : result Args :=
  ensure (negb (bool_decide (address a = ""))) "--address is required" ?;
  ensure (negb (127 <? volume a)) "--volume must be in 0..=127" ?;
  ensure (negb ((seconds a =? 0) || negb (f32_is_finite (frequency_hz a))
                || f32_le (frequency_hz a) f32_zero)) "duration and frequency must be positive" ?;
  Ok a.

Definition parse_args (args : list string) : parse_outcome Args :=
  parse_loop parse_step check_args (length args) args args_default.
End arguments.

(** ** The writers *)

Section writers.
(** [f32::sin] and [10_f32.powf(_)] *)
Context (sin powf10 : f32 → f32).
Context {S : Type} `{!Socket S}.

Definition amplitude : f32 :=
  f32_mul (f32_of_Z i16_max) (powf10 (f32_div (f32_of_Z (-30)) (f32_of_Z 20))).

(** The two bytes of the sample with number [k]. *)
Definition tone_sample (frequency_hz : f32) (k : Z) : memory :=
  let phase := f32_div (f32_mul (f32_mul TAU_f32 frequency_hz) (f32_of_Z k)) (f32_of_Z SAMPLE_RATE) in
  le_split 2 (i16_bits (f32_as_i16 (f32_mul amplitude (sin phase)))).

(** [FRAMES_PER_TICK * CHANNELS * size_of::<i16>()] *)
Definition frame_bytes : Z := FRAMES_PER_TICK * CHANNELS * 2.

Fixpoint tone_ticks (ticks : nat) (frequency_hz : f32) (sample_index : Z) (pcm : memory)
    : M (downlink S) memory :=
  match ticks with
  | O => mret pcm
  | Datatypes.S ticks =>
      let! pcm := lift (put_frames (Z.to_nat FRAMES_PER_TICK) 0 CHANNELS 2
                          (λ k, Ok (tone_sample frequency_hz k)) sample_index pcm) in
      write_all "feed A2DP PCM" pcm !;
      tone_ticks ticks frequency_hz (sample_index + FRAMES_PER_TICK) pcm
  end.

Definition write_test_tone (args : Args) : M (downlink S) Z :=
  let pcm := zeros (Z.to_nat frame_bytes) in
  let! total_ms := lift (mul_u 64 (seconds args) 1_000) in
  let tick_count := total_ms / FRAME_TIME_MS in
  let! pcm := tone_ticks (Z.to_nat tick_count) (frequency_hz args) 0 pcm in
  let pcm := zeros (length pcm) in
  write_frames "feed A2DP drain silence" (replicate 5 pcm) !;
  shutdown "close A2DP data stream" !;
  lift (let? n := add_u 64 tick_count 5 in mul_u 64 n (Z.of_nat (length pcm))).

(** [write_pcm_file] on the bytes read from the file. *)
Definition write_pcm_file (pcm : memory) : M (downlink S) Z :=
  lift (ensure (negb (is_empty pcm || negb (Z.of_nat (length pcm) mod (CHANNELS * 2) =? 0)))
          "PCM file must contain non-empty 48-kHz/S16LE/stereo frames") !;
  write_frames_counted "feed A2DP PCM file" (chunks (length pcm) (Z.to_nat frame_bytes) pcm) !;
  shutdown "close A2DP data stream" !;
  mgets dl_bytes.
End writers.

(** ** The session *)

Class Bus (S W : Type) := {
  bus_connect : W → result unit * W;
  bus_proxy : W → result unit * W;
  set_active_device : string → W → result unit * W;
  set_audio_config : string → Z → Z → Z → Z → W → result bool * W;
  set_volume : Z → W → result unit * W;
  start_audio_request : W → result bool * W;
  stop_audio_request : W → result unit * W;
  get_a2dp_audio_started : string → W → result bool * W;
  (** the connected data socket, and [std::fs::read] *)
  data_socket : W → S;
  read_file : string → W → result memory * W;
}.

Inductive event :=
| EConnect
| EProxy
| ESetActive (address : string)
| EGetStarted (answer : option bool)
| EListenerPair
| EConfig (accepted : bool)
| ESetVolume (volume : Z)
| EStart (accepted : bool)
| EData (bytes : memory)
| EStop.

Definition answer {A} (r : result A) : option A := match r with Ok a => Some a | _ => None end.

Section session.
Context (sin powf10 : f32 → f32).
Context {S : Type} `{!Socket S} {W : Type} `{!Host W} `{!Bus S W}.
Abbreviation P := (M (traced W event)).

Definition listener_pair : P unit := logged host_socketpair (λ _, EListenerPair).

Definition query_started (address : string) : P bool :=
  logged (get_a2dp_audio_started address) (λ r, EGetStarted (answer r)).

Definition stop_request : P unit := logged stop_audio_request (λ _, EStop).

(** The loop of [wait_for_audio_state]. *)
Fixpoint audio_state_loop (fuel : nat) (address : string) (expected : bool) (deadline : Z) : P unit :=
  match fuel with
  | O => lift (Undef "still waiting")
  | Datatypes.S fuel =>
      let! started := query_started address in
      if Bool.eqb started expected then mret tt
      else
        let! t := mgets (λ w, host_now (tr_world w)) in
        if deadline <=? t then
          lift (Err ["timed out waiting for A2DP started=" +:+ (if expected then "true" else "false")])
        else
          quiet (mmodify (host_sleep (20 * ms))) !;
          audio_state_loop fuel address expected deadline
  end.

(** Three seconds of 20 ms sleeps are 150 tries and a last one. *)
Definition wait_for_audio_state (address : string) (expected : bool) : P unit :=
  let! t := mgets (λ w, host_now (tr_world w)) in
  audio_state_loop 151 address expected (t + 3 * sec).

Definition stop_existing_stream (address : string) : P unit :=
  let! started := query_started address in
  if negb started then mret tt
  else
    listener_pair !;
    stop_request !;
    let! status := quiet (wait_for_listener 8 "pre-test A2DP stop") in
    lift (ensure (status =? 0) ("unexpected pre-test A2DP stop status=" +:+ pretty status)) !;
    wait_for_audio_state address false.

(** The part of [main] before StartAudioRequest. *)
Definition prepare (args : Args) : P unit :=
  mcontext (logged bus_connect (λ _, EConnect)) "connect to system D-Bus" !;
  mcontext (logged bus_proxy (λ _, EProxy)) "create Floss BluetoothMedia proxy" !;
  logged (set_active_device (address args)) (λ _, ESetActive (address args)) !;
  stop_existing_stream (address args) !;
  let! ok := logged (set_audio_config (address args) 0 2 1 2)
    (λ r, EConfig (match r with Ok b => b | _ => false end)) in
  lift (ensure ok "Floss rejected SBC 48-kHz/S16/stereo configuration") !;
  wait_for_audio_state (address args) false !;
  logged (set_volume (volume args)) (λ _, ESetVolume (volume args)).

(** StartAudioRequest and its confirmation. *)
Definition start_audio (args : Args) : P unit :=
  listener_pair !;
  let! accepted := logged start_audio_request
    (λ r, EStart (match r with Ok b => b | _ => false end)) in
  lift (ensure accepted "Floss rejected StartAudioRequest") !;
  let! status := quiet (wait_for_listener 8 "A2DP start") in
  let failed := ["A2DP start failed: listener status=" +:+ pretty status] in
  if negb (status =? 1) then lift (Err failed)
  else
    let! started := query_started (address args) in
    if negb started then lift (Err failed) else mret tt.

(** A writer on the data socket; what it wrote is in the log. *)
Definition on_data (c : M (downlink S) Z) : P Z := λ t,
  let '(r, d) := c (fresh_downlink (data_socket (tr_world t))) in
  (r, {| tr_world := tr_world t; tr_log := tr_log t ++ [EData (dl_written d)] |}).

(** Connect the data path and play. *)
Definition transfer (args : Args) : P Z :=
  quiet (connect_uipc A2DP_DATA_PATH) !;
  match pcm_path args with
  | Some path =>
      let! pcm := mcontext (quiet (read_file path)) ("read PCM from " +:+ path) in
      on_data (write_pcm_file pcm)
  | None => on_data (write_test_tone sin powf10 args)
  end.

Definition run (args : Args) : P unit :=
  prepare args !;
  start_audio args !;
  transfer args !;
  listener_pair !;
  stop_request !;
  let! _ := quiet (wait_for_listener 8 "A2DP stop") in
  mret tt.

Definition main (parse_u64 parse_u8 : string → result Z) (parse_f32 : string → result f32)
    (argv : list string) : P unit :=
  match parse_args parse_u64 parse_u8 parse_f32 argv with
  | Parsed args => run args
  | Exited _ => mret tt
  | Rejected e => lift (Err e)
  end.
End session.

(** * Theorems *)

Section writer_proofs.
Context (sin powf10 : f32 → f32).
Context {S : Type} `{!Socket S}.
Implicit Types (w : downlink S).

Lemma tone_sample_length f k : length (tone_sample sin powf10 f k) = 2%nat.
Proof. apply length_le_split. Qed.

Abbreviation tone n f := (interleaved n CHANNELS (tone_sample sin powf10 f)).

Lemma wp_tone_ticks n f : ∀ k pcm w,
  writes_return → length pcm = Z.to_nat frame_bytes →
  0 <= k → k + 960 * Z.of_nat n < 2 ^ 64 →
  let stream := dl_written w ++ tone (960 * n) f k in
  wp (tone_ticks sin powf10 n f k pcm) w
    (λ pcm' w', length pcm' = length pcm ∧ dl_written w' = stream)
    (λ _ w', dl_written w' `prefix_of` stream).
Proof.
  induction n as [|n IH]; intros k pcm w Hr Hl Hk Hb stream; cbn [tone_ticks].
  { apply wp_ret. unfold stream. cbn. by rewrite app_nil_r. }
  apply wp_bind.
  rewrite (put_frames_buffer _ _ _ _ (tone_sample sin powf10 f));
    [|done|done|done|unfold FRAMES_PER_TICK; lia|intros; by rewrite tone_sample_length|by rewrite Hl].
  apply wp_ret. set (pcm' := interleaved (Z.to_nat FRAMES_PER_TICK) _ _ k).
  assert (length pcm' = length pcm) as Hl'.
  { unfold pcm'. rewrite (length_interleaved _ _ _ 2) by apply tone_sample_length. by rewrite Hl. }
  assert (stream = (dl_written w ++ pcm') ++ tone (960 * n) f (k + FRAMES_PER_TICK)) as Hs.
  { unfold stream. rewrite <- app_assoc. f_equal. replace (960 * Datatypes.S n)%nat with (960 + 960 * n)%nat by lia.
    by rewrite interleaved_app. }
  apply wp_bind, wp_write_all; [done|..].
  - intros w1 Hw1 _. rewrite Hs, <- Hw1, <- Hl'. apply IH; [done|by rewrite Hl'| |];
      unfold FRAMES_PER_TICK; lia.
  - intros e w1 ->. unfold stream. by apply prefix_app_r.
Qed.

Lemma wp_write_test_tone args (s : S) :
  writes_return → 0 <= seconds args <= 2 ^ 40 →
  let stream := tone (Z.to_nat (48_000 * seconds args)) (frequency_hz args) 0 ++ zeros (Z.to_nat 19_200) in
  wp (write_test_tone sin powf10 args) (fresh_downlink s)
    (λ bytes w, dl_written w = stream ∧ bytes = Z.of_nat (length stream))
    (λ _ w, dl_written w `prefix_of` stream).
Proof.
  intros Hr Hs stream. unfold write_test_tone. rewrite mul_u_in_range by lia.
  apply wp_bind, wp_ret. cbv zeta.
  replace (seconds args * 1_000 / FRAME_TIME_MS) with (50 * seconds args)
    by (unfold FRAME_TIME_MS; replace (seconds args * 1000) with (50 * seconds args * 20) by lia;
        by rewrite Z.div_mul).
  assert (960 * Z.to_nat (50 * seconds args) = Z.to_nat (48_000 * seconds args))%nat as Hn by lia.
  apply wp_bind. eapply wp_mono; [apply wp_tone_ticks; try done; lia|..].
  all: cbn [dl_written fresh_downlink app]; rewrite Hn.
  2:{ intros e w Hp. by apply prefix_app_r. }
  intros pcm w (Hl & Hw). rewrite length_zeros in Hl. apply wp_bind.
  assert (concat (replicate 5 (zeros (length pcm))) = zeros (Z.to_nat 19_200)) as Hz by (by rewrite Hl).
  eapply wp_mono; [by apply wp_write_frames|..]; rewrite Hw, Hz; fold stream; [|done].
  intros _ w1 Hw1. apply wp_bind, wp_shutdown; [done| |by intros e w2 ->; rewrite Hw1].
  intros w2 Hw2 Hb2. rewrite add_u_in_range by lia. cbn [rbind]. rewrite length_zeros, Hl.
  rewrite mul_u_in_range by (unfold frame_bytes, FRAMES_PER_TICK, CHANNELS; lia).
  apply wp_ret. rewrite Hw2. split; [done|]. unfold stream.
  rewrite length_app, length_zeros, (length_interleaved _ _ _ 2) by apply tone_sample_length.
  unfold frame_bytes, FRAMES_PER_TICK, CHANNELS. lia.
Qed.

(** The test tone: one continuous tone at 48 kHz, the same sample in both
    channels, of exactly the requested seconds, then 100 ms of silence for the
    encoder to drain; the reported byte count is that of what was written.  No
    slice of the frame buffer is out of bounds. *)
Theorem test_tone_stream args (s : S) :
  writes_return → 0 <= seconds args <= 2 ^ 40 →
  let stream := tone (Z.to_nat (48_000 * seconds args)) (frequency_hz args) 0 ++ zeros (Z.to_nat 19_200) in
  wp (write_test_tone sin powf10 args) (fresh_downlink s)
    (λ bytes w, dl_written w = stream ∧ bytes = Z.of_nat (length stream))
    (λ _ w, dl_written w `prefix_of` stream).
Proof. apply wp_write_test_tone. Qed.

(** However long the tone is, it is written, reports an error or panics. *)
Lemma put_channels_returns n : ∀ channel frame channels width sample buffer,
  match put_channels n channel frame channels width sample buffer with
  | Ok _ | Panic _ => True | _ => False
  end.
Proof.
  induction n as [|n IH]; intros channel frame channels width sample buffer; cbn [put_channels]; [done|].
  unfold copy_into. destruct (_ && _); cbn [rbind]; [apply IH|done].
Qed.

Lemma put_frames_returns n channels width sample : ∀ frame k buffer, (∀ k, is_ok (sample k) = true) →
  match put_frames n frame channels width sample k buffer with Ok _ | Panic _ => True | _ => False end.
Proof.
  induction n as [|n IH]; intros frame k buffer Hs; cbn [put_frames]; [done|].
  specialize (Hs k) as Hk. destruct (sample k) as [bytes|?|?|?]; try done. cbn [rbind].
  pose proof (put_channels_returns (Z.to_nat channels) 0 frame channels width bytes buffer) as Hc.
  destruct (put_channels _ _ _ _ _ _ _); cbn [rbind]; try done.
  unfold add_u. destruct (in_width _ _); cbn [rbind]; [by apply IH|done].
Qed.

Lemma wpp_tone_ticks_any n f : ∀ k pcm w, writes_return →
  wpp (tone_ticks sin powf10 n f k pcm) w (λ _ _, True) (λ _ _, True) (λ _ _, True).
Proof.
  induction n as [|n IH]; intros k pcm w Hr; cbn [tone_ticks]; [done|]. apply wpp_bind.
  pose proof (put_frames_returns (Z.to_nat FRAMES_PER_TICK) CHANNELS 2 (λ k, Ok (tone_sample sin powf10 f k))
    0 k pcm ltac:(done)) as Hp.
  unfold wpp at 1, lift. destruct (put_frames _ _ _ _ _ _ _); try done.
  apply wpp_bind_wp, wp_write_all; [done| |done]. intros w1 _ _. by apply IH.
Qed.

Lemma wpp_write_test_tone_any args (s : S) : writes_return →
  wpp (write_test_tone sin powf10 args) (fresh_downlink s) (λ _ _, True) (λ _ _, True) (λ _ _, True).
Proof.
  intros Hr. unfold write_test_tone. apply wpp_bind. unfold mul_u at 1. destruct (in_width _ _); [|done]. apply wpp_ret.
  apply wpp_bind. eapply wpp_mono; [by apply wpp_tone_ticks_any| |done|done]. intros pcm w1 _. cbv zeta.
  apply wpp_bind_wp. eapply wp_mono; [by apply wp_write_frames| |done]. intros _ w2 _.
  apply wpp_bind_wp, wp_shutdown; [done| |done]. intros w3 _ _.
  unfold wpp, lift, add_u, mul_u. destruct (in_width _ _); cbn [rbind]; [|done]. by destruct (in_width _ _).
Qed.

Lemma wpp_write_pcm_file pcm (s : S) :
  writes_return →
  Forall (λ c, (length c <= 3840)%nat) (chunks (length pcm) (Z.to_nat frame_bytes) pcm) ∧
  wpp (write_pcm_file pcm) (fresh_downlink s)
    (λ bytes w, pcm ≠ [] ∧ Z.of_nat (length pcm) mod 4 = 0 ∧ dl_written w = pcm ∧
       bytes = Z.of_nat (length pcm))
    (λ _ w, dl_written w `prefix_of` pcm ∧
       (pcm = [] ∨ Z.of_nat (length pcm) mod 4 ≠ 0 → dl_written w = []))
    (λ _ _, uncountable pcm).
Proof.
  intros Hr. split; [apply chunks_length|]. unfold write_pcm_file. apply wpp_bind_wp, wp_ensure.
  2:{ intros _. split; [apply prefix_nil|done]. }
  intros He. b2p. apply orb_false_iff in He as [Hne Hm]. b2p.
  assert (pcm ≠ []) by (by intros ->).
  assert (concat (chunks (length pcm) (Z.to_nat frame_bytes) pcm) = pcm) as Hcc
    by (apply chunks_concat; [by apply Nat.ltb_lt|lia]).
  apply wpp_bind. eapply wpp_mono; [by apply wpp_write_frames_counted|..];
    cbn [dl_written fresh_downlink app]; rewrite Hcc; [| |done].
  2:{ intros e w Hp. split; [done|]. intros [?|?]; done. }
  intros _ w1 [Hw1 Hc1]. apply wpp_bind_wp, wp_shutdown; [done| |].
  2:{ intros e w2 ->. rewrite Hw1. split; [done|]. intros [?|?]; done. }
  intros w2 Hw2 Hb2. unfold wpp, mgets. rewrite Hw2, Hb2. split; [done|]. split; [done|]. split; [done|].
  unfold counted in Hc1. by rewrite Hc1, Hw1.
Qed.

(** A PCM file is played as it is: an empty file or one that does not hold
    whole stereo frames is refused before anything is written; any other is
    written completely and in order, in chunks of at most 20 ms, and its length
    is the count reported. *)
Theorem pcm_file_stream pcm (s : S) :
  writes_return →
  Forall (λ c, (length c <= 3840)%nat) (chunks (length pcm) (Z.to_nat frame_bytes) pcm) ∧
  wpp (write_pcm_file pcm) (fresh_downlink s)
    (λ bytes w, pcm ≠ [] ∧ Z.of_nat (length pcm) mod 4 = 0 ∧ dl_written w = pcm ∧
       bytes = Z.of_nat (length pcm))
    (λ _ w, dl_written w `prefix_of` pcm ∧
       (pcm = [] ∨ Z.of_nat (length pcm) mod 4 ≠ 0 → dl_written w = []))
    (λ _ _, uncountable pcm).
Proof. apply wpp_write_pcm_file. Qed.
End writer_proofs.

(** ** The session *)

Section session_proofs.
Context (sin powf10 : f32 → f32).
Context {S : Type} `{!Socket S} {W : Type} `{!Host W, !HostLaws W} `{!Bus S W}.

Class BusLaws : Prop := {
  bus_writes : writes_return (S := S);
  bus_connect_returns (w : W) : defined (fst (bus_connect w)) = true;
  bus_proxy_returns (w : W) : defined (fst (bus_proxy w)) = true;
  set_active_returns a (w : W) : defined (fst (set_active_device a w)) = true;
  set_config_returns a c r b m (w : W) : defined (fst (set_audio_config a c r b m w)) = true;
  set_volume_returns v (w : W) : defined (fst (set_volume v w)) = true;
  start_returns (w : W) : defined (fst (start_audio_request w)) = true;
  stop_returns (w : W) : defined (fst (stop_audio_request w)) = true;
  get_started_returns a (w : W) : defined (fst (get_a2dp_audio_started a w)) = true;
  get_started_clock a (w : W) : host_now w <= host_now (snd (get_a2dp_audio_started a w));
  read_file_returns p (w : W) : defined (fst (read_file p w)) = true;
  (* a Vec holds at most isize::MAX bytes *)
  read_file_fits p (w : W) pcm : fst (read_file p w) = Ok pcm → Z.of_nat (length pcm) < 2 ^ 63;
}.
Context `{!BusLaws}.
Implicit Types (t : traced W event) (l log : list event).

Definition is_start (e : event) : bool := match e with EStart _ => true | _ => false end.
Definition no_start l : Prop := Forall (λ e, is_start e = false) l.

(** Extending the log without StartAudioRequest. *)
Definition quietly log log' : Prop := ∃ l, log' = log ++ l ∧ no_start l.

Lemma quietly_app log l : no_start l → quietly log (log ++ l).
Proof. intros. by exists l. Qed.

Lemma quietly_refl log : quietly log log.
Proof. exists []. rewrite app_nil_r. split; [done|constructor]. Qed.

Lemma quietly_trans a b c : quietly a b → quietly b c → quietly a c.
Proof.
  intros (l1 & -> & H1) (l2 & -> & H2). exists (l1 ++ l2). rewrite app_assoc.
  split; [done|]. by apply Forall_app.
Qed.

Lemma quietly_one log log' e : quietly log log' → is_start e = false → quietly log (log' ++ [e]).
Proof. intros Hlq He. eapply quietly_trans; [done|]. apply quietly_app. by constructor. Qed.

(** A call that is not StartAudioRequest. *)
Lemma wp_call {A} (f : W → result A * W) (entry : result A → event) t log0 (Q : A → traced W event → Prop) :
  (∀ w, defined (fst (f w)) = true) → (∀ r, is_start (entry r) = false) →
  quietly log0 (tr_log t) →
  (∀ a w, quietly log0 (tr_log t ++ [entry (Ok a)]) →
     Q a {| tr_world := w; tr_log := tr_log t ++ [entry (Ok a)] |}) →
  wp (logged f entry) t Q (λ _ t', quietly log0 (tr_log t')).
Proof.
  intros Hf He Hq HQ. apply wp_traced; [apply Hf|..].
  - intros a w. apply HQ. by apply quietly_one.
  - intros e w. by apply quietly_one.
Qed.

Lemma wp_audio_state_loop a expected deadline n : ∀ t log0,
  deadline - host_now (tr_world t) <= Z.of_nat n * (20 * ms) → quietly log0 (tr_log t) →
  wp (audio_state_loop (Datatypes.S n) a expected deadline) t
    (λ _ t', ∃ log, quietly log0 log ∧ tr_log t' = log ++ [EGetStarted (Some expected)])
    (λ _ t', quietly log0 (tr_log t')).
Proof.
  induction n as [|n IH]; intros t log0 Hn Hq; remember (audio_state_loop _ _ _ _) as c eqn:Hc;
    cbn [audio_state_loop] in Hc; subst c;
    pose proof (get_started_returns a (tr_world t)) as Hr; pose proof (get_started_clock a (tr_world t)) as Hk.
  all: apply wp_bind; unfold wp at 1, query_started, logged;
    destruct (get_a2dp_audio_started a (tr_world t)) as [[started|e|?|?] w1]; cbn in Hr, Hk |- *; try done;
    try by apply quietly_one.
  all: destruct (Bool.eqb started expected) eqn:He;
    [apply Bool.eqb_prop in He as ->; apply wp_ret; by exists (tr_log t)|].
  all: apply wp_bind; match goal with |- wp (mgets ?f) ?s ?Q ?E => change (Q (f s) s) end; cbn;
    destruct (deadline <=? host_now w1) eqn:Hd; b2p.
  all: try (apply wp_lift; [done|done|]; intros; by apply quietly_one).
  - lia.
  - apply wp_bind, wp_quiet, wp_modify, IH; cbn; [|by apply quietly_one].
    pose proof (sleep_lasts (20 * ms) w1). lia.
Qed.

Lemma wp_wait_for_audio_state a expected t log0 :
  quietly log0 (tr_log t) →
  wp (wait_for_audio_state a expected) t
    (λ _ t', ∃ log, quietly log0 log ∧ tr_log t' = log ++ [EGetStarted (Some expected)])
    (λ _ t', quietly log0 (tr_log t')).
Proof.
  intros Hq. unfold wait_for_audio_state. apply wp_bind.
  match goal with |- wp (mgets ?f) ?s ?Q ?E => change (Q (f s) s) end. cbv beta.
  apply (wp_audio_state_loop _ _ _ 150); [unfold sec, ms; lia|done].
Qed.

Lemma wp_quiet_any {A} (c : M W A) t log0 (Q : A → traced W event → Prop) :
  (∀ w, wp c w (λ _ _, True) (λ _ _, True)) → quietly log0 (tr_log t) →
  (∀ a w, Q a {| tr_world := w; tr_log := tr_log t |}) →
  wp (quiet c) t Q (λ _ t', quietly log0 (tr_log t')).
Proof. intros Hc Hq HQ. apply wp_quiet. eapply wp_mono; [apply Hc|..]; cbn; auto. Qed.

Lemma wp_stop_existing_stream a t log0 :
  quietly log0 (tr_log t) →
  wp (stop_existing_stream a) t (λ _ t', quietly log0 (tr_log t')) (λ _ t', quietly log0 (tr_log t')).
Proof.
  intros Hq. unfold stop_existing_stream. apply wp_bind, wp_call; [apply get_started_returns|done|done|].
  intros started w1 Hq1. destruct started; cbn [negb]; [|by apply wp_ret].
  apply wp_bind, wp_call; [apply socketpair_returns|done|done|]. intros u2 w2 Hq2.
  apply wp_bind, wp_call; [apply stop_returns|done|done|]. intros u3 w3 Hq3.
  apply wp_bind, wp_quiet_any; [apply wp_wait_for_listener|done|]. intros status w4.
  apply wp_bind, wp_ensure; [|done]. intros _.
  eapply wp_mono; [by apply wp_wait_for_audio_state|..]; [|done].
  intros _ t' (log & Hl & ->). by apply quietly_one.
Qed.

(** The calls around the start: the configuration was accepted, the daemon then
    said that nothing is playing, the volume was set. *)
Definition ready args log : Prop :=
  ∃ l, no_start l ∧ EConfig true ∈ l ∧
    log = l ++ [EGetStarted (Some false); ESetVolume (volume args)].

Lemma wp_prepare args w0 :
  wp (prepare args) {| tr_world := w0; tr_log := [] |}
    (λ _ t', ready args (tr_log t')) (λ _ t', no_start (tr_log t')).
Proof.
  eapply (wp_mono _ _ (λ _ t', ready args (tr_log t')) _ (λ _ t', quietly [] (tr_log t')));
    [|done|by intros e t' (l & -> & ?)].
  unfold prepare. apply wp_bind, wp_context, wp_call; [apply bus_connect_returns|done|apply quietly_refl|].
  intros u1 w1 Hq1. apply wp_bind, wp_context, wp_call; [apply bus_proxy_returns|done|done|].
  intros u2 w2 Hq2. apply wp_bind, wp_call; [apply set_active_returns|done|done|]. intros u3 w3 Hq3.
  apply wp_bind. eapply wp_mono; [by apply wp_stop_existing_stream|..]; [|done]. intros u4 t4 Hq4.
  apply wp_bind, wp_call; [intros; apply set_config_returns|done|done|]. intros ok w5 Hq5.
  apply wp_bind, wp_ensure; [|done]. intros ->. apply wp_bind.
  eapply wp_mono; [apply wp_wait_for_audio_state, quietly_refl|..]; cbn [tr_log].
  2:{ intros e t6 Hq6. by eapply quietly_trans. }
  intros u6 t6 (log & Hlog & Ht6).
  assert (quietly [] log) as Hq6 by (by eapply quietly_trans).
  apply wp_call; [intros; apply set_volume_returns|done| |].
  { rewrite Ht6. by apply quietly_one. }
  intros u7 w7 _. cbn [tr_log]. rewrite Ht6. exists log. destruct Hq6 as (l & -> & Hl). cbn [app] in *.
  split; [done|]. rewrite <- app_assoc. split; [|done]. destruct Hlog as (l' & -> & _). set_solver.
Qed.

(** What [run] has done before it may start the audio, and the start itself. *)
Definition started_when_idle args log : Prop :=
  no_start log ∨ ∃ log1 accepted l, ready args log1 ∧ no_start l ∧
    log = log1 ++ [EListenerPair; EStart accepted] ++ l.

Lemma wpp_on_data (P : Prop) (c : M (downlink S) Z) t Q E :
  wpp c (fresh_downlink (data_socket (tr_world t))) Q E (λ _ _, P) →
  wpp (on_data c) t (λ _ t', ∃ bytes, tr_log t' = tr_log t ++ [EData bytes])
    (λ _ t', quietly (tr_log t) (tr_log t')) (λ _ t', P ∧ quietly (tr_log t) (tr_log t')).
Proof.
  unfold wpp, on_data. destruct (c _) as [[] d]; cbn; try done; [by eexists|..].
  - intros _. apply quietly_one; [apply quietly_refl|done].
  - intros HP. split; [done|]. apply quietly_one; [apply quietly_refl|done].
Qed.

Lemma wpp_play args t :
  0 <= seconds args →
  wpp (transfer sin powf10 args) t (λ _ t', ∃ bytes, tr_log t' = tr_log t ++ [EData bytes])
    (λ _ t', quietly (tr_log t) (tr_log t'))
    (λ _ t', 2 ^ 40 < seconds args ∧ quietly (tr_log t) (tr_log t')).
Proof.
  intros Hs. unfold transfer. apply wpp_bind_wp, wp_quiet_any; [apply wp_connect_uipc|apply quietly_refl|].
  intros _ w1. destruct (pcm_path args) as [path|].
  - apply wpp_bind_wp, wp_context, wp_quiet.
    pose proof (read_file_returns path w1) as Hr. pose proof (read_file_fits path w1) as Hf.
    unfold wp at 1. cbn [tr_world]. destruct (read_file path w1) as [[pcm|e|?|?] w2]; try done; [|apply quietly_refl].
    specialize (Hf pcm eq_refl).
    eapply (wpp_on_data _ _ {| tr_world := w2; tr_log := tr_log t |} (λ _ _, True) (λ _ _, True)), wpp_mono;
      [apply (proj2 (wpp_write_pcm_file pcm _ bus_writes))|done|done|]. cbv beta. unfold uncountable. lia.
  - apply (wpp_on_data _ _ {| tr_world := w1; tr_log := tr_log t |} (λ _ _, True) (λ _ _, True)).
    destruct (decide (seconds args <= 2 ^ 40)).
    + apply wp_wpp. by eapply wp_mono; [apply wp_write_test_tone; [apply bus_writes|done]|..].
    + eapply wpp_mono; [apply wpp_write_test_tone_any, bus_writes|done|done|]. cbv beta. lia.
Qed.

Lemma ready_no_start args log : ready args log → no_start log.
Proof.
  intros (l & Hl & _ & ->). apply Forall_app. split; [done|]. by repeat constructor.
Qed.

(** The start: whatever is logged after it without a second one keeps the run in
    order. *)
Lemma wp_start_audio args t1 :
  ready args (tr_log t1) →
  wp (start_audio args) t1
    (λ _ t', ∃ log0, quietly log0 (tr_log t') ∧ ∀ log, quietly log0 log → started_when_idle args log)
    (λ _ t', started_when_idle args (tr_log t')).
Proof.
  intros Hready. unfold start_audio, listener_pair. apply wp_bind, wp_traced; [apply socketpair_returns|..].
  2:{ intros e w2. left. apply Forall_app. split; [exact (ready_no_start _ _ Hready)|by repeat constructor]. }
  intros u2 w2. cbn [tr_log tr_world]. apply wp_bind, wp_traced; [apply start_returns|..].
  2:{ intros e w3. right. cbn [tr_log]. eexists _, _, []. rewrite <- app_assoc. by split_and! ; try constructor. }
  intros accepted w3. cbn [tr_log tr_world]. set (log0 := _ ++ [EStart accepted]).
  assert (∀ log, quietly log0 log → started_when_idle args log) as Hidle.
  { intros log (l & -> & Hl). right. exists (tr_log t1), accepted, l. split; [done|]. split; [done|].
    unfold log0. by rewrite <- !app_assoc. }
  eapply (wp_mono _ _ (λ _ t', quietly log0 (tr_log t')) _ (λ _ t', quietly log0 (tr_log t')));
    [|by exists log0|intros e t'; apply Hidle].
  apply wp_bind, wp_ensure; [|intros; apply quietly_refl]. intros _.
  apply wp_bind, wp_quiet_any; [apply wp_wait_for_listener|apply quietly_refl|]. intros status w4.
  destruct (status =? 1); cbn [negb]; [|apply wp_lift; [done|done|intros; apply quietly_refl] ].
  apply wp_bind, wp_call; [apply get_started_returns|done|apply quietly_refl|]. intros started w5 Hq5.
  destruct started; cbn [negb]; [|by apply wp_lift]. apply wp_ret. exact Hq5.
Qed.

(** C37. StartAudioRequest is only issued when the daemon is idle: in every run,
    however it ends, it comes once, after the SBC configuration was accepted and
    the daemon had answered that nothing is playing, with only the volume set in
    between; so it never races a pending suspend.  A run that succeeds has
    played its data and then stopped.  All waits end, and nothing panics in a
    test of at most 2^40 seconds. *)
Theorem audio_started_when_idle args (w : W) :
  0 <= seconds args →
  let '(r, t) := run sin powf10 args {| tr_world := w; tr_log := [] |} in
  started_when_idle args (tr_log t) ∧
  match r with
  | Ok _ => ∃ log bytes, tr_log t = log ++ [EData bytes; EListenerPair; EStop]
  | Err _ => True
  | Panic _ => 2 ^ 40 < seconds args
  | Undef _ => False
  end.
Proof.
  intros Hs. cut (wpp (run sin powf10 args) {| tr_world := w; tr_log := [] |}
    (λ _ t, started_when_idle args (tr_log t) ∧
       ∃ log bytes, tr_log t = log ++ [EData bytes; EListenerPair; EStop])
    (λ _ t, started_when_idle args (tr_log t))
    (λ _ t, 2 ^ 40 < seconds args ∧ started_when_idle args (tr_log t))).
  { unfold wpp. destruct (run _ _ _ _) as [[] t]; naive_solver. }
  unfold run. apply wpp_bind_wp.
  eapply wp_mono; [apply wp_prepare|..]; [|by left]. intros u1 t1 Hready.
  apply wpp_bind_wp. eapply wp_mono; [apply (wp_start_audio args t1 Hready)| |done].
  intros u6 t6 (log0 & Hq6 & Hidle). apply wpp_bind.
  eapply wpp_mono; [by apply wpp_play|..];
    [|intros e t7 Hq7; apply Hidle; by eapply quietly_trans
     |intros m t7 [? Hq7]; split; [done|]; apply Hidle; by eapply quietly_trans].
  intros u7 t7 (bytes & Ht7).
  assert (quietly log0 (tr_log t7)) as Hq7 by (rewrite Ht7; by apply quietly_one).
  apply wp_wpp. eapply (wp_mono _ _ (λ _ t', started_when_idle args (tr_log t') ∧ ∃ log bytes,
    tr_log t' = log ++ [EData bytes; EListenerPair; EStop]) _ (λ _ t', quietly log0 (tr_log t')));
    [|done|intros e t'; apply Hidle].
  unfold listener_pair. apply wp_bind, wp_call; [apply socketpair_returns|done|done|]. intros u8 w8 Hq8.
  apply wp_bind, wp_call; [apply stop_returns|done|done|]. intros u9 w9 Hq9.
  apply wp_bind, wp_quiet_any; [apply wp_wait_for_listener|done|]. intros status w10. apply wp_ret.
  cbn [tr_log] in *. split; [exact (Hidle _ Hq9)|]. exists (tr_log t6), bytes.
  rewrite Ht7, <- !app_assoc. done.
Qed.
End session_proofs.

(** ** A daemon that answers *)

Definition quick_args : Args := {|
  address := "00:11:22:33:44:55"; seconds := 1; volume := 40; frequency_hz := f32_of_Z 440;
  pcm_path := Some "test.raw" |}.

Lemma test_tone_stream_witness :
  let stream := interleaved (Z.to_nat 48_000) 2 (tone_sample id id (f32_of_Z 440)) 0 ++
                zeros (Z.to_nat 19_200) in
  wp (write_test_tone id id quick_args) (fresh_downlink 10%nat)
    (λ bytes w, dl_written w = stream ∧ bytes = Z.of_nat (length stream))
    (λ _ w, dl_written w `prefix_of` stream).
Proof. apply (test_tone_stream id id quick_args 10%nat); [apply bounded_socket_returns|cbn; lia]. Defined.

Lemma pcm_file_stream_witness :
  let pcm := [Byte.x01; Byte.x02; Byte.x03; Byte.x04] in
  wpp (write_pcm_file pcm) (fresh_downlink 10%nat)
    (λ bytes w, pcm ≠ [] ∧ Z.of_nat (length pcm) mod 4 = 0 ∧ dl_written w = pcm ∧
       bytes = Z.of_nat (length pcm))
    (λ _ w, dl_written w `prefix_of` pcm ∧
       (pcm = [] ∨ Z.of_nat (length pcm) mod 4 ≠ 0 → dl_written w = []))
    (λ _ _, uncountable pcm).
Proof. intros pcm. apply (pcm_file_stream pcm 10%nat bounded_socket_returns). Defined.

Section sim_daemon.
(** The world: the clock and whether something is playing. *)
#[local] Instance sim_host : Host (Z * bool) := {|
  host_now := fst; host_sleep := λ d w, (fst w + d, snd w); host_connect := λ _ w, (Ok tt, w);
  host_socketpair := λ w, (Ok tt, w);
  host_listen := λ _ (w : Z * bool), (Ok (Some (if snd w then 1 else 0)), w);
|}.

#[local] Instance sim_host_laws : HostLaws (Z * bool).
Proof. split; intros; cbn; (done || lia). Qed.

#[local] Instance sim_bus : Bus nat (Z * bool) := {|
  bus_connect := λ w, (Ok tt, w); bus_proxy := λ w, (Ok tt, w);
  set_active_device := λ _ w, (Ok tt, w); set_audio_config := λ _ _ _ _ _ w, (Ok true, w);
  set_volume := λ _ w, (Ok tt, w); start_audio_request := λ w, (Ok true, (fst w, true));
  stop_audio_request := λ w, (Ok tt, (fst w, false));
  get_a2dp_audio_started := λ _ w, (Ok (snd w), w);
  data_socket := λ _, 10%nat;
  read_file := λ _ w, (Ok [Byte.x01; Byte.x02; Byte.x03; Byte.x04], w);
|}.

#[local] Instance sim_bus_laws : BusLaws (S := nat) (W := Z * bool).
Proof.
  split; intros; cbn in *; try done; [apply bounded_socket_returns|]. inv_ok. cbn. lia.
Qed.

Lemma audio_started_when_idle_witness :
  let '(r, t) := run (S := nat) id id quick_args {| tr_world := (0, true); tr_log := [] |} in
  started_when_idle quick_args (tr_log t) ∧
  match r with
  | Ok _ => ∃ log bytes, tr_log t = log ++ [EData bytes; EListenerPair; EStop]
  | Err _ => True
  | Panic _ => 2 ^ 40 < 1
  | Undef _ => False
  end.
Proof. apply (audio_started_when_idle (S := nat) id id quick_args (0, true)). cbn. lia. Defined.

(** A daemon that is still playing is stopped first; then the file is played. *)
Example sim_daemon_run :
  let '(r, t) := run (S := nat) id id quick_args {| tr_world := (0, true); tr_log := [] |} in
  r = Ok tt ∧ tr_log t =
    [EConnect; EProxy; ESetActive "00:11:22:33:44:55"; EGetStarted (Some true); EListenerPair; EStop;
     EGetStarted (Some false); EConfig true; EGetStarted (Some false); ESetVolume 40; EListenerPair;
     EStart true; EGetStarted (Some true); EData [Byte.x01; Byte.x02; Byte.x03; Byte.x04];
     EListenerPair; EStop].
Proof. vm_compute. auto. Qed.
End sim_daemon.
End A2dp.
