(* ===== verification/LeSmoke.v ===== *)
(** * The LE Audio smoke test ([src/bin/floss_le_audio_smoke.rs])

    Plays a tone to an LE Audio group, captures from it through the shared
    memory ring, or both: the sample encodings, the two loops and the session
    around the Floss client. *)

From Stdlib Require Import Floats.SpecFloat.
From stdpp Require Import gmap.
From S2P Require Import Prelude Types Bytes Ring RingSpec RingSetup Pipewire Float SmokeIo Floss.

Module LeSmoke.

Inductive Mode := Output | Input | Duplex.

Record Args := {
  adapter : Z;
  group_id : Z;
  seconds : Z;
  frequency_hz : f64;
  mode : Mode;
  capture : option string;
}.

Definition args_default : Args := {|
  adapter := 0; group_id := -1; seconds := 10; frequency_hz := f64_of_Z 440; mode := Duplex;
  capture := None |}.

Section arguments.
(** [str::parse] for [u32], [i32], [u64] and [f64]. *)
Context (parse_u32 parse_i32 parse_u64 : string → result Z) (parse_f64 : string → result f64).

Definition parse_mode (v : string) : result Mode :=
  if bool_decide (v = "output") then Ok Output
  else if bool_decide (v = "input") then Ok Input
  else if bool_decide (v = "duplex") then Ok Duplex
  else Err ["unknown mode " +:+ v +:+ "; use output, input, or duplex"].

Definition parse_step : option_step Args := λ arg rest a,
  let 'Build_Args ad gr secs freq md cap := a in
  if bool_decide (arg = "--adapter") then
    with_value arg rest (λ v, let? n := parse_u32 v in Ok (Build_Args n gr secs freq md cap))
  else if bool_decide (arg = "--group") then
    with_value arg rest (λ v, let? n := parse_i32 v in Ok (Build_Args ad n secs freq md cap))
  else if bool_decide (arg = "--seconds") then
    with_value arg rest (λ v, let? n := parse_u64 v in Ok (Build_Args ad gr n freq md cap))
  else if bool_decide (arg = "--frequency") then
    with_value arg rest (λ v, let? x := parse_f64 v in Ok (Build_Args ad gr secs x md cap))
  else if bool_decide (arg = "--mode") then
    with_value arg rest (λ v, let? m := parse_mode v in Ok (Build_Args ad gr secs freq m cap))
  else if bool_decide (arg = "--capture") then
    with_value arg rest (λ v, Ok (Build_Args ad gr secs freq md (Some v)))
  else if bool_decide (arg = "-h") || bool_decide (arg = "--help") then inr 0
  else inl (Err ["unknown argument: " +:+ arg]).

Definition check_args (a : Args) : result Args :=
  ensure (0 <=? group_id a) "--group is required and must be non-negative" ?;
  ensure (0 <? seconds a) "--seconds must be positive" ?;
  ensure (f32_is_finite (frequency_hz a) && f32_gt (frequency_hz a) f64_zero)
    "--frequency must be positive" ?;
  Ok a.

Definition parse_args (args : list string) : parse_outcome Args :=
  parse_loop parse_step check_args (length args) args args_default.
End arguments.

Definition directions (a : Args) : FlossLeDirections :=
  match mode a with Output => OUTPUT | Input => INPUT | Duplex => FULL_DUPLEX end.

(** ** Samples *)

(** [1_i64 << (bits - 1)], for a width that leaves a positive number. *)
Definition full_scale (bits : Z) : result Z :=
  if (1 <=? bits) && (bits <=? 63) then Ok (2 ^ (bits - 1))
  else Panic "attempt to shift left with overflow".

(** [&integer.to_le_bytes()[..width]] *)
Definition integer_bytes (bits integer : Z) : result memory :=
  let width := bits / 8 in
  if 8 <? width then Panic "range end index out of range"
  else Ok (take (Z.to_nat width) (le_split 8 (integer mod 2 ^ 64))).

(** The bytes [write_sample] copies into every channel. *)
Definition sample_bytes (bits : Z) (sample : f64) : result memory :=
  let? scale := full_scale bits in
  integer_bytes bits (f64_as_i64 (f64_mul sample (f64_of_Z (scale - 1)))).

Definition write_sample (buffer : memory) (frame channels bits : Z) (sample : f64) : result memory :=
  let? encoded := sample_bytes bits sample in
  put_channels (Z.to_nat channels) 0 frame channels (bits / 8) encoded buffer.

(** [i32::from_le_bytes] *)
Definition i32_of_bits (u : Z) : Z := if u <? 2 ^ 31 then u else u - 2 ^ 32.

(** The [match bits] of [decode_samples]. *)
Definition decode_integer (bits : Z) (sample : memory) : result Z :=
  if bits =? 16 then
    let? b0 := index sample 0 in
    let? b1 := index sample 1 in
    Ok (i16_of_bits (le_combine [b0; b1]))
  else if bits =? 24 then
    let? b2 := index sample 2 in
    let extended := if Z.land (byte.unsigned b2) 0x80 =? 0 then Byte.x00 else Byte.xff in
    let? b0 := index sample 0 in
    let? b1 := index sample 1 in
    Ok (i32_of_bits (le_combine [b0; b1; b2; extended]))
  else if bits =? 32 then
    let? b0 := index sample 0 in
    let? b1 := index sample 1 in
    let? b2 := index sample 2 in
    let? b3 := index sample 3 in
    Ok (i32_of_bits (le_combine [b0; b1; b2; b3]))
  else Err ["unsupported PCM width " +:+ pretty bits].

Definition decode_sample (bits : Z) (sample : memory) : result f64 :=
  let? integer := decode_integer bits sample in
  let? scale := full_scale bits in
  Ok (f64_div (f64_of_Z integer) (f64_of_Z scale)).

(** The iterator [decode_samples]: [chunks_exact(0)] panics. *)
Definition decode_samples (bytes : memory) (bits : Z) : result (list (result f64)) :=
  let width := bits / 8 in
  if width =? 0 then Panic "chunk size must be non-zero"
  else Ok (decode_sample bits <$> chunks_exact (length bytes) (Z.to_nat width) bytes).

(** ** Playing *)

(** [args.seconds * 1_000_000 / u64::from(pcm.data_interval_us)] *)
Definition interval_count (args : Args) (pcm : PcmConfiguration) : result Z :=
  let? us := mul_u 64 (seconds args) 1_000_000 in
  if pcm_data_interval_us pcm =? 0 then Panic "attempt to divide by zero"
  else Ok (us / pcm_data_interval_us pcm).

Section playing.
(** [f64::sin] *)
Context (sin : f64 → f64).
Context {S : Type} `{!Socket S}.

Definition tone (args : Args) (pcm : PcmConfiguration) (k : Z) : f64 :=
  let phase := f64_div (f64_mul (f64_mul TAU_f64 (frequency_hz args)) (f64_of_Z k))
                 (f64_of_Z (pcm_sample_rate_hz pcm)) in
  f64_mul (sin phase) f64_0_05.

(** [for frame in 0..frames_per_interval] *)
Fixpoint tone_frames (n : nat) (frame : Z) (args : Args) (pcm : PcmConfiguration) (sample_index : Z)
    (buffer : memory) : result memory :=
  match n with
  | O => Ok buffer
  | Datatypes.S n =>
      let? buffer := write_sample buffer frame (pcm_channels pcm) (pcm_bits_per_sample pcm)
                       (tone args pcm sample_index) in
      let? sample_index := add_u 64 sample_index 1 in
      tone_frames n (frame + 1) args pcm sample_index buffer
  end.

(** [for _ in 0..intervals] *)
Fixpoint tone_intervals (intervals : nat) (frames : Z) (args : Args) (pcm : PcmConfiguration)
    (sample_index : Z) (buffer : memory) : M (downlink S) unit :=
  match intervals with
  | O => mret tt
  | Datatypes.S intervals =>
      let! buffer := lift (tone_frames (Z.to_nat frames) 0 args pcm sample_index buffer) in
      write_all "write LE Audio host PCM" buffer !;
      tone_intervals intervals frames args pcm (sample_index + frames) buffer
  end.

Definition write_tone (pcm : PcmConfiguration) (args : Args) : M (downlink S) Z :=
  let! n := lift (bytes_per_interval pcm) in
  let width := pcm_bits_per_sample pcm / 8 in
  let! frames := lift (if (pcm_channels pcm =? 0) || (width =? 0)
                       then Panic "attempt to divide by zero"
                       else Ok (n / pcm_channels pcm / width)) in
  let! intervals := lift (interval_count args pcm) in
  tone_intervals (Z.to_nat intervals) frames args pcm 0 (zeros (Z.to_nat n)) !;
  (λ d, let '(r, s) := sock_shutdown (dl_socket d) in
        (r, {| dl_socket := s; dl_written := dl_written d; dl_bytes := dl_bytes d |})) !;
  lift (mul_u 64 intervals n).
End playing.

(** ** Capturing *)

(** The peer's half of the stream, the capture file and the clock. *)
Class Peer (R : Type) := {
  peer_read : Z → R → result memory * R;
  peer_file_create : string → R → result unit * R;
  peer_file_write : memory → R → result unit * R;
  peer_time : R → option (Z * Z) * R;
}.

Record stats := { st_sum_squares : f64; st_peak : f64; st_samples : Z }.

(** The loop over the samples of a frame. *)
Fixpoint account (samples : list (result f64)) (s : stats) : result stats :=
  match samples with
  | [] => Ok s
  | r :: samples =>
      let? x := r in
      let? n := add_u 64 (st_samples s) 1 in
      account samples {| st_sum_squares := f64_add (st_sum_squares s) (f64_mul x x);
                         st_peak := f64_max (st_peak s) (f64_abs x); st_samples := n |}
  end.

Section capturing.
Context {E : Type} `{EventFd E} {R : Type} `{!Peer R}.

(** The ring, the outside, what the peer has sent and what was written to the
    other side (here the capture file). *)
Record io := { io_ring : Shared E; io_peer : R; io_read : memory; io_out : memory }.

Definition on_ring {A} (c : M (Shared E) A) : M io A := λ i,
  let '(r, s) := c (io_ring i) in (r, {| io_ring := s; io_peer := io_peer i; io_read := io_read i; io_out := io_out i |}).

Definition on_peer {A} (c : R → result A * R) : M io A := λ i,
  let '(r, p) := c (io_peer i) in (r, {| io_ring := io_ring i; io_peer := p; io_read := io_read i; io_out := io_out i |}).

(** [reader.read_exact(..)] *)
Definition read_exact (n : Z) : M io memory := λ i,
  let '(r, p) := peer_read n (io_peer i) in
  (r, {| io_ring := io_ring i; io_peer := p;
         io_read := (match r with Ok bytes => io_read i ++ bytes | _ => io_read i end);
         io_out := io_out i |}).

Definition file_write (bytes : memory) : M io unit := λ i,
  let '(r, p) := peer_file_write bytes (io_peer i) in
  (r, {| io_ring := io_ring i; io_peer := p; io_read := io_read i;
         io_out := if is_ok r then io_out i ++ bytes else io_out i |}).

(** A lease that is dropped when [body] is left. *)
Definition with_lease {A} (lease : FrameLease) (body : M io A) : M io A := λ i,
  let '(r, i) := body i in (r, snd (on_ring (drop_lease lease) i)).

(** The producer's half of a turn: an interval is read from the peer straight
    into a reserved slot and committed; [overrun] and [reading] are the contexts
    of the two errors. *)
Definition publish_interval (overrun reading : string) (pcm : PcmConfiguration) (n sequence : Z)
    : M io unit :=
  let! reserved := on_ring try_reserve in
  let! slot := lift (ok_or reserved overrun) in
  let! cap := on_ring lease_capacity in
  lift (if cap <? n then Panic "range end index out of range" else Ok tt) !;
  let! bytes := mcontext (read_exact n) reading in
  on_ring (lease_write slot bytes) !;
  let! time := on_peer (λ p, let '(t, p) := peer_time p in (Ok t, p)) in
  let! capture_time_ns := lift (monotonic_time_ns time) in
  on_ring (commit slot (sink_descriptor pcm sequence capture_time_ns) n).

(** One turn of the loop of [capture_peer]. *)
Definition capture_interval (pcm : PcmConfiguration) (n : Z) (to_file : bool) (sequence : Z)
    (s : stats) : M io stats :=
  publish_interval "LE Audio capture ring overrun" "read LE Audio peer PCM" pcm n sequence !;
  let! acquired := on_ring try_acquire in
  let! lease := lift (ok_or acquired "published LE Audio frame was not visible") in
  with_lease lease
    (let! payload := on_ring (lease_payload lease) in
     (if to_file then file_write payload else mret tt) !;
     let! samples := lift (decode_samples payload (pcm_bits_per_sample pcm)) in
     lift (account samples s)).

Fixpoint capture_loop (intervals : nat) (pcm : PcmConfiguration) (n : Z) (to_file : bool)
    (sequence : Z) (s : stats) : M io stats :=
  match intervals with
  | O => mret s
  | Datatypes.S intervals =>
      let! s := capture_interval pcm n to_file sequence s in
      capture_loop intervals pcm n to_file (sequence + 1) s
  end.

(** The body of [capture_peer] once [RingPair::create] has given the ring. *)
Definition capture_peer (pcm : PcmConfiguration) (args : Args) (n intervals : Z) : M io Z :=
  (match capture args with
   | Some path => mcontext (on_peer (peer_file_create path)) "create LE Audio capture file"
   | None => mret tt
   end) !;
  let to_file := match capture args with Some _ => true | None => false end in
  let! _ := capture_loop (Z.to_nat intervals) pcm n to_file 0
              {| st_sum_squares := f64_zero; st_peak := f64_zero; st_samples := 0 |} in
  lift (mul_u 64 intervals n).

(** [capture_peer] from the start; [create_ring] is [RingPair::create]. *)
Definition run_capture (create_ring : Z → Z → result (Shared E)) (pcm : PcmConfiguration)
    (args : Args) (p : R) : result Z :=
  let? n := bytes_per_interval pcm in
  let? intervals := interval_count args pcm in
  let? ring := create_ring 8 (as_unsigned 32 n) in
  fst (capture_peer pcm args n intervals
         {| io_ring := ring; io_peer := p; io_read := []; io_out := [] |}).
End capturing.

(** ** [main] *)

Section session.
Context (sin : f64 → f64).
Context {S : Type} `{!Socket S} {E : Type} `{EventFd E} {R : Type} `{!Peer R}.
Context {V : Type} `{!Variant V} {W : Type} `{!Floss (V := V) W}.

(** The two halves of the data stream, and [RingPair::create]. *)
Context (writer : S) (reader : R) (create_ring : Z → Z → result (Shared E)).

(** [data_path.host_pcm.unwrap()] *)
Definition unwrap {A} (o : option A) : result A :=
  match o with Some a => Ok a | None => Panic "called `Option::unwrap()` on a `None` value" end.

Definition play (args : Args) (pcm : PcmConfiguration) : result Z :=
  fst (write_tone sin pcm args (fresh_downlink writer)).

(** How the [match args.mode] is left: with a value for [io_result], or, from the
    [?] on [try_join!], out of [main]. *)
Definition exchange (args : Args) (path : FlossLeDataPath) : result (result Z + error) :=
  match mode args with
  | Output => let? pcm := unwrap (fp_host_pcm path) in
              match play args pcm with Panic w => Panic w | Undef w => Undef w | r => Ok (inl r) end
  | Input => let? pcm := unwrap (fp_peer_pcm path) in
             match run_capture create_ring pcm args reader with
             | Panic w => Panic w | Undef w => Undef w | r => Ok (inl r)
             end
  | Duplex =>
      let? host := unwrap (fp_host_pcm path) in
      let? peer := unwrap (fp_peer_pcm path) in
      match play args host, run_capture create_ring peer args reader with
      | Panic w, _ | _, Panic w => Panic w
      | Undef w, _ | _, Undef w => Undef w
      | Ok played, Ok captured => let? n := add_u 64 played captured in Ok (inl (Ok n))
      | Err e, _ | _, Err e => Ok (inr e)
      end
  end.

(** [main] after the data path was started. *)
Definition exchange_and_stop (args : Args) (path : FlossLeDataPath) : M (client (W := W)) unit :=
  let '(stream, path) := take_stream path in
  match stream with
  | Ok _ =>
      let! out := lift (exchange args path) in
      match out with
      | inl io_result =>
          let! stop_result := mtry (stop path) in
          lift (let? _ := io_result in stop_result)
      | inr e => drop_data_path (fp_stopped path) !; lift (Err e)
      end
  | _ => drop_data_path (fp_stopped path) !; lift (rbind stream (λ _, Ok tt))
  end.

(** [main] with its arguments; [connected] is the connection to the system bus. *)
Definition run (connected : result unit) (args : Args) : M (client (W := W)) unit :=
  let! floss := lift (system connected (adapter args)) in
  let! _ := group_status floss (group_id args) in
  let! path := mcontext (start_software_unicast floss (group_id args) (directions args))
                 "start Floss LE Audio software unicast" in
  exchange_and_stop args path.

Definition main (parse_u32 parse_i32 parse_u64 : string → result Z) (parse_f64 : string → result f64)
    (connected : result unit) (argv : list string) : M (client (W := W)) unit :=
  match parse_args parse_u32 parse_i32 parse_u64 parse_f64 argv with
  | Parsed args => run connected args
  | Exited _ => mret tt
  | Rejected e => lift (Err e)
  end.
End session.

(** * Theorems *)

(** ** Samples *)

Lemma top_bit b : (Z.land (byte.unsigned b) 0x80 =? 0) = (byte.unsigned b <? 128).
Proof. by destruct b. Qed.

Lemma le_combine_split_mod k v n : (k <= 8)%nat → n = 8 * Z.of_nat k →
  le_combine (le_split k (v mod 2 ^ 64)) = v mod 2 ^ n.
Proof.
  intros Hk ->. rewrite le_combine_split. rewrite Z.mul_comm.
  apply Z.mod_mod_divide. exists (2 ^ (64 - Z.of_nat k * 8)). rewrite <- Z.pow_add_r by lia. f_equal. lia.
Qed.

Lemma i32_of_bits_mod i : - 2 ^ 31 <= i < 2 ^ 31 → i32_of_bits (i mod 2 ^ 32) = i.
Proof.
  intros. unfold i32_of_bits. destruct (decide (0 <= i)).
  - rewrite Z.mod_small by lia. by rewrite (proj2 (Z.ltb_lt _ _)) by lia.
  - assert (i mod 2 ^ 32 = i + 2 ^ 32) as ->
      by (symmetry; apply (Z.mod_unique _ _ (-1)); lia).
    rewrite (proj2 (Z.ltb_ge _ _)) by lia. lia.
Qed.

Lemma lor_shiftl_add a b n : 0 <= n → 0 <= a < 2 ^ n → Z.lor a (Z.shiftl b n) = a + b * 2 ^ n.
Proof.
  intros Hn Ha. rewrite <- Z.shiftl_mul_pow2 by done.
  assert (Z.land a (Z.shiftl b n) = 0) as Hl.
  { apply Z.bits_inj'. intros i Hi. rewrite Z.land_spec, Z.bits_0.
    destruct (decide (i < n)); [rewrite Z.shiftl_spec_low by done; apply andb_false_r|].
    rewrite <- (Z.mod_small a (2 ^ n)), Z.mod_pow2_bits_high by lia. done. }
  by rewrite Z.add_nocarry_lxor, Z.lxor_lor.
Qed.

Lemma le_combine_snoc l b :
  le_combine (l ++ [b]) = le_combine l + byte.unsigned b * 2 ^ (Z.of_nat (length l) * 8).
Proof.
  rewrite le_combine_app, le_combine_1. apply lor_shiftl_add; [lia|].
  pose proof (le_combine_bound l). by replace (Z.of_nat (length l) * 8) with (8 * Z.of_nat (length l)) by lia.
Qed.

(** The sign extension of a 24-bit sample. *)
Lemma sign_extend_24 i b0 b1 b2 :
  - 2 ^ 23 <= i < 2 ^ 23 → le_combine [b0; b1; b2] = i mod 2 ^ 24 →
  i32_of_bits (le_combine [b0; b1; b2; if Z.land (byte.unsigned b2) 0x80 =? 0 then Byte.x00 else Byte.xff]) = i.
Proof.
  intros Hi Hc. rewrite top_bit. set (e := if byte.unsigned b2 <? 128 then Byte.x00 else Byte.xff).
  pose proof (le_combine_snoc [b0; b1] b2) as H2. pose proof (le_combine_snoc [b0; b1; b2] e) as H3.
  pose proof (le_combine_bound [b0; b1]) as Hbd. cbn [app length] in H2, H3, Hbd.
  change (Z.of_nat 2 * 8) with 16 in H2. change (Z.of_nat 3 * 8) with 24 in H3.
  change (8 * Z.of_nat 2) with 16 in Hbd. rewrite H3, Hc in *. clear H3 Hc.
  pose proof (byte.unsigned_range b2) as Hr. unfold i32_of_bits, e. clear e.
  assert (i mod 2 ^ 24 = if 0 <=? i then i else i + 2 ^ 24) as Hm.
  { case_match; b2p; [apply Z.mod_small; lia|]. symmetry. apply (Z.mod_unique _ _ (-1)); lia. }
  rewrite Hm in *. destruct (byte.unsigned b2 <? 128) eqn:Hb; b2p;
    [change (byte.unsigned Byte.x00) with 0|change (byte.unsigned Byte.xff) with 255];
    repeat case_match; b2p; lia.
Qed.

(** C38. Samples survive their encoding: at each of the three widths, decoding
    the bytes [write_sample] stores for an integer of that width gives the
    integer back, with its sign. *)
Theorem sample_roundtrip bits i :
  bits ∈ [16; 24; 32] → - 2 ^ (bits - 1) <= i < 2 ^ (bits - 1) →
  (let? encoded := integer_bytes bits i in decode_integer bits encoded) = Ok i.
Proof.
  rewrite !elem_of_cons, elem_of_nil. intros [-> | [-> | [-> | [] ] ] ] Hi.
  - pose proof (le_combine_split_mod 2 i 16 ltac:(lia) eq_refl) as Hc.
    change (rbind _ _) with (Ok (i16_of_bits (le_combine (le_split 2 (i mod 2 ^ 64))))).
    rewrite Hc. f_equal. apply i16_of_bits_bits. unfold i16_min, i16_max. cbn in Hi. lia.
  - pose proof (le_combine_split_mod 3 i 24 ltac:(lia) eq_refl) as Hc. cbn in Hi.
    destruct (le_split 3 (i mod 2 ^ 64)) as [|b0 [|b1 [|b2 [|? ?] ] ] ] eqn:Hs; try done.
    assert (integer_bytes 24 i = Ok [b0; b1; b2]) as -> by (by rewrite <- Hs).
    cbn [rbind]. change (decode_integer 24 [b0; b1; b2]) with (Ok (i32_of_bits (le_combine [b0; b1; b2;
      if Z.land (byte.unsigned b2) 0x80 =? 0 then Byte.x00 else Byte.xff]))).
    f_equal. by apply sign_extend_24.
  - pose proof (le_combine_split_mod 4 i 32 ltac:(lia) eq_refl) as Hc.
    change (rbind _ _) with (Ok (i32_of_bits (le_combine (le_split 4 (i mod 2 ^ 64))))).
    rewrite Hc. f_equal. apply i32_of_bits_mod. cbn in Hi. lia.
Qed.

Lemma sample_roundtrip_witness :
  (let? encoded := integer_bytes 24 (-3) in decode_integer 24 encoded) = Ok (-3).
Proof. apply (sample_roundtrip 24 (-3)); [apply one_of_spec; reflexivity|lia]. Defined.

(** ** Intervals *)

(** The frames of an interval, and the bounds the loops rely on. *)
Lemma interval_frames pcm n :
  pcm_typed pcm = true → bytes_per_interval pcm = Ok n →
  let frames := n / pcm_channels pcm / (pcm_bits_per_sample pcm / 8) in
  pcm_bits_per_sample pcm ∈ [16; 24; 32] ∧ 1 <= pcm_channels pcm <= 8 ∧ 0 < pcm_data_interval_us pcm ∧
  2 <= pcm_bits_per_sample pcm / 8 <= 4 ∧ 0 < n ∧ 0 <= frames ∧
  n = frames * (pcm_channels pcm * (pcm_bits_per_sample pcm / 8)) ∧
  8_000_000 * n <= 12_288_000 * pcm_data_interval_us pcm.
Proof.
  intros Ht Hn frames. pose proof (bytes_per_interval_cases pcm Ht) as Hc. rewrite Hn in Hc.
  destruct Hc as (Hv & Hpos & Heq).
  pose proof Hv as (Hr & Hb & Hch & Hi)%pcm_validate_Ok. apply supported_rate_bound in Hr.
  assert (2 <= pcm_bits_per_sample pcm / 8 <= 4 ∧ pcm_bits_per_sample pcm = 8 * (pcm_bits_per_sample pcm / 8))
    as [Hw Hw8].
  { rewrite !elem_of_cons, elem_of_nil in Hb. destruct Hb as [-> | [-> | [-> | [] ] ] ]; done. }
  assert (∃ q, n = q * pcm_channels pcm * (pcm_bits_per_sample pcm / 8)) as [q Hq].
  { unfold bytes_per_interval, checked_mul, mul_u in Hn. inv_ok. repeat case_match; simplify_eq. by eexists. }
  set (w := pcm_bits_per_sample pcm / 8) in *. set (c := pcm_channels pcm) in *. clearbody w c.
  assert (n / c = q * w) as Hnc
    by (rewrite Hq; replace (q * c * w) with (q * w * c) by lia; apply Z.div_mul; lia).
  assert (frames = q) as -> by (unfold frames; rewrite Hnc; apply Z.div_mul; lia).
  split; [done|]. split; [done|]. split; [done|]. split; [done|]. split; [lia|].
  split; [nia|]. split; [lia|]. rewrite Heq, Hw8.
  set (r := pcm_sample_rate_hz pcm) in *. set (i := pcm_data_interval_us pcm) in *. clearbody r i.
  assert (c * (8 * w) <= 256) by nia. assert (r * (c * (8 * w)) <= 48_000 * 256) by nia. nia.
Qed.

(** [interval_count] and what it bounds: the microseconds fit a [u64]. *)
Lemma interval_count_fits args pcm n :
  pcm_typed pcm = true → bytes_per_interval pcm = Ok n → 0 <= seconds args → seconds args * 1_000_000 < 2 ^ 64 →
  ∃ k, interval_count args pcm = Ok k ∧ k = seconds args * 1_000_000 / pcm_data_interval_us pcm ∧
    0 <= k ∧ 8 * (k * n) <= 12_288_000 * seconds args.
Proof.
  intros Ht Hn H0 Hs. destruct (interval_frames pcm n Ht Hn) as (_ & _ & Hi & _ & Hpos & _ & _ & Hb).
  unfold interval_count. rewrite mul_u_in_range by lia. cbn [rbind].
  rewrite (proj2 (Z.eqb_neq _ _)) by lia. eexists. split; [done|]. split; [done|].
  set (i := pcm_data_interval_us pcm) in *. set (us := seconds args * 1_000_000) in *.
  assert (0 <= us / i) by (apply Z.div_pos; unfold us; lia). split; [done|].
  assert (us / i * i <= us) by (rewrite Z.mul_comm; apply Z.mul_div_le; lia).
  set (k := us / i) in *. clearbody k i.
  assert (8_000_000 * (k * n) <= 12_288_000 * (k * i)) by nia. lia.
Qed.

(** For a test of at most 2^40 seconds. *)
Lemma interval_count_Ok args pcm n :
  pcm_typed pcm = true → bytes_per_interval pcm = Ok n → 0 <= seconds args <= 2 ^ 40 →
  ∃ k, interval_count args pcm = Ok k ∧ k = seconds args * 1_000_000 / pcm_data_interval_us pcm ∧
    0 <= k ∧ k * n < 2 ^ 62.
Proof.
  intros Ht Hn Hs. destruct (interval_count_fits args pcm n Ht Hn) as (k & Hk & Heq & H0 & Hb); [lia..|].
  exists k. split_and! ; [done|done|done|lia].
Qed.

(** ** The tone *)

(** The bytes of a sample at one of the three widths. *)
Definition sample_value (bits : Z) (x : f64) : memory :=
  take (Z.to_nat (bits / 8))
    (le_split 8 (f64_as_i64 (f64_mul x (f64_of_Z (2 ^ (bits - 1) - 1))) mod 2 ^ 64)).

Lemma sample_bytes_Ok bits x : bits ∈ [16; 24; 32] →
  sample_bytes bits x = Ok (sample_value bits x) ∧
  Z.of_nat (length (sample_value bits x)) = bits / 8.
Proof.
  rewrite !elem_of_cons, elem_of_nil. intros [-> | [-> | [-> | [] ] ] ]; (split; [done|]);
    unfold sample_value; rewrite length_take, length_le_split; done.
Qed.

Section tone_proofs.
Context (sin : f64 → f64).
Context {S : Type} `{!Socket S}.
Implicit Types (w : downlink S).

Lemma tone_frames_put args pcm n : ∀ frame k buffer,
  tone_frames sin n frame args pcm k buffer =
  put_frames n frame (pcm_channels pcm) (pcm_bits_per_sample pcm / 8)
    (λ k, sample_bytes (pcm_bits_per_sample pcm) (tone sin args pcm k)) k buffer.
Proof.
  induction n as [|n IH]; intros frame k buffer; cbn [tone_frames put_frames]; [done|].
  unfold write_sample. destruct (sample_bytes _ _) as [b|?|?|?]; cbn [rbind]; try done.
  destruct (put_channels _ _ _ _ _ _ _); cbn [rbind]; try done.
  destruct (add_u 64 k 1); cbn [rbind]; [apply IH|done..].
Qed.

(** The interleaved tone, sample numbers from [k] on. *)
Definition tone_stream (args : Args) (pcm : PcmConfiguration) (samples : nat) (k : Z) : memory :=
  interleaved samples (pcm_channels pcm)
    (λ k, sample_value (pcm_bits_per_sample pcm) (tone sin args pcm k)) k.

Lemma tone_stream_length args pcm samples k :
  pcm_bits_per_sample pcm ∈ [16; 24; 32] →
  length (tone_stream args pcm samples k) =
  (samples * (Z.to_nat (pcm_channels pcm) * Z.to_nat (pcm_bits_per_sample pcm / 8)))%nat.
Proof.
  intros Hb. unfold tone_stream. rewrite (length_interleaved _ _ _ (Z.to_nat (pcm_bits_per_sample pcm / 8)));
    [done|]. intros j. pose proof (proj2 (sample_bytes_Ok _ (tone sin args pcm j) Hb)). lia.
Qed.

Lemma tone_frames_Ok args pcm n frames k buffer :
  pcm_typed pcm = true → bytes_per_interval pcm = Ok n →
  frames = n / pcm_channels pcm / (pcm_bits_per_sample pcm / 8) →
  0 <= k → k + frames < 2 ^ 64 → length buffer = Z.to_nat n →
  tone_frames sin (Z.to_nat frames) 0 args pcm k buffer = Ok (tone_stream args pcm (Z.to_nat frames) k).
Proof.
  intros Ht Hn -> Hk Hb Hl. destruct (interval_frames pcm n Ht Hn) as (Hbits & Hc & _ & Hw & _ & Hf & Heq & _).
  rewrite tone_frames_put. apply put_frames_buffer; [lia|lia|done|lia| |].
  - intros j _. by apply sample_bytes_Ok.
  - rewrite Hl. rewrite Heq at 1. rewrite !Z2Nat.inj_mul by lia. done.
Qed.

Lemma wp_tone_intervals args pcm n frames m : ∀ k buffer w,
  writes_return → pcm_typed pcm = true → bytes_per_interval pcm = Ok n →
  frames = n / pcm_channels pcm / (pcm_bits_per_sample pcm / 8) →
  0 <= k → k + Z.of_nat m * frames < 2 ^ 64 → length buffer = Z.to_nat n →
  let stream := dl_written w ++ tone_stream args pcm (m * Z.to_nat frames) k in
  wp (tone_intervals sin m frames args pcm k buffer) w
    (λ _ w', dl_written w' = stream) (λ _ w', dl_written w' `prefix_of` stream).
Proof.
  induction m as [|m IH]; intros k buffer w Hr Ht Hn Hf Hk Hb Hl stream; cbn [tone_intervals].
  { apply wp_ret. unfold stream. cbn. by rewrite app_nil_r. }
  destruct (interval_frames pcm n Ht Hn) as (Hbits & Hch & _ & Hw & _ & Hf0 & Heq & _). rewrite <- Hf in Hf0, Heq.
  apply wp_bind. rewrite (tone_frames_Ok args pcm n) by (done || lia). apply wp_ret.
  set (out := tone_stream args pcm (Z.to_nat frames) k).
  assert (stream = (dl_written w ++ out) ++ tone_stream args pcm (m * Z.to_nat frames) (k + frames)) as Hs.
  { unfold stream, out, tone_stream. rewrite Nat.mul_succ_l, Nat.add_comm, interleaved_app, app_assoc.
    by rewrite Z2Nat.id. }
  apply wp_bind, wp_write_all; [done|..].
  - intros w1 Hw1 _. rewrite Hs, <- Hw1. apply IH; try done; [lia|lia|].
    unfold out. rewrite tone_stream_length by done. rewrite Heq at 1. rewrite !Z2Nat.inj_mul by lia. done.
  - intros e w1 ->. unfold stream. by apply prefix_app_r.
Qed.

Lemma wpp_write_tone args pcm n (s : S) :
  writes_return → pcm_typed pcm = true → bytes_per_interval pcm = Ok n → 0 <= seconds args →
  let intervals := seconds args * 1_000_000 / pcm_data_interval_us pcm in
  let frames := n / pcm_channels pcm / (pcm_bits_per_sample pcm / 8) in
  let stream := tone_stream args pcm (Z.to_nat intervals * Z.to_nat frames) 0 in
  Z.of_nat (length stream) = intervals * n ∧
  wpp (write_tone sin pcm args) (fresh_downlink s)
    (λ bytes w, dl_written w = stream ∧ bytes = Z.of_nat (length stream))
    (λ _ w, dl_written w `prefix_of` stream)
    (λ _ w, (2 ^ 64 <= seconds args * 1_000_000 ∧ dl_written w = []) ∨
            (uncountable stream ∧ dl_written w = stream)).
Proof.
  intros Hr Ht Hn Hs intervals frames stream.
  destruct (interval_frames pcm n Ht Hn) as (Hbits & Hch & Hi & Hw & Hpos & Hf0 & Heq & _).
  fold frames in Hf0, Heq. assert (2 <= pcm_channels pcm * (pcm_bits_per_sample pcm / 8)) as Hcw by nia.
  assert (0 <= intervals) as Hk0 by (apply Z.div_pos; lia).
  assert (Z.of_nat (length stream) = intervals * n) as Hlen.
  { unfold stream. rewrite tone_stream_length by done. rewrite Heq at 1.
    rewrite !Nat2Z.inj_mul, !Z2Nat.id by lia. lia. }
  split; [done|]. unfold write_tone. rewrite Hn. apply wpp_bind, wpp_ret. cbv zeta. apply wpp_bind.
  rewrite (proj2 (Z.eqb_neq _ _)), (proj2 (Z.eqb_neq _ _)) by lia. apply wpp_ret. fold frames. apply wpp_bind.
  destruct (decide (seconds args * 1_000_000 < 2 ^ 64)) as [Hus|Hus].
  2:{ unfold interval_count, mul_u. destruct (in_width 64 _) eqn:Hin; [b2p; lia|]. left. split; [lia|done]. }
  destruct (interval_count_fits args pcm n Ht Hn Hs Hus) as (k & Hk & Hkeq & _ & Hkn).
  fold intervals in Hkeq. subst k. rewrite Hk. apply wpp_ret. apply wpp_bind.
  assert (2 * frames <= n) by (rewrite Heq; nia). assert (2 * (intervals * frames) <= intervals * n) by nia.
  eapply wpp_mono; [apply wp_wpp, (wp_tone_intervals args pcm n frames (Z.to_nat intervals) 0); try done; try lia;
    by rewrite length_zeros|..]; cbn [dl_written fresh_downlink app]; fold stream; [|done|].
  2:{ intros ? ? H'. exact H'. }
  intros _ w1 Hw1. apply wpp_bind. unfold wpp at 1. destruct Hr as [_ Hsd]. specialize (Hsd (dl_socket w1)).
  destruct (sock_shutdown (dl_socket w1)) as [[u|e|?|?] s1]; try done; cbn; [|by rewrite Hw1].
  unfold wpp, lift, mul_u. destruct (in_width 64 _) eqn:Hin; cbn; [by rewrite Hlen|].
  right. split; [|done]. unfold uncountable. rewrite Hlen.
  destruct (decide (2 ^ 64 <= intervals * n)); [done|]. rewrite (proj2 (in_width_spec _ _)) in Hin; [done|nia].
Qed.

(** C39. The tone fills the stream: for every valid PCM configuration and every
    duration the downlink carries one continuous tone, sample by sample at its
    width and in every channel, interval after interval without a gap, and the
    reported count is its length; after a failed write it carries a prefix.  No
    slice is out of bounds, nothing divides by zero and the sample number does
    not overflow.  The two multiplications with the duration can overflow and
    panic: the one that computes the number of intervals, before anything is
    written, and the one that computes the count of a stream of at least 2^64
    bytes, after all of it was written. *)
Theorem le_tone_stream args pcm n (s : S) :
  writes_return → pcm_typed pcm = true → bytes_per_interval pcm = Ok n → 0 <= seconds args →
  let intervals := seconds args * 1_000_000 / pcm_data_interval_us pcm in
  let frames := n / pcm_channels pcm / (pcm_bits_per_sample pcm / 8) in
  let stream := tone_stream args pcm (Z.to_nat intervals * Z.to_nat frames) 0 in
  Z.of_nat (length stream) = intervals * n ∧
  wpp (write_tone sin pcm args) (fresh_downlink s)
    (λ bytes w, dl_written w = stream ∧ bytes = Z.of_nat (length stream))
    (λ _ w, dl_written w `prefix_of` stream)
    (λ _ w, (2 ^ 64 <= seconds args * 1_000_000 ∧ dl_written w = []) ∨
            (uncountable stream ∧ dl_written w = stream)).
Proof. apply wpp_write_tone. Qed.
End tone_proofs.

(** ** The capture *)

Lemma decode_sample_Ok bits c : bits ∈ [16; 24; 32] → Z.of_nat (length c) = bits / 8 →
  ∃ x, decode_sample bits c = Ok x.
Proof.
  rewrite !elem_of_cons, elem_of_nil. intros [-> | [-> | [-> | [] ] ] ] Hl.
  - change (16 / 8) with 2 in Hl. destruct c as [|b0 [|b1 [|? ?] ] ]; cbn [length] in Hl; try lia. by eexists.
  - change (24 / 8) with 3 in Hl. destruct c as [|b0 [|b1 [|b2 [|? ?] ] ] ]; cbn [length] in Hl; try lia. by eexists.
  - change (32 / 8) with 4 in Hl. destruct c as [|b0 [|b1 [|b2 [|b3 [|? ?] ] ] ] ]; cbn [length] in Hl; try lia. by eexists.
Qed.

Lemma account_Ok samples : ∀ s,
  Forall (λ r, ∃ x, r = Ok x) samples → 0 <= st_samples s →
  st_samples s + Z.of_nat (length samples) < 2 ^ 64 →
  ∃ s', account samples s = Ok s' ∧ st_samples s' = st_samples s + Z.of_nat (length samples).
Proof.
  induction samples as [|r samples IH]; intros s Hs H0 Hb; cbn [account].
  { exists s. cbn. split; [done|lia]. }
  inversion Hs as [|? ? [x ->] Hs']. subst. cbn [rbind length] in *.
  rewrite add_u_in_range by lia. cbn [rbind].
  match goal with |- context [account samples ?s1] => destruct (IH s1) as (s' & Hs1 & Hc) end;
    cbn [st_samples] in *; try done; try lia.
  exists s'. split; [done|lia].
Qed.

(** The samples of a payload of a valid configuration. *)
Lemma payload_samples bits payload k s :
  bits ∈ [16; 24; 32] → Z.of_nat (length payload) = k * (bits / 8) → 0 <= k →
  0 <= st_samples s → st_samples s + k < 2 ^ 64 →
  ∃ l s', decode_samples payload bits = Ok l ∧ account l s = Ok s' ∧ st_samples s' = st_samples s + k.
Proof.
  intros Hb Hl Hk H0 Hbd.
  assert (0 < bits / 8) as Hw.
  { rewrite !elem_of_cons, elem_of_nil in Hb. destruct Hb as [-> | [-> | [-> | [] ] ] ]; done. }
  unfold decode_samples. rewrite (proj2 (Z.eqb_neq _ _)) by lia.
  destruct (chunks_exact_spec (Z.to_nat (bits / 8)) (Z.to_nat k) ltac:(lia) payload (length payload))
    as (Hlen & Hall & _); [lia|rewrite <- Z2Nat.inj_mul by lia; lia|].
  set (l := decode_sample bits <$> _). assert (Z.of_nat (length l) = k) as Hll
    by (unfold l; rewrite length_fmap, Hlen; lia).
  destruct (account_Ok l s) as (s' & Hs' & Hc'); [|done|lia|].
  { unfold l. apply Forall_fmap. eapply Forall_impl; [exact Hall|]. intros c Hc.
    apply (decode_sample_Ok bits c); [done|]. cbv beta in Hc. rewrite Hc. lia. }
  exists l, s'. rewrite Hll in Hc'. done.
Qed.

Section capture_proofs.
Context {E : Type} `{EventFd E} {R : Type} `{!Peer R}.
Implicit Types (i : io (E := E) (R := R)).

(** Documented behaviour of the outside: calls return, [read_exact] gives the
    bytes asked for, the clock is representable. *)
Class PeerLaws : Prop := {
  peer_read_returns n (p : R) : defined (fst (peer_read n p)) = true;
  peer_read_exact n (p : R) b : fst (peer_read n p) = Ok b → Z.of_nat (length b) = n;
  peer_create_returns s (p : R) : defined (fst (peer_file_create s p)) = true;
  peer_write_returns b (p : R) : defined (fst (peer_file_write b p)) = true;
  peer_time_fits (p : R) : ∃ t, monotonic_time_ns (fst (peer_time p)) = Ok t ∧ is_u64 t = true;
}.
Context `{!PeerLaws}.

(** An error that was reported by the peer or the file system. *)
Definition outside_error (e : error) : Prop :=
  (∃ e', e = "create LE Audio capture file" :: e') ∨ (∃ e', e = "read LE Audio peer PCM" :: e') ∨
  (∃ b p, fst (peer_file_write b p) = Err e).

Lemma wp_on_ring {A} (c : M (Shared E) A) i a s' Q Er :
  c (io_ring i) = (Ok a, s') →
  Q a {| io_ring := s'; io_peer := io_peer i; io_read := io_read i; io_out := io_out i |} →
  wp (on_ring c) i Q Er.
Proof. unfold wp, on_ring. by intros ->. Qed.

Lemma wp_with_lease {A} lease (body : M io A) i Q (Er : error → io → Prop) :
  wp body i (λ a i', Q a (snd (on_ring (drop_lease lease) i')))
    (λ e i', Er e (snd (on_ring (drop_lease lease) i'))) →
  wp (with_lease lease body) i Q Er.
Proof. unfold wp, with_lease. by destruct (body i) as [[] ?]. Qed.

Lemma wp_read_exact n i Q (Er : error → io → Prop) :
  (∀ b p, Z.of_nat (length b) = n →
     Q b {| io_ring := io_ring i; io_peer := p; io_read := io_read i ++ b; io_out := io_out i |}) →
  (∀ e i', io_read i' = io_read i → io_out i' = io_out i → io_ring i' = io_ring i → Er e i') →
  wp (read_exact n) i Q Er.
Proof.
  intros HQ HE. unfold wp, read_exact. pose proof (peer_read_returns n (io_peer i)) as Hr.
  pose proof (peer_read_exact n (io_peer i)) as Hn.
  destruct (peer_read n (io_peer i)) as [[b|e|?|?] p]; try done; [|by apply HE].
  apply HQ. by apply Hn.
Qed.

Lemma wp_file_write b i Q :
  (∀ p, Q tt {| io_ring := io_ring i; io_peer := p; io_read := io_read i; io_out := io_out i ++ b |}) →
  wp (file_write b) i Q (λ e _, outside_error e).
Proof.
  intros HQ. unfold wp, file_write. pose proof (peer_write_returns b (io_peer i)) as Hr.
  destruct (peer_file_write b (io_peer i)) as [[[]|e|?|?] p] eqn:Hw; try done; cbn.
  right. right. exists b, (io_peer i). by rewrite Hw.
Qed.

(** Fill a reserved slot and commit it. *)
Lemma publish_spec (k stride cap : Z) (s : Shared E) T K q d bytes :
  ring_rep k stride cap (sh_mem s) T K q → K - T < k → wrap_ok k K → eventfd_signals (E := E) →
  descriptor_typed d = true → Z.of_nat (length bytes) <= cap →
  let lease := {| pl_slot := ring_header_size + K mod k * stride;
                  pl_head := K mod 2 ^ 64; pl_committed := false |} in
  ∃ s1 s2, lease_write lease bytes s = (Ok tt, s1) ∧
    commit lease d (Z.of_nat (length bytes)) s1 = (Ok tt, s2) ∧
    ring_rep k stride cap (sh_mem s2) T (K + 1)
      (q ++ [(stamp_descriptor d (Z.of_nat (length bytes)), bytes)]).
Proof.
  intros Rr Hfree Hw Hev Hd Hc lease.
  destruct (lease_write_spec k stride cap s T K q bytes false Rr Hfree Hc) as [Hwr R1].
  set (s1 := set_mem _ s) in *. exists s1.
  destruct (commit_spec k stride cap s1 T K q d bytes R1 Hfree Hw Hd Hc) as (mem' & R2 & _ & Hcm).
  { apply slice_inserts_same. pose proof Rr as [[Hn Hcap Hst _] _ _ _ _ _ _ _ _].
    pose proof (slot_fits k stride cap _ _ _ _ (K mod k) Rr (Z.mod_pos_bound K k ltac:(lia))). lia. }
  destruct (signal_eventfd_Ok (set_mem mem' s1) Hev) as [ev Hsig].
  eexists. split; [exact Hwr|]. split; [unfold lease; by rewrite Hcm, Hsig|]. exact R2.
Qed.

(** The frame an interval becomes. *)
Definition interval_frame (pcm : PcmConfiguration) (sequence t n : Z) (b : memory) : frame :=
  (stamp_descriptor (sink_descriptor pcm sequence t) n, b).

(** Publishing one interval: it fails when the ring is full or the peer does. *)
Lemma wp_publish_interval overrun reading pcm (k stride n : Z) sequence T K q i :
  pcm_typed pcm = true → 0 <= n → eventfd_signals (E := E) → is_u64 sequence = true → wrap_ok k K →
  ring_rep k stride n (sh_mem (io_ring i)) T K q →
  wp (publish_interval overrun reading pcm n sequence) i
    (λ _ i', io_out i' = io_out i ∧ ∃ b t, Z.of_nat (length b) = n ∧ io_read i' = io_read i ++ b ∧
       ring_rep k stride n (sh_mem (io_ring i')) T (K + 1) (q ++ [interval_frame pcm sequence t n b]))
    (λ e i', io_out i' = io_out i ∧ io_read i' = io_read i ∧
       (∃ T' K', ring_rep k stride n (sh_mem (io_ring i')) T' K' q) ∧
       (e = [overrun] ∧ Z.of_nat (length q) = k ∨ ∃ e', e = reading :: e')).
Proof.
  intros Ht Hn0 Hev Hsq Hwr Rr. unfold publish_interval. apply wp_bind.
  pose proof Rr as [_ _ _ _ _ Ho Hcnt Hb _].
  destruct (decide (K - T < k)) as [Hfree|Hfull].
  2:{ eapply wp_on_ring; [apply (try_reserve_full k stride n (io_ring i) T K q Rr); lia|]. apply wp_bind, wp_lift; [done|done|]. intros e [= <-].
      cbn [io_out io_read io_ring sh_mem set_mem]. split; [done|]. split; [done|].
      split; [exists T, K; by apply ring_rep_store_dropped|]. left. split; [done|lia]. }
  eapply wp_on_ring; [by apply (try_reserve_free k stride n _ T K q)|].
  apply wp_bind, wp_ret. apply wp_bind. eapply wp_on_ring; [apply (rep_capacity k stride n _ T K q Rr)|].
  rewrite Z.ltb_irrefl. apply wp_bind, wp_ret.
  apply wp_bind, wp_context, wp_read_exact.
  2:{ intros e i' Hr Ho' Hi'. rewrite Hr, Ho', Hi'. split; [done|]. split; [done|].
      split; [by exists T, K|]. right. by eexists. }
  intros b p Hb'. cbn [io_ring io_peer io_read io_out].
  destruct (peer_time_fits p) as (t & Htime & Ht64).
  pose proof (sink_descriptor_typed pcm sequence t Ht Hsq Ht64) as Hdt.
  destruct (publish_spec k stride n (io_ring i) T K q (sink_descriptor pcm sequence t) b)
    as (s1 & s2 & Hw1 & Hc2 & R2); [done..|lia|].
  apply wp_bind. eapply wp_on_ring; [exact Hw1|]. apply wp_bind. unfold wp at 1, on_peer.
  cbn [io_ring io_peer io_read io_out]. destruct (peer_time p) as [time p'] eqn:Hp. cbn [fst] in Htime.
  apply wp_bind. rewrite Htime. apply wp_ret. rewrite Hb' in Hc2, R2.
  eapply wp_on_ring; [exact Hc2|]. cbn [io_ring io_peer io_read io_out].
  split; [done|]. exists b, t. done.
Qed.

Abbreviation empty_ring stride n T i := (ring_rep 8 stride n (sh_mem (io_ring i)) T T []).

(** One interval on an empty ring. *)
Lemma wp_capture_interval pcm n stride to_file sequence s T i :
  pcm_typed pcm = true → bytes_per_interval pcm = Ok n → eventfd_signals (E := E) →
  empty_ring stride n T i → is_u64 sequence = true →
  0 <= st_samples s → st_samples s + n < 2 ^ 64 →
  wp (capture_interval pcm n to_file sequence s) i
    (λ s' i', empty_ring stride n (T + 1) i' ∧ 0 <= st_samples s' <= st_samples s + n ∧
       ∃ b, Z.of_nat (length b) = n ∧ io_read i' = io_read i ++ b ∧
         io_out i' = io_out i ++ (if to_file then b else []))
    (λ e _, outside_error e).
Proof.
  intros Ht Hn Hev Rr Hsq Hs0 Hsb. unfold capture_interval.
  destruct (interval_frames pcm n Ht Hn) as (Hbits & Hch & _ & Hw & Hpos & Hf0 & Heq & _).
  set (frames := n / _ / _) in *. apply wp_bind.
  eapply wp_mono; [apply (wp_publish_interval _ _ pcm 8 stride n sequence T T [] i); try done;
    [lia|by left]|..].
  2:{ intros e i' (_ & _ & _ & [ [_ Hq]|He]); [done|]. right. by left. }
  intros _ i1 (Ho1 & b & t & Hb & Hr1 & R2). cbn [app] in R2. set (s2 := io_ring i1) in *.
  apply wp_bind. eapply wp_on_ring; [apply (try_acquire_front 8 stride n s2 T (T + 1) _ [] R2); by left|].
  apply wp_bind, wp_ret, wp_with_lease. set (lease := Build_FrameLease _ _ _).
  cbn [io_ring io_peer io_read io_out]. apply wp_bind.
  eapply wp_on_ring; [apply (lease_payload_front 8 stride n s2 T (T + 1) _ [] R2)|].
  cbn [io_ring io_peer io_read io_out snd]. apply wp_bind.
  eapply (wp_mono _ _ (λ _ i', io_ring i' = s2 ∧ io_read i' = io_read i ++ b ∧
    io_out i' = io_out i ++ (if to_file then b else [])) _ (λ e _, outside_error e)); [| |done].
  { destruct to_file; [apply wp_file_write; intros p; cbn; by rewrite Ho1|].
    apply wp_ret. cbn. by rewrite app_nil_r. }
  intros _ i3 (Hi3 & Hr3 & Hf3).
  destruct (payload_samples (pcm_bits_per_sample pcm) b (frames * pcm_channels pcm) s)
    as (l & s' & Hl & Hs' & Hcount); [done|rewrite Hb, Heq; lia|nia|done|nia|].
  cbn [snd interval_frame]. rewrite Hl. apply wp_bind, wp_ret. rewrite Hs'. apply wp_ret.
  destruct (drop_lease_front 8 stride n s2 T (T + 1) _ [] (fl_descriptor lease) (fl_payload lease) R2)
    as (mem' & Hdrop & R3 & _).
  unfold on_ring. rewrite Hi3. change (drop_lease lease s2) with (drop_lease {| fl_descriptor :=
    fl_descriptor lease; fl_payload := fl_payload lease; fl_tail := T mod 2 ^ 64 |} s2). rewrite Hdrop.
  cbn [snd io_ring io_read io_out]. split; [exact R3|]. split; [nia|]. by exists b.
Qed.

Lemma wp_capture_loop pcm n stride to_file m : ∀ sequence s T i,
  pcm_typed pcm = true → bytes_per_interval pcm = Ok n → eventfd_signals (E := E) →
  empty_ring stride n T i → 0 <= sequence → sequence + Z.of_nat m < 2 ^ 64 →
  0 <= st_samples s → st_samples s + Z.of_nat m * n < 2 ^ 64 →
  wp (capture_loop m pcm n to_file sequence s) i
    (λ _ i', empty_ring stride n (T + Z.of_nat m) i' ∧
       ∃ b, Z.of_nat (length b) = Z.of_nat m * n ∧ io_read i' = io_read i ++ b ∧
         io_out i' = io_out i ++ (if to_file then b else []))
    (λ e _, outside_error e).
Proof.
  induction m as [|m IH]; intros sequence s T i Ht Hn Hev Rr Hq0 Hqb Hs0 Hsb; cbn [capture_loop].
  { apply wp_ret. rewrite Z.add_0_r. split; [done|]. exists []. rewrite app_nil_r.
    destruct to_file; by rewrite app_nil_r. }
  pose proof (bytes_per_interval_cases pcm Ht) as Hpos. rewrite Hn in Hpos. destruct Hpos as (_ & Hpos & _).
  apply wp_bind. eapply wp_mono; [apply (wp_capture_interval pcm n stride to_file sequence s T i)|..];
    try done; [apply in_width_spec; lia|nia|].
  intros s1 i1 (R1 & Hs1 & b1 & Hb1 & Hr1 & Hf1).
  eapply wp_mono; [apply (IH (sequence + 1) s1 (T + 1) i1); try done; nia|..]; [|done].
  intros s2 i2 (R2 & b2 & Hb2 & Hr2 & Hf2). split; [by replace (T + Z.of_nat (Datatypes.S m)) with
    (T + 1 + Z.of_nat m) by lia|].
  exists (b1 ++ b2). rewrite Hr2, Hr1, Hf2, Hf1, length_app, <- !app_assoc.
  split; [lia|]. split; [done|]. by destruct to_file.
Qed.

Lemma wp_capture_peer pcm n args (ring : Shared E) (p : R) :
  pcm_typed pcm = true → bytes_per_interval pcm = Ok n → n < 2 ^ 32 → eventfd_signals (E := E) →
  fresh_ring 8 n = Ok (sh_mem ring) → 0 <= seconds args <= 2 ^ 40 →
  let intervals := seconds args * 1_000_000 / pcm_data_interval_us pcm in
  wp (capture_peer pcm args n intervals) {| io_ring := ring; io_peer := p; io_read := []; io_out := [] |}
    (λ bytes i, bytes = intervals * n ∧ bytes = Z.of_nat (length (io_read i)) ∧
       io_out i = (match capture args with Some _ => io_read i | None => [] end) ∧
       ring_rep 8 (stride_of n) n (sh_mem (io_ring i)) intervals intervals [])
    (λ e _, outside_error e).
Proof.
  intros Ht Hn H32 Hev Hf Hs intervals.
  destruct (interval_count_Ok args pcm n Ht Hn Hs) as (k & _ & Hkeq & Hk0 & Hkn). fold intervals in Hkeq. subst k.
  pose proof (bytes_per_interval_cases pcm Ht) as Hpos. rewrite Hn in Hpos. destruct Hpos as (_ & Hpos & _).
  destruct (fresh_ring_rep 8 n (sh_mem ring)) as [R0 _]; [done|apply in_width_spec; lia|done|].
  unfold capture_peer. apply wp_bind. clearbody intervals.
  eapply (wp_mono _ _ (λ _ i, io_ring i = ring ∧ io_read i = [] ∧ io_out i = []) _ (λ e _, outside_error e));
    [| |done].
  { destruct (capture args); [|by apply wp_ret]. apply wp_context. unfold wp, on_peer. cbn [io_peer].
    pose proof (peer_create_returns s p) as Hr. destruct (peer_file_create s p) as [[u|e|?|?] p']; try done.
    cbn. left. by eexists. }
  intros _ i (Hi & Hri & Hfi). apply wp_bind.
  assert (Z.of_nat (Z.to_nat intervals) = intervals) as Hnat by lia.
  eapply wp_mono; [apply (wp_capture_loop pcm n (stride_of n) _ _ 0 _ 0 i); try done;
    [by rewrite Hi|nia|cbn [st_samples]; lia]|..]; [|done]. rewrite Hnat.
  intros s' i' (R' & b & Hb & Hr & Hfile). rewrite mul_u_in_range by lia. apply wp_ret.
  rewrite Hri in Hr. rewrite Hfi in Hfile. cbn [app] in Hr, Hfile. split; [done|].
  split; [by rewrite Hr|]. split; [rewrite Hfile, Hr; by destruct (capture args)|exact R'].
Qed.

(** C20. The capture never overruns its ring: on a ring of eight slots of one
    interval, every interval finds a free slot, is published and is seen by the
    consumer at once, so the ring errors are unreachable and only the peer or
    the file system can make it fail.  A complete capture has read exactly the
    bytes it reports, the capture file is what the peer sent, in order, and the
    ring is empty again.  Nothing panics. *)
Theorem capture_never_overruns pcm n args (ring : Shared E) (p : R) :
  pcm_typed pcm = true → bytes_per_interval pcm = Ok n → n < 2 ^ 32 → eventfd_signals (E := E) →
  fresh_ring 8 n = Ok (sh_mem ring) → 0 <= seconds args <= 2 ^ 40 →
  let intervals := seconds args * 1_000_000 / pcm_data_interval_us pcm in
  wp (capture_peer pcm args n intervals) {| io_ring := ring; io_peer := p; io_read := []; io_out := [] |}
    (λ bytes i, bytes = intervals * n ∧ bytes = Z.of_nat (length (io_read i)) ∧
       io_out i = (match capture args with Some _ => io_read i | None => [] end) ∧
       ring_rep 8 (stride_of n) n (sh_mem (io_ring i)) intervals intervals [])
    (λ e _, outside_error e).
Proof. apply wp_capture_peer. Qed.
End capture_proofs.

(** ** The session *)

Section session_proofs.
Context (sin : f64 → f64).
Context {S : Type} `{!Socket S} {E : Type} `{EventFd E} {R : Type} `{!Peer R, !PeerLaws}.
Context {V : Type} `{!Variant V, !VariantLaws V} {W : Type} `{!Floss (V := V) W, !FlossLaws V W}.
Context (writer : S) (reader : R) (create_ring : Z → Z → result (Shared E)).
Implicit Types (c : client (W := W)).

(** What [RingPair::create] gives: an error, or a fresh ring of the geometry. *)
Definition creates_rings : Prop := ∀ n cap, is_u32 n = true → is_u32 cap = true →
  defined (create_ring n cap) = true ∧
  ∀ ring, create_ring n cap = Ok ring → fresh_ring n cap = Ok (sh_mem ring).

(** A configuration whose intervals are at most a second long. *)
Definition short_interval (o : option PcmConfiguration) : Prop :=
  match o with Some p => pcm_data_interval_us p <= 1_000_000 | None => True end.

(** Returned, and the sum of two such counts does not overflow. *)
Definition counts (r : result Z) : Prop :=
  match r with Ok a => 0 <= a < 2 ^ 62 | Err _ => True | _ => False end.

Lemma play_defined args pcm :
  writes_return (S := S) → 0 <= seconds args <= 2 ^ 40 → pcm_typed pcm = true → is_ok (bytes_per_interval pcm) = true →
  counts (play sin writer args pcm).
Proof.
  intros Hw Hs Ht Hb. destruct (bytes_per_interval pcm) as [n|?|?|?] eqn:Hn; try done.
  destruct (wpp_write_tone sin args pcm n writer Hw Ht Hn ltac:(lia)) as [Hlen Hwp]. unfold wpp, uncountable in Hwp.
  rewrite Hlen in Hwp. destruct (interval_count_Ok args pcm n Ht Hn Hs) as (k & _ & -> & Hk & Hkn).
  destruct (interval_frames pcm n Ht Hn) as (_ & _ & _ & _ & Hpos & _).
  unfold play, counts. destruct (write_tone sin pcm args _) as [[] ?]; try done; cbn [fst] in *; [nia|lia].
Qed.

Lemma run_capture_defined args pcm :
  eventfd_signals (E := E) → creates_rings → 0 <= seconds args <= 2 ^ 40 →
  pcm_typed pcm = true → is_ok (bytes_per_interval pcm) = true → pcm_data_interval_us pcm <= 1_000_000 →
  counts (run_capture create_ring pcm args reader).
Proof.
  intros Hev Hcr Hs Ht Hb Hi. destruct (bytes_per_interval pcm) as [n|?|?|?] eqn:Hn; try done.
  destruct (interval_frames pcm n Ht Hn) as (_ & _ & _ & _ & Hpos & _ & _ & Hbound).
  destruct (interval_count_Ok args pcm n Ht Hn Hs) as (k & Hk & Hkeq & Hk0 & Hkn).
  unfold run_capture. rewrite Hn. cbn [rbind]. rewrite Hk. cbn [rbind].
  assert (as_unsigned 32 n = n) as -> by (apply Z.mod_small; lia).
  destruct (Hcr 8 n) as [Hd Hf]; [done|apply in_width_spec; lia|]. destruct (create_ring 8 n) as [ring|?|?|?]; try done. cbn [rbind].
  pose proof (wp_capture_peer pcm n args ring reader Ht Hn ltac:(lia) Hev (Hf _ eq_refl) Hs) as Hwp.
  rewrite <- Hkeq in Hwp. unfold wp in Hwp.
  destruct (capture_peer pcm args n k _) as [[] ?]; try done. cbn [fst counts] in *. nia.
Qed.

(** Every way the exchange ends without a panic. *)
Lemma exchange_cases args path :
  writes_return (S := S) → eventfd_signals (E := E) → creates_rings → 0 <= seconds args <= 2 ^ 40 →
  pcm_ready (host_to_peer (directions args)) (fp_host_pcm path) →
  pcm_ready (peer_to_host (directions args)) (fp_peer_pcm path) → short_interval (fp_peer_pcm path) →
  ∃ out, exchange sin writer reader create_ring args path = Ok out ∧
    match out with inl r => defined r = true | inr _ => mode args = Duplex end.
Proof.
  intros Hw Hev Hcr Hs Hh Hp Hi. unfold exchange, directions in *.
  destruct (mode args) eqn:Hm; cbn in Hh, Hp.
  - destruct (fp_host_pcm path) as [h|]; [|done]. destruct Hh as (_ & _ & Ht & Hb). cbn [unwrap rbind].
    pose proof (play_defined args h Hw Hs Ht Hb). destruct (play _ _ _ _); try done; by eexists.
  - destruct (fp_peer_pcm path) as [p|]; [|done]. destruct Hp as (_ & _ & Ht & Hb). cbn [unwrap rbind].
    pose proof (run_capture_defined args p Hev Hcr Hs Ht Hb Hi).
    destruct (run_capture _ _ _ _); try done; by eexists.
  - destruct (fp_host_pcm path) as [h|]; [|done]. destruct Hh as (_ & _ & Hht & Hhb).
    destruct (fp_peer_pcm path) as [p|]; [|done]. destruct Hp as (_ & _ & Hpt & Hpb). cbn [unwrap rbind].
    pose proof (play_defined args h Hw Hs Hht Hhb). pose proof (run_capture_defined args p Hev Hcr Hs Hpt Hpb Hi).
    destruct (play _ _ _ _) as [a|?|?|?] eqn:Hplay, (run_capture _ _ _ _) as [b|?|?|?] eqn:Hcap; try done;
      try by eexists.
    cbn [counts] in *. rewrite add_u_in_range by lia. by eexists.
Qed.

(** The ways the exchange ends. *)
Lemma exchange_shape args path :
  match exchange sin writer reader create_ring args path with
  | Ok (inl r) => defined r = true
  | Ok (inr _) => mode args = Duplex
  | Err _ => False
  | Panic _ | Undef _ => True
  end.
Proof.
  unfold exchange. destruct (mode args), (fp_host_pcm path), (fp_peer_pcm path); cbn [unwrap rbind]; try done.
  all: repeat match goal with
       | |- context [play ?a ?b ?c ?d] => destruct (play a b c d); try done
       | |- context [run_capture ?a ?b ?c ?d] => destruct (run_capture a b c d); try done
       end.
  unfold add_u. by destruct (in_width _ _).
Qed.

(** What makes it panic. *)
Lemma exchange_bound args path :
  writes_return (S := S) → eventfd_signals (E := E) → creates_rings → 0 <= seconds args →
  pcm_ready (host_to_peer (directions args)) (fp_host_pcm path) →
  pcm_ready (peer_to_host (directions args)) (fp_peer_pcm path) →
  match exchange sin writer reader create_ring args path with
  | Panic _ | Undef _ => 2 ^ 40 < seconds args ∨ ¬ short_interval (fp_peer_pcm path)
  | _ => True
  end.
Proof.
  intros Hw Hev Hcr Hs Hh Hp. destruct (decide (2 ^ 40 < seconds args)); [repeat case_match; auto|].
  assert (short_interval (fp_peer_pcm path) ∨ ¬ short_interval (fp_peer_pcm path)) as [Hi|Hi]
    by (unfold short_interval; destruct (fp_peer_pcm path); [lia|by left]).
  - destruct (exchange_cases args path Hw Hev Hcr ltac:(lia) Hh Hp Hi) as (out & -> & _). done.
  - repeat case_match; auto.
Qed.

(** The stop after an exchange with a value for [io_result]. *)
Lemma wp_stop_after path (c : client) (r : result Z) :
  defined r = true →
  running (cl_log c) = (host_to_peer (fp_directions path), peer_to_host (fp_directions path)) →
  wp (let! stop_result := mtry (stop path) in lift (let? _ := r in stop_result)) c
    (λ _ c', running (cl_log c') = (false, false))
    (λ _ c', running (cl_log c') = (false, false) ∨ CProxy false ∈ cl_log c').
Proof.
  intros Hr Hrun. apply wp_bind, wp_try. eapply wp_mono; [apply wp_stop|..]; rewrite Hrun; cbn [fst snd];
    rewrite !andb_negb_r; cbv beta.
  - intros u c' Hc'. destruct r; try done; apply wp_lift; try done; auto.
  - intros e c' Hc'. destruct r; try done; (apply wp_lift; [done|done|]); intros _ _; naive_solver.
Qed.

(** C27. After the data path was started, [main] stops it again: playing or
    capturing alone, whatever the exchange and the stop return, no direction is
    left running unless the proxy for the stop cannot be created.  There are two
    ways past the stop.  In duplex mode a failed exchange leaves [main] before
    [stop]: both directions stay running and the path is dropped with its
    warning.  And a panic of the exchange, which leaves the daemon as it was,
    with the directions running; it needs more than 2^40 seconds, which the
    command line accepts, or an interval of more than a second. *)
Theorem le_session_stops args path c :
  writes_return (S := S) → eventfd_signals (E := E) → creates_rings → 0 <= seconds args →
  unicast_started (with_connection (adapter args)) (directions args) path c →
  let stopped c' := running (cl_log c') = (false, false) in
  let '(r, c') := exchange_and_stop sin writer reader create_ring args path c in
  match r with
  | Ok _ => stopped c'
  | Err _ => stopped c' ∨ CProxy false ∈ cl_log c' ∨
      (mode args = Duplex ∧ running (cl_log c') = (true, true) ∧ last (cl_log c') = Some CDropWarning)
  | Panic _ | Undef _ => c' = c ∧ (2 ^ 40 < seconds args ∨ ¬ short_interval (fp_peer_pcm path))
  end.
Proof.
  intros Hw Hev Hcr Hs (Hrun & _ & _ & Hdir & [st Hst] & Hstop & Hh & Hp) stopped.
  unfold exchange_and_stop, take_stream. rewrite Hst. cbn [ok_or]. set (path' := Build_FlossLeDataPath _ _ _ _ _ _).
  unfold mbind at 1, lift at 1. pose proof (exchange_shape args path') as Hshape.
  pose proof (exchange_bound args path' Hw Hev Hcr Hs Hh Hp) as Hbound.
  destruct (exchange _ _ _ _ _ _) as [[r|e]|?|m|m]; [..|done|by split|by split].
  - pose proof (wp_stop_after path' c r Hshape ltac:(cbn; by rewrite Hdir)) as Hwp. unfold wp in Hwp.
    destruct (mbind _ _ c) as [[] ?]; naive_solver.
  - cbn [fp_stopped path']. rewrite Hstop. cbn. right. right.
    split; [done|]. rewrite running_snoc, Hrun, last_snoc. unfold directions. by rewrite Hshape.
Qed.
End session_proofs.

(** ** A peer to run the test on *)

(** A peer that sends [n] intervals of silence and then hangs up. *)
#[global] Instance sim_peer : Peer nat := {|
  peer_read := λ len n, match n with
                        | O => (Err ["early eof"], O)
                        | S n => if 0 <=? len then (Ok (zeros (Z.to_nat len)), n) else (Err ["early eof"], n)
                        end;
  peer_file_create := λ _ n, (Ok tt, n);
  peer_file_write := λ _ n, (Ok tt, n);
  peer_time := λ n, (Some (1, 5), n);
|}.

#[global] Instance sim_peer_laws : PeerLaws (R := nat).
Proof.
  split; try done.
  - intros len [|n]; cbn; [done|]. by case_match.
  - intros len [|n] b; cbn; [done|]. case_match; b2p; [|done]. intros [= <-]. rewrite length_zeros. lia.
  - intros p. by exists 1_000_000_005.
Qed.

(** [RingPair::create] with a kernel that has room. *)
Definition sim_create (n cap : Z) : result (Shared counter_eventfd) :=
  let? mem := fresh_ring n cap in Ok {| sh_mem := mem; sh_evt := fresh_eventfd |}.

Lemma sim_create_creates : creates_rings sim_create.
Proof.
  intros n cap Hn Hc. unfold sim_create. pose proof (geometry_defined n cap Hn Hc) as Hg. unfold fresh_ring.
  destruct (ring_geometry n cap); try done. cbn [rbind]. set (mem := list_inserts _ _ _). clearbody mem.
  split; [done|]. by intros ring [= <-].
Qed.

Definition music_pcm : PcmConfiguration := {|
  pcm_sample_rate_hz := 48_000; pcm_bits_per_sample := 16; pcm_channels := 2;
  pcm_data_interval_us := 10_000 |}.

Definition quick_args (m : Mode) : Args := {|
  adapter := 0; group_id := 1; seconds := 1; frequency_hz := f64_of_Z 440; mode := m;
  capture := Some "peer-input.raw" |}.

Lemma le_tone_stream_witness :
  let stream := tone_stream id (quick_args Output) music_pcm (100 * 480) 0 in
  Z.of_nat (length stream) = 100 * 1_920 ∧
  wpp (write_tone id music_pcm (quick_args Output)) (fresh_downlink 200%nat)
    (λ bytes w, dl_written w = stream ∧ bytes = Z.of_nat (length stream))
    (λ _ w, dl_written w `prefix_of` stream)
    (λ _ w, (2 ^ 64 <= 1 * 1_000_000 ∧ dl_written w = []) ∨ (uncountable stream ∧ dl_written w = stream)).
Proof.
  apply (le_tone_stream id (quick_args Output) music_pcm 1_920 200%nat);
    [apply bounded_socket_returns|reflexivity|reflexivity|cbn; lia].
Defined.

Lemma capture_never_overruns_witness :
  ∃ ring, sim_create 8 1_920 = Ok ring ∧
  wp (capture_peer music_pcm (quick_args Input) 1_920 100)
    {| io_ring := ring; io_peer := 1000%nat; io_read := []; io_out := [] |}
    (λ bytes i, bytes = 100 * 1_920 ∧ bytes = Z.of_nat (length (io_read i)) ∧ io_out i = io_read i ∧
       ring_rep 8 (stride_of 1_920) 1_920 (sh_mem (io_ring i)) 100 100 [])
    (λ e _, outside_error (R := nat) e).
Proof.
  destruct (sim_create 8 1_920) as [ring|?|?|?] eqn:Hr; [|vm_compute in Hr; discriminate..].
  exists ring. split; [reflexivity|].
  apply (capture_never_overruns music_pcm 1_920 (quick_args Input) ring 1000%nat);
    [reflexivity|reflexivity|lia|apply counter_eventfd_signals| |cbn; lia].
  unfold sim_create in Hr. destruct (fresh_ring 8 1_920) as [mem|?|?|?]; try discriminate Hr.
  cbn in Hr. injection Hr as <-. reflexivity.
Defined.

Definition is_stop (x : call) : bool :=
  match x with CUnit HostStopAudioRequest _ | CUnit PeerStopAudioRequest _ => true | _ => false end.

(** In duplex mode a connection that breaks ends [main] with an error while
    both directions are still running: the early return skips [stop]. *)
Theorem duplex_failure_leaves_directions_running :
  let '(r, c) := run id 0%nat 0%nat sim_create (Ok tt) (quick_args Duplex)
                   (sim_client (Some upstream_properties) true) in
  is_err r = true ∧ running (cl_log c) = (true, true) ∧ forallb (λ x, negb (is_stop x)) (cl_log c) = true.
Proof. vm_compute. auto. Qed.

(** A duration whose microseconds do not fit a [u64] is accepted by the command
    line and panics in the exchange, after the direction was started. *)
Theorem le_huge_duration_leaves_direction_running :
  let args := {| adapter := 0; group_id := 1; seconds := 2 ^ 62; frequency_hz := f64_of_Z 440; mode := Output;
                 capture := None |} in
  check_args args = Ok args ∧
  let '(r, c) := run id 200%nat 5%nat sim_create (Ok tt) args (sim_client (Some upstream_properties) true) in
  r = Panic "attempt to multiply with overflow" ∧ running (cl_log c) = (true, false).
Proof. vm_compute. auto. Qed.

Lemma le_session_stops_witness :
  let path := {| fp_owner := with_connection 0; fp_stream := Some 7; fp_directions := INPUT;
                 fp_host_pcm := None; fp_peer_pcm := Some music_pcm; fp_stopped := false |} in
  let c := {| cl_world := cl_world (sim_client None true);
              cl_log := [CBool PeerStartAudioRequest (Some true); CInt GetPeerStreamStarted (Some 1)] |} in
  let stopped c' := running (cl_log c') = (false, false) in
  let '(r, c') := exchange_and_stop id 200%nat 5%nat sim_create (quick_args Input) path c in
  match r with
  | Ok _ => stopped c'
  | Err _ => stopped c' ∨ CProxy false ∈ cl_log c' ∨
      (Input = Duplex ∧ running (cl_log c') = (true, true) ∧ last (cl_log c') = Some CDropWarning)
  | Panic _ | Undef _ => c' = c ∧ (2 ^ 40 < 1 ∨ ¬ short_interval (Some music_pcm))
  end.
Proof.
  intros path c. apply (le_session_stops id 200%nat 5%nat sim_create (quick_args Input) path c);
    [apply bounded_socket_returns|apply counter_eventfd_signals|apply sim_create_creates|cbn; lia|].
  split; [reflexivity|]. split; [by split|]. split; [reflexivity|]. split; [reflexivity|]. split; [by eexists|].
  split; [reflexivity|]. split; [reflexivity|]. by split.
Defined.
End LeSmoke.
