(* ===== verification/DorschePipewire.v ===== *)
(** * The PipeWire bridge ([src/bin/dorsche_pipewire.rs])

    The program that connects an LE Audio stream to a PipeWire node: its command
    line and the session around the pumps, which are in [Pumps]. *)

From stdpp Require Import gmap.
From S2P Require Import Prelude Types Bytes Ring RingSpec Pipewire Float SmokeIo Floss LeSmoke.

Module Bridge.
Import LeSmoke.

Inductive Direction := Source | Sink.

Record Args := {
  adapter : Z;
  group_id : Z;
  direction : Direction;
  node_name : string;
  probe : bool;
}.

(** The variables of [Args::parse]. *)
Record parsing := {
  pa_adapter : Z;
  pa_group_id : Z;
  pa_direction : option Direction;
  pa_node_name : option string;
  pa_probe : bool;
}.

Definition parsing_default : parsing := {|
  pa_adapter := 0; pa_group_id := -1; pa_direction := None; pa_node_name := None; pa_probe := false |}.

Section arguments.
(** [str::parse] for [u32] and [i32]. *)
Context (parse_u32 parse_i32 : string → result Z).

Definition parse_direction (v : string) : result Direction :=
  if bool_decide (v = "source") then Ok Source
  else if bool_decide (v = "sink") then Ok Sink
  else Err ["unknown direction " +:+ v +:+ "; use source or sink"].

Definition parse_step : option_step parsing := λ arg rest a,
  let 'Build_parsing ad gr dir name pr := a in
  if bool_decide (arg = "--adapter") then
    with_value arg rest (λ v, let? n := parse_u32 v in Ok (Build_parsing n gr dir name pr))
  else if bool_decide (arg = "--group") then
    with_value arg rest (λ v, let? n := parse_i32 v in Ok (Build_parsing ad n dir name pr))
  else if bool_decide (arg = "--direction") then
    with_value arg rest (λ v, let? d := parse_direction v in Ok (Build_parsing ad gr (Some d) name pr))
  else if bool_decide (arg = "--node-name") then
    with_value arg rest (λ v, Ok (Build_parsing ad gr dir (Some v) pr))
  else if bool_decide (arg = "--probe") then inl (Ok (Build_parsing ad gr dir name true, rest))
  else if bool_decide (arg = "-h") || bool_decide (arg = "--help") then inr 0
  else inl (Err ["unknown argument: " +:+ arg]).

(** The check and the construction after the loop. *)
Definition finish_args (a : parsing) : result Args :=
  ensure (pa_probe a || (0 <=? pa_group_id a)) "--group is required and must be non-negative" ?;
  let? d := if pa_probe a then Ok Source else ok_or (pa_direction a) "--direction is required" in
  Ok {| adapter := pa_adapter a; group_id := pa_group_id a; direction := d;
        node_name := default "dorsche.le_audio" (pa_node_name a); probe := pa_probe a |}.

Definition parse_args (args : list string) : parse_outcome Args :=
  match parse_loop parse_step Ok (length args) args parsing_default with
  | Parsed a => match finish_args a with
                | Ok args => Parsed args
                | Err e => Rejected e
                | Panic w | Undef w => Rejected [w]
                end
  | Exited code => Exited code
  | Rejected e => Rejected e
  end.
End arguments.

(** ** [main] *)

Section session.
Context {E : Type} `{EventFd E} {P : Type} `{!PipeWire P}.
Context {V : Type} `{!Variant V} {W : Type} `{!Floss (V := V) W}.
Context (create_ring : Z → Z → result (Shared E)).

(** What ends the [select!]: the pump, or Ctrl-C (which may report an error). *)
Inductive ending := PumpEnded (r : result unit) | CtrlC (r : result unit).

Definition ending_result (e : ending) : result unit :=
  match e with PumpEnded r => r | CtrlC r => context r "Ctrl-C handler" end.

(** The program's state: the Floss client and the PipeWire server. *)
Abbreviation state := (client (W := W) * P)%type.

Definition on_client {A} (c : M (client (W := W)) A) : M state A := λ s,
  let '(r, c) := c (fst s) in (r, (c, snd s)).

(** A thread that runs [body]: whatever becomes of it stays in the thread; a
    thread that cannot be started is the [expect]. *)
Definition spawn (spawned : bool) (what : string) (body : M P unit) : M state unit := λ s,
  if spawned then (Ok tt, (fst s, snd (body (snd s)))) else (Panic what, s).

Definition spawn_pipewire_source (spawned : bool) (node_name : string) (pcm : PcmConfiguration) : M state unit :=
  spawn spawned "spawn PipeWire source thread" (run_source node_name pcm).

Definition spawn_pipewire_sink (spawned : bool) (node_name : string) (pcm : PcmConfiguration) : M state unit :=
  spawn spawned "spawn PipeWire sink thread" (run_sink node_name pcm).

(** The configuration and the ring of a direction; every [?] here leaves [main]. *)
Definition open_ring (pcm : option PcmConfiguration) (missing : string)
    : result (PcmConfiguration * Shared E) :=
  let? pcm := ok_or pcm missing in
  let? n := bytes_per_interval pcm in
  let? ring := create_ring 16 (as_unsigned 32 n) in
  Ok (pcm, ring).

(** The two [match args.direction]. *)
Definition directions_of (d : Direction) : FlossLeDirections :=
  match d with Source => INPUT | Sink => OUTPUT end.

Definition open_direction (d : Direction) (path : FlossLeDataPath)
    : result (PcmConfiguration * Shared E) :=
  match d with
  | Source => open_ring (fp_peer_pcm path) "Floss returned no peer PCM config"
  | Sink => open_ring (fp_host_pcm path) "Floss returned no host PCM config"
  end.

(** [main] after the data path was started; [spawned] is whether the PipeWire
    thread could be started. *)
Definition bridge_and_stop (args : Args) (spawned : bool) (e : ending) (path : FlossLeDataPath)
    : M state unit :=
  let '(stream, path) := take_stream path in
  match let? _ := stream in open_direction (direction args) path with
  | Ok opened =>
      (match direction args with
       | Source => spawn_pipewire_source spawned (node_name args) (fst opened)
       | Sink => spawn_pipewire_sink spawned (node_name args) (fst opened)
       end) !;
      let! pump_result := mtry (lift (ending_result e)) in
      let! stop_result := mtry (on_client (stop path)) in
      lift (pump_result ?; stop_result)
  | r => on_client (drop_data_path (fp_stopped path)) !; lift (rbind r (λ _, Ok tt))
  end.

(** The probe. *)
Definition probe_pcm : PcmConfiguration := {|
  pcm_sample_rate_hz := 48_000; pcm_bits_per_sample := 16; pcm_channels := 2;
  pcm_data_interval_us := 10_000 |}.

(** [main] with its arguments. *)
Definition run (connected : result unit) (args : Args) (spawned : bool) (e : ending) : M state unit :=
  if probe args then λ s, let '(r, p) := probe_server probe_pcm (snd s) in (r, (fst s, p))
  else
    let! floss := on_client (lift (system connected (adapter args))) in
    let! path := mcontext (on_client (start_software_unicast floss (group_id args)
                                        (directions_of (direction args))))
                   "start Floss LE Audio for PipeWire" in
    bridge_and_stop args spawned e path.

Definition main (parse_u32 parse_i32 : string → result Z) (connected : result unit) (spawned : bool)
    (e : ending) (argv : list string) : M state unit :=
  match parse_args parse_u32 parse_i32 argv with
  | Parsed args => run connected args spawned e
  | Exited _ => mret tt
  | Rejected err => lift (Err err)
  end.
End session.

(** * Theorems *)

Section session_proofs.
Context {E : Type} `{EventFd E} {P : Type} `{!PipeWire P}.
Context {V : Type} `{!Variant V, !VariantLaws V} {W : Type} `{!Floss (V := V) W, !FlossLaws V W}.
Context (create_ring : Z → Z → result (Shared E)).
Implicit Types (c : client (W := W)).

Lemma wp_on_client {A} (k : M (client (W := W)) A) c (p : P) Q (Er : error → client * P → Prop) :
  wp k c (λ a c', Q a (c', p)) (λ e c', Er e (c', p)) → wp (on_client k) (c, p) Q Er.
Proof. unfold wp, on_client. cbn. by destruct (k c) as [[] ?]. Qed.

Lemma open_direction_defined d path :
  creates_rings create_ring →
  pcm_ready (host_to_peer (directions_of d)) (fp_host_pcm path) →
  pcm_ready (peer_to_host (directions_of d)) (fp_peer_pcm path) →
  defined (open_direction create_ring d path) = true.
Proof.
  intros Hcr Hh Hp.
  assert (∀ o b msg, pcm_ready b o → defined (open_ring create_ring o msg) = true) as Ho.
  { intros [p0|] b msg; cbn; [|done]. intros (_ & _ & _ & Hb). unfold open_ring. cbn [ok_or rbind].
    destruct (bytes_per_interval p0) as [m|?|?|?]; try done. cbn [rbind].
    destruct (Hcr 16 (as_unsigned 32 m)) as [Hd _]; [done|apply in_width_spec, Z.mod_pos_bound; lia|].
    by destruct (create_ring 16 _). }
  unfold open_direction. destruct d; by eapply Ho.
Qed.

(** The last part of [main], with the ring in place and the thread running. *)
Lemma wp_pump_and_stop e path c (p : P) :
  defined (ending_result e) = true →
  running (cl_log c) = (host_to_peer (fp_directions path), peer_to_host (fp_directions path)) →
  wp (let! pump_result := mtry (lift (ending_result e)) in
      let! stop_result := mtry (on_client (stop path)) in
      lift (pump_result ?; stop_result)) (c, p)
    (λ _ '(c', _), running (cl_log c') = (false, false))
    (λ _ '(c', _), running (cl_log c') = (false, false) ∨ CProxy false ∈ cl_log c').
Proof.
  intros He Hrun. apply wp_bind, wp_try, wp_lift; [done|..];
    intros pr _; apply wp_bind, wp_try, wp_on_client;
    (eapply wp_mono; [apply wp_stop|..]; rewrite Hrun; cbn [fst snd]; rewrite !andb_negb_r; cbv beta).
  1,3: intros u c' Hc'; apply wp_lift; try done; auto.
  all: intros er c' Hc'; (apply wp_lift; [done|done|]); intros _ _; naive_solver.
Qed.

(** C40. How the bridge leaves the stream it has started, for every way it ends.
    When it returns success no direction is running.  When it returns an error no
    direction is running either, unless the proxy for the stop could not be
    created, or the ring could not be opened, in which case [main] returns before
    [stop] with the direction running and only the drop warning.  It panics only
    if the PipeWire thread cannot be spawned or the pump itself panics, and then
    nothing was stopped. *)
Theorem bridge_stops_direction args spawned e path c (p : P) :
  creates_rings create_ring →
  unicast_started (with_connection (adapter args)) (directions_of (direction args)) path c →
  let '(r, (c', _)) := bridge_and_stop create_ring args spawned e path (c, p) in
  match r with
  | Ok _ => running (cl_log c') = (false, false)
  | Err _ =>
      running (cl_log c') = (false, false) ∨ CProxy false ∈ cl_log c' ∨
      (is_err (open_direction create_ring (direction args) path) = true ∧
       running (cl_log c') = running (cl_log c) ∧ last (cl_log c') = Some CDropWarning)
  | Panic _ | Undef _ =>
      (spawned = false ∨ defined (ending_result e) = false) ∧
      is_ok (open_direction create_ring (direction args) path) = true ∧ cl_log c' = cl_log c
  end.
Proof.
  intros Hcr (Hrun & _ & _ & Hdir & [st Hst] & Hstop & Hh & Hp). unfold bridge_and_stop, take_stream.
  rewrite Hst. cbn [ok_or]. set (path' := Build_FlossLeDataPath _ _ _ _ _ _). cbn [rbind].
  change (open_direction create_ring (direction args) path')
    with (open_direction create_ring (direction args) path).
  pose proof (open_direction_defined (direction args) path Hcr Hh Hp) as Hdef.
  destruct (open_direction create_ring (direction args) path) as [ring|er|?|?]; try done.
  2:{ unfold mbind, on_client. cbn [fp_stopped path' fst snd]. rewrite Hstop. cbn.
      right. right. by rewrite running_snoc, last_snoc. }
  assert (running (cl_log c) = (host_to_peer (fp_directions path'), peer_to_host (fp_directions path'))) as Hrun'
    by (cbn; by rewrite Hdir).
  destruct spawned; [|destruct (direction args); cbn; auto].
  assert (∃ p', (match direction args with
    | Source => spawn_pipewire_source true (node_name args) (fst ring)
    | Sink => spawn_pipewire_sink true (node_name args) (fst ring) end) (c, p) = (Ok tt, (c, p'))) as [p' Hspawn]
    by (destruct (direction args); by eexists).
  rewrite (mbind_step _ _ _ _ _ Hspawn).
  destruct (defined (ending_result e)) eqn:He.
  - pose proof (wp_pump_and_stop e path' c p' He Hrun') as Hw. unfold wp in Hw.
    destruct (mbind _ _ _) as [ [u|er|?|?] [c' p''] ]; try done. naive_solver.
  - unfold mbind, mtry, lift. destruct (ending_result e); try done; cbn; auto.
Qed.
End session_proofs.

(** ** Witnesses *)

Lemma bridge_stops_direction_witness :
  let args := {| adapter := 0; group_id := 1; direction := Sink; node_name := "n"; probe := false |} in
  let path := {| fp_owner := with_connection 0; fp_stream := Some 7; fp_directions := OUTPUT;
                 fp_host_pcm := Some music_pcm; fp_peer_pcm := None; fp_stopped := false |} in
  let c := {| cl_world := cl_world (sim_client None true);
              cl_log := [CBool HostStartAudioRequest (Some true); CInt GetHostStreamStarted (Some 1)] |} in
  let ops : PipeWire unit := {| pw _ p := (Ok tt, p) |} in
  (* Ctrl-C, and a thread that cannot be spawned *)
  running (cl_log (fst (snd (bridge_and_stop sim_create args true (CtrlC (Ok tt)) path (c, tt))))) = (false, false) ∧
  cl_log (fst (snd (bridge_and_stop sim_create args false (CtrlC (Ok tt)) path (c, tt)))) = cl_log c.
Proof.
  intros args path c ops.
  assert (unicast_started (with_connection 0) OUTPUT path c) as Hs.
  { split; [reflexivity|]. split; [by split|]. split; [reflexivity|]. split; [reflexivity|].
    split; [by eexists|]. split; [reflexivity|]. split; [|reflexivity]. by split. }
  split.
  - pose proof (bridge_stops_direction sim_create args true (CtrlC (Ok tt)) path c tt sim_create_creates Hs) as H.
    assert (is_ok (fst (bridge_and_stop sim_create args true (CtrlC (Ok tt)) path (c, tt))) = true) as Hok
      by (vm_compute; reflexivity).
    destruct (bridge_and_stop sim_create args true (CtrlC (Ok tt)) path (c, tt)) as [ [u|?|?|?] [c' p] ];
      try discriminate Hok. exact H.
  - pose proof (bridge_stops_direction sim_create args false (CtrlC (Ok tt)) path c tt sim_create_creates Hs) as H.
    assert (defined (fst (bridge_and_stop sim_create args false (CtrlC (Ok tt)) path (c, tt))) = false) as Hp
      by (vm_compute; reflexivity).
    destruct (bridge_and_stop sim_create args false (CtrlC (Ok tt)) path (c, tt)) as [ [u|?|?|?] [c' p] ];
      try discriminate Hp; exact (proj2 (proj2 H)).
Defined.

End Bridge.
